(** * Playground: the client simulation core and the leaderboard endpoint

    A shallow embedding of [src/game/PlayerCar.tsx] (the [PlayerController]
    frame loop), [src/game/trackPath.ts] (track queries) and the leaderboard
    routes of the relay server.

    JavaScript numbers are modelled as real numbers: arithmetic is exact and
    there is neither NaN nor rounding.  [Infinity] appears in one place only
    (the running minimum of [getNearestTrackInfo]) and is modelled by
    [None].  Mutable refs become fields of one [World] record that every
    tick function takes and returns; a [TypeError] raised by dereferencing
    [undefined] is modelled by [None]. *)

From Stdlib Require Import Reals Lra Lia List Bool Arith ZArith String Ascii.
Import ListNotations.
Open Scope R_scope.

(** ** JavaScript number comparisons *)

Definition ltb (a b : R) : bool := if Rlt_dec a b then true else false.
Definition leb (a b : R) : bool := if Rle_dec a b then true else false.
Definition gtb (a b : R) : bool := ltb b a.
Definition geb (a b : R) : bool := leb b a.
Definition strictEq (a b : R) : bool := if Req_dec_T a b then true else false.

(** [Math.sign(x || 1)]: zero is replaced by one before the sign is taken. *)
Definition signOr1 (x : R) : R := if Rlt_dec x 0 then -1 else 1.

(** [Math.max(lo, Math.min(hi, x))] *)
Definition clamp (lo hi x : R) : R := Rmax lo (Rmin hi x).

(** [Math.atan2(y, x)], without signed zeros. *)
Definition atan2 (y x : R) : R :=
  if Rlt_dec 0 x then atan (y / x)
  else if Rlt_dec x 0 then
    if Rle_dec 0 y then atan (y / x) + PI else atan (y / x) - PI
  else if Rlt_dec 0 y then PI / 2
  else if Rlt_dec y 0 then - PI / 2
  else 0.

(** ** Vectors *)

Record Vec3 := mkVec3 { vx : R; vy : R; vz : R }.

Definition addScaled (p d : Vec3) (s : R) : Vec3 :=
  mkVec3 (vx p + vx d * s) (vy p + vy d * s) (vz p + vz d * s).

Definition vlength (v : Vec3) : R :=
  sqrt (vx v * vx v + vy v * vy v + vz v * vz v).

(** [Vector3.normalize]: divides by the length, or by 1 when the length is 0. *)
Definition normalize (v : Vec3) : Vec3 :=
  let l := if Req_dec_T (vlength v) 0 then 1 else vlength v in
  mkVec3 (vx v / l) (vy v / l) (vz v / l).

(** Writing index [i] of an array that is long enough. *)
Fixpoint setNth {A : Type} (i : nat) (a : A) (l : list A) : list A :=
  match l, i with
  | [], _ => []
  | _ :: t, O => a :: t
  | h :: t, S j => h :: setNth j a t
  end.

(** ** Track queries ([trackPath.ts]) *)

Module Track.

(** The constants of [trackPath.ts], and what it takes from the spline
    library: the pre-sampled curve points and the start transform.  The two
    versions of the file in the repository differ only in these values. *)
Record Config := mkConfig {
  TRACK_WIDTH : R;
  TOTAL_LAPS : nat;
  NUM_CHECKPOINTS : nat;
  TRACK_SAMPLES : nat;
  sampledPoints : list Vec3;
  startPosition : Vec3;
  startRotation : R
}.

Record NearestInfo := mkNearest {
  n_point : Vec3;
  n_t : R;
  n_distance : option R       (* None is Infinity *)
}.

Section Queries.
Variable cfg : Config.

(** The scan loop: [minDist] starts at [Infinity], [nearestIdx] at 0.  With
    no sample at all [sampledPoints[0]] is [undefined]; the distance is then
    [Infinity] and no caller reads the point, so [getNearestTrackInfo] gives
    the origin for it. *)
Fixpoint scanSamples (px pz : R) (pts : list Vec3) (i : nat)
         (minDist : option R) (nearestIdx : nat) : option R * nat :=
  match pts with
  | [] => (minDist, nearestIdx)
  | s :: rest =>
      let dx := px - vx s in
      let dz := pz - vz s in
      let d := dx * dx + dz * dz in
      let better := match minDist with None => true | Some m => ltb d m end in
      if better then scanSamples px pz rest (S i) (Some d) i
      else scanSamples px pz rest (S i) minDist nearestIdx
  end.

Definition getNearestTrackInfo (pos : Vec3) : NearestInfo :=
  let '(minDist, nearestIdx) :=
    scanSamples (vx pos) (vz pos) (sampledPoints cfg) 0 None 0 in
  mkNearest (nth nearestIdx (sampledPoints cfg) (mkVec3 0 0 0))
            (INR nearestIdx / INR (TRACK_SAMPLES cfg))
            (option_map sqrt minDist).

(** [distance < bound], false for [Infinity]. *)
Definition distLt (d : option R) (bound : R) : bool :=
  match d with Some v => ltb v bound | None => false end.

Definition isOnTrack (pos : Vec3) : bool :=
  distLt (n_distance (getNearestTrackInfo pos)) (TRACK_WIDTH cfg / 2).

Definition getTrackElevation (pos : Vec3) : R :=
  let info := getNearestTrackInfo pos in
  if distLt (n_distance info) (TRACK_WIDTH cfg) then vy (n_point info) else 0.

(** The loop of [getCheckpointTs], counting [i] upwards. *)
Fixpoint checkpointLoop (n i : nat) : list R :=
  match n with
  | O => []
  | S n' => (INR i + 1) / (INR (NUM_CHECKPOINTS cfg) + 1) :: checkpointLoop n' (S i)
  end.

Definition getCheckpointTs : list R :=
  checkpointLoop (NUM_CHECKPOINTS cfg) 0.

End Queries.

(** [src/game/trackPath.ts]: 18 wide, 3 laps, 4 checkpoints, 500 samples. *)
Definition configA (samples : list Vec3) (p : Vec3) (r : R) : Config :=
  mkConfig 18 3 4 500 samples p r.

(** The later version of the file, which adds [getTrackElevation]:
    16 wide, 2 laps, 8 checkpoints, 1000 samples. *)
Definition configB (samples : list Vec3) (p : Vec3) (r : R) : Config :=
  mkConfig 16 2 8 1000 samples p r.

End Track.

(** ** Entity model ([PlayerCar.tsx], [types.ts]) *)

Inductive VehicleMode := walking | driving | flying.
Inductive VehicleType := car | airplane.

Record VehicleState := mkVehicle {
  v_id : string;
  v_type : VehicleType;
  v_label : string;
  v_color : string;
  v_pos : Vec3;
  v_rot : R;
  v_speed : R;
  v_pitch : R
}.

Record RemotePlayer := mkRemote {
  rp_id : string;
  rp_position : Vec3;
  rp_rotation : R;
  rp_speed : R;
  rp_mode : VehicleMode;
  rp_vehicleId : option string
}.

Record Bullet := mkBullet {
  b_active : bool;
  b_pos : Vec3;
  b_vel : Vec3;
  b_age : R
}.

Record AerialTarget := mkTarget {
  t_pos : Vec3;
  t_alive : bool;
  t_respawnTimer : R
}.

(** The [race] ref. *)
Record Race := mkRace {
  active : bool;
  lap : nat;
  lapStart : R;
  raceStart : R;
  bestLap : option R;
  checkpoints : list bool;
  started : bool;
  lastT : R;
  finished : bool
}.

Record Keys := mkKeys {
  k_forward : bool;
  k_backward : bool;
  k_left : bool;
  k_right : bool;
  k_space : bool;
  k_shift : bool
}.

Record FrameMouse := mkMouse { m_dx : R; m_dy : R; m_fireDown : bool }.

(** Calls of the two callback props, latest first. *)
Inductive Event :=
| LapComplete (lapTime : R)
| RaceFinish (bestLapTime : option R).

(** The refs of [PlayerController] that the simulation reads or writes.
    Mesh refs, the sync timer and the aim ref only feed rendering. *)
Record World := mkWorld {
  modeRef : VehicleMode;
  charPos : Vec3;
  charRot : R;
  isMovingRef : bool;
  orbitYawRef : R;
  vehicles : list VehicleState;
  activeIdx : option nat;
  nearbyRef : option string;
  race : Race;
  boostMeter : R;
  carVelY : R;
  carOnGround : bool;
  flyYawVel : R;
  flyPitchVel : R;
  planeBankRef : R;
  bullets : list Bullet;
  lastFireTime : R;
  fireLeftRef : bool;
  muzzleTimer : R;
  targets : list AerialTarget;
  events : list Event
}.

(** What one frame receives from outside: the renderer's delta, the key and
    mouse state, whether E went down since the last frame, the clock
    ([performance.now()], milliseconds; every read within one frame gives
    this value), and the two props that the network layer owns. *)
Record FrameInput := mkInput {
  i_delta : R;
  i_keys : Keys;
  i_interact : bool;
  i_mouse : FrameMouse;
  i_now : R;
  i_takenVehicleIds : list string;
  i_remotePlayers : list RemotePlayer
}.

(** *** Field updates *)

Definition withPos (v : VehicleState) (p : Vec3) : VehicleState :=
  mkVehicle (v_id v) (v_type v) (v_label v) (v_color v) p (v_rot v) (v_speed v) (v_pitch v).
Definition withRot (v : VehicleState) (r : R) : VehicleState :=
  mkVehicle (v_id v) (v_type v) (v_label v) (v_color v) (v_pos v) r (v_speed v) (v_pitch v).
Definition withSpeed (v : VehicleState) (s : R) : VehicleState :=
  mkVehicle (v_id v) (v_type v) (v_label v) (v_color v) (v_pos v) (v_rot v) s (v_pitch v).
Definition withPitch (v : VehicleState) (p : R) : VehicleState :=
  mkVehicle (v_id v) (v_type v) (v_label v) (v_color v) (v_pos v) (v_rot v) (v_speed v) p.

Definition setY (p : Vec3) (y : R) : Vec3 := mkVec3 (vx p) y (vz p).

Definition withVehicles (w : World) (vs : list VehicleState) : World :=
  mkWorld (modeRef w) (charPos w) (charRot w) (isMovingRef w) (orbitYawRef w)
    vs (activeIdx w) (nearbyRef w) (race w) (boostMeter w) (carVelY w)
    (carOnGround w) (flyYawVel w) (flyPitchVel w) (planeBankRef w) (bullets w)
    (lastFireTime w) (fireLeftRef w) (muzzleTimer w) (targets w) (events w).

Definition withBullets (w : World) (bs : list Bullet) : World :=
  mkWorld (modeRef w) (charPos w) (charRot w) (isMovingRef w) (orbitYawRef w)
    (vehicles w) (activeIdx w) (nearbyRef w) (race w) (boostMeter w) (carVelY w)
    (carOnGround w) (flyYawVel w) (flyPitchVel w) (planeBankRef w) bs
    (lastFireTime w) (fireLeftRef w) (muzzleTimer w) (targets w) (events w).

Definition withTargets (w : World) (ts : list AerialTarget) : World :=
  mkWorld (modeRef w) (charPos w) (charRot w) (isMovingRef w) (orbitYawRef w)
    (vehicles w) (activeIdx w) (nearbyRef w) (race w) (boostMeter w) (carVelY w)
    (carOnGround w) (flyYawVel w) (flyPitchVel w) (planeBankRef w) (bullets w)
    (lastFireTime w) (fireLeftRef w) (muzzleTimer w) ts (events w).

Definition withMuzzleTimer (w : World) (m : R) : World :=
  mkWorld (modeRef w) (charPos w) (charRot w) (isMovingRef w) (orbitYawRef w)
    (vehicles w) (activeIdx w) (nearbyRef w) (race w) (boostMeter w) (carVelY w)
    (carOnGround w) (flyYawVel w) (flyPitchVel w) (planeBankRef w) (bullets w)
    (lastFireTime w) (fireLeftRef w) m (targets w) (events w).

Definition withLastFireTime (w : World) (t : R) : World :=
  mkWorld (modeRef w) (charPos w) (charRot w) (isMovingRef w) (orbitYawRef w)
    (vehicles w) (activeIdx w) (nearbyRef w) (race w) (boostMeter w) (carVelY w)
    (carOnGround w) (flyYawVel w) (flyPitchVel w) (planeBankRef w) (bullets w)
    t (fireLeftRef w) (muzzleTimer w) (targets w) (events w).

(** The vehicle the player sits in: [vehicles.current[activeIdx.current!]],
    [None] where JavaScript gives [undefined]. *)
Definition activeVehicle (w : World) : option VehicleState :=
  match activeIdx w with
  | Some i => nth_error (vehicles w) i
  | None => None
  end.

(** ** Physics constants *)

Definition WALK_speed : R := 8.
Definition WALK_runSpeed : R := 16.

Definition DRIVE_maxSpeed : R := 90.
Definition DRIVE_acceleration : R := 40.
Definition DRIVE_braking : R := 55.
Definition DRIVE_reverseMax : R := 18.
Definition DRIVE_friction : R := 0.985.
Definition DRIVE_turnSpeed : R := 2.2.
Definition DRIVE_grassFriction : R := 0.978.
Definition DRIVE_grassMaxSpeed : R := 65.

Definition FLY_maxSpeed : R := 120.
Definition FLY_acceleration : R := 28.
Definition FLY_brake : R := 22.
Definition FLY_drag : R := 0.992.
Definition FLY_climbRate : R := 25.
Definition FLY_gravity : R := 10.
Definition FLY_minFlySpeed : R := 20.
Definition FLY_maxAltitude : R := 250.
Definition FLY_groundY : R := 1.5.

Definition MAX_BULLETS : nat := 30.
Definition BULLET_SPEED : R := 280.
Definition BULLET_LIFETIME : R := 2.5.
Definition FIRE_COOLDOWN : R := 0.09.

Definition CAR_COLLISION_RADIUS : R := 1.2.
Definition PLANE_COLLISION_RADIUS : R := 2.0.
Definition COLLISION_BOUNCE : R := 0.6.

Definition RAMP_x : R := 130.
Definition RAMP_z : R := 200.
Definition RAMP_width : R := 14.
Definition RAMP_length : R := 20.
Definition RAMP_height : R := 3.5.
Definition RAMP_rotation : R := PI / 2.

Definition MAX_STEP_UP : R := 0.6.
Definition TARGET_HIT_RADIUS : R := 4.
Definition TARGET_HIT_RADIUS_SQ : R := TARGET_HIT_RADIUS * TARGET_HIT_RADIUS.
Definition TARGET_RESPAWN_TIME : R := 3.
Definition INTERACT_RADIUS_SQ : R := 6 * 6.

(** ** Arithmetic of the runtime *)

(** JavaScript numbers are binary64 and every operation rounds its result.
    The development computes with real numbers, which leaves the rounding
    out.  One value is counted down frame after frame and tested against
    zero, so that the frame at which the test turns depends on the rounding
    of each subtraction: the respawn timer of a target.  Its subtraction is
    kept as the one of the runtime: [numSub a b] is [a - b] as the runtime
    rounds it. *)
Class Runtime := { numSub : R -> R -> R }.

(** The arithmetic that does not round. *)
#[export] Instance exactArith : Runtime := {| numSub := Rminus |}.

(** An arithmetic that rounds to the nearest multiple of 2^-51, the spacing
    of the doubles between 2 and 4. *)
Definition GRID : R := 2251799813685248.

Definition gridArith : Runtime :=
  {| numSub := fun a b => IZR (up ((a - b) * GRID - / 2)) / GRID |}.

(** ** The frame loop of [PlayerController] *)

Module Game.
Section Controller.
Variable cfg : Track.Config.
Context {rt : Runtime}.

(** *** Ground height: track elevation and the ramp *)

Definition getGroundHeight (x z : R) : R :=
  let trackY := Track.getTrackElevation cfg (mkVec3 x 0 z) in
  let lx := x - RAMP_x in
  let lz := z - RAMP_z in
  let cosR := cos RAMP_rotation in
  let sinR := sin RAMP_rotation in
  let rx := lx * cosR - lz * sinR in
  let rz := lx * sinR + lz * cosR in
  let halfW := RAMP_width / 2 in
  let halfL := RAMP_length / 2 in
  let rampY :=
    if geb rx (- halfW) && leb rx halfW && geb rz (- halfL) && leb rz halfL
    then (rz + halfL) / RAMP_length * RAMP_height
    else 0 in
  Rmax trackY rampY.

(** *** Lap and checkpoint timer *)

(** [getCheckpointTs().map(() => false)] *)
Definition freshCheckpoints : list bool :=
  map (fun _ => false) (Track.getCheckpointTs cfg).

(** The checkpoint loop.  [r.checkpoints] has one flag per checkpoint
    wherever it is assigned, so both arrays are walked together. *)
Fixpoint markCheckpoints (prevT currT : R) (cpTs : list R) (cps : list bool)
  : list bool :=
  match cpTs, cps with
  | cp :: cpTs', c :: cps' =>
      (if negb c && ltb prevT cp && geb currT cp then true else c)
        :: markCheckpoints prevT currT cpTs' cps'
  | _, _ => cps
  end.

(** The lap the driver just closed: the block under
    [prevT > 0.85 && currT < 0.15 && r.checkpoints.every(Boolean)]. *)
Definition completeLap (now : R) (r : Race) (ev : list Event)
  : Race * list Event :=
  let lapTime := now - lapStart r in
  let lap' := S (lap r) in
  let best' :=
    match bestLap r with
    | None => Some lapTime
    | Some b => if ltb lapTime b then Some lapTime else Some b
    end in
  let ev1 := LapComplete lapTime :: ev in
  let fin := Nat.leb (Track.TOTAL_LAPS cfg) lap' in
  (mkRace (active r) lap' now (raceStart r) best' freshCheckpoints
          (started r) (lastT r) (if fin then true else finished r),
   if fin then RaceFinish best' :: ev1 else ev1).

(** The body of the lap tracker once the distance gate has passed, for the
    stored parameter [prevT = r.lastT] and the current parameter [currT]. *)
Definition lapUpdate (now currT : R) (r : Race) (ev : list Event)
  : Race * list Event :=
  let prevT := lastT r in
  let started1 := if negb (started r) && gtb currT 0.05 then true else started r in
  let '(r2, ev2) :=
    if started1 then
      let tDelta := currT - prevT in
      let cps1 :=
        if gtb tDelta 0 && ltb tDelta 0.5
        then markCheckpoints prevT currT (Track.getCheckpointTs cfg) (checkpoints r)
        else checkpoints r in
      let r1 := mkRace (active r) (lap r) (lapStart r) (raceStart r) (bestLap r)
                       cps1 started1 (lastT r) (finished r) in
      if gtb prevT 0.85 && ltb currT 0.15 && forallb (fun c => c) cps1
      then completeLap now r1 ev
      else (r1, ev)
    else (r, ev) in
  (mkRace (active r2) (lap r2) (lapStart r2) (raceStart r2) (bestLap r2)
          (checkpoints r2) (started r2) currT (finished r2), ev2).

(** The lap tracking block of [tickDriving]; [pos3] is the vector built
    from the vehicle position before the step moves it. *)
Definition lapTracking (now : R) (pos3 : Vec3) (r : Race) (ev : list Event)
  : Race * list Event :=
  let nearest := Track.getNearestTrackInfo cfg pos3 in
  if Track.distLt (Track.n_distance nearest) (Track.TRACK_WIDTH cfg * 1.2)
  then lapUpdate now (Track.n_t nearest) r ev
  else (r, ev).

(** [r.checkpoints.every(Boolean)] *)
Definition allPassed (r : Race) : bool := forallb (fun c => c) (checkpoints r).

(** What holds of the race record of every session: one flag per checkpoint,
    and no flag set before the session has started counting. *)
Definition raceInv (r : Race) : Prop :=
  List.length (checkpoints r) = Track.NUM_CHECKPOINTS cfg /\
  (started r = false -> checkpoints r = freshCheckpoints).

(** *** Leaving a vehicle *)

Definition exitVehicle (w : World) : option World :=
  match activeIdx w with
  | None => None
  | Some i =>
    match nth_error (vehicles w) i with
    | None => None
    | Some v =>
      let exitX := vx (v_pos v) + - cos (v_rot v) * 4 in
      let exitZ := vz (v_pos v) + sin (v_rot v) * 4 in
      let v' := withPos (withSpeed v 0)
                  (setY (v_pos v) (getGroundHeight (vx (v_pos v)) (vz (v_pos v)))) in
      let r := race w in
      Some (mkWorld walking
              (mkVec3 exitX (getGroundHeight exitX exitZ) exitZ) (v_rot v)
              (isMovingRef w) (orbitYawRef w)
              (setNth i v' (vehicles w)) None (nearbyRef w)
              (mkRace false (lap r) (lapStart r) (raceStart r) (bestLap r)
                      (checkpoints r) (started r) (lastT r) (finished r))
              (boostMeter w) 0 true (flyYawVel w) (flyPitchVel w) 0
              (bullets w) (lastFireTime w) (fireLeftRef w) (muzzleTimer w)
              (targets w) (events w))
    end
  end.

(** *** Driving *)

Definition driveMaxSpeed (onRoad boosting : bool) : R :=
  (if onRoad then DRIVE_maxSpeed else DRIVE_grassMaxSpeed)
  * (if boosting then 1.5 else 1).

(** Throttle, brake, friction, clamp and dead zone. *)
Definition driveSpeed (dt : R) (k : Keys) (onRoad boosting : bool) (s : R) : R :=
  let boostAccelMult := if boosting then 1.8 else 1 in
  let fric := if onRoad then DRIVE_friction else DRIVE_grassFriction in
  let s1 := if k_forward k then s + DRIVE_acceleration * boostAccelMult * dt else s in
  let s2 :=
    if k_backward k then
      if gtb s1 0 then s1 - DRIVE_braking * dt
      else s1 - DRIVE_acceleration * 0.5 * dt
    else s1 in
  let s3 := s2 * fric in
  let s4 := clamp (- DRIVE_reverseMax) (driveMaxSpeed onRoad boosting) s3 in
  if ltb (Rabs s4) 0.15 && negb (k_forward k) && negb (k_backward k) then 0 else s4.

Definition driveSteer (dt : R) (k : Keys) (v : VehicleState) : VehicleState :=
  let turn := (if k_left k then 1 else 0) - (if k_right k then 1 else 0) in
  let sf := Rmin (Rabs (v_speed v) / 8) 1 in
  withRot v (v_rot v + turn * DRIVE_turnSpeed * sf * dt * signOr1 (v_speed v)).

Definition driveMove (dt : R) (v : VehicleState) : VehicleState :=
  withPos v (mkVec3 (vx (v_pos v) + sin (v_rot v) * v_speed v * dt)
                    (vy (v_pos v))
                    (vz (v_pos v) + cos (v_rot v) * v_speed v * dt)).

(** Ramp, jump and gravity; gives the vehicle, [carVelY], [carOnGround]. *)
Definition driveVertical (dt : R) (k : Keys) (v : VehicleState)
           (velY : R) (onGround : bool) : VehicleState * R * bool :=
  let groundLevel := getGroundHeight (vx (v_pos v)) (vz (v_pos v)) in
  if onGround then
    let prevY := vy (v_pos v) in
    let heightDiff := groundLevel - prevY in
    let '(v1, velY1, og1) :=
      if gtb heightDiff MAX_STEP_UP then
        (withSpeed
           (withPos v (mkVec3 (vx (v_pos v) - sin (v_rot v) * v_speed v * dt)
                              (vy (v_pos v))
                              (vz (v_pos v) - cos (v_rot v) * v_speed v * dt)))
           (v_speed v * -0.3), velY, true)
      else if geb groundLevel (prevY - 0.3) then
        (withPos v (setY (v_pos v) groundLevel), heightDiff / Rmax dt 0.001, true)
      else (v, velY, false) in
    if k_space k && og1 then (v1, velY1 + 14, false) else (v1, velY1, og1)
  else
    let velY1 := velY - 40 * dt in
    let y1 := vy (v_pos v) + velY1 * dt in
    if leb y1 groundLevel
    then (withPos v (setY (v_pos v) groundLevel), 0, true)
    else (withPos v (setY (v_pos v) y1), velY1, false).

Definition tickDriving (now dt : R) (k : Keys) (justE : bool) (w : World)
  : option World :=
  if justE then exitVehicle w
  else if finished (race w) then Some w
  else
    match activeIdx w with
    | None => None
    | Some i =>
      match nth_error (vehicles w) i with
      | None => None
      | Some v =>
        let boosting := k_shift k && gtb (boostMeter w) 0 && k_forward k in
        let boost' :=
          if boosting then Rmax 0 (boostMeter w - 30 * dt)
          else Rmin 100 (boostMeter w + 12 * dt) in
        let pos3 := mkVec3 (vx (v_pos v)) 0 (vz (v_pos v)) in
        let onRoad := Track.isOnTrack cfg pos3 in
        let v1 := withSpeed v (driveSpeed dt k onRoad boosting (v_speed v)) in
        let v2 := driveMove dt (driveSteer dt k v1) in
        let '(v3, velY', onGround') :=
          driveVertical dt k v2 (carVelY w) (carOnGround w) in
        let '(r', ev') := lapTracking now pos3 (race w) (events w) in
        Some (mkWorld (modeRef w) (charPos w) (charRot w) (isMovingRef w)
                (orbitYawRef w) (setNth i v3 (vehicles w)) (activeIdx w)
                (nearbyRef w) r' boost' velY' onGround'
                (flyYawVel w) (flyPitchVel w) (planeBankRef w)
                (bullets w) (lastFireTime w) (fireLeftRef w) (muzzleTimer w)
                (targets w) ev')
      end
    end.

(** A run of driving steps in none of which E was pressed. *)
Fixpoint driveOn (steps : list (R * R * Keys)) (w : World) : option World :=
  match steps with
  | [] => Some w
  | (now, dt, k) :: rest =>
      match tickDriving now dt k false w with
      | Some w' => driveOn rest w'
      | None => None
      end
  end.

(** *** Flying *)

Definition flySpeed (dt : R) (k : Keys) (s : R) : R :=
  let s1 := if k_forward k then s + FLY_acceleration * dt else s in
  let s2 := if k_backward k then s1 - FLY_brake * dt else s1 in
  clamp 0 FLY_maxSpeed (s2 * FLY_drag).

Definition tickFlying (dt : R) (k : Keys) (justE : bool) (mouse : FrameMouse)
           (w : World) : option World :=
  match activeIdx w with
  | None => None
  | Some i =>
    match nth_error (vehicles w) i with
    | None => None
    | Some v =>
      if justE && leb (vy (v_pos v)) (FLY_groundY + 1) then
        let v' := withPitch (withPos (withSpeed v 0) (setY (v_pos v) FLY_groundY)) 0 in
        exitVehicle
          (mkWorld (modeRef w) (charPos w) (charRot w) (isMovingRef w)
             (orbitYawRef w) (setNth i v' (vehicles w)) (activeIdx w)
             (nearbyRef w) (race w) (boostMeter w) (carVelY w) (carOnGround w)
             0 0 (planeBankRef w) (bullets w) (lastFireTime w) (fireLeftRef w)
             (muzzleTimer w) (targets w) (events w))
      else
        let s := flySpeed dt k (v_speed v) in
        let yawVel := (flyYawVel w + - m_dx mouse * 0.002) * (1 - 5 * dt) in
        let rot := v_rot v + yawVel * dt in
        let pitchVel := (flyPitchVel w + m_dy mouse * 0.0015) * (1 - 4 * dt) in
        let pitch := clamp (-0.7) 0.7 (v_pitch v + pitchVel * dt) * (1 - 0.2 * dt) in
        let a1 := if geb s (FLY_minFlySpeed * 0.5) then s * sin (- pitch) * 0.5 else 0 in
        let a2 := if k_space k then a1 + FLY_climbRate else a1 in
        let a3 := if k_shift k then a2 - FLY_climbRate else a2 in
        let altDelta :=
          if gtb (vy (v_pos v)) (FLY_groundY + 0.5) && ltb s FLY_minFlySpeed
          then a3 - FLY_gravity else a3 in
        let y := Rmax FLY_groundY (Rmin FLY_maxAltitude (vy (v_pos v) + altDelta * dt)) in
        let p := mkVec3 (vx (v_pos v) + sin rot * s * dt) y
                        (vz (v_pos v) + cos rot * s * dt) in
        let v' := mkVehicle (v_id v) (v_type v) (v_label v) (v_color v) p rot s pitch in
        Some (mkWorld (modeRef w) (charPos w) (charRot w) (isMovingRef w)
                (orbitYawRef w) (setNth i v' (vehicles w)) (activeIdx w)
                (nearbyRef w) (race w) (boostMeter w) (carVelY w) (carOnGround w)
                yawVel pitchVel (yawVel * 2.0) (bullets w) (lastFireTime w)
                (fireLeftRef w) (muzzleTimer w) (targets w) (events w))
    end
  end.

(** *** Walking *)

(** [while (diff > Math.PI) diff -= Math.PI * 2], at most [fuel] rounds. *)
Fixpoint wrapDown (fuel : nat) (diff : R) : R :=
  match fuel with
  | O => diff
  | S f => if gtb diff PI then wrapDown f (diff - PI * 2) else diff
  end.

(** [while (diff < -Math.PI) diff += Math.PI * 2], at most [fuel] rounds. *)
Fixpoint wrapUp (fuel : nat) (diff : R) : R :=
  match fuel with
  | O => diff
  | S f => if ltb diff (- PI) then wrapUp f (diff + PI * 2) else diff
  end.

(** Both loops with as many rounds as a difference of this size can take. *)
Definition wrapDiff (diff : R) : R :=
  let fuel := S (Z.to_nat (up (Rabs diff / (2 * PI)))) in
  wrapUp fuel (wrapDown fuel diff).

(** The proximity scan: the nearest vehicle inside the interaction radius
    that no remote player has taken. *)
Fixpoint scanNearby (px pz : R) (taken : list string) (vs : list VehicleState)
         (bestDist : R) (nearby : option string) : option string :=
  match vs with
  | [] => nearby
  | v :: rest =>
      if existsb (String.eqb (v_id v)) taken
      then scanNearby px pz taken rest bestDist nearby
      else
        let vdx := px - vx (v_pos v) in
        let vdz := pz - vz (v_pos v) in
        let d2 := vdx * vdx + vdz * vdz in
        if ltb d2 bestDist
        then scanNearby px pz taken rest d2 (Some (v_id v))
        else scanNearby px pz taken rest bestDist nearby
  end.

(** [vehicles.findIndex(v => v.id === id)], counting from [i]. *)
Fixpoint findVehicle (id : string) (vs : list VehicleState) (i : nat)
  : option (nat * VehicleState) :=
  match vs with
  | [] => None
  | v :: rest => if String.eqb (v_id v) id then Some (i, v)
                 else findVehicle id rest (S i)
  end.

Definition freshRace (now : R) : Race :=
  mkRace true 0 now now None freshCheckpoints false 0 false.

Definition tickWalking (now dt : R) (k : Keys) (justE : bool)
           (taken : list string) (w : World) : World :=
  let baseSpeed := if k_shift k then WALK_runSpeed else WALK_speed in
  let camYaw := charRot w + orbitYawRef w in
  let mx1 := if k_forward k then sin camYaw else 0 in
  let mz1 := if k_forward k then cos camYaw else 0 in
  let mx2 := if k_backward k then mx1 - sin camYaw * 0.4 else mx1 in
  let mz2 := if k_backward k then mz1 - cos camYaw * 0.4 else mz1 in
  let mx3 := if k_left k then mx2 + sin (camYaw + PI / 2) else mx2 in
  let mz3 := if k_left k then mz2 + cos (camYaw + PI / 2) else mz2 in
  let moveX := if k_right k then mx3 + sin (camYaw - PI / 2) else mx3 in
  let moveZ := if k_right k then mz3 + cos (camYaw - PI / 2) else mz3 in
  let moveLen := sqrt (moveX * moveX + moveZ * moveZ) in
  let moving := gtb moveLen 0.001 in
  let '(p1, rot1, orbit1) :=
    if moving then
      let nx := moveX / moveLen * baseSpeed in
      let nz := moveZ / moveLen * baseSpeed in
      let targetRot := atan2 (moveX / moveLen) (moveZ / moveLen) in
      let diff := wrapDiff (targetRot - charRot w) in
      let rot := charRot w + diff * Rmin 1 (12 * dt) in
      let rotDelta := rot - charRot w in
      let o1 := orbitYawRef w - rotDelta in
      let o2 := if gtb o1 PI then o1 - PI * 2 else o1 in
      let o3 := if ltb o2 (- PI) then o2 + PI * 2 else o2 in
      (mkVec3 (vx (charPos w) + nx * dt) (vy (charPos w)) (vz (charPos w) + nz * dt),
       rot, o3)
    else (charPos w, charRot w, orbitYawRef w) in
  let walkRampH := getGroundHeight (vx p1) (vz p1) in
  let p2 :=
    if gtb (walkRampH - vy p1) MAX_STEP_UP then
      let bx := vx p1 - (if moving then moveX / moveLen else 0) * baseSpeed * dt in
      let bz := vz p1 - (if moving then moveZ / moveLen else 0) * baseSpeed * dt in
      mkVec3 bx (getGroundHeight bx bz) bz
    else setY p1 walkRampH in
  let nearby := scanNearby (vx p2) (vz p2) taken (vehicles w) INTERACT_RADIUS_SQ None in
  let entered :=
    match nearby with
    | Some id =>
        if justE && negb (String.eqb id EmptyString)
        then findVehicle id (vehicles w) 0 else None
    | None => None
    end in
  match entered with
  | Some (idx, v) =>
      mkWorld (match v_type v with car => driving | airplane => flying end)
        p2 rot1 moving orbit1 (vehicles w) (Some idx) None
        (match v_type v with car => freshRace now | airplane => race w end)
        (boostMeter w) (carVelY w) (carOnGround w) (flyYawVel w) (flyPitchVel w)
        (planeBankRef w) (bullets w) (lastFireTime w) (fireLeftRef w)
        (muzzleTimer w) (targets w) (events w)
  | None =>
      mkWorld (modeRef w) p2 rot1 moving orbit1 (vehicles w) (activeIdx w) nearby
        (race w) (boostMeter w) (carVelY w) (carOnGround w) (flyYawVel w)
        (flyPitchVel w) (planeBankRef w) (bullets w) (lastFireTime w)
        (fireLeftRef w) (muzzleTimer w) (targets w) (events w)
  end.

(** The walking speed that [syncToReact] reports. *)
Definition reportedWalkSpeed (k : Keys) (w : World) : R :=
  if isMovingRef w then (if k_shift k then WALK_runSpeed else WALK_speed) else 0.

(** *** The rosters a session starts with *)

Definition makeVehicle (id : string) (ty : VehicleType) (label color : string)
           (p : Vec3) : VehicleState :=
  mkVehicle id ty label color p (Track.startRotation cfg) 0 0.

Definition makeVehicles : list VehicleState :=
  let sx := vx (Track.startPosition cfg) in
  let sz := vz (Track.startPosition cfg) in
  let sy := vy (Track.startPosition cfg) - 0.5 in
  [ makeVehicle "car-red" car "Red Racer" "#e63946" (mkVec3 (sx + 12) sy (sz + 10));
    makeVehicle "car-blue" car "Blue Bolt" "#457b9d" (mkVec3 (sx + 12) sy (sz + 16));
    makeVehicle "car-green" car "Green Machine" "#2a9d8f" (mkVec3 (sx + 12) sy (sz + 22));
    makeVehicle "car-orange" car "Orange Fury" "#e76f51" (mkVec3 (sx + 18) sy (sz + 10));
    makeVehicle "plane-blue" airplane "Sky Hawk" "#4488cc" (mkVec3 (sx + 25) FLY_groundY sz);
    makeVehicle "plane-red" airplane "Red Baron" "#cc3333" (mkVec3 (sx + 25) FLY_groundY (sz + 10));
    makeVehicle "plane-gold" airplane "Golden Eagle" "#d4a017" (mkVec3 (sx + 25) FLY_groundY (sz + 20)) ].

Definition makeTargets : list AerialTarget :=
  map (fun p => mkTarget p true 0)
    [ mkVec3 40 50 60; mkVec3 (-60) 70 30; mkVec3 20 40 (-80); mkVec3 (-30) 90 (-40);
      mkVec3 80 60 (-20); mkVec3 (-70) 55 70; mkVec3 0 80 0; mkVec3 50 45 90;
      mkVec3 (-90) 65 (-60); mkVec3 70 100 50 ].

(** *** Weapon *)

Definition makeBulletPool : list Bullet :=
  repeat (mkBullet false (mkVec3 0 0 0) (mkVec3 0 0 0) 0) MAX_BULLETS.

(** [pool.find(p => !p.active)] followed by the writes to the slot found:
    the first inactive slot becomes [nb]; [None] when every slot is active. *)
Fixpoint activateFirst (nb : Bullet) (pool : list Bullet) : option (list Bullet) :=
  match pool with
  | [] => None
  | b :: rest =>
      if negb (b_active b) then Some (nb :: rest)
      else option_map (cons b) (activateFirst nb rest)
  end.

(** The bullet that [fireBullet] writes into the slot. *)
Definition newBullet (v : VehicleState) (fireLeft : bool) : Bullet :=
  let cp := cos (v_pitch v) in
  let sp := sin (v_pitch v) in
  let fwd := normalize (mkVec3 (sin (v_rot v) * cp) (- sp) (cos (v_rot v) * cp)) in
  let right := mkVec3 (cos (v_rot v)) 0 (- sin (v_rot v)) in
  let offset := if fireLeft then -2.8 else 2.8 in
  let pos := addScaled (addScaled (v_pos v) fwd 3.5) right offset in
  let vel0 := mkVec3 (vx fwd * BULLET_SPEED) (vy fwd * BULLET_SPEED) (vz fwd * BULLET_SPEED) in
  let vel := mkVec3 (vx vel0 + sin (v_rot v) * v_speed v * 0.5) (vy vel0)
                    (vz vel0 + cos (v_rot v) * v_speed v * 0.5) in
  mkBullet true pos vel 0.

(** With a full pool the function returns before it touches the vehicle. *)
Definition fireBullet (w : World) : option World :=
  if forallb b_active (bullets w) then Some w
  else
    match activeVehicle w with
    | None => None
    | Some v =>
      match activateFirst (newBullet v (fireLeftRef w)) (bullets w) with
      | None => Some w
      | Some pool' =>
        Some (mkWorld (modeRef w) (charPos w) (charRot w) (isMovingRef w)
                (orbitYawRef w) (vehicles w) (activeIdx w) (nearbyRef w) (race w)
                (boostMeter w) (carVelY w) (carOnGround w) (flyYawVel w)
                (flyPitchVel w) (planeBankRef w) pool' (lastFireTime w)
                (negb (fireLeftRef w)) 0.04 (targets w) (events w))
      end
    end.

Definition hitsTarget (p : Vec3) (t : AerialTarget) : bool :=
  let dx := vx p - vx (t_pos t) in
  let dy := vy p - vy (t_pos t) in
  let dz := vz p - vz (t_pos t) in
  ltb (dx * dx + dy * dy + dz * dz) TARGET_HIT_RADIUS_SQ.

(** The inner loop of [tickBullets]: the first alive target in range is
    destroyed and the loop breaks. *)
Fixpoint hitScan (p : Vec3) (ts : list AerialTarget) : bool * list AerialTarget :=
  match ts with
  | [] => (false, [])
  | t :: rest =>
      if t_alive t && hitsTarget p t
      then (true, mkTarget (t_pos t) false TARGET_RESPAWN_TIME :: rest)
      else let '(hit, rest') := hitScan p rest in (hit, t :: rest')
  end.

Definition tickBullet (dt : R) (b : Bullet) (ts : list AerialTarget)
  : Bullet * list AerialTarget :=
  if negb (b_active b) then (b, ts)
  else
    let age := b_age b + dt in
    if gtb age BULLET_LIFETIME || ltb (vy (b_pos b)) (-1)
    then (mkBullet false (b_pos b) (b_vel b) age, ts)
    else
      let pos := addScaled (b_pos b) (b_vel b) dt in
      let vel := setY (b_vel b) (vy (b_vel b) - 9.8 * dt) in
      let '(hit, ts') := hitScan pos ts in
      (mkBullet (negb hit) pos vel age, ts').

Fixpoint tickBulletsLoop (dt : R) (pool : list Bullet) (ts : list AerialTarget)
  : list Bullet * list AerialTarget :=
  match pool with
  | [] => ([], ts)
  | b :: rest =>
      let '(b', ts1) := tickBullet dt b ts in
      let '(rest', ts2) := tickBulletsLoop dt rest ts1 in
      (b' :: rest', ts2)
  end.

Definition tickBullets (dt : R) (w : World) : World :=
  let '(pool', ts') := tickBulletsLoop dt (bullets w) (targets w) in
  withTargets (withBullets w pool') ts'.

Definition tickMuzzleFlash (dt : R) (w : World) : World :=
  if gtb (muzzleTimer w) 0 then withMuzzleTimer w (muzzleTimer w - dt) else w.

(** How many slots of the pool hold a bullet in flight. *)
Definition activeCount (pool : list Bullet) : nat :=
  List.length (filter b_active pool).

(** *** Targets *)

Definition tickTarget (dt : R) (t : AerialTarget) : AerialTarget :=
  if negb (t_alive t) then
    let timer := numSub (t_respawnTimer t) dt in
    mkTarget (t_pos t) (if leb timer 0 then true else false) timer
  else t.

Definition tickTargets (dt : R) (w : World) : World :=
  withTargets w (map (tickTarget dt) (targets w)).

(** *** Vehicle collisions *)

Definition vehicleRadius (ty : VehicleType) : R :=
  match ty with car => CAR_COLLISION_RADIUS | airplane => PLANE_COLLISION_RADIUS end.

Definition remoteRadius (m : VehicleMode) : R :=
  match m with
  | flying => PLANE_COLLISION_RADIUS
  | driving => CAR_COLLISION_RADIUS
  | walking => 1.0
  end.

(** The helper [resolveCollision]: [me] is the active vehicle, [(ox, oz)]
    the other entity, [pushOther] the position object of a parked vehicle or
    [None] for a remote player.  Gives [me] and [pushOther] afterwards. *)
Definition resolveCollision (me : VehicleState) (ox oz otherRadius : R)
           (pushOther : option Vec3) : VehicleState * option Vec3 :=
  let myRadius := vehicleRadius (v_type me) in
  let minDist := myRadius + otherRadius in
  let dx := vx (v_pos me) - ox in
  let dz := vz (v_pos me) - oz in
  let dist := sqrt (dx * dx + dz * dz) in
  if ltb dist minDist && gtb dist 0.01 then
    let overlap := minDist - dist in
    let nx := dx / dist in
    let nz := dz / dist in
    let share := match pushOther with Some _ => 0.5 | None => 1.0 end in
    let p := mkVec3 (vx (v_pos me) + nx * overlap * share) (vy (v_pos me))
                    (vz (v_pos me) + nz * overlap * share) in
    let dot := sin (v_rot me) * nx + cos (v_rot me) * nz in
    let s := if gtb dot 0 then v_speed me * - COLLISION_BOUNCE else v_speed me in
    (withSpeed (withPos me p) s,
     option_map (fun o => mkVec3 (vx o - nx * overlap * 0.5) (vy o)
                                 (vz o - nz * overlap * 0.5)) pushOther)
  else (me, pushOther).

(** Half the rate at which the squared planar distance between the vehicle
    and the point [(ox, oz)] changes as the vehicle moves along its heading
    at its speed: negative while it drives towards the point, positive while
    it drives away from it. *)
Definition approachRate (me : VehicleState) (ox oz : R) : R :=
  v_speed me * (sin (v_rot me) * (vx (v_pos me) - ox)
                + cos (v_rot me) * (vz (v_pos me) - oz)).

(** The loop over the local roster; [i] is the index of the head of [vs],
    and the slot of the active vehicle is skipped. *)
Fixpoint collideLocal (act i : nat) (me : VehicleState) (vs : list VehicleState)
  : VehicleState * list VehicleState :=
  match vs with
  | [] => (me, [])
  | other :: rest =>
      if Nat.eqb i act then
        let '(me', rest') := collideLocal act (S i) me rest in
        (me', other :: rest')
      else
        let '(me1, po) :=
          resolveCollision me (vx (v_pos other)) (vz (v_pos other))
                           (vehicleRadius (v_type other)) (Some (v_pos other)) in
        let other' := match po with Some p => withPos other p | None => other end in
        let '(me', rest') := collideLocal act (S i) me1 rest in
        (me', other' :: rest')
  end.

Fixpoint collideRemote (me : VehicleState) (rps : list RemotePlayer) : VehicleState :=
  match rps with
  | [] => me
  | rp :: rest =>
      let '(me1, _) :=
        resolveCollision me (vx (rp_position rp)) (vz (rp_position rp))
                         (remoteRadius (rp_mode rp)) None in
      collideRemote me1 rest
  end.

(** [me] aliases its slot of the roster, so what the loops did to it is
    written back to that slot at the end. *)
Definition tickVehicleCollisions (remotePlayers : list RemotePlayer) (w : World)
  : option World :=
  match modeRef w with
  | walking => Some w
  | _ =>
    match activeIdx w with
    | None => Some w
    | Some act =>
      match nth_error (vehicles w) act with
      | None => None
      | Some me =>
        let '(me1, vs1) := collideLocal act 0 me (vehicles w) in
        let me2 := collideRemote me1 remotePlayers in
        Some (withVehicles w (setNth act me2 vs1))
      end
    end
  end.

(** *** One frame *)

Definition frame (inp : FrameInput) (w : World) : option World :=
  let dt := Rmin (i_delta inp) 0.05 in
  let k := i_keys inp in
  let justE := i_interact inp in
  let mode := modeRef w in
  match
    match mode with
    | walking => Some (tickWalking (i_now inp) dt k justE (i_takenVehicleIds inp) w)
    | driving => tickDriving (i_now inp) dt k justE w
    | flying => tickFlying dt k justE (i_mouse inp) w
    end
  with
  | None => None
  | Some w1 =>
    let now := i_now inp / 1000 in
    match
      match mode with
      | flying =>
          if m_fireDown (i_mouse inp) && geb (now - lastFireTime w1) FIRE_COOLDOWN
          then fireBullet (withLastFireTime w1 now)
          else Some w1
      | _ => Some w1
      end
    with
    | None => None
    | Some w2 =>
      tickVehicleCollisions (i_remotePlayers inp)
        (tickTargets dt (tickMuzzleFlash dt (tickBullets dt w2)))
    end
  end.

(** The refs as [PlayerController] creates them. *)
Definition initWorld : World :=
  mkWorld walking
    (mkVec3 (vx (Track.startPosition cfg)) 0 (vz (Track.startPosition cfg) + 12))
    (Track.startRotation cfg) false 0
    makeVehicles None None
    (mkRace false 0 0 0 None [] false 0 false)
    100 0 true 0 0 0
    makeBulletPool 0 true 0 makeTargets [].

(** Simulated time that a list of frames adds up to: the clamped deltas. *)
Fixpoint elapsed (inps : list FrameInput) : R :=
  match inps with
  | [] => 0
  | inp :: rest => Rmin (i_delta inp) 0.05 + elapsed rest
  end.

(** While the player drives, the race record is that of a session. *)
Definition sessionInv (w : World) : Prop :=
  modeRef w = driving -> raceInv (race w).

(** A run of frames; a frame that throws ends the run. *)
Fixpoint run (inps : list FrameInput) (w : World) : option World :=
  match inps with
  | [] => Some w
  | inp :: rest =>
      match frame inp w with
      | Some w' => run rest w'
      | None => None
      end
  end.

End Controller.
End Game.

(** ** Leaderboard routes of the relay server *)

Module Leaderboard.

(** A value of the request body as [express.json()] parses it.  Arrays and
    objects are left out.  A [JNumber] is a finite number: a number written
    beyond the range of a double, such as [1e400], is read as an infinity,
    and such bodies are left out as well. *)
Inductive JValue :=
| JNull
| JBool (b : bool)
| JNumber (x : R)
| JString (s : string).

(** [req.body]; a property that is absent reads as [undefined], here [None]. *)
Record Body := mkBody { body_name : option JValue; body_time : option JValue }.

Record LeaderboardEntry := mkEntry { name : string; time : R; date : string }.

Inductive Response :=
| BadRequest                 (* status 400, { error } *)
| Success (rank : nat).      (* status 200, { success: true, rank } *)

Section Routes.
(** [String(x)] for a number, from the JavaScript runtime. *)
Variable numberToString : R -> string.

(** [!v] is the negation of this. *)
Definition truthy (v : option JValue) : bool :=
  match v with
  | None | Some JNull => false
  | Some (JBool b) => b
  | Some (JNumber x) => negb (strictEq x 0)
  | Some (JString s) => negb (String.eqb s EmptyString)
  end.

(** [String(v)] *)
Definition toString (v : JValue) : string :=
  match v with
  | JNull => "null"
  | JBool true => "true"
  | JBool false => "false"
  | JNumber x => numberToString x
  | JString s => s
  end.

(** [s.slice(0, 20)] *)
Definition slice20 (s : string) : string := String.substring 0 20 s.

(** [entries.sort((a, b) => a.time - b.time)].  The sort of the runtime is
    stable, so it gives what inserting the entries one by one, each behind
    every entry that is not slower, gives. *)
Fixpoint insertByTime (e : LeaderboardEntry) (l : list LeaderboardEntry)
  : list LeaderboardEntry :=
  match l with
  | [] => [e]
  | h :: t => if ltb (time e) (time h) then e :: h :: t else h :: insertByTime e t
  end.

Definition sortByTime (l : list LeaderboardEntry) : list LeaderboardEntry :=
  fold_left (fun acc e => insertByTime e acc) l [].

(** [e.name === name] for the raw [name] of the body. *)
Definition sameName (stored : string) (v : JValue) : bool :=
  match v with
  | JString s => String.eqb stored s
  | _ => false
  end.

(** [trimmed.findIndex(p)], counting from [i]; [None] is -1. *)
Fixpoint findIndex (p : LeaderboardEntry -> bool) (l : list LeaderboardEntry)
         (i : nat) : option nat :=
  match l with
  | [] => None
  | e :: rest => if p e then Some i else findIndex p rest (S i)
  end.

(** [GET /api/leaderboard] on the stored entries. *)
Definition get (store : list LeaderboardEntry) : list LeaderboardEntry :=
  firstn 50 (sortByTime store).

(** [POST /api/leaderboard]: the response and the store afterwards.
    [store] is what [loadLeaderboard] reads, [nowIso] is
    [new Date().toISOString()], and the write of [saveLeaderboard] is taken
    to succeed. *)
Definition post (nowIso : string) (body : Body) (store : list LeaderboardEntry)
  : Response * list LeaderboardEntry :=
  match body_name body, body_time body with
  | Some rawName, Some (JNumber t) =>
      if negb (truthy (Some rawName)) || leb t 0 then (BadRequest, store)
      else
        let entries := store ++ [mkEntry (slice20 (toString rawName)) t nowIso] in
        let trimmed := firstn 200 (sortByTime entries) in
        let rank :=
          match findIndex (fun e => strictEq (time e) t && sameName (name e) rawName)
                          trimmed 0 with
          | Some i => S i
          | None => 0%nat
          end in
        (Success rank, trimmed)
  | _, _ => (BadRequest, store)
  end.

End Routes.
End Leaderboard.

(** ** Sample configurations and states *)

(** The track of [src/game/trackPath.ts] with two sample points standing in
    for the spline: one at the origin, one a hundred units east. *)
Definition trackA : Track.Config :=
  Track.configA [mkVec3 100 0 0; mkVec3 0 0 0] (mkVec3 0 0 0) 0.

(** A lap with every checkpoint passed, stored parameter 0.9. *)
Definition raceAllPassed : Race :=
  mkRace true 0 0 0 None [true; true; true; true] true 0.9 false.

(** The same lap with the third checkpoint missed. *)
Definition raceOneMissed : Race :=
  mkRace true 0 0 0 None [true; true; false; true] true 0.9 false.

(** A driving session on [trackA]: the red car (slot 0 of the roster) is
    the active vehicle, at position [p] with heading [rot] and speed [s]. *)
Definition drivingAt (p : Vec3) (rot s : R) (r : Race) : World :=
  mkWorld driving (mkVec3 0 0 12) 0 false 0
    (setNth 0 (mkVehicle "car-red" car "Red Racer" "#e63946" p rot s 0)
            (Game.makeVehicles trackA))
    (Some 0%nat) None r 100 0 true 0 0 0
    Game.makeBulletPool 0 true 0 Game.makeTargets [].

Definition noKeys : Keys := mkKeys false false false false false false.

(** A session that has reached its lap total. *)
Definition raceFinished : Race :=
  mkRace true 3 180000 0 (Some 59000) [false; false; false; false] true 0.002 true.

Definition allKeys : Keys := mkKeys true true true true true true.

(** A flight on [trackA]: the blue plane (slot 4 of the roster) is the
    active vehicle, at position [p] with heading [rot] and speed [s]; [pool]
    is the bullet pool. *)
Definition flyingAt (p : Vec3) (rot s : R) (pool : list Bullet) : World :=
  mkWorld flying (mkVec3 0 0 12) 0 false 0
    (setNth 4 (mkVehicle "plane-blue" airplane "Sky Hawk" "#4488cc" p rot s 0)
            (Game.makeVehicles trackA))
    (Some 4%nat) None (mkRace false 0 0 0 None [] false 0 false)
    100 0 true 0 0 0 pool 0 true 0 Game.makeTargets [].

(** A pool with every slot in flight. *)
Definition fullPool : list Bullet :=
  repeat (mkBullet true (mkVec3 0 10 0) (mkVec3 0 0 280) 1) MAX_BULLETS.

(** A pool whose first bullet is about to reach the first target, and the
    session on foot that holds it. *)
Definition hitPool : list Bullet :=
  mkBullet true (mkVec3 40 50 50) (mkVec3 0 0 280) 0
  :: repeat (mkBullet false (mkVec3 0 0 0) (mkVec3 0 0 0) 0) 29.

Definition hitWorld : World := withBullets (Game.initWorld trackA) hitPool.

(** A frame of 35 ms with no key down. *)
Definition idle35 : FrameInput :=
  mkInput 0.035 noKeys false (mkMouse 0 0 false) 0 [] [].

(** The red car one unit north of the origin, heading [rot] at speed 10. *)
Definition carNorth (rot : R) : VehicleState :=
  mkVehicle "car-red" car "Red Racer" "#e63946" (mkVec3 0 0 1) rot 10 0.

(** Another player's plane, hovering three units north of (500, 500). *)
Definition remotePlane : RemotePlayer :=
  mkRemote "r1" (mkVec3 500 50 503) 0 0 flying None.

(** Another player on foot, standing at the origin. *)
Definition remoteWalker : RemotePlayer :=
  mkRemote "r2" (mkVec3 0 0 0) 0 0 walking None.

(** A frame of 50 ms with no key down and [remotePlane] in the session. *)
Definition frameNearRemote : FrameInput :=
  mkInput 0.05 noKeys false (mkMouse 0 0 false) 0 [] [remotePlane].

Definition leftKey : Keys := mkKeys false false true false false false.

(** A session on foot on [trackA]: the player stands at [p] with heading
    [rot] and orbit yaw [orbit]; everything else is as [initWorld] has it. *)
Definition onFootAt (p : Vec3) (rot orbit : R) : World :=
  mkWorld walking p rot false orbit
    (Game.makeVehicles trackA) None None
    (mkRace false 0 0 0 None [] false 0 false)
    100 0 true 0 0 0
    Game.makeBulletPool 0 true 0 Game.makeTargets [].

(** The later version of the track file with a sample five units up at the
    origin. *)
Definition trackHill : Track.Config :=
  Track.configB [mkVec3 100 0 0; mkVec3 0 5 0] (mkVec3 0 0 0) 0.

(** The last lap of a session on [trackA], every checkpoint passed. *)
Definition raceLastLap : Race :=
  mkRace true 2 120000 0 (Some 59000) [true; true; true; true] true 0.9 false.

(** Left and shift held: running to the left of the camera. *)
Definition runLeft : Keys := mkKeys false false true false false true.

(** A frame of 50 ms of running left, and a frame of 50 ms in which E is
    pressed at clock reading 5000 with no key held. *)
Definition strafe : FrameInput :=
  mkInput 0.05 runLeft false (mkMouse 0 0 false) 0 [] [].

Definition pressE : FrameInput :=
  mkInput 0.05 noKeys true (mkMouse 0 0 false) 5000 [] [].

(** From where the session starts: eight frames of running left, then E. *)
Definition walkToCar : list FrameInput := repeat strafe 8 ++ [pressE].

(** A driving frame of 35 ms at clock reading 185000, every key held but E;
    and a flying frame of 35 ms at clock reading 1000 with the trigger
    held. *)
Definition fullThrottle : FrameInput :=
  mkInput 0.035 allKeys false (mkMouse 0 0 false) 185000 [] [].

Definition triggerHeld : FrameInput :=
  mkInput 0.035 noKeys false (mkMouse 0 0 true) 1000 [] [].

(** ** Measures used in the statements *)

(** The movement vector of a walking step: the keys held, taken relative to
    [camYaw], the direction the camera looks from. *)
Definition walkVector (k : Keys) (camYaw : R) : R * R :=
  let mx1 := if k_forward k then sin camYaw else 0 in
  let mz1 := if k_forward k then cos camYaw else 0 in
  let mx2 := if k_backward k then mx1 - sin camYaw * 0.4 else mx1 in
  let mz2 := if k_backward k then mz1 - cos camYaw * 0.4 else mz1 in
  let mx3 := if k_left k then mx2 + sin (camYaw + PI / 2) else mx2 in
  let mz3 := if k_left k then mz2 + cos (camYaw + PI / 2) else mz2 in
  (if k_right k then mx3 + sin (camYaw - PI / 2) else mx3,
   if k_right k then mz3 + cos (camYaw - PI / 2) else mz3).

(** Squared planar distance from [(px, pz)] to a point, as the scan loops
    compute it. *)
Definition dist2 (px pz : R) (s : Vec3) : R :=
  (px - vx s) * (px - vx s) + (pz - vz s) * (pz - vz s).

(** The lap times that [onLapComplete] was called with, latest first. *)
Fixpoint lapTimes (ev : list Event) : list R :=
  match ev with
  | [] => []
  | LapComplete t :: rest => t :: lapTimes rest
  | RaceFinish _ :: rest => lapTimes rest
  end.

(** The smallest of a list of times, [None] for no time at all. *)
Fixpoint minTime (l : list R) : option R :=
  match l with
  | [] => None
  | t :: rest =>
      match minTime rest with
      | None => Some t
      | Some b => Some (Rmin t b)
      end
  end.

(** The lap tracker over a run of updates, each with its clock reading and
    its curve parameter. *)
Fixpoint lapRun (cfg : Track.Config) (steps : list (R * R)) (r : Race)
         (ev : list Event) : Race * list Event :=
  match steps with
  | [] => (r, ev)
  | (now, currT) :: rest =>
      let '(r1, ev1) := Game.lapUpdate cfg now currT r ev in
      lapRun cfg rest r1 ev1
  end.

(** The lap count stays within the total, and the session is finished
    exactly when the count has reached it. *)
Definition lapsBounded (cfg : Track.Config) (r : Race) : Prop :=
  (lap r <= Track.TOTAL_LAPS cfg)%nat /\
  (finished r = true <-> (Track.TOTAL_LAPS cfg <= lap r)%nat).

(** The boost meter is a percentage. *)
Definition boostInRange (w : World) : Prop := 0 <= boostMeter w <= 100.

(** Every frame of a run has a delta that is not negative. *)
Definition forwardTime (inps : list FrameInput) : Prop :=
  Forall (fun i => 0 <= i_delta i) inps.

(** What no stage of the frame writes in a roster slot. *)
Definition slotTag (v : VehicleState) : string * VehicleType := (v_id v, v_type v).

Definition rosterOf (w : World) : list (string * VehicleType) :=
  map slotTag (vehicles w).

(** Mode and active slot hang together: on foot there is no active slot, a
    driver's slot holds a car and a pilot's slot holds a plane. *)
Definition modeInv (w : World) : Prop :=
  match modeRef w, activeIdx w with
  | walking, None => True
  | driving, Some i => exists v, nth_error (vehicles w) i = Some v /\ v_type v = car
  | flying, Some i => exists v, nth_error (vehicles w) i = Some v /\ v_type v = airplane
  | _, _ => False
  end.

(** The frame in which a pilot leaves the plane near the ground with the
    trigger held, the cooldown over and a free slot in the pool. *)
Definition firesWhileLeaving (inp : FrameInput) (w : World) : Prop :=
  modeRef w = flying /\ i_interact inp = true /\ m_fireDown (i_mouse inp) = true /\
  (exists v, activeVehicle w = Some v /\ vy (v_pos v) <= FLY_groundY + 1) /\
  FIRE_COOLDOWN <= i_now inp / 1000 - lastFireTime w /\
  forallb b_active (bullets w) = false.

(** No remote player sits in the vehicle: its id is not in the set that
    [Scene] passes as [takenVehicleIds]. *)
Definition untaken (taken : list string) (v : VehicleState) : Prop :=
  existsb (String.eqb (v_id v)) taken = false.

(** The mode a vehicle of this type is entered in. *)
Definition modeOf (ty : VehicleType) : VehicleMode :=
  match ty with car => driving | airplane => flying end.

(** How many targets are alive. *)
Definition aliveCount (ts : list AerialTarget) : nat :=
  List.length (filter t_alive ts).

(** A bullet in flight is younger than its lifetime. *)
Definition inLifetime (b : Bullet) : Prop :=
  b_active b = true -> b_age b <= BULLET_LIFETIME.

(** The frame loop reaches [fireBullet]: the pilot holds the trigger and
    the clock is a cooldown past the last shot. *)
Definition triggerReady (inp : FrameInput) (w : World) : Prop :=
  modeRef w = flying /\ m_fireDown (i_mouse inp) = true /\
  FIRE_COOLDOWN <= i_now inp / 1000 - lastFireTime w.

(** The entries are in ascending order of time. *)
Fixpoint ascending (l : list Leaderboard.LeaderboardEntry) : Prop :=
  match l with
  | [] => True
  | e :: rest =>
      (forall e', In e' rest -> Leaderboard.time e <= Leaderboard.time e') /\
      ascending rest
  end.

(** What the stored board keeps: ascending times, at most 200 entries, names
    of at most 20 characters and positive times. *)
Definition boardOk (l : list Leaderboard.LeaderboardEntry) : Prop :=
  ascending l /\ (List.length l <= 200)%nat /\
  forall e, In e l ->
    (String.length (Leaderboard.name e) <= 20)%nat /\ 0 < Leaderboard.time e.

(** A run of POST requests, each with the clock string of its arrival. *)
Fixpoint serve (numberToString : R -> string)
         (reqs : list (string * Leaderboard.Body))
         (store : list Leaderboard.LeaderboardEntry)
  : list Leaderboard.LeaderboardEntry :=
  match reqs with
  | [] => store
  | (nowIso, body) :: rest =>
      serve numberToString rest
            (snd (Leaderboard.post numberToString nowIso body store))
  end.

(** The speed of a car after a run of driving steps in which nothing but
    [driveSpeed] writes it; every step has its delta, its keys, and says
    whether the car is on the road and whether it is boosting. *)
Fixpoint speedAfter (steps : list (R * Keys * bool * bool)) (s : R) : R :=
  match steps with
  | [] => s
  | (dt, k, onRoad, boosting) :: rest =>
      speedAfter rest (Game.driveSpeed dt k onRoad boosting s)
  end.

(** Neither W nor S is held in the step. *)
Definition noThrottle (step : R * Keys * bool * bool) : Prop :=
  k_forward (snd (fst (fst step))) = false /\
  k_backward (snd (fst (fst step))) = false.

(** The subtraction of the runtime is within [err] of the difference
    wherever the difference is at most 4 in size.  For binary64 rounded to
    nearest this holds with [err] = 2^-52, half the spacing of the doubles
    between 2 and 4. *)
Definition roundsWithin {rt : Runtime} (err : R) : Prop :=
  forall a b, Rabs (a - b) <= 4 -> Rabs (numSub a b - (a - b)) <= err.

(** ** React state and the HUD ([PlayerCar.tsx], [HUD.tsx]) *)

(** [PlayerState] of [types.ts]. *)
Record PlayerState := mkPlayerState {
  ps_mode : VehicleMode;
  ps_position : Vec3;
  ps_rotation : R;
  ps_speed : R;
  ps_altitude : R;
  ps_lap : nat;
  ps_lapTime : R;
  ps_bestLapTime : option R;
  ps_totalTime : R;
  ps_checkpoints : list bool;
  ps_boost : R;
  ps_nearbyVehicle : option string;
  ps_nearbyVehicleLabel : option string;
  ps_vehicleId : option string;
  ps_pitch : R;
  ps_bank : R
}.

(** [vehicles.current.find((v) => v.id === id)?.label ?? null] *)
Fixpoint findLabel (id : string) (vs : list VehicleState) : option string :=
  match vs with
  | [] => None
  | v :: rest => if String.eqb (v_id v) id then Some (v_label v) else findLabel id rest
  end.

(** [syncToReact]: the state handed to [onStateUpdate].  [now] is
    [performance.now()] and [k] the keys held.  In a vehicle mode the
    function reads the position of the active vehicle, and with no such
    vehicle that read throws. *)
Definition syncToReact (now : R) (k : Keys) (w : World) : option PlayerState :=
  let r := race w in
  match
    match modeRef w with
    | walking => Some (charPos w, charRot w, Game.reportedWalkSpeed k w, 0)
    | _ =>
        match activeVehicle w with
        | Some v => Some (v_pos v, v_rot v, v_speed v, vy (v_pos v))
        | None => None
        end
    end
  with
  | None => None
  | Some (pos, rot, speed, alt) =>
    match
      match activeIdx w with
      | Some i =>
          match nth_error (vehicles w) i with
          | Some v => Some (Some (v_id v), v_pitch v)
          | None => None
          end
      | None => Some (None, 0)
      end
    with
    | None => None
    | Some (vehicleId, pitch) =>
      Some (mkPlayerState (modeRef w) pos rot speed alt
              (if active r then lap r else 0%nat)
              (if active r then now - lapStart r else 0)
              (bestLap r)
              (if active r then now - raceStart r else 0)
              (checkpoints r)
              (boostMeter w)
              (nearbyRef w)
              (match nearbyRef w with
               | Some id => if String.eqb id EmptyString then None
                            else findLabel id (vehicles w)
               | None => None
               end)
              vehicleId pitch (planeBankRef w))
    end
  end.

(** The lap number of the mode badge:
    [Math.min(state.lap + 1, TOTAL_LAPS)]. *)
Definition hudLap (cfg : Track.Config) (st : PlayerState) : nat :=
  Nat.min (ps_lap st + 1) (Track.TOTAL_LAPS cfg).

(** The enter prompt is on screen:
    [mode === 'walking' && state.nearbyVehicle]. *)
Definition hudPrompt (st : PlayerState) : bool :=
  match ps_mode st, ps_nearbyVehicle st with
  | walking, Some id => negb (String.eqb id EmptyString)
  | _, _ => false
  end.

(** What the frames keep of a session, taken together. *)
Definition sessionOk (cfg : Track.Config) (w : World) : Prop :=
  modeInv w /\ lapsBounded cfg (race w) /\ boostInRange w /\
  (active (race w) = true <-> modeRef w = driving).

(** ** The relay ([server/index.ts]) and the remote list of [App.tsx] *)

Module Relay.

(** [PlayerInfo] of the server, which is [RemotePlayer] of [types.ts]. *)
Record PlayerInfo := mkPlayer {
  p_id : string;
  p_name : string;
  p_color : string;
  p_position : Vec3;
  p_rotation : R;
  p_speed : R;
  p_mode : VehicleMode;
  p_vehicleId : option string;
  p_pitch : R;
  p_bank : R
}.

(** The payload of an update.  A field read through [||] or [??] may be
    absent or null, here [None]. *)
Record UpdateData := mkUpdate {
  u_position : Vec3;
  u_rotation : R;
  u_speed : R;
  u_mode : option VehicleMode;
  u_vehicleId : option string;
  u_pitch : option R;
  u_bank : option R
}.

Inductive ServerMsg :=
| Players (ps : list PlayerInfo)
| PlayerJoined (p : PlayerInfo)
| PlayerUpdate (id : string) (d : UpdateData)
| PlayerLeft (id : string).

(** [socket.emit], [socket.broadcast.emit] and [io.emit]. *)
Inductive Audience :=
| ToSocket (id : string)
| ToOthers (id : string)
| ToAll.

(** The [players] map, in insertion order. *)
Definition PlayerMap := list (string * PlayerInfo).

(** [players.set(k, v)]: a key that is there keeps its place. *)
Fixpoint mapSet (k : string) (v : PlayerInfo) (m : PlayerMap) : PlayerMap :=
  match m with
  | [] => [(k, v)]
  | (k', v') :: rest =>
      if String.eqb k' k then (k, v) :: rest else (k', v') :: mapSet k v rest
  end.

(** [players.get(k)] *)
Fixpoint mapGet (k : string) (m : PlayerMap) : option PlayerInfo :=
  match m with
  | [] => None
  | (k', v') :: rest => if String.eqb k' k then Some v' else mapGet k rest
  end.

(** [players.delete(k)] *)
Fixpoint mapDelete (k : string) (m : PlayerMap) : PlayerMap :=
  match m with
  | [] => []
  | (k', v') :: rest =>
      if String.eqb k' k then rest else (k', v') :: mapDelete k rest
  end.

(** [Array.from(players.values())] *)
Definition values (m : PlayerMap) : list PlayerInfo := map snd m.

(** [list.filter((p) => p.id !== id)] *)
Definition without (id : string) (ps : list PlayerInfo) : list PlayerInfo :=
  filter (fun p => negb (String.eqb (p_id p) id)) ps.

(** What an update writes over a player: [...p] with the six fields of the
    payload, as the server and the client both do. *)
Definition applyUpdate (d : UpdateData) (p : PlayerInfo) : PlayerInfo :=
  mkPlayer (p_id p) (p_name p) (p_color p)
    (u_position d) (u_rotation d) (u_speed d)
    (match u_mode d with Some m => m | None => walking end)
    (u_vehicleId d)
    (match u_pitch d with Some x => x | None => 0 end)
    (match u_bank d with Some x => x | None => 0 end).

(** *** Server handlers; [sid] is [socket.id] *)

Definition join (sid name color : string) (players : PlayerMap)
  : PlayerMap * list (Audience * ServerMsg) :=
  let player := mkPlayer sid (Leaderboard.slice20 name) color
                         (mkVec3 0 0 0) 0 0 walking None 0 0 in
  let players' := mapSet sid player players in
  let existing := without sid (values players') in
  (players', [(ToSocket sid, Players existing); (ToOthers sid, PlayerJoined player)]).

Definition update (sid : string) (d : UpdateData) (players : PlayerMap)
  : PlayerMap * list (Audience * ServerMsg) :=
  match mapGet sid players with
  | Some player =>
      let player' := applyUpdate d player in
      (mapSet sid player' players,
       [(ToOthers sid,
         PlayerUpdate sid
           (mkUpdate (u_position d) (u_rotation d) (u_speed d)
                     (Some (p_mode player')) (p_vehicleId player')
                     (Some (p_pitch player')) (Some (p_bank player'))))])
  | None => (players, [])
  end.

Definition disconnect (sid : string) (players : PlayerMap)
  : PlayerMap * list (Audience * ServerMsg) :=
  (mapDelete sid players, [(ToAll, PlayerLeft sid)]).

(** *** The handlers of [App.tsx] on [remotePlayers] *)

Definition receive (m : ServerMsg) (prev : list PlayerInfo) : list PlayerInfo :=
  match m with
  | Players ps => ps
  | PlayerJoined p => prev ++ [p]
  | PlayerUpdate id d =>
      map (fun p => if String.eqb (p_id p) id then applyUpdate d p else p) prev
  | PlayerLeft id => without id prev
  end.

(** *** Server and clients together *)

(** The server map and, for every socket that has joined and not left, the
    [remotePlayers] of its client.  Messages arrive at once and in order. *)
Record Net := mkNet {
  server : PlayerMap;
  clients : list (string * list PlayerInfo)
}.

Inductive NetEvent :=
| Join (sid name color : string)
| Update (sid : string) (d : UpdateData)
| Disconnect (sid : string).

Definition hears (a : Audience) (sid : string) : bool :=
  match a with
  | ToSocket id => String.eqb sid id
  | ToOthers id => negb (String.eqb sid id)
  | ToAll => true
  end.

Definition deliver (out : list (Audience * ServerMsg))
           (cs : list (string * list PlayerInfo)) : list (string * list PlayerInfo) :=
  map (fun c =>
         (fst c,
          fold_left (fun view am => if hears (fst am) (fst c)
                                    then receive (snd am) view else view)
                    out (snd c)))
      cs.

Definition netStep (n : Net) (e : NetEvent) : Net :=
  match e with
  | Join sid name color =>
      let '(srv, out) := join sid name color (server n) in
      mkNet srv (deliver out (clients n ++ [(sid, [])]))
  | Update sid d =>
      let '(srv, out) := update sid d (server n) in
      mkNet srv (deliver out (clients n))
  | Disconnect sid =>
      let '(srv, out) := disconnect sid (server n) in
      mkNet srv (deliver out
                   (filter (fun c => negb (String.eqb (fst c) sid)) (clients n)))
  end.

(** Socket ids are not reused: a socket joins once, while it is unknown. *)
Fixpoint freshJoins (n : Net) (evs : list NetEvent) : Prop :=
  match evs with
  | [] => True
  | e :: rest =>
      match e with
      | Join sid _ _ => mapGet sid (server n) = None
      | _ => True
      end /\ freshJoins (netStep n e) rest
  end.

Definition netRun (n : Net) (evs : list NetEvent) : Net := fold_left netStep evs n.

(** Every client sees the players of the server but itself, in the order of
    the server. *)
Definition mirrored (n : Net) : Prop :=
  map fst (clients n) = map fst (server n) /\
  forall sid view, In (sid, view) (clients n) ->
    view = without sid (values (server n)).

End Relay.

(** ** The vehicles that [Scene] reports as taken ([Scene.tsx]) *)

(** [new Set(remotePlayers.map((p) => p.vehicleId).filter(Boolean))] *)
Definition takenVehicleIds (remotePlayers : list RemotePlayer) : list string :=
  flat_map (fun p => match rp_vehicleId p with
                     | Some id => if String.eqb id EmptyString then [] else [id]
                     | None => []
                     end)
           remotePlayers.

(** What the server keeps of its map: one entry per socket, filed under the
    id it carries, with a name of at most 20 characters. *)
Definition wellKeyed (m : Relay.PlayerMap) : Prop :=
  NoDup (map fst m) /\
  forall k p, In (k, p) m ->
    Relay.p_id p = k /\ (String.length (Relay.p_name p) <= 20)%nat.

(** ** Remote players on screen ([RemoteCar.tsx]) *)

(** [Vector3.lerp]: [this.x += (v.x - this.x) * alpha], and so on. *)
Definition lerpV (p target : Vec3) (alpha : R) : Vec3 :=
  mkVec3 (vx p + (vx target - vx p) * alpha)
         (vy p + (vy target - vy p) * alpha)
         (vz p + (vz target - vz p) * alpha).






(** ** The camera ([Scene.tsx]) *)

Definition ORBIT_SENS : R := 0.003.
Definition PITCH_MIN : R := 0.1.
Definition PITCH_MAX : R := 1.35.

(** The refs of [CameraController]; [cam_orbitYaw] is the [orbitYawRef] it
    shares with the player controller. *)
Record CameraRig := mkRig {
  cam_orbitYaw : R;
  cam_orbitPitch : R;
  cam_menuAngle : R;
  cam_smoothPos : Vec3;
  cam_smoothTarget : Vec3
}.

(** The first half of the frame callback: the orbit angles after the
    frame and the point the camera is sent to, [tgtPos], with the point it
    looks at, [tgtLook]. *)
Definition cameraTarget (playing : bool) (s : PlayerState) (mouse : FrameMouse)
           (delta : R) (c : CameraRig) : R * R * R * Vec3 * Vec3 :=
  if negb playing then
    let menu := cam_menuAngle c + delta * 0.15 in
    (cam_orbitYaw c, cam_orbitPitch c, menu,
     mkVec3 (cos menu * 130) 70 (sin menu * 130), mkVec3 0 0 0)
  else
    let center := ps_position s in
    let heading := ps_rotation s in
    match ps_mode s with
    | flying =>
        let dist := 35 in
        let h := 12 + Rmax 0 (ps_altitude s * 0.08) in
        (cam_orbitYaw c * (1 - 3 * delta),
         cam_orbitPitch c + (0.4 - cam_orbitPitch c) * 3 * delta,
         cam_menuAngle c,
         mkVec3 (vx center + - sin heading * dist) (vy center + h)
                (vz center + - cos heading * dist),
         mkVec3 (vx center + 0) (vy center + 2) (vz center + 0))
    | mode =>
        let y1 := cam_orbitYaw c - m_dx mouse * ORBIT_SENS in
        let pitch :=
          Rmax PITCH_MIN (Rmin PITCH_MAX (cam_orbitPitch c + m_dy mouse * ORBIT_SENS)) in
        let springRate := match mode with driving => 2.5 | _ => 1.0 end in
        let y2 := if ltb (Rabs (m_dx mouse)) 1 then y1 * (1 - springRate * delta) else y1 in
        let y3 := if gtb y2 PI then y2 - PI * 2 else y2 in
        let y4 := if ltb y3 (- PI) then y3 + PI * 2 else y3 in
        let dist := match mode with walking => 8 | _ => 18 end in
        let azimuth := heading + y4 in
        let cp := cos pitch in
        let sp := sin pitch in
        (y4, pitch, cam_menuAngle c,
         mkVec3 (vx center - sin azimuth * cp * dist) (vy center + sp * dist)
                (vz center - cos azimuth * cp * dist),
         mkVec3 (vx center + 0)
                (vy center + match mode with walking => 1.5 | _ => 2 end)
                (vz center + 0))
    end.

(** The frame callback: the angles are stored and the smoothed points
    follow their targets. *)
Definition cameraFrame (playing : bool) (s : PlayerState) (mouse : FrameMouse)
           (delta : R) (c : CameraRig) : CameraRig :=
  let '(yaw, pitch, menu, tgtPos, tgtLook) := cameraTarget playing s mouse delta c in
  let pl := 1 - exp (-4 * delta) in
  let ll := 1 - exp (-6 * delta) in
  mkRig yaw pitch menu (lerpV (cam_smoothPos c) tgtPos pl)
        (lerpV (cam_smoothTarget c) tgtLook ll).

(** Squared distance in space. *)
Definition dist3 (a b : Vec3) : R :=
  (vx a - vx b) * (vx a - vx b) + (vy a - vy b) * (vy a - vy b)
  + (vz a - vz b) * (vz a - vz b).


(** ** Time display ([utils.ts]) *)

(** [Math.floor] *)
Definition floorZ (x : R) : Z := Int_part x.

(** The integer part towards zero. *)
Definition truncZ (x : R) : Z :=
  if Rle_dec 0 x then Int_part x else (- Int_part (- x))%Z.

(** [x % m]: the remainder has the sign of [x]. *)
Definition jsRem (x m : R) : R := x - m * IZR (truncZ (x / m)).

(** [mins], [secs] and [centis] of [formatTime]. *)
Definition timeParts (ms : R) : Z * Z * Z :=
  (floorZ (ms / 60000), floorZ (jsRem ms 60000 / 1000), floorZ (jsRem ms 1000 / 10)).

(** The decimal digits of a natural number, at most [fuel] of them, in
    front of [acc]. *)
Fixpoint natDigits (fuel n : nat) (acc : string) : string :=
  match fuel with
  | O => acc
  | S f =>
      let acc' := String (ascii_of_nat (48 + n mod 10)) acc in
      if Nat.eqb (n / 10) 0 then acc' else natDigits f (n / 10) acc'
  end.

(** [String(n)] for an integer.  Below 2^53 in size the runtime writes it
    digit by digit; a larger one is written from the digits of the nearest
    double, and with an exponent from 10^21 on: for those the result is
    [None]. *)
Definition intToString (z : Z) : option string :=
  if (Z.abs z <? 9007199254740992)%Z then
    Some match z with
         | Zneg _ =>
             String "-" (natDigits (S (Z.abs_nat z)) (Z.abs_nat z) EmptyString)
         | _ => natDigits (S (Z.to_nat z)) (Z.to_nat z) EmptyString
         end
  else None.

(** [s.padStart(2, '0')] *)
Definition padStart2 (s : string) : string :=
  match String.length s with
  | O => "00"
  | S O => String "0" s
  | _ => s
  end.

(** [None] where one of the three numbers is not written digit by digit. *)
Definition formatTime (ms : R) : option string :=
  if leb ms 0 then Some "0:00.00"%string
  else
    let '(mins, secs, centis) := timeParts ms in
    match intToString mins, intToString secs, intToString centis with
    | Some m, Some sc, Some c =>
        Some (m ++ ":" ++ padStart2 sc ++ "." ++ padStart2 c)%string
    | _, _, _ => None
    end.

(** ** The car of the first version ([PlayerCar.tsx], [PlayerCar]) *)

Module LegacyCar.

Definition CAR_maxSpeed : R := 60.
Definition CAR_acceleration : R := 32.
Definition CAR_braking : R := 50.
Definition CAR_reverseMax : R := 15.
Definition CAR_friction : R := 0.985.
Definition CAR_turnSpeed : R := 2.2.
Definition CAR_grassFriction : R := 0.94.
Definition CAR_grassMaxSpeed : R := 18.

(** The fields of [stateRef.current] that the frame callback writes, and
    the refs of the component. *)
Record Car := mkCar {
  lc_position : Vec3;
  lc_rotation : R;
  lc_speed : R;
  lc_lap : nat;
  lc_bestLapTime : option R;
  lc_lapTime : R;
  lc_totalTime : R;
  lc_lastT : R;
  lc_lapStartTime : R;
  lc_raceStartTime : R;
  lc_checkpoints : list bool;
  lc_hasMoved : bool;
  lc_finished : bool;
  lc_updateTimer : R
}.

Section Car.
Variable cfg : Track.Config.

(** Throttle, brake, friction, clamp and dead zone. *)
Definition carSpeed (dt : R) (k : Keys) (onTrack : bool) (s : R) : R :=
  let maxSpeed := if onTrack then CAR_maxSpeed else CAR_grassMaxSpeed in
  let friction := if onTrack then CAR_friction else CAR_grassFriction in
  let s1 := if k_forward k then s + CAR_acceleration * dt else s in
  let s2 :=
    if k_backward k then
      if gtb s1 0 then s1 - CAR_braking * dt
      else s1 - CAR_acceleration * 0.5 * dt
    else s1 in
  let s3 := s2 * friction in
  let s4 := Rmax (- CAR_reverseMax) (Rmin maxSpeed s3) in
  if ltb (Rabs s4) 0.15 && negb (k_forward k) && negb (k_backward k) then 0 else s4.

(** The frame callback with the group mounted and one checkpoint flag per
    checkpoint, as the reset effect leaves them.  [nowLap] is the clock read
    when a lap closes and [nowEnd] the clock read for the timing at the end
    of the frame.  Gives the car, the callbacks made (latest first) and
    whether [onStateUpdate] was called. *)
Definition frame (racing : bool) (k : Keys) (delta nowLap nowEnd : R) (c : Car)
  : Car * list Event * bool :=
  if negb racing then (c, [], false)
  else if lc_finished c then (c, [], false)
  else
    let dt := Rmin delta 0.05 in
    let pos3 := mkVec3 (vx (lc_position c)) 0 (vz (lc_position c)) in
    let onTrack := Track.isOnTrack cfg pos3 in
    let speed := carSpeed dt k onTrack (lc_speed c) in
    let turnInput := (if k_left k then 1 else 0) - (if k_right k then 1 else 0) in
    let speedFactor := Rmin (Rabs speed / 8) 1 in
    let rotation :=
      lc_rotation c + turnInput * CAR_turnSpeed * speedFactor * dt * signOr1 speed in
    let position :=
      mkVec3 (vx (lc_position c) + sin rotation * speed * dt)
             (vy (lc_position c))
             (vz (lc_position c) + cos rotation * speed * dt) in
    let nearest := Track.getNearestTrackInfo cfg pos3 in
    let prevT := lc_lastT c in
    let currT := Track.n_t nearest in
    let hasMoved :=
      if negb (lc_hasMoved c) && gtb currT 0.05 then true else lc_hasMoved c in
    let tDelta := currT - prevT in
    let cps1 :=
      if hasMoved && (gtb tDelta 0 && ltb tDelta 0.5)
      then Game.markCheckpoints prevT currT (Track.getCheckpointTs cfg) (lc_checkpoints c)
      else lc_checkpoints c in
    let closes :=
      hasMoved && (gtb prevT 0.85 && ltb currT 0.15) && forallb (fun b => b) cps1 in
    let lapTime := nowLap - lc_lapStartTime c in
    let lap' := if closes then S (lc_lap c) else lc_lap c in
    let best' :=
      if closes then
        match lc_bestLapTime c with
        | None => Some lapTime
        | Some b => if ltb lapTime b then Some lapTime else Some b
        end
      else lc_bestLapTime c in
    let finishes := closes && Nat.leb (Track.TOTAL_LAPS cfg) lap' in
    let lapStart' := if closes then nowLap else lc_lapStartTime c in
    let cps' := if closes then Game.freshCheckpoints cfg else cps1 in
    let events :=
      if closes then
        if finishes then [RaceFinish best'; LapComplete lapTime]
        else [LapComplete lapTime]
      else [] in
    let timer := lc_updateTimer c + dt in
    let update := gtb timer 0.066 in
    (mkCar position rotation speed lap' best'
           (nowEnd - lapStart') (nowEnd - lc_raceStartTime c)
           currT lapStart' (lc_raceStartTime c) cps' hasMoved finishes
           (if update then 0 else timer),
     events, update).

(** The lap timer of the car, read as the race record of the later
    controller. *)
Definition toRace (c : Car) : Race :=
  mkRace true (lc_lap c) (lc_lapStartTime c) (lc_raceStartTime c)
         (lc_bestLapTime c) (lc_checkpoints c) (lc_hasMoved c) (lc_lastT c)
         (lc_finished c).

End Car.
End LegacyCar.

(** The effect that runs when [racing] turns true. *)
Definition legacyReset (cfg : Track.Config) (now : R) (c : LegacyCar.Car)
  : LegacyCar.Car :=
  LegacyCar.mkCar (LegacyCar.lc_position c) (LegacyCar.lc_rotation c)
    (LegacyCar.lc_speed c) (LegacyCar.lc_lap c) (LegacyCar.lc_bestLapTime c)
    (LegacyCar.lc_lapTime c) (LegacyCar.lc_totalTime c)
    0 now now (Game.freshCheckpoints cfg) false false (LegacyCar.lc_updateTimer c).

(** * Verification *)

(** ** Comparisons *)

Lemma ltb_true (a b : R) : ltb a b = true <-> a < b.
Proof. unfold ltb; destruct (Rlt_dec a b); split; intros; try easy. Qed.

Lemma ltb_false (a b : R) : ltb a b = false <-> b <= a.
Proof. unfold ltb; destruct (Rlt_dec a b); split; intros; try easy; lra. Qed.

Lemma leb_true (a b : R) : leb a b = true <-> a <= b.
Proof. unfold leb; destruct (Rle_dec a b); split; intros; try easy. Qed.

Lemma leb_false (a b : R) : leb a b = false <-> b < a.
Proof. unfold leb; destruct (Rle_dec a b); split; intros; try easy; lra. Qed.

Lemma gtb_true (a b : R) : gtb a b = true <-> a > b.
Proof. unfold gtb; rewrite ltb_true; lra. Qed.

Lemma gtb_false (a b : R) : gtb a b = false <-> a <= b.
Proof. unfold gtb; rewrite ltb_false; lra. Qed.

Lemma geb_true (a b : R) : geb a b = true <-> a >= b.
Proof. unfold geb; rewrite leb_true; lra. Qed.

Lemma geb_false (a b : R) : geb a b = false <-> a < b.
Proof. unfold geb; rewrite leb_false; lra. Qed.

(** Decides the comparisons of the goal that linear arithmetic settles. *)
Ltac cmp_eval :=
  unfold gtb, geb, ltb, leb, strictEq;
  repeat match goal with
  | |- context [Rlt_dec ?a ?b] =>
      destruct (Rlt_dec a b); [ try (exfalso; lra) | try (exfalso; lra) ]
  | |- context [Rle_dec ?a ?b] =>
      destruct (Rle_dec a b); [ try (exfalso; lra) | try (exfalso; lra) ]
  | |- context [Req_dec_T ?a ?b] =>
      destruct (Req_dec_T a b); [ try (exfalso; lra) | try (exfalso; lra) ]
  end.

(** ** Lap and checkpoint timer *)

Section LapTimer.
Variable cfg : Track.Config.
Context {rt : Runtime}.

Lemma checkpointLoop_length (n i : nat) :
  List.length (Track.checkpointLoop cfg n i) = n.
Proof. revert i; induction n; intros; simpl; auto. Qed.

Lemma getCheckpointTs_length :
  List.length (Track.getCheckpointTs cfg) = Track.NUM_CHECKPOINTS cfg.
Proof. apply checkpointLoop_length. Qed.

Lemma freshCheckpoints_length :
  List.length (Game.freshCheckpoints cfg) = Track.NUM_CHECKPOINTS cfg.
Proof.
  unfold Game.freshCheckpoints. now rewrite length_map, getCheckpointTs_length.
Qed.

Lemma freshCheckpoints_not_all :
  (0 < Track.NUM_CHECKPOINTS cfg)%nat ->
  forallb (fun c : bool => c) (Game.freshCheckpoints cfg) = false.
Proof.
  unfold Game.freshCheckpoints, Track.getCheckpointTs.
  destruct (Track.NUM_CHECKPOINTS cfg); [lia | reflexivity].
Qed.

Lemma markCheckpoints_length (prevT currT : R) (cpTs : list R) (cps : list bool) :
  List.length (Game.markCheckpoints prevT currT cpTs cps) = List.length cps.
Proof.
  revert cps; induction cpTs; intros [|c cps]; simpl; auto.
Qed.

(** Flags only ever go from false to true within a lap. *)
Lemma markCheckpoints_monotone (prevT currT : R) (cpTs : list R) (cps : list bool)
      (i : nat) :
  nth i cps false = true ->
  nth i (Game.markCheckpoints prevT currT cpTs cps) false = true.
Proof.
  revert cps i; induction cpTs; intros [|c cps] i H; simpl; auto.
  destruct i; simpl in *.
  - subst c. reflexivity.
  - now apply IHcpTs.
Qed.

Lemma completeLap_inv (now : R) (r : Race) (ev : list Event) :
  started r = true -> Game.raceInv cfg (fst (Game.completeLap cfg now r ev)).
Proof.
  intros Hs. unfold Game.completeLap, Game.raceInv; simpl. split.
  - apply freshCheckpoints_length.
  - congruence.
Qed.

Lemma lapUpdate_inv (now currT : R) (r : Race) (ev : list Event) :
  Game.raceInv cfg r -> Game.raceInv cfg (fst (Game.lapUpdate cfg now currT r ev)).
Proof.
  intros [Hlen Hfresh]. unfold Game.lapUpdate.
  remember (if negb (started r) && gtb currT 0.05 then true else started r) as st1 eqn:Hst1.
  destruct st1.
  - match goal with |- context [forallb _ ?c] => set (cps1 := c) end.
    assert (Hl1 : List.length cps1 = Track.NUM_CHECKPOINTS cfg).
    { unfold cps1. match goal with |- context [if ?c then _ else _] => destruct c end; [rewrite markCheckpoints_length|]; exact Hlen. }
    destruct (gtb (lastT r) 0.85 && ltb currT 0.15 && forallb (fun c => c) cps1).
    + unfold Game.raceInv; simpl. split; [apply freshCheckpoints_length | discriminate].
    + unfold Game.raceInv; simpl. split; [exact Hl1 | discriminate].
  - unfold Game.raceInv; simpl. split; auto.
Qed.
Lemma freshRace_inv (now : R) : Game.raceInv cfg (Game.freshRace cfg now).
Proof. split; simpl; auto using freshCheckpoints_length. Qed.

Lemma freshCheckpoints_repeat :
  Game.freshCheckpoints cfg = repeat false (Track.NUM_CHECKPOINTS cfg).
Proof.
  unfold Game.freshCheckpoints, Track.getCheckpointTs.
  generalize 0%nat.
  assert (H : forall n i, map (fun _ : R => false) (Track.checkpointLoop cfg n i)
                          = repeat false n).
  { induction n; intros; simpl; [|rewrite IHn]; auto. }
  intros; apply H.
Qed.

(** With the wrap condition on the parameters, the tracker takes the
    completion branch exactly when every flag is set. *)
Lemma lapUpdate_crossing (now currT : R) (r : Race) (ev : list Event) :
  started r = true -> lastT r > 0.85 -> currT < 0.15 -> Game.allPassed r = true ->
  Game.lapUpdate cfg now currT r ev =
  let '(r2, ev2) := Game.completeLap cfg now r ev in
  (mkRace (active r2) (lap r2) (lapStart r2) (raceStart r2) (bestLap r2)
          (checkpoints r2) (started r2) currT (finished r2), ev2).
Proof.
  intros Hs Hp Hc Ha. unfold Game.lapUpdate, Game.allPassed in *.
  rewrite Hs. simpl negb. simpl andb.
  replace (gtb (currT - lastT r) 0) with false by (symmetry; apply gtb_false; lra).
  simpl andb. cbv iota.
  replace (gtb (lastT r) 0.85) with true by (symmetry; apply gtb_true; lra).
  replace (ltb currT 0.15) with true by (symmetry; apply ltb_true; lra).
  rewrite Ha. simpl andb. cbv iota.
  unfold Game.completeLap. simpl. rewrite Hs. destruct r; simpl in *. reflexivity.
Qed.

Lemma lapUpdate_no_crossing (now currT : R) (r : Race) (ev : list Event) :
  ~ (lastT r > 0.85 /\ currT < 0.15 /\ Game.allPassed r = true) ->
  let r' := fst (Game.lapUpdate cfg now currT r ev) in
  lap r' = lap r /\ snd (Game.lapUpdate cfg now currT r ev) = ev /\
  bestLap r' = bestLap r /\ lapStart r' = lapStart r /\ finished r' = finished r /\
  lastT r' = currT.
Proof.
  intros Hn. unfold Game.lapUpdate.
  destruct (if negb (started r) && gtb currT 0.05 then true else started r);
    [|simpl; auto 10].
  match goal with |- context [if ?c then Game.completeLap _ _ _ _ else _] =>
    destruct c eqn:Hc end; [|simpl; auto 10].
  exfalso. apply Hn.
  apply andb_true_iff in Hc as [Hc H3]. apply andb_true_iff in Hc as [H1 H2].
  apply gtb_true in H1. apply ltb_true in H2.
  repeat split; try lra.
  replace (gtb (currT - lastT r) 0) with false in H3 by (symmetry; apply gtb_false; lra).
  exact H3.
Qed.

(** One update of the lap tracker with stored parameter [prevT] and current
    parameter [currT]: the completion branch is taken exactly when
    [prevT > 0.85], [currT < 0.15] and every checkpoint flag is set, and
    this is what it writes. *)
Lemma lapUpdate_gate (now currT : R) (r : Race) (ev : list Event) :
  (0 < Track.NUM_CHECKPOINTS cfg)%nat ->
  Game.raceInv cfg r ->
  let prevT := lastT r in
  let lapTime := now - lapStart r in
  let r' := fst (Game.lapUpdate cfg now currT r ev) in
  let ev' := snd (Game.lapUpdate cfg now currT r ev) in
  (prevT > 0.85 /\ currT < 0.15 /\ Game.allPassed r = true ->
     lap r' = S (lap r) /\
     (bestLap r = None -> bestLap r' = Some lapTime) /\
     (forall b, bestLap r = Some b ->
        bestLap r' = Some (if Rlt_dec lapTime b then lapTime else b)) /\
     lapStart r' = now /\
     checkpoints r' = repeat false (Track.NUM_CHECKPOINTS cfg) /\
     exists fin, ev' = fin ++ LapComplete lapTime :: ev /\
       ((Track.TOTAL_LAPS cfg <= S (lap r))%nat ->
          finished r' = true /\ fin = [RaceFinish (bestLap r')]) /\
       ((S (lap r) < Track.TOTAL_LAPS cfg)%nat ->
          finished r' = finished r /\ fin = [])) /\
  (~ (prevT > 0.85 /\ currT < 0.15 /\ Game.allPassed r = true) ->
     lap r' = lap r /\ ev' = ev /\ bestLap r' = bestLap r /\
     lapStart r' = lapStart r /\ finished r' = finished r).
Proof.
  intros Hpos [Hlen Hfresh]. cbv zeta. split.
  - intros (Hp & Hc & Ha).
    assert (Hs : started r = true).
    { destruct (started r) eqn:Hs; auto. unfold Game.allPassed in Ha.
      rewrite (Hfresh eq_refl), freshCheckpoints_not_all in Ha; auto. }
    rewrite (lapUpdate_crossing now currT r ev Hs Hp Hc Ha).
    unfold Game.completeLap; simpl.
    repeat split.
    + intros Hb; rewrite Hb; reflexivity.
    + intros b Hb; rewrite Hb. unfold ltb. destruct (Rlt_dec _ _); reflexivity.
    + apply freshCheckpoints_repeat.
    + destruct (Nat.leb (Track.TOTAL_LAPS cfg) (S (lap r))) eqn:Hfin.
      * exists [RaceFinish (match bestLap r with
                            | None => Some (now - lapStart r)
                            | Some b => if ltb (now - lapStart r) b
                                        then Some (now - lapStart r) else Some b
                            end)].
        apply Nat.leb_le in Hfin. repeat split; auto; lia.
      * exists []. apply Nat.leb_gt in Hfin. repeat split; auto; lia.
  - intros Hn. pose proof (lapUpdate_no_crossing now currT r ev Hn) as H.
    cbv zeta in H. tauto.
Qed.
End LapTimer.

Lemma lapUpdate_lastT (cfg : Track.Config) (now currT : R) (r : Race) (ev : list Event) :
  lastT (fst (Game.lapUpdate cfg now currT r ev)) = currT.
Proof.
  unfold Game.lapUpdate.
  repeat match goal with |- context [if ?c then _ else _] => destruct c end;
    reflexivity.
Qed.

(** ** Driving *)

Section Driving.
Variable cfg : Track.Config.
Context {rt : Runtime}.

Lemma tickDriving_spec (now dt : R) (k : Keys) (w : World) (i : nat) (v : VehicleState) :
  finished (race w) = false ->
  activeIdx w = Some i ->
  nth_error (vehicles w) i = Some v ->
  let pos3 := mkVec3 (vx (v_pos v)) 0 (vz (v_pos v)) in
  let boosting := k_shift k && gtb (boostMeter w) 0 && k_forward k in
  let v2 := Game.driveMove dt (Game.driveSteer dt k
              (withSpeed v (Game.driveSpeed dt k (Track.isOnTrack cfg pos3) boosting (v_speed v)))) in
  let out := Game.driveVertical cfg dt k v2 (carVelY w) (carOnGround w) in
  exists w',
    Game.tickDriving cfg now dt k false w = Some w' /\
    race w' = fst (Game.lapTracking cfg now pos3 (race w) (events w)) /\
    events w' = snd (Game.lapTracking cfg now pos3 (race w) (events w)) /\
    vehicles w' = setNth i (fst (fst out)) (vehicles w) /\
    modeRef w' = modeRef w /\ activeIdx w' = activeIdx w /\
    bullets w' = bullets w /\ targets w' = targets w /\
    fireLeftRef w' = fireLeftRef w /\ lastFireTime w' = lastFireTime w.
Proof.
  intros Hfin Hi Hv. cbv zeta. unfold Game.tickDriving.
  rewrite Hfin, Hi, Hv.
  destruct (Game.driveVertical cfg dt k _ (carVelY w) (carOnGround w)) as [[v3 velY] og].
  destruct (Game.lapTracking cfg now _ (race w) (events w)) as [r' ev'].
  eexists; split; [reflexivity|]. simpl. repeat split; auto.
Qed.

Lemma setNth_length {A} (i : nat) (a : A) (l : list A) :
  List.length (setNth i a l) = List.length l.
Proof. revert i; induction l; intros [|i]; simpl; auto. Qed.

Lemma setNth_same {A} (i : nat) (a : A) (l : list A) :
  (i < List.length l)%nat -> nth_error (setNth i a l) i = Some a.
Proof.
  revert i; induction l; intros [|i] H; simpl in *; try lia; auto.
  apply IHl; lia.
Qed.

(** C1.  A driving step whose position passes the distance gate updates the
    lap tracker with the stored parameter [prevT] and the parameter [currT]
    of the nearest sample.  The step counts a lap, one lap, exactly when
    [prevT > 0.85], [currT < 0.15] and every checkpoint flag is set.  On that
    completion the best lap becomes the new lap time when there was none or
    the new one is smaller, the lap timer restarts at [now], every flag is
    cleared, [onLapComplete] is called, and when the new lap count reaches
    [TOTAL_LAPS] the session is finished and [onRaceFinish] is called.  In
    every other such step, so also at a wrap with a flag still unset, the
    lap count, the best lap, the lap timer and the callbacks stay as they
    were. *)
Theorem lap_completion_gate (now dt : R) (k : Keys) (w : World) (i : nat)
        (v : VehicleState) :
  (0 < Track.NUM_CHECKPOINTS cfg)%nat ->
  Game.raceInv cfg (race w) ->
  finished (race w) = false ->
  activeIdx w = Some i ->
  nth_error (vehicles w) i = Some v ->
  let nearest := Track.getNearestTrackInfo cfg (mkVec3 (vx (v_pos v)) 0 (vz (v_pos v))) in
  Track.distLt (Track.n_distance nearest) (Track.TRACK_WIDTH cfg * 1.2) = true ->
  let r := race w in
  let prevT := lastT r in
  let currT := Track.n_t nearest in
  let lapTime := now - lapStart r in
  exists w',
    Game.tickDriving cfg now dt k false w = Some w' /\
    lastT (race w') = currT /\
    (prevT > 0.85 /\ currT < 0.15 /\ Game.allPassed r = true ->
       lap (race w') = S (lap r) /\
       (bestLap r = None -> bestLap (race w') = Some lapTime) /\
       (forall b, bestLap r = Some b ->
          bestLap (race w') = Some (if Rlt_dec lapTime b then lapTime else b)) /\
       lapStart (race w') = now /\
       checkpoints (race w') = repeat false (Track.NUM_CHECKPOINTS cfg) /\
       exists fin, events w' = fin ++ LapComplete lapTime :: events w /\
         ((Track.TOTAL_LAPS cfg <= S (lap r))%nat ->
            finished (race w') = true /\ fin = [RaceFinish (bestLap (race w'))]) /\
         ((S (lap r) < Track.TOTAL_LAPS cfg)%nat ->
            finished (race w') = false /\ fin = [])) /\
    (~ (prevT > 0.85 /\ currT < 0.15 /\ Game.allPassed r = true) ->
       lap (race w') = lap r /\ events w' = events w /\
       bestLap (race w') = bestLap r /\ lapStart (race w') = lapStart r /\
       finished (race w') = false).
Proof.
  intros Hpos Hinv Hfin Hi Hv. cbv zeta. intros Hgate.
  destruct (tickDriving_spec now dt k w i v Hfin Hi Hv) as (w' & Hw & Hr & He & _).
  exists w'. split; [exact Hw|].
  unfold Game.lapTracking in Hr, He. rewrite Hgate in Hr, He.
  rewrite Hr, He.
  pose proof (lapUpdate_gate cfg now
                (Track.n_t (Track.getNearestTrackInfo cfg
                              (mkVec3 (vx (v_pos v)) 0 (vz (v_pos v)))))
                (race w) (events w) Hpos Hinv) as [Hyes Hno].
  cbv zeta in Hyes, Hno. rewrite Hfin in Hyes, Hno.
  split; [apply lapUpdate_lastT|]. split; [exact Hyes | exact Hno].
Qed.

(** C2, as the code has it.  In a driving step that neither exits nor finds
    the session finished, the checkpoint and lap logic, with the update of
    the stored parameter, runs exactly when the planar distance from the
    position to the nearest curve sample is below 1.2 times the whole
    [TRACK_WIDTH]; at any distance from there on the race record and the
    callbacks are as before the step. *)
Theorem lap_gate_full_width (now dt : R) (k : Keys) (w : World) (i : nat) (v : VehicleState) :
  finished (race w) = false ->
  activeIdx w = Some i ->
  nth_error (vehicles w) i = Some v ->
  let nearest := Track.getNearestTrackInfo cfg (mkVec3 (vx (v_pos v)) 0 (vz (v_pos v))) in
  exists w',
    Game.tickDriving cfg now dt k false w = Some w' /\
    (Track.distLt (Track.n_distance nearest) (1.2 * Track.TRACK_WIDTH cfg) = true ->
       (race w', events w') = Game.lapUpdate cfg now (Track.n_t nearest) (race w) (events w)) /\
    (Track.distLt (Track.n_distance nearest) (1.2 * Track.TRACK_WIDTH cfg) = false ->
       race w' = race w /\ events w' = events w).
Proof.
  intros Hfin Hi Hv.
  destruct (tickDriving_spec now dt k w i v Hfin Hi Hv) as (w' & Hw & Hr & He & _).
  cbv zeta. exists w'. split; [exact Hw|].
  rewrite Hr, He. unfold Game.lapTracking.
  rewrite (Rmult_comm (Track.TRACK_WIDTH cfg) 1.2).
  split; intros Hd; rewrite Hd; simpl; auto.
  now destruct (Game.lapUpdate _ _ _ _ _).
Qed.

End Driving.

Lemma nearest_trackA_15 :
  Track.getNearestTrackInfo trackA (mkVec3 0 0 15)
  = Track.mkNearest (mkVec3 0 0 0) (INR 1 / INR 500) (Some 15).
Proof.
  unfold Track.getNearestTrackInfo, trackA, Track.configA.
  cbn [Track.sampledPoints Track.scanSamples vx vy vz Track.TRACK_SAMPLES].
  cmp_eval. cbn [nth option_map]. f_equal. f_equal.
  replace ((0 - 0) * (0 - 0) + (15 - 0) * (15 - 0)) with (15 * 15) by lra.
  apply sqrt_square; lra.
Qed.

(** C2 as the specification words it fails: at planar distance 15 from the
    nearest sample, which is beyond 1.2 times half the width of 18, the
    driving step still runs the lap logic and rewrites the stored
    parameter. *)
Lemma lap_gate_half_width_fails :
  let w := drivingAt (mkVec3 0 0 15) 0 0 (Game.freshRace trackA 0) in
  Track.n_distance (Track.getNearestTrackInfo trackA (mkVec3 0 0 15)) = Some 15 /\
  15 >= 1.2 * (Track.TRACK_WIDTH trackA / 2) /\
  exists w', Game.tickDriving trackA 16 0.016 noKeys false w = Some w' /\
             lastT (race w') <> lastT (race w).
Proof.
  cbv zeta. split; [now rewrite nearest_trackA_15|]. split; [simpl; lra|].
  destruct (tickDriving_spec trackA 16 0.016 noKeys
              (drivingAt (mkVec3 0 0 15) 0 0 (Game.freshRace trackA 0)) 0
              (mkVehicle "car-red" car "Red Racer" "#e63946" (mkVec3 0 0 15) 0 0 0)
              eq_refl eq_refl eq_refl) as (w' & Hw & Hr & _).
  exists w'. split; [exact Hw|]. rewrite Hr.
  cbn [v_pos vx vz]. unfold Game.lapTracking. rewrite nearest_trackA_15.
  cbn [Track.n_distance Track.n_t Track.distLt].
  replace (ltb 15 (Track.TRACK_WIDTH trackA * 1.2)) with true
    by (symmetry; apply ltb_true; simpl; lra).
  rewrite lapUpdate_lastT. cbn [drivingAt race Game.freshRace lastT].
  apply Rgt_not_eq, Rdiv_lt_0_compat; apply lt_0_INR; lia.
Qed.

Lemma lap_gate_full_width_witness :
  exists w',
    Game.tickDriving trackA 16 0.016 noKeys false
      (drivingAt (mkVec3 0 0 15) 0 0 (Game.freshRace trackA 0)) = Some w' /\
    (race w', events w')
    = Game.lapUpdate trackA 16 (INR 1 / INR 500) (Game.freshRace trackA 0) [].
Proof.
  destruct (lap_gate_full_width trackA 16 0.016 noKeys
              (drivingAt (mkVec3 0 0 15) 0 0 (Game.freshRace trackA 0)) 0
              (mkVehicle "car-red" car "Red Racer" "#e63946" (mkVec3 0 0 15) 0 0 0)
              eq_refl eq_refl eq_refl) as (w' & Hw & Hyes & _).
  exists w'. split; [exact Hw|].
  cbn [v_pos vx vz] in Hyes. rewrite nearest_trackA_15 in Hyes.
  apply Hyes. apply ltb_true. simpl. lra.
Defined.

Lemma lap_completion_gate_witness :
  (exists w',
     Game.tickDriving trackA 65000 0.016 allKeys false
       (drivingAt (mkVec3 0 0 15) 0 30 raceAllPassed) = Some w' /\
     lap (race w') = 1%nat /\ events w' = [LapComplete 65000] /\
     bestLap (race w') = Some 65000 /\ finished (race w') = false) /\
  (exists w',
     Game.tickDriving trackA 65000 0.016 allKeys false
       (drivingAt (mkVec3 0 0 15) 0 30 raceOneMissed) = Some w' /\
     lap (race w') = 0%nat /\ events w' = []).
Proof.
  assert (Hpos : (0 < Track.NUM_CHECKPOINTS trackA)%nat) by (simpl; lia).
  assert (Hgate : Track.distLt
            (Track.n_distance (Track.getNearestTrackInfo trackA (mkVec3 0 0 15)))
            (Track.TRACK_WIDTH trackA * 1.2) = true).
  { rewrite nearest_trackA_15. apply ltb_true. simpl. lra. }
  assert (Ht : Track.n_t (Track.getNearestTrackInfo trackA (mkVec3 0 0 15)) < 0.15).
  { rewrite nearest_trackA_15. cbn [Track.n_t]. rewrite !INR_IZR_INZ. simpl. lra. }
  split.
  - destruct (lap_completion_gate trackA 65000 0.016 allKeys
                (drivingAt (mkVec3 0 0 15) 0 30 raceAllPassed) 0
                (mkVehicle "car-red" car "Red Racer" "#e63946" (mkVec3 0 0 15) 0 30 0)
                Hpos (conj eq_refl (fun H => False_ind _ (diff_true_false H)))
                eq_refl eq_refl eq_refl Hgate)
      as (w' & Hw & _ & Hyes & _).
    exists w'. split; [exact Hw|].
    destruct Hyes as (Hlap & Hbest & _ & _ & _ & fin & Hev & _ & Hmore).
    { cbn [drivingAt race raceAllPassed lastT v_pos vx vz]. repeat split; [lra | exact Ht]. }
    destruct Hmore as [Hf ->]; [simpl; lia|].
    cbn [drivingAt race raceAllPassed lap lapStart bestLap events app] in *.
    split; [exact Hlap|]. split; [rewrite Hev; do 2 f_equal; lra|].
    split; [rewrite Hbest by reflexivity; f_equal; lra | exact Hf].
  - destruct (lap_completion_gate trackA 65000 0.016 allKeys
                (drivingAt (mkVec3 0 0 15) 0 30 raceOneMissed) 0
                (mkVehicle "car-red" car "Red Racer" "#e63946" (mkVec3 0 0 15) 0 30 0)
                Hpos (conj eq_refl (fun H => False_ind _ (diff_true_false H)))
                eq_refl eq_refl eq_refl Hgate)
      as (w' & Hw & _ & _ & Hno).
    exists w'. split; [exact Hw|].
    destruct Hno as (Hlap & Hev & _).
    { intros (_ & _ & H). discriminate H. }
    split; [exact Hlap | exact Hev].
Defined.

Section DrivingOrder.
Variable cfg : Track.Config.
Context {rt : Runtime}.

(** C9.  The lap tracker of a driving step works on the planar position the
    vehicle had when the step began: the race record and the callbacks after
    the step are those of [lapTracking] at that position.  The step's own
    movement does not enter: two steps from the same race record and the
    same starting position end with the same race record whatever their
    delta, keys, speed and heading, so a crossing that a step's movement
    produces shows at the next step at the earliest. *)
Theorem lap_reads_position_before_move
        (now dt : R) (k : Keys) (w : World) (i : nat) (v : VehicleState) :
  finished (race w) = false ->
  activeIdx w = Some i ->
  nth_error (vehicles w) i = Some v ->
  exists w',
    Game.tickDriving cfg now dt k false w = Some w' /\
    (race w', events w')
    = Game.lapTracking cfg now (mkVec3 (vx (v_pos v)) 0 (vz (v_pos v)))
                       (race w) (events w) /\
    forall dt2 k2 w2 i2 v2 w2',
      activeIdx w2 = Some i2 -> nth_error (vehicles w2) i2 = Some v2 ->
      race w2 = race w -> events w2 = events w ->
      vx (v_pos v2) = vx (v_pos v) -> vz (v_pos v2) = vz (v_pos v) ->
      Game.tickDriving cfg now dt2 k2 false w2 = Some w2' ->
      race w2' = race w' /\ events w2' = events w'.
Proof.
  intros Hfin Hi Hv.
  destruct (tickDriving_spec cfg now dt k w i v Hfin Hi Hv) as (w' & Hw & Hr & He & _).
  exists w'. split; [exact Hw|]. split.
  - rewrite Hr, He. now destruct (Game.lapTracking _ _ _ _ _).
  - intros dt2 k2 w2 i2 v2 w2' Hi2 Hv2 Hr2 He2 Hx Hz Hw2.
    assert (Hfin2 : finished (race w2) = false) by (rewrite Hr2; exact Hfin).
    destruct (tickDriving_spec cfg now dt2 k2 w2 i2 v2 Hfin2 Hi2 Hv2)
      as (w2'' & Hw2'' & Hr2'' & He2'' & _).
    rewrite Hw2 in Hw2''. injection Hw2'' as <-.
    rewrite Hr2'', He2'', Hr, He, Hx, Hz, Hr2, He2. split; reflexivity.
Qed.

(** C10.  With the finished flag set, a driving step without E returns the
    world as it was: position, rotation and speed of the vehicle, the boost
    meter and the race record included, and so does any run of such steps.
    A step with E pressed still leaves the vehicle: the player walks, no
    vehicle is active, the session is inactive and the vehicle stands
    still. *)
Theorem finished_session_is_frozen (w : World) :
  finished (race w) = true ->
  (forall now dt k, Game.tickDriving cfg now dt k false w = Some w) /\
  (forall steps, Game.driveOn cfg steps w = Some w) /\
  (forall now dt k i v,
     activeIdx w = Some i -> nth_error (vehicles w) i = Some v ->
     exists w' v',
       Game.tickDriving cfg now dt k true w = Some w' /\
       modeRef w' = walking /\ activeIdx w' = None /\ active (race w') = false /\
       nth_error (vehicles w') i = Some v' /\ v_speed v' = 0).
Proof.
  intros Hfin.
  assert (H1 : forall now dt k, Game.tickDriving cfg now dt k false w = Some w).
  { intros. unfold Game.tickDriving. now rewrite Hfin. }
  split; [exact H1|]. split.
  - induction steps as [|[[now dt] k] rest IH]; cbn [Game.driveOn]; auto. now rewrite H1.
  - intros now dt k i v Hi Hv. unfold Game.tickDriving, Game.exitVehicle.
    rewrite Hi, Hv. eexists. eexists. split; [reflexivity|]. simpl.
    repeat split.
    + apply setNth_same. apply nth_error_Some. congruence.
    + reflexivity.
Qed.
End DrivingOrder.

Lemma lap_reads_position_before_move_witness :
  exists w',
    Game.tickDriving trackA 16 0.016 allKeys false
      (drivingAt (mkVec3 0 0 15) 0 30 (Game.freshRace trackA 0)) = Some w' /\
    lastT (race w') = INR 1 / INR 500.
Proof.
  destruct (lap_reads_position_before_move trackA 16 0.016 allKeys
              (drivingAt (mkVec3 0 0 15) 0 30 (Game.freshRace trackA 0)) 0
              (mkVehicle "car-red" car "Red Racer" "#e63946" (mkVec3 0 0 15) 0 30 0)
              eq_refl eq_refl eq_refl) as (w' & Hw & Hr & _).
  exists w'. split; [exact Hw|].
  apply (f_equal fst) in Hr. cbn [fst] in Hr. rewrite Hr.
  cbn [v_pos vx vz]. unfold Game.lapTracking. rewrite nearest_trackA_15.
  cbn [Track.n_distance Track.n_t Track.distLt].
  replace (ltb 15 (Track.TRACK_WIDTH trackA * 1.2)) with true
    by (symmetry; apply ltb_true; simpl; lra).
  apply lapUpdate_lastT.
Defined.

Lemma finished_session_is_frozen_witness :
  Game.tickDriving trackA 181000 0.016 allKeys false
    (drivingAt (mkVec3 0 0 2) 0 40 raceFinished)
  = Some (drivingAt (mkVec3 0 0 2) 0 40 raceFinished).
Proof.
  apply (finished_session_is_frozen trackA
           (drivingAt (mkVec3 0 0 2) 0 40 raceFinished) eq_refl).
Defined.

(** ** The frame and its stages *)

(** Names the scrutinee of the outermost pair pattern and splits it. *)
Ltac split_let :=
  match goal with
  | |- context [match ?X with pair _ _ => _ end] => destruct X
  end.

Section Frames.
Variable cfg : Track.Config.
Context {rt : Runtime}.

Lemma findVehicle_nth (id : string) (vs : list VehicleState) (i idx : nat)
      (v : VehicleState) :
  Game.findVehicle id vs i = Some (idx, v) ->
  (i <= idx)%nat /\ nth_error vs (idx - i) = Some v.
Proof.
  revert i; induction vs as [|h t IH]; intros i H; simpl in H; [discriminate|].
  destruct (String.eqb (v_id h) id).
  - injection H as <- <-. rewrite Nat.sub_diag. split; auto.
  - apply IH in H as [H1 H2]. split; [lia|].
    replace (idx - i)%nat with (S (idx - S i)) by lia. exact H2.
Qed.

(** What walking leaves alone, and the vehicle it may enter. *)
Lemma tickWalking_spec (now dt : R) (k : Keys) (justE : bool)
      (taken : list string) (w : World) :
  let w' := Game.tickWalking cfg now dt k justE taken w in
  bullets w' = bullets w /\ targets w' = targets w /\
  vehicles w' = vehicles w /\ fireLeftRef w' = fireLeftRef w /\
  lastFireTime w' = lastFireTime w /\ muzzleTimer w' = muzzleTimer w /\
  ((modeRef w' = modeRef w /\ activeIdx w' = activeIdx w /\ race w' = race w) \/
   (exists idx v, activeIdx w' = Some idx /\ nth_error (vehicles w) idx = Some v /\
      ((v_type v = car /\ modeRef w' = driving /\ race w' = Game.freshRace cfg now) \/
       (v_type v = airplane /\ modeRef w' = flying /\ race w' = race w)))).
Proof.
  unfold Game.tickWalking. cbv zeta.
  split_let. split_let.
  match goal with |- context [match ?E with Some _ => _ | None => _ end] =>
    destruct E as [[idx ve]|] eqn:He end.
  - cbn. repeat split. right. exists idx, ve.
    split; [reflexivity|].
    split.
    + match type of He with match ?n with _ => _ end = _ => destruct n; [|discriminate] end.
      match type of He with (if ?c then _ else _) = _ => destruct c; [|discriminate] end.
      apply findVehicle_nth in He as [_ He]. now rewrite Nat.sub_0_r in He.
    + destruct (v_type ve); [left | right]; repeat split.
  - cbn. repeat split. left. repeat split.
Qed.

Lemma exitVehicle_spec (w w' : World) :
  Game.exitVehicle cfg w = Some w' ->
  bullets w' = bullets w /\ targets w' = targets w /\
  List.length (vehicles w') = List.length (vehicles w) /\
  fireLeftRef w' = fireLeftRef w /\ lastFireTime w' = lastFireTime w /\
  muzzleTimer w' = muzzleTimer w /\
  modeRef w' = walking /\ activeIdx w' = None.
Proof.
  unfold Game.exitVehicle. destruct (activeIdx w); [|discriminate].
  destruct (nth_error _ _); [|discriminate].
  intros H; injection H as <-. cbn. rewrite setNth_length. repeat split.
Qed.


Lemma tickDriving_fields (now dt : R) (k : Keys) (justE : bool) (w w' : World) :
  Game.tickDriving cfg now dt k justE w = Some w' ->
  bullets w' = bullets w /\ targets w' = targets w /\
  List.length (vehicles w') = List.length (vehicles w) /\
  fireLeftRef w' = fireLeftRef w /\ lastFireTime w' = lastFireTime w /\
  muzzleTimer w' = muzzleTimer w.
Proof.
  unfold Game.tickDriving. destruct justE.
  - intros H. apply exitVehicle_spec in H. tauto.
  - destruct (finished (race w)); [intros H; injection H as <-; tauto|].
    destruct (activeIdx w); [|discriminate].
    destruct (nth_error _ _); [|discriminate].
    split_let. split_let. split_let.
    intros H; injection H as <-. cbn. rewrite setNth_length. tauto.
Qed.

Lemma tickFlying_fields (dt : R) (k : Keys) (justE : bool) (mouse : FrameMouse)
      (w w' : World) :
  Game.tickFlying cfg dt k justE mouse w = Some w' ->
  bullets w' = bullets w /\ targets w' = targets w /\
  List.length (vehicles w') = List.length (vehicles w) /\
  fireLeftRef w' = fireLeftRef w /\ lastFireTime w' = lastFireTime w /\
  muzzleTimer w' = muzzleTimer w.
Proof.
  unfold Game.tickFlying.
  destruct (activeIdx w); [|discriminate].
  destruct (nth_error _ _); [|discriminate].
  destruct (justE && _).
  - intros H. apply exitVehicle_spec in H. cbn in H. rewrite setNth_length in H. tauto.
  - intros H; injection H as <-. cbn. rewrite setNth_length. tauto.
Qed.

Lemma activateFirst_length (nb : Bullet) (pool pool' : list Bullet) :
  Game.activateFirst nb pool = Some pool' -> List.length pool' = List.length pool.
Proof.
  revert pool'; induction pool as [|b rest IH]; intros pool' H; simpl in H;
    [discriminate|].
  destruct (negb (b_active b)).
  - injection H as <-. reflexivity.
  - destruct (Game.activateFirst nb rest); [|discriminate].
    injection H as <-. simpl. now rewrite (IH l).
Qed.

Lemma fireBullet_fields (w w' : World) :
  Game.fireBullet w = Some w' ->
  List.length (bullets w') = List.length (bullets w) /\ targets w' = targets w /\
  vehicles w' = vehicles w /\ modeRef w' = modeRef w /\ activeIdx w' = activeIdx w.
Proof.
  unfold Game.fireBullet. destruct (forallb b_active (bullets w)).
  - intros H; injection H as <-. tauto.
  - destruct (activeVehicle w); [|discriminate].
    destruct (Game.activateFirst _ _) eqn:Ha.
    + intros H; injection H as <-. cbn. apply activateFirst_length in Ha. tauto.
    + intros H; injection H as <-. tauto.
Qed.

Lemma tickBulletsLoop_length (dt : R) (pool : list Bullet) (ts : list AerialTarget) :
  List.length (fst (Game.tickBulletsLoop dt pool ts)) = List.length pool.
Proof.
  revert ts; induction pool as [|b rest IH]; intros ts; simpl; auto.
  destruct (Game.tickBullet dt b ts) as [b' ts1].
  specialize (IH ts1). destruct (Game.tickBulletsLoop dt rest ts1); simpl in *; auto.
Qed.

(** The three ticks between the weapon and the collision resolver touch
    only the pool, the targets and the muzzle timer. *)
Lemma projectile_ticks_spec (dt : R) (w : World) :
  let w' := Game.tickTargets dt (Game.tickMuzzleFlash dt (Game.tickBullets dt w)) in
  bullets w' = fst (Game.tickBulletsLoop dt (bullets w) (targets w)) /\
  targets w' = map (Game.tickTarget dt)
                   (snd (Game.tickBulletsLoop dt (bullets w) (targets w))) /\
  vehicles w' = vehicles w /\ modeRef w' = modeRef w /\ activeIdx w' = activeIdx w /\
  race w' = race w /\ events w' = events w.
Proof.
  unfold Game.tickTargets, Game.tickMuzzleFlash, Game.tickBullets. cbv zeta.
  destruct (Game.tickBulletsLoop dt (bullets w) (targets w)) as [pool' ts'].
  cbn. destruct (gtb (muzzleTimer w) 0); cbn; tauto.
Qed.

Lemma collisions_fields (rps : list RemotePlayer) (w w' : World) :
  Game.tickVehicleCollisions rps w = Some w' ->
  bullets w' = bullets w /\ targets w' = targets w /\
  modeRef w' = modeRef w /\ activeIdx w' = activeIdx w /\
  race w' = race w /\ events w' = events w.
Proof.
  unfold Game.tickVehicleCollisions.
  destruct (modeRef w) eqn:Hm; [intros H; injection H as <-; tauto | |];
    (destruct (activeIdx w) eqn:Ha; [|intros H; injection H as <-; tauto]);
    (destruct (nth_error _ _); [|discriminate]);
    split_let; intros H; injection H as <-; unfold withVehicles; cbn;
    repeat split; auto.
Qed.

(** The stages of a frame that ran to its end. *)
Lemma frame_stages (inp : FrameInput) (w w' : World) :
  Game.frame cfg inp w = Some w' ->
  let dt := Rmin (i_delta inp) 0.05 in
  exists w1 w2,
    match modeRef w with
    | walking => Some (Game.tickWalking cfg (i_now inp) dt (i_keys inp)
                         (i_interact inp) (i_takenVehicleIds inp) w)
    | driving => Game.tickDriving cfg (i_now inp) dt (i_keys inp) (i_interact inp) w
    | flying => Game.tickFlying cfg dt (i_keys inp) (i_interact inp) (i_mouse inp) w
    end = Some w1 /\
    (w2 = w1 \/ Game.fireBullet (withLastFireTime w1 (i_now inp / 1000)) = Some w2) /\
    Game.tickVehicleCollisions (i_remotePlayers inp)
      (Game.tickTargets dt (Game.tickMuzzleFlash dt (Game.tickBullets dt w2)))
    = Some w'.
Proof.
  unfold Game.frame. cbv zeta.
  match goal with |- match ?T with Some _ => _ | None => _ end = _ -> _ =>
    destruct T as [w1|] eqn:Ht end; [|discriminate].
  match goal with |- match ?T with Some _ => _ | None => _ end = _ -> _ =>
    destruct T as [w2|] eqn:Hf end; [|discriminate].
  intros H. exists w1, w2. split; [reflexivity|]. split; [|exact H].
  destruct (modeRef w); try (injection Hf as <-; now left).
  destruct (_ && _); [now right | injection Hf as <-; now left].
Qed.

Lemma frame_bullets_length (inp : FrameInput) (w w' : World) :
  Game.frame cfg inp w = Some w' ->
  List.length (bullets w') = List.length (bullets w).
Proof.
  intros H. apply frame_stages in H as (w1 & w2 & H1 & H2 & H3).
  apply collisions_fields in H3 as (Hb & _). rewrite Hb.
  destruct (projectile_ticks_spec (Rmin (i_delta inp) 0.05) w2) as (Hp & _).
  rewrite Hp, tickBulletsLoop_length.
  assert (Hw1 : List.length (bullets w1) = List.length (bullets w)).
  { destruct (modeRef w).
    - injection H1 as <-. now destruct (tickWalking_spec (i_now inp)
        (Rmin (i_delta inp) 0.05) (i_keys inp) (i_interact inp)
        (i_takenVehicleIds inp) w) as (-> & _).
    - apply tickDriving_fields in H1 as (-> & _). reflexivity.
    - apply tickFlying_fields in H1 as (-> & _). reflexivity. }
  destruct H2 as [-> | H2]; [exact Hw1|].
  apply fireBullet_fields in H2 as (-> & _). exact Hw1.
Qed.

Lemma run_bullets_length (inps : list FrameInput) (w w' : World) :
  Game.run cfg inps w = Some w' ->
  List.length (bullets w') = List.length (bullets w).
Proof.
  revert w; induction inps as [|inp rest IH]; intros w H; cbn [Game.run] in H.
  - now injection H as <-.
  - destruct (Game.frame cfg inp w) as [w1|] eqn:Hf; [|discriminate].
    rewrite (IH _ H). now apply frame_bullets_length in Hf.
Qed.

Lemma activateFirst_first (nb : Bullet) (pre post : list Bullet) (b : Bullet) :
  forallb b_active pre = true -> b_active b = false ->
  Game.activateFirst nb (pre ++ b :: post) = Some (pre ++ nb :: post).
Proof.
  intros Hpre Hb. induction pre as [|a pre IH]; simpl in *.
  - now rewrite Hb.
  - apply andb_true_iff in Hpre as [Ha Hpre]. rewrite Ha. simpl.
    now rewrite (IH Hpre).
Qed.

(** C7.  Whatever frames a session runs, the pool keeps its 30 slots, so at
    most 30 bullets are in flight.  A shot takes the first inactive slot of
    the pool and leaves every other slot as it was; with every slot active
    [fireBullet] returns the world unchanged. *)
Theorem bullet_pool_bound :
  (forall inps w', Game.run cfg inps (Game.initWorld cfg) = Some w' ->
     List.length (bullets w') = 30%nat /\ (Game.activeCount (bullets w') <= 30)%nat) /\
  (forall w v pre b post,
     activeVehicle w = Some v -> bullets w = pre ++ b :: post ->
     forallb b_active pre = true -> b_active b = false ->
     exists w', Game.fireBullet w = Some w' /\
       bullets w' = pre ++ Game.newBullet v (fireLeftRef w) :: post /\
       b_active (Game.newBullet v (fireLeftRef w)) = true) /\
  (forall w, forallb b_active (bullets w) = true -> Game.fireBullet w = Some w).
Proof.
  split; [|split].
  - intros inps w' H. apply run_bullets_length in H.
    assert (Hl : List.length (bullets w') = 30%nat) by (rewrite H; reflexivity).
    split; [exact Hl|]. unfold Game.activeCount. rewrite <- Hl. apply filter_length_le.
  - intros w v pre b post Hv Hb Hpre Hact. unfold Game.fireBullet.
    rewrite Hv, Hb. rewrite forallb_app. simpl. rewrite Hact, andb_false_r.
    rewrite (activateFirst_first _ pre post b Hpre Hact).
    eexists. split; [reflexivity|]. cbn. split; reflexivity.
  - intros w H. unfold Game.fireBullet. now rewrite H.
Qed.

End Frames.

Lemma bullet_pool_bound_witness :
  Game.fireBullet (flyingAt (mkVec3 0 40 0) 0 60 fullPool)
  = Some (flyingAt (mkVec3 0 40 0) 0 60 fullPool) /\
  (exists w', Game.fireBullet (flyingAt (mkVec3 0 40 0) 0 60 Game.makeBulletPool)
              = Some w' /\ Game.activeCount (bullets w') = 1%nat) /\
  (Game.activeCount (bullets (Game.initWorld trackA)) <= 30)%nat.
Proof.
  destruct (bullet_pool_bound trackA) as (Hbound & Hfirst & Hfull).
  split; [|split].
  - apply Hfull. reflexivity.
  - destruct (Hfirst (flyingAt (mkVec3 0 40 0) 0 60 Game.makeBulletPool)
                (mkVehicle "plane-blue" airplane "Sky Hawk" "#4488cc"
                           (mkVec3 0 40 0) 0 60 0)
                [] (mkBullet false (mkVec3 0 0 0) (mkVec3 0 0 0) 0)
                (repeat (mkBullet false (mkVec3 0 0 0) (mkVec3 0 0 0) 0) 29)
                eq_refl eq_refl eq_refl eq_refl) as (w' & Hw & Hb & _).
    exists w'. split; [exact Hw|]. rewrite Hb. reflexivity.
  - apply (Hbound [] (Game.initWorld trackA) eq_refl).
Defined.

(** ** Targets *)

Section Targets.
Variable cfg : Track.Config.
Context {rt : Runtime}.

Lemma hitScan_nth (p : Vec3) (ts : list AerialTarget) (j : nat) (t : AerialTarget) :
  nth_error ts j = Some t ->
  nth_error (snd (Game.hitScan p ts)) j = Some t \/
  (t_alive t = true /\ Game.hitsTarget p t = true /\
   nth_error (snd (Game.hitScan p ts)) j
   = Some (mkTarget (t_pos t) false TARGET_RESPAWN_TIME)).
Proof.
  revert j; induction ts as [|a rest IH]; intros j H.
  - destruct j; discriminate.
  - simpl. destruct (t_alive a && Game.hitsTarget p a) eqn:Hh.
    + destruct j; simpl in *.
      * injection H as <-. apply andb_true_iff in Hh as [H1 H2]. right; auto.
      * left; exact H.
    + destruct (Game.hitScan p rest) as [hit rest'] eqn:Hs. simpl.
      destruct j; simpl in *; [left; exact H|].
      apply IH in H. exact H.
Qed.

Lemma hitScan_reports (p : Vec3) (ts : list AerialTarget) :
  fst (Game.hitScan p ts) = true ->
  exists j t, nth_error ts j = Some t /\ t_alive t = true /\
    Game.hitsTarget p t = true /\
    snd (Game.hitScan p ts)
    = setNth j (mkTarget (t_pos t) false TARGET_RESPAWN_TIME) ts.
Proof.
  induction ts as [|a rest IH]; simpl; [discriminate|].
  destruct (t_alive a && Game.hitsTarget p a) eqn:Hh.
  - intros _. exists 0%nat, a. apply andb_true_iff in Hh as [H1 H2]. simpl. auto.
  - destruct (Game.hitScan p rest) as [hit rest'] eqn:Hs. simpl in *.
    intros H. destruct (IH H) as (j & t & Hj & Ha & Hh' & Hr).
    exists (S j), t. simpl. rewrite Hr. auto.
Qed.

Lemma tickBullet_nth (dt : R) (b : Bullet) (ts : list AerialTarget) (j : nat)
      (t : AerialTarget) :
  nth_error ts j = Some t ->
  nth_error (snd (Game.tickBullet dt b ts)) j = Some t \/
  (t_alive t = true /\
   nth_error (snd (Game.tickBullet dt b ts)) j
   = Some (mkTarget (t_pos t) false TARGET_RESPAWN_TIME)).
Proof.
  intros H. unfold Game.tickBullet.
  destruct (negb (b_active b)); [left; exact H|].
  destruct (_ || _); [left; exact H|].
  match goal with |- context [Game.hitScan ?p ts] =>
    pose proof (hitScan_nth p ts j t H) as Hs; destruct (Game.hitScan p ts) end.
  simpl in *. tauto.
Qed.

Lemma tickBulletsLoop_nth (dt : R) (pool : list Bullet) (ts : list AerialTarget)
      (j : nat) (t : AerialTarget) :
  nth_error ts j = Some t ->
  nth_error (snd (Game.tickBulletsLoop dt pool ts)) j = Some t \/
  (t_alive t = true /\
   nth_error (snd (Game.tickBulletsLoop dt pool ts)) j
   = Some (mkTarget (t_pos t) false TARGET_RESPAWN_TIME)).
Proof.
  revert ts t; induction pool as [|b rest IH]; intros ts t H; simpl; [left; exact H|].
  pose proof (tickBullet_nth dt b ts j t H) as Hb.
  destruct (Game.tickBullet dt b ts) as [b' ts1]. simpl in Hb.
  destruct Hb as [Hb | [Ha Hb]].
  - specialize (IH ts1 t Hb). destruct (Game.tickBulletsLoop dt rest ts1). exact IH.
  - specialize (IH ts1 _ Hb). destruct (Game.tickBulletsLoop dt rest ts1).
    simpl in *. destruct IH as [IH | [IH _]]; [right; auto | discriminate].
Qed.

(** The targets after a frame: the bullet loop, then the respawn tick. *)
Lemma frame_targets (inp : FrameInput) (w w' : World) :
  Game.frame cfg inp w = Some w' ->
  exists pool,
    targets w' = map (Game.tickTarget (Rmin (i_delta inp) 0.05))
                     (snd (Game.tickBulletsLoop (Rmin (i_delta inp) 0.05) pool (targets w))).
Proof.
  intros H. apply frame_stages in H as (w1 & w2 & H1 & H2 & H3).
  apply collisions_fields in H3 as (_ & Ht & _). rewrite Ht.
  destruct (projectile_ticks_spec (Rmin (i_delta inp) 0.05) w2) as (_ & Hp & _).
  rewrite Hp. exists (bullets w2).
  assert (Hw1 : targets w1 = targets w).
  { destruct (modeRef w).
    - injection H1 as <-. now destruct (tickWalking_spec cfg (i_now inp)
        (Rmin (i_delta inp) 0.05) (i_keys inp) (i_interact inp)
        (i_takenVehicleIds inp) w) as (_ & -> & _).
    - apply tickDriving_fields in H1 as (_ & -> & _). reflexivity.
    - apply tickFlying_fields in H1 as (_ & -> & _). reflexivity. }
  destruct H2 as [-> | H2]; [now rewrite Hw1|].
  apply fireBullet_fields in H2 as (_ & -> & _). cbn. now rewrite Hw1.
Qed.

(** A target over one frame. *)
Lemma frame_target (inp : FrameInput) (w w' : World) (j : nat) (t : AerialTarget) :
  Game.frame cfg inp w = Some w' ->
  nth_error (targets w) j = Some t ->
  let dt := Rmin (i_delta inp) 0.05 in
  nth_error (targets w') j = Some (Game.tickTarget dt t) \/
  (t_alive t = true /\
   nth_error (targets w') j
   = Some (Game.tickTarget dt (mkTarget (t_pos t) false TARGET_RESPAWN_TIME))).
Proof.
  intros Hf Hj. cbv zeta. apply frame_targets in Hf as (pool & ->).
  destruct (tickBulletsLoop_nth (Rmin (i_delta inp) 0.05) pool (targets w) j t Hj)
    as [H | [Ha H]]; [left | right; split; auto];
    now rewrite nth_error_map, H.
Qed.

Lemma run_app (a b : list FrameInput) (w : World) :
  Game.run cfg (a ++ b) w
  = match Game.run cfg a w with Some w1 => Game.run cfg b w1 | None => None end.
Proof.
  revert w; induction a as [|i a IH]; intros w; cbn [Game.run app]; auto.
  destruct (Game.frame cfg i w); auto.
Qed.

Lemma elapsed_app (a b : list FrameInput) :
  Game.elapsed (a ++ b) = Game.elapsed a + Game.elapsed b.
Proof. induction a; simpl; lra. Qed.

Lemma elapsed_nonneg (inps : list FrameInput) :
  Forall (fun i => 0 <= i_delta i) inps -> 0 <= Game.elapsed inps.
Proof.
  induction 1; simpl; [lra|].
  assert (0 <= Rmin (i_delta x) 0.05) by (apply Rmin_glb; lra). lra.
Qed.

Lemma tickWalking_idle (now dt : R) (k : Keys) (taken : list string) (w : World) :
  modeRef (Game.tickWalking cfg now dt k false taken w) = modeRef w.
Proof.
  unfold Game.tickWalking. cbv zeta. split_let. split_let.
  match goal with |- context [Game.scanNearby ?a ?b ?c ?d ?e ?f] =>
    destruct (Game.scanNearby a b c d e f) end; reflexivity.
Qed.

(** A frame on foot without E cannot throw, and the player stays on foot. *)
Lemma frame_walking_idle (inp : FrameInput) (w : World) :
  modeRef w = walking -> i_interact inp = false ->
  exists w', Game.frame cfg inp w = Some w' /\ modeRef w' = walking /\
    targets w' = map (Game.tickTarget (Rmin (i_delta inp) 0.05))
                     (snd (Game.tickBulletsLoop (Rmin (i_delta inp) 0.05)
                             (bullets w) (targets w))).
Proof.
  intros Hm Hi. unfold Game.frame. rewrite Hm, Hi. cbv zeta.
  set (dt := Rmin (i_delta inp) 0.05).
  set (w1 := Game.tickWalking cfg (i_now inp) dt (i_keys inp) false
               (i_takenVehicleIds inp) w).
  destruct (projectile_ticks_spec dt w1) as (_ & Ht & _ & Hmode & _).
  cbv zeta in *. unfold Game.tickVehicleCollisions. rewrite Hmode.
  unfold w1 at 1. rewrite tickWalking_idle, Hm.
  eexists. split; [reflexivity|]. split; [|rewrite Ht].
  - rewrite Hmode. unfold w1. now rewrite tickWalking_idle.
  - unfold w1.
    destruct (tickWalking_spec cfg (i_now inp) dt (i_keys inp) false
                (i_takenVehicleIds inp) w) as (-> & -> & _). reflexivity.
Qed.

Lemma run_walking_idle (inp : FrameInput) (n : nat) (w : World) :
  modeRef w = walking -> i_interact inp = false ->
  exists w', Game.run cfg (repeat inp n) w = Some w' /\ modeRef w' = walking.
Proof.
  intros Hm Hi. revert w Hm; induction n as [|n IH]; intros w Hm; cbn [repeat Game.run].
  - eauto.
  - destruct (frame_walking_idle inp w Hm Hi) as (w1 & -> & Hm1 & _). auto.
Qed.

Lemma elapsed_repeat (inp : FrameInput) (n : nat) :
  Game.elapsed (repeat inp n) = INR n * Rmin (i_delta inp) 0.05.
Proof.
  induction n as [|n IH]; [simpl; lra|].
  cbn [repeat Game.elapsed]. rewrite IH, S_INR. lra.
Qed.

End Targets.

Lemma Rabs_bound (x c : R) : Rabs x <= c <-> - c <= x <= c.
Proof. unfold Rabs. destruct (Rcase_abs x); lra. Qed.

Section Respawn.
Variable cfg : Track.Config.
Context {rt : Runtime}.
Variable err : R.
Hypothesis err_nonneg : 0 <= err.
Hypothesis rounding : roundsWithin err.

(** A destroyed target over one frame: no bullet touches it, and the
    respawn tick takes the delta off its timer. *)
Lemma frame_dead_target (inp : FrameInput) (w w' : World) (j : nat)
      (t : AerialTarget) :
  Game.frame cfg inp w = Some w' ->
  nth_error (targets w) j = Some t -> t_alive t = false ->
  let timer := numSub (t_respawnTimer t) (Rmin (i_delta inp) 0.05) in
  nth_error (targets w') j
  = Some (mkTarget (t_pos t) (if leb timer 0 then true else false) timer).
Proof.
  intros Hf Hj Ha. cbv zeta.
  destruct (frame_target cfg inp w w' j t Hf Hj) as [H | [H _]]; [|congruence].
  rewrite H. unfold Game.tickTarget. now rewrite Ha.
Qed.

Lemma clamped_delta (inp : FrameInput) :
  0 <= i_delta inp -> 0 <= Rmin (i_delta inp) 0.05 <= 0.05.
Proof. intros H. split; [apply Rmin_glb; lra | apply Rmin_r]. Qed.

(** A destroyed target stays destroyed while the deltas, with the rounding
    that may have gathered, add up to less than what was left on its timer;
    the timer is then within that rounding of the exact difference. *)
Lemma dead_target_run (inps : list FrameInput) :
  forall (w w' : World) (j : nat) (t : AerialTarget) (base c : R),
  nth_error (targets w) j = Some t -> t_alive t = false ->
  Forall (fun i => 0 <= i_delta i) inps ->
  Game.run cfg inps w = Some w' ->
  Rabs (t_respawnTimer t - base) <= c -> base <= 3 ->
  c + INR (List.length inps) * err <= 1 ->
  Game.elapsed inps + c + INR (List.length inps) * err < base ->
  exists tk, nth_error (targets w') j = Some tk /\ t_alive tk = false /\
    t_pos tk = t_pos t /\
    Rabs (t_respawnTimer tk - (base - Game.elapsed inps))
    <= c + INR (List.length inps) * err.
Proof.
  induction inps as [|inp rest IH]; intros w w' j t base c Hj Ha Hpos Hrun Hc Hb Hn Hlt.
  - cbn in *. injection Hrun as <-. exists t. repeat split; auto.
    apply Rabs_bound in Hc. apply Rabs_bound. lra.
  - cbn [Game.run] in Hrun. destruct (Game.frame cfg inp w) as [w1|] eqn:Hf;
      [|discriminate].
    inversion Hpos as [|? ? Hd Hrest]; subst.
    pose proof (elapsed_nonneg rest Hrest) as Hr.
    pose proof (clamped_delta inp Hd) as Hdt.
    pose proof (pos_INR (List.length rest)) as Hlen.
    cbn [Game.elapsed List.length] in *. rewrite S_INR in *.
    set (d := Rmin (i_delta inp) 0.05) in *.
    pose proof (frame_dead_target inp w w1 j t Hf Hj Ha) as H1. cbv zeta in H1.
    fold d in H1.
    apply Rabs_bound in Hc.
    assert (Hm : 0 <= INR (List.length rest) * err) by (apply Rmult_le_pos; lra).
    assert (Hrd : Rabs (numSub (t_respawnTimer t) d - (t_respawnTimer t - d)) <= err).
    { apply rounding. apply Rabs_bound. lra. }
    apply Rabs_bound in Hrd.
    replace (leb (numSub (t_respawnTimer t) d) 0) with false in H1
      by (symmetry; apply leb_false; lra).
    destruct (IH w1 w' j _ (base - d) (c + err) H1 eq_refl Hrest Hrun)
      as (tk & Hk & Hka & Hkp & Hkt); cbn [t_respawnTimer t_pos];
      try lra.
    { apply Rabs_bound. lra. }
    exists tk. repeat split; auto.
    apply Rabs_bound in Hkt. apply Rabs_bound. lra.
Qed.

(** Once the deltas have added up to what was left on the timer and the
    rounding that may have gathered, the target has come back: some frame of
    the run found it destroyed and left it alive. *)
Lemma respawn_frame (inps : list FrameInput) :
  forall (w wk : World) (j : nat) (t : AerialTarget) (base c : R),
  nth_error (targets w) j = Some t -> t_alive t = false ->
  0 < t_respawnTimer t ->
  Forall (fun i => 0 <= i_delta i) inps ->
  Game.run cfg inps w = Some wk ->
  Rabs (t_respawnTimer t - base) <= c -> base <= 3 ->
  c + INR (List.length inps) * err <= 1 ->
  base + c + INR (List.length inps) * err <= Game.elapsed inps ->
  exists before last after wb wl tb tl,
    inps = before ++ last :: after /\
    Game.run cfg before w = Some wb /\
    nth_error (targets wb) j = Some tb /\ t_alive tb = false /\
    0 < t_respawnTimer tb /\
    Rabs (t_respawnTimer tb - (base - Game.elapsed before))
    <= c + INR (List.length before) * err /\
    Game.frame cfg last wb = Some wl /\
    nth_error (targets wl) j = Some tl /\ t_alive tl = true /\
    t_respawnTimer tb - Rmin (i_delta last) 0.05 <= err.
Proof.
  induction inps as [|inp rest IH];
    intros w wk j t base c Hj Ha Ht Hpos Hrun Hc Hb Hn Hge.
  - cbn in *. apply Rabs_bound in Hc. lra.
  - cbn [Game.run] in Hrun. destruct (Game.frame cfg inp w) as [w1|] eqn:Hf;
      [|discriminate].
    inversion Hpos as [|? ? Hd Hrest]; subst.
    pose proof (clamped_delta inp Hd) as Hdt.
    pose proof (pos_INR (List.length rest)) as Hlen.
    cbn [Game.elapsed List.length] in *. rewrite S_INR in *.
    set (d := Rmin (i_delta inp) 0.05) in *.
    pose proof (frame_dead_target inp w w1 j t Hf Hj Ha) as H1. cbv zeta in H1.
    fold d in H1.
    pose proof Hc as Hc'. apply Rabs_bound in Hc'.
    assert (Hm : 0 <= INR (List.length rest) * err) by (apply Rmult_le_pos; lra).
    assert (Hrd : Rabs (numSub (t_respawnTimer t) d - (t_respawnTimer t - d)) <= err).
    { apply rounding. apply Rabs_bound. lra. }
    apply Rabs_bound in Hrd.
    destruct (leb (numSub (t_respawnTimer t) d) 0) eqn:Hz.
    + apply leb_true in Hz.
      exists [], inp, rest, w, w1, t. eexists.
      split; [reflexivity|]. split; [reflexivity|]. split; [exact Hj|].
      split; [exact Ha|]. split; [exact Ht|].
      split; [cbn; apply Rabs_bound; lra|].
      split; [exact Hf|]. split; [exact H1|]. split; [reflexivity|].
      fold d. lra.
    + apply leb_false in Hz.
      destruct (IH w1 wk j _ (base - d) (c + err) H1 eq_refl) as
        (before & last & after & wb & wl & tb & tl & -> & Hb1 & Hb2 & Hb3 & Hb4
         & Hb5 & Hl1 & Hl2 & Hl3 & Hl4); cbn [t_respawnTimer]; try lra; auto.
      { apply Rabs_bound. lra. }
      exists (inp :: before), last, after, wb, wl, tb, tl.
      split; [reflexivity|]. split; [cbn [Game.run]; now rewrite Hf|].
      split; [exact Hb2|]. split; [exact Hb3|]. split; [exact Hb4|].
      split.
      { cbn [Game.elapsed List.length]. rewrite S_INR. fold d.
        apply Rabs_bound in Hb5. apply Rabs_bound. lra. }
      auto.
Qed.

(** C8, as the code has it.  A hit marks the target dead with a respawn
    timer of 3 at once.  [tickTargets] runs later in the same frame, so the
    timer loses the delta of the hit frame too.  From then on every frame
    takes its delta off the timer, in the arithmetic of the runtime, and the
    first frame that leaves the timer at or below zero brings the target
    back.  With [err] the rounding error of one subtraction and [n] the
    number of frames from the hit frame on: the target is still destroyed
    while the deltas add up to less than [3 - n * err], and it has come back
    once they add up to [3 + n * err]; the frame that brings it back is one
    at which the sum of the deltas has reached 3, give or take that
    rounding. *)
Theorem target_respawn_frames :
  (forall p ts, fst (Game.hitScan p ts) = true ->
     exists j t, nth_error ts j = Some t /\ t_alive t = true /\
       Game.hitsTarget p t = true /\
       snd (Game.hitScan p ts) = setNth j (mkTarget (t_pos t) false 3) ts) /\
  (forall inp0 w0 w1 j t t1,
     nth_error (targets w0) j = Some t -> t_alive t = true ->
     0 <= i_delta inp0 ->
     Game.frame cfg inp0 w0 = Some w1 ->
     nth_error (targets w1) j = Some t1 -> t_alive t1 = false ->
     let d0 := Rmin (i_delta inp0) 0.05 in
     t1 = mkTarget (t_pos t) false (numSub 3 d0) /\
     Rabs (t_respawnTimer t1 - (3 - d0)) <= err /\
     forall inps wk,
       Forall (fun i => 0 <= i_delta i) inps ->
       Game.run cfg inps w1 = Some wk ->
       let n := INR (S (List.length inps)) in
       let total := d0 + Game.elapsed inps in
       n * err <= 1 ->
       (total + n * err < 3 ->
          exists tk, nth_error (targets wk) j = Some tk /\ t_alive tk = false /\
            t_pos tk = t_pos t /\
            Rabs (t_respawnTimer tk - (3 - total)) <= n * err) /\
       (3 + n * err <= total ->
          exists before last after wb wl tb tl,
            inps = before ++ last :: after /\
            Game.run cfg before w1 = Some wb /\
            nth_error (targets wb) j = Some tb /\ t_alive tb = false /\
            Game.frame cfg last wb = Some wl /\
            nth_error (targets wl) j = Some tl /\ t_alive tl = true /\
            let m := INR (S (List.length before)) in
            d0 + Game.elapsed before - m * err < 3 /\
            3 <= d0 + Game.elapsed (before ++ [last]) + (m + 1) * err)).
Proof.
  split; [exact hitScan_reports|].
  intros inp0 w0 w1 j t t1 Hj Ha Hd0 Hf Hj1 Hd1. cbv zeta.
  pose proof (clamped_delta inp0 Hd0) as Hdt.
  set (d0 := Rmin (i_delta inp0) 0.05) in *.
  assert (Ht1 : t1 = mkTarget (t_pos t) false (numSub 3 d0) /\ 0 < numSub 3 d0).
  { destruct (frame_target cfg inp0 w0 w1 j t Hf Hj) as [H | [_ H]];
      rewrite Hj1 in H; injection H as ->; unfold Game.tickTarget in *.
    - rewrite Ha in Hd1. simpl in Hd1. congruence.
    - cbn in *. unfold TARGET_RESPAWN_TIME in *. fold d0 in Hd1 |- *.
      destruct (leb (numSub 3 d0) 0) eqn:Hz; [discriminate|].
      apply leb_false in Hz. split; [reflexivity | lra]. }
  destruct Ht1 as [-> Hpos1]. cbn [t_respawnTimer].
  assert (Hr0 : Rabs (numSub 3 d0 - (3 - d0)) <= err).
  { apply rounding. apply Rabs_bound. lra. }
  split; [reflexivity|]. split; [exact Hr0|].
  intros inps wk Hpos Hrun Hn. rewrite S_INR in *. split.
  - intros Hlt.
    destruct (dead_target_run inps w1 wk j _ (3 - d0) err Hj1 eq_refl Hpos Hrun)
      as (tk & Hk & Hka & Hkp & Hkt); cbn [t_respawnTimer t_pos]; try lra.
    exists tk. repeat split; auto.
    apply Rabs_bound in Hkt. apply Rabs_bound. lra.
  - intros Hge.
    destruct (respawn_frame inps w1 wk j _ (3 - d0) err Hj1 eq_refl Hpos1 Hpos Hrun)
      as (before & last & after & wb & wl & tb & tl & Hi & Hb1 & Hb2 & Hb3 & Hb4
          & Hb5 & Hl1 & Hl2 & Hl3 & Hl4); cbn [t_respawnTimer]; try lra.
    exists before, last, after, wb, wl, tb, tl.
    repeat (split; [assumption|]).
    rewrite elapsed_app. cbn [Game.elapsed]. rewrite S_INR.
    apply Rabs_bound in Hb5. split; lra.
Qed.

End Respawn.

Lemma hit_in_first_frame :
  nth_error (snd (Game.tickBulletsLoop 0.035 hitPool Game.makeTargets)) 0
  = Some (mkTarget (mkVec3 40 50 60) false 3).
Proof.
  unfold hitPool. cbn [Game.tickBulletsLoop].
  assert (Hb : snd (Game.tickBullet 0.035
                 (mkBullet true (mkVec3 40 50 50) (mkVec3 0 0 280) 0) Game.makeTargets)
               = mkTarget (mkVec3 40 50 60) false 3 :: tl Game.makeTargets).
  { unfold Game.tickBullet. cbn [b_active negb b_age b_pos b_vel vx vy vz].
    replace (gtb (0 + 0.035) BULLET_LIFETIME) with false
      by (symmetry; apply gtb_false; unfold BULLET_LIFETIME; lra).
    replace (ltb 50 (-1)) with false by (symmetry; apply ltb_false; lra).
    cbn [orb]. unfold Game.makeTargets. cbn [map Game.hitScan t_alive andb].
    replace (Game.hitsTarget _ _) with true; [reflexivity|].
    symmetry. unfold Game.hitsTarget, addScaled, TARGET_HIT_RADIUS_SQ, TARGET_HIT_RADIUS.
    cbn [vx vy vz t_pos]. apply ltb_true. lra. }
  destruct (Game.tickBullet 0.035 _ Game.makeTargets) as [b' ts1]. simpl in Hb. subst ts1.
  match goal with |- context [Game.tickBulletsLoop ?d ?p ?t] =>
    pose proof (tickBulletsLoop_nth d p t 0 _ eq_refl) as H;
    destruct (Game.tickBulletsLoop d p t) end.
  simpl in *. destruct H as [H | [H _]]; [exact H | discriminate].
Qed.

(** Rounding to the grid is off by at most half a grid step. *)
Lemma grid_rounds : @roundsWithin gridArith (/ (2 * GRID)).
Proof.
  intros a b _. cbn [numSub gridArith].
  assert (HG : 0 < GRID) by (unfold GRID; lra).
  destruct (archimed ((a - b) * GRID - / 2)) as [H1 H2].
  set (n := IZR (up ((a - b) * GRID - / 2))) in *.
  replace (n / GRID - (a - b)) with ((n - (a - b) * GRID) / GRID) by (field; lra).
  apply Rabs_bound. split.
  - apply Rmult_le_reg_r with GRID; [exact HG|].
    replace ((n - (a - b) * GRID) / GRID * GRID) with (n - (a - b) * GRID) by (field; lra).
    replace (- / (2 * GRID) * GRID) with (- / 2) by (field; lra). lra.
  - apply Rmult_le_reg_r with GRID; [exact HG|].
    replace ((n - (a - b) * GRID) / GRID * GRID) with (n - (a - b) * GRID) by (field; lra).
    replace (/ (2 * GRID) * GRID) with (/ 2) by (field; lra). lra.
Qed.

Lemma grid_step_small : 0 <= / (2 * GRID) <= / 1000000.
Proof.
  unfold GRID. split.
  - left. apply Rinv_0_lt_compat. lra.
  - apply Rinv_le_contravar; lra.
Qed.

Lemma idle35_forward (n : nat) : Forall (fun i => 0 <= i_delta i) (repeat idle35 n).
Proof.
  apply Forall_forall. intros x Hx. apply repeat_spec in Hx. subst. simpl. lra.
Qed.

Lemma idle35_elapsed (n : nat) :
  Game.elapsed (repeat idle35 n) = IZR (Z.of_nat n) * 0.035.
Proof.
  rewrite elapsed_repeat, INR_IZR_INZ. f_equal. apply Rmin_left. simpl. lra.
Qed.

(** The first frame on [hitWorld], in the arithmetic that rounds to the
    grid: the first target is hit and left destroyed, with its timer within
    half a grid step of [3 - 0.035]. *)
Lemma hit_frame_grid :
  exists w1 t1,
    Game.frame (rt := gridArith) trackA idle35 hitWorld = Some w1 /\
    modeRef w1 = walking /\
    nth_error (targets w1) 0 = Some t1 /\ t_alive t1 = false /\
    t_pos t1 = mkVec3 40 50 60 /\
    Rabs (t_respawnTimer t1 - (3 - 0.035)) <= / (2 * GRID).
Proof.
  destruct (frame_walking_idle trackA (rt := gridArith) idle35 hitWorld eq_refl eq_refl)
    as (w1 & Hf & Hm1 & Ht1).
  assert (Hdt : Rmin (i_delta idle35) 0.05 = 0.035)
    by (apply Rmin_left; simpl; lra).
  rewrite Hdt in Ht1. cbn [hitWorld withBullets bullets targets Game.initWorld] in Ht1.
  pose proof (grid_rounds 3 0.035) as Hr.
  pose proof grid_step_small as Hs.
  assert (H4 : Rabs (3 - 0.035) <= 4) by (apply Rabs_bound; lra).
  specialize (Hr H4). pose proof Hr as Hr'. apply Rabs_bound in Hr'.
  exists w1. eexists. split; [exact Hf|]. split; [exact Hm1|].
  split.
  { rewrite Ht1, nth_error_map, hit_in_first_frame. cbn [option_map].
    unfold Game.tickTarget. cbn [t_alive negb t_respawnTimer t_pos].
    replace (leb (numSub 3 0.035) 0) with false by (symmetry; apply leb_false; lra).
    reflexivity. }
  cbn [t_alive t_pos t_respawnTimer]. auto.
Qed.

(** C8 as the specification words it fails.  With frames of 35 ms the first
    target is hit in the first frame; 84 frames later it is still dead and
    one frame after that it is alive.  The deltas since the hit frame ended
    add up to 2.975 s, those counted with the hit frame to 3.01 s: the
    target is back sooner than 3 s after the one, later than 3 s after the
    other, and at exactly 3 s after neither.  The frames are run in the
    arithmetic that rounds to the grid; the margins of 25 ms and 10 ms are
    far beyond any rounding. *)
Lemma target_respawn_not_exact :
  exists w1 wa wb t1 ta tb,
    nth_error (targets hitWorld) 0 = Some (mkTarget (mkVec3 40 50 60) true 0) /\
    Game.frame (rt := gridArith) trackA idle35 hitWorld = Some w1 /\
    nth_error (targets w1) 0 = Some t1 /\ t_alive t1 = false /\
    Game.run (rt := gridArith) trackA (repeat idle35 84) w1 = Some wa /\
    nth_error (targets wa) 0 = Some ta /\ t_alive ta = false /\
    Game.run (rt := gridArith) trackA (repeat idle35 85) w1 = Some wb /\
    nth_error (targets wb) 0 = Some tb /\ t_alive tb = true /\
    Game.elapsed (repeat idle35 85) < 3 /\
    Rmin (i_delta idle35) 0.05 + Game.elapsed (repeat idle35 85) > 3.
Proof.
  assert (Hdt : Rmin (i_delta idle35) 0.05 = 0.035)
    by (apply Rmin_left; simpl; lra).
  pose proof grid_step_small as Hs.
  destruct hit_frame_grid as (w1 & t1 & Hf & Hm1 & Hj1 & Hd1 & Hp1 & Hr1).
  destruct (run_walking_idle trackA (rt := gridArith) idle35 84 w1 Hm1 eq_refl)
    as (wa & Ha & Hma).
  destruct (dead_target_run trackA (/ (2 * GRID)) (proj1 Hs) grid_rounds
              (repeat idle35 84) w1 wa 0 t1 (3 - 0.035) (/ (2 * GRID))
              Hj1 Hd1 (idle35_forward 84) Ha Hr1)
    as (ta & Hja & Hda & Hpa & Hra);
    rewrite ?repeat_length, ?idle35_elapsed, ?INR_IZR_INZ; simpl Z.of_nat; try lra.
  rewrite repeat_length, idle35_elapsed, INR_IZR_INZ in Hra. simpl Z.of_nat in Hra.
  apply Rabs_bound in Hra.
  destruct (frame_walking_idle trackA (rt := gridArith) idle35 wa Hma eq_refl)
    as (wb & Hfb & _ & _).
  pose proof (frame_dead_target trackA idle35 wa wb 0 ta Hfb Hja Hda) as Hjb.
  cbv zeta in Hjb. rewrite Hdt in Hjb.
  pose proof (grid_rounds (t_respawnTimer ta) 0.035) as Hrb.
  assert (H4 : Rabs (t_respawnTimer ta - 0.035) <= 4) by (apply Rabs_bound; lra).
  specialize (Hrb H4). apply Rabs_bound in Hrb.
  replace (leb (numSub (t_respawnTimer ta) 0.035) 0) with true in Hjb
    by (symmetry; apply leb_true; lra).
  exists w1, wa, wb, t1, ta. eexists.
  split; [reflexivity|]. split; [exact Hf|]. split; [exact Hj1|]. split; [exact Hd1|].
  split; [exact Ha|]. split; [exact Hja|]. split; [exact Hda|].
  split. { change (repeat idle35 85) with (repeat idle35 (84 + 1)).
           rewrite repeat_app, run_app, Ha. cbn [repeat Game.run]. now rewrite Hfb. }
  split; [exact Hjb|]. split; [reflexivity|].
  rewrite ?Hdt, ?idle35_elapsed; simpl Z.of_nat; lra.
Qed.

Lemma target_respawn_frames_witness :
  exists w1,
    Game.frame (rt := gridArith) trackA idle35 hitWorld = Some w1 /\
    (exists wk tk,
       Game.run (rt := gridArith) trackA (repeat idle35 10) w1 = Some wk /\
       nth_error (targets wk) 0 = Some tk /\ t_alive tk = false /\
       Rabs (t_respawnTimer tk - (3 - 11 * 0.035)) <= 11 * / (2 * GRID)) /\
    (exists before last after wb wl tl,
       repeat idle35 85 = before ++ last :: after /\
       Game.run (rt := gridArith) trackA before w1 = Some wb /\
       Game.frame (rt := gridArith) trackA last wb = Some wl /\
       nth_error (targets wl) 0 = Some tl /\ t_alive tl = true).
Proof.
  assert (Hdt : Rmin (i_delta idle35) 0.05 = 0.035)
    by (apply Rmin_left; simpl; lra).
  pose proof grid_step_small as Hs.
  destruct hit_frame_grid as (w1 & t1 & Hf & Hm1 & Hj1 & Hd1 & _).
  destruct (run_walking_idle trackA (rt := gridArith) idle35 10 w1 Hm1 eq_refl)
    as (wk & Hk & _).
  destruct (run_walking_idle trackA (rt := gridArith) idle35 85 w1 Hm1 eq_refl)
    as (wz & Hz & _).
  destruct (target_respawn_frames trackA (/ (2 * GRID)) (proj1 Hs) grid_rounds)
    as [_ Hrun].
  destruct (Hrun idle35 hitWorld w1 0%nat (mkTarget (mkVec3 40 50 60) true 0) t1
              eq_refl eq_refl ltac:(simpl; lra) Hf Hj1 Hd1) as (_ & _ & Hlater).
  exists w1. split; [exact Hf|]. split.
  - destruct (Hlater (repeat idle35 10) wk (idle35_forward 10) Hk) as [Hdead _].
    { rewrite repeat_length, INR_IZR_INZ. simpl Z.of_nat. lra. }
    rewrite Hdt, repeat_length, idle35_elapsed, INR_IZR_INZ in Hdead.
    simpl Z.of_nat in Hdead.
    destruct Hdead as (tk & Hjk & Hdk & _ & Hrk); [lra|].
    exists wk, tk. repeat (split; [assumption|]).
    replace (3 - 11 * 0.035) with (3 - (0.035 + 10 * 0.035)) by lra. exact Hrk.
  - destruct (Hlater (repeat idle35 85) wz (idle35_forward 85) Hz) as [_ Hback].
    { rewrite repeat_length, INR_IZR_INZ. simpl Z.of_nat. lra. }
    rewrite Hdt, repeat_length, idle35_elapsed, INR_IZR_INZ in Hback.
    simpl Z.of_nat in Hback.
    destruct Hback as (before & last & after & wb & wl & tb & tl & Hi & Hb1 & _ & _
                       & Hl1 & Hl2 & Hl3 & _); [lra|].
    exists before, last, after, wb, wl, tl. auto.
Defined.

(** ** Collision resolver *)

Lemma resolveCollision_hit (me : VehicleState) (ox oz r : R) (po : option Vec3) :
  let minDist := Game.vehicleRadius (v_type me) + r in
  let dx := vx (v_pos me) - ox in
  let dz := vz (v_pos me) - oz in
  let dist := sqrt (dx * dx + dz * dz) in
  let overlap := minDist - dist in
  let nx := dx / dist in
  let nz := dz / dist in
  let share := match po with Some _ => 0.5 | None => 1.0 end in
  let dot := sin (v_rot me) * nx + cos (v_rot me) * nz in
  dist < minDist -> dist > 0.01 ->
  Game.resolveCollision me ox oz r po =
  (withSpeed
     (withPos me (mkVec3 (vx (v_pos me) + nx * overlap * share) (vy (v_pos me))
                         (vz (v_pos me) + nz * overlap * share)))
     (if gtb dot 0 then v_speed me * - COLLISION_BOUNCE else v_speed me),
   option_map (fun o => mkVec3 (vx o - nx * overlap * 0.5) (vy o)
                               (vz o - nz * overlap * 0.5)) po).
Proof.
  cbv zeta. intros H1 H2. unfold Game.resolveCollision.
  apply ltb_true in H1. apply gtb_true in H2. rewrite H1, H2. reflexivity.
Qed.

Lemma resolveCollision_miss (me : VehicleState) (ox oz r : R) (po : option Vec3) :
  let dx := vx (v_pos me) - ox in
  let dz := vz (v_pos me) - oz in
  let dist := sqrt (dx * dx + dz * dz) in
  Game.vehicleRadius (v_type me) + r <= dist \/ dist <= 0.01 ->
  Game.resolveCollision me ox oz r po = (me, po).
Proof.
  cbv zeta. intros H. unfold Game.resolveCollision.
  destruct H as [H | H]; [apply ltb_false in H | apply gtb_false in H]; rewrite H;
    rewrite ?andb_false_r; reflexivity.
Qed.

(** The pushes of the resolver.  When the active vehicle overlaps another
    entity (planar distance below the sum of the radii and above 0.01), the
    resolver moves it along the unit vector from the other entity to
    itself: by the whole overlap against a remote player, by half of it
    against a parked vehicle, which moves back by the other half.  The
    speed is multiplied by -0.6 exactly when the heading has a positive
    component along that vector.  Radii: car 1.2, plane 2.0, pedestrian
    1.0.  The two loops call the helper with [None] for remote players and
    with the position of the parked vehicle for the roster. *)
Lemma resolveCollision_effect (me : VehicleState) (ox oz r : R) (po : option Vec3) :
  let minDist := Game.vehicleRadius (v_type me) + r in
  let dx := vx (v_pos me) - ox in
  let dz := vz (v_pos me) - oz in
  let dist := sqrt (dx * dx + dz * dz) in
  let overlap := minDist - dist in
  let nx := dx / dist in
  let nz := dz / dist in
  let dot := sin (v_rot me) * nx + cos (v_rot me) * nz in
  let me' := fst (Game.resolveCollision me ox oz r po) in
  let po' := snd (Game.resolveCollision me ox oz r po) in
  dist < minDist -> dist > 0.01 ->
  (po = None ->
     vx (v_pos me') = vx (v_pos me) + nx * overlap /\
     vz (v_pos me') = vz (v_pos me) + nz * overlap /\ po' = None) /\
  (forall o, po = Some o ->
     vx (v_pos me') = vx (v_pos me) + nx * overlap * 0.5 /\
     vz (v_pos me') = vz (v_pos me) + nz * overlap * 0.5 /\
     po' = Some (mkVec3 (vx o - nx * overlap * 0.5) (vy o) (vz o - nz * overlap * 0.5))) /\
  (dot > 0 -> v_speed me' = - 0.6 * v_speed me) /\
  (dot <= 0 -> v_speed me' = v_speed me) /\
  vy (v_pos me') = vy (v_pos me) /\ v_rot me' = v_rot me /\
  Game.vehicleRadius car = 1.2 /\ Game.vehicleRadius airplane = 2.0 /\
  Game.remoteRadius driving = 1.2 /\ Game.remoteRadius flying = 2.0 /\
  Game.remoteRadius walking = 1.0 /\
  (forall rp rest,
     Game.collideRemote me (rp :: rest)
     = Game.collideRemote
         (fst (Game.resolveCollision me (vx (rp_position rp)) (vz (rp_position rp))
                 (Game.remoteRadius (rp_mode rp)) None)) rest) /\
  (forall act i other rest, i <> act ->
     let out := Game.resolveCollision me (vx (v_pos other)) (vz (v_pos other))
                  (Game.vehicleRadius (v_type other)) (Some (v_pos other)) in
     exists p, snd out = Some p /\
       Game.collideLocal act i me (other :: rest)
       = (fst (Game.collideLocal act (S i) (fst out) rest),
          withPos other p :: snd (Game.collideLocal act (S i) (fst out) rest))).
Proof.
  cbv zeta. intros H1 H2.
  rewrite (resolveCollision_hit me ox oz r po H1 H2). cbn.
  split; [intros ->; cbn; repeat split; lra|].
  split; [intros o ->; cbn; repeat split; lra|].
  split; [intros Hd; apply gtb_true in Hd; rewrite Hd; unfold COLLISION_BOUNCE; lra|].
  split; [intros Hd; apply gtb_false in Hd; rewrite Hd; reflexivity|].
  repeat (split; [reflexivity|]).
  split.
  - intros rp rest. cbn [Game.collideRemote].
    now destruct (Game.resolveCollision me _ _ _ None).
  - intros act i other rest Hne. cbn [Game.collideLocal].
    apply Nat.eqb_neq in Hne. rewrite Hne.
    assert (Hs : exists p, snd (Game.resolveCollision me (vx (v_pos other))
                   (vz (v_pos other)) (Game.vehicleRadius (v_type other))
                   (Some (v_pos other))) = Some p).
    { unfold Game.resolveCollision. destruct (_ && _); cbn; eauto. }
    destruct Hs as (p & Hp). exists p. split; [exact Hp|].
    destruct (Game.resolveCollision me _ _ _ (Some (v_pos other))) as [me1 po1].
    cbn in *. subst po1.
    now destruct (Game.collideLocal act (S i) me1 rest).
Qed.

Lemma sqrt_0_1 : sqrt ((0 - 0) * (0 - 0) + (1 - 0) * (1 - 0)) = 1.
Proof.
  replace ((0 - 0) * (0 - 0) + (1 - 0) * (1 - 0)) with 1 by lra. apply sqrt_1.
Qed.

(** Pushing by the full overlap puts the vehicle at exactly the sum of the
    radii from a remote player. *)
Lemma full_push_clears_overlap (me : VehicleState) (ox oz r : R) :
  let minDist := Game.vehicleRadius (v_type me) + r in
  let dx := vx (v_pos me) - ox in
  let dz := vz (v_pos me) - oz in
  let dist := sqrt (dx * dx + dz * dz) in
  let me' := fst (Game.resolveCollision me ox oz r None) in
  dist < minDist -> dist > 0.01 ->
  sqrt ((vx (v_pos me') - ox) * (vx (v_pos me') - ox)
        + (vz (v_pos me') - oz) * (vz (v_pos me') - oz)) = minDist.
Proof.
  cbv zeta. intros H1 H2.
  rewrite (resolveCollision_hit me ox oz r None H1 H2). cbn.
  set (dx := vx (v_pos me) - ox) in *. set (dz := vz (v_pos me) - oz) in *.
  set (d := sqrt (dx * dx + dz * dz)) in *.
  set (m := Game.vehicleRadius (v_type me) + r) in *.
  assert (Hd : d * d = dx * dx + dz * dz) by (apply sqrt_sqrt; nra).
  replace ((vx (v_pos me) + dx / d * (m - d) * 1.0 - ox)
           * (vx (v_pos me) + dx / d * (m - d) * 1.0 - ox)
           + (vz (v_pos me) + dz / d * (m - d) * 1.0 - oz)
             * (vz (v_pos me) + dz / d * (m - d) * 1.0 - oz))
    with (m * m * ((dx * dx + dz * dz) / (d * d))).
  - rewrite <- Hd. replace (m * m * (d * d / (d * d))) with (m * m) by (field; lra).
    apply sqrt_square. lra.
  - replace (vx (v_pos me)) with (dx + ox) by (unfold dx; ring).
    replace (vz (v_pos me)) with (dz + oz) by (unfold dz; ring).
    replace 1.0 with 1 by lra. field. lra.
Qed.

(** ** Speeds *)

Lemma clamp_bounds (lo hi x : R) : lo <= hi -> lo <= clamp lo hi x <= hi.
Proof.
  intros H. unfold clamp, Rmax, Rmin.
  repeat destruct (Rle_dec _ _); lra.
Qed.

Lemma driveMaxSpeed_ge (onRoad boosting : bool) :
  65 <= Game.driveMaxSpeed onRoad boosting.
Proof.
  unfold Game.driveMaxSpeed, DRIVE_maxSpeed, DRIVE_grassMaxSpeed.
  destruct onRoad, boosting; lra.
Qed.

Lemma driveSpeed_bounds (dt : R) (k : Keys) (onRoad boosting : bool) (s : R) :
  - 18 <= Game.driveSpeed dt k onRoad boosting s <= Game.driveMaxSpeed onRoad boosting.
Proof.
  pose proof (driveMaxSpeed_ge onRoad boosting) as HM.
  unfold Game.driveSpeed.
  match goal with |- context [clamp ?lo ?hi ?x] =>
    pose proof (clamp_bounds lo hi x) as Hc end.
  unfold DRIVE_reverseMax in *.
  match goal with |- context [if ?c then 0 else _] => destruct c end; lra.
Qed.

Lemma flySpeed_bounds (dt : R) (k : Keys) (s : R) :
  0 <= Game.flySpeed dt k s <= 120.
Proof.
  unfold Game.flySpeed, FLY_maxSpeed. apply clamp_bounds. lra.
Qed.

Section Speeds.
Variable cfg : Track.Config.
Context {rt : Runtime}.

Lemma driveVertical_speed (dt : R) (k : Keys) (v : VehicleState) (velY : R) (og : bool) :
  let v' := fst (fst (Game.driveVertical cfg dt k v velY og)) in
  v_rot v' = v_rot v /\
  (v_speed v' = v_speed v \/ v_speed v' = v_speed v * -0.3).
Proof.
  unfold Game.driveVertical. cbv zeta.
  destruct og.
  - destruct (gtb _ MAX_STEP_UP).
    + destruct (k_space k && true); cbn; auto.
    + destruct (geb _ _).
      * destruct (k_space k && true); cbn; auto.
      * destruct (k_space k && false); cbn; auto.
  - destruct (leb _ _); cbn; auto.
Qed.

End Speeds.

(** What the resolver can do to the speed: nothing, or one bounce. *)
Lemma resolveCollision_speed (me : VehicleState) (ox oz r : R) (po : option Vec3) :
  let me' := fst (Game.resolveCollision me ox oz r po) in
  v_rot me' = v_rot me /\ v_type me' = v_type me /\
  (v_speed me' = v_speed me \/ v_speed me' = v_speed me * - COLLISION_BOUNCE).
Proof.
  unfold Game.resolveCollision. cbv zeta.
  destruct (_ && _); cbn; auto. destruct (gtb _ 0); auto.
Qed.

Lemma collideRemote_speed (P : R -> Prop) (me : VehicleState) (rps : list RemotePlayer) :
  (forall s, P s -> P (s * - COLLISION_BOUNCE)) ->
  P (v_speed me) ->
  P (v_speed (Game.collideRemote me rps)) /\
  v_rot (Game.collideRemote me rps) = v_rot me.
Proof.
  intros HP. revert me; induction rps as [|rp rest IH]; intros me Hme; cbn; auto.
  pose proof (resolveCollision_speed me (vx (rp_position rp)) (vz (rp_position rp))
                (Game.remoteRadius (rp_mode rp)) None) as (Hr & _ & Hs).
  destruct (Game.resolveCollision me _ _ _ None) as [me1 po]. cbn in *.
  rewrite <- Hr. apply IH. destruct Hs as [-> | ->]; auto.
Qed.

Lemma collideLocal_speed (P : R -> Prop) (act i : nat) (me : VehicleState)
      (vs : list VehicleState) :
  (forall s, P s -> P (s * - COLLISION_BOUNCE)) ->
  P (v_speed me) ->
  P (v_speed (fst (Game.collideLocal act i me vs))) /\
  v_rot (fst (Game.collideLocal act i me vs)) = v_rot me /\
  List.length (snd (Game.collideLocal act i me vs)) = List.length vs.
Proof.
  intros HP. revert i me; induction vs as [|other rest IH]; intros i me Hme;
    cbn [Game.collideLocal]; [cbn; auto|].
  destruct (Nat.eqb i act).
  - specialize (IH (S i) me Hme).
    destruct (Game.collideLocal act (S i) me rest). cbn in *.
    destruct IH as (? & ? & ->). auto.
  - pose proof (resolveCollision_speed me (vx (v_pos other)) (vz (v_pos other))
                  (Game.vehicleRadius (v_type other)) (Some (v_pos other)))
      as (Hr & _ & Hs).
    destruct (Game.resolveCollision me _ _ _ (Some (v_pos other))) as [me1 po].
    cbn in Hr, Hs.
    assert (H1 : P (v_speed me1)) by (destruct Hs as [-> | ->]; auto).
    specialize (IH (S i) me1 H1).
    destruct (Game.collideLocal act (S i) me1 rest). cbn in *.
    destruct IH as (? & ? & ->). rewrite <- Hr. auto.
Qed.

(** The resolver in a vehicle: it cannot throw, and the speed of the
    active vehicle afterwards is its speed before, bounced some times. *)
Lemma collisions_active (rps : list RemotePlayer) (w : World) (i : nat)
      (me : VehicleState) :
  modeRef w <> walking -> activeIdx w = Some i ->
  nth_error (vehicles w) i = Some me ->
  exists w' me',
    Game.tickVehicleCollisions rps w = Some w' /\
    nth_error (vehicles w') i = Some me' /\
    v_rot me' = v_rot me /\
    forall P : R -> Prop, (forall s, P s -> P (s * - COLLISION_BOUNCE)) ->
      P (v_speed me) -> P (v_speed me').
Proof.
  intros Hm Hi Hme. unfold Game.tickVehicleCollisions. rewrite Hi, Hme.
  pose proof (fun P => collideLocal_speed P i 0 me (vehicles w)) as Hl.
  destruct (Game.collideLocal i 0 me (vehicles w)) as [me1 vs1]. cbn [fst snd] in Hl.
  assert (Hlen : List.length vs1 = List.length (vehicles w)).
  { destruct (Hl (fun _ => True)) as (_ & _ & H); auto. }
  exists (withVehicles w (setNth i (Game.collideRemote me1 rps) vs1)),
         (Game.collideRemote me1 rps).
  split; [destruct (modeRef w); congruence|].
  split; [cbn; apply setNth_same; rewrite Hlen; apply nth_error_Some; congruence|].
  split.
  - destruct (Hl (fun _ => True)) as (_ & Hr & _); auto.
    destruct (collideRemote_speed (fun _ => True) me1 rps) as (_ & Hr2); auto.
    congruence.
  - intros P HP Hs. destruct (Hl P HP Hs) as (H1 & _).
    now destruct (collideRemote_speed P me1 rps HP H1).
Qed.

Section FrameSpeeds.
Variable cfg : Track.Config.
Context {rt : Runtime}.

Lemma tickFlying_spec (dt : R) (k : Keys) (mouse : FrameMouse) (w : World)
      (i : nat) (v : VehicleState) :
  activeIdx w = Some i -> nth_error (vehicles w) i = Some v ->
  let yawVel := (flyYawVel w + - m_dx mouse * 0.002) * (1 - 5 * dt) in
  exists w' v',
    Game.tickFlying cfg dt k false mouse w = Some w' /\
    vehicles w' = setNth i v' (vehicles w) /\
    v_speed v' = Game.flySpeed dt k (v_speed v) /\
    v_rot v' = v_rot v + yawVel * dt /\
    vx (v_pos v') = vx (v_pos v) + sin (v_rot v') * v_speed v' * dt /\
    vz (v_pos v') = vz (v_pos v) + cos (v_rot v') * v_speed v' * dt /\
    v_type v' = v_type v /\
    modeRef w' = modeRef w /\ activeIdx w' = activeIdx w /\
    bullets w' = bullets w /\ targets w' = targets w.
Proof.
  intros Hi Hv. cbv zeta. unfold Game.tickFlying. rewrite Hi, Hv. cbn [andb].
  eexists. eexists. split; [reflexivity|]. cbn. repeat split.
Qed.

Lemma fireBullet_total (w : World) (v : VehicleState) :
  activeVehicle w = Some v -> exists w', Game.fireBullet w = Some w'.
Proof.
  intros Hv. unfold Game.fireBullet. rewrite Hv.
  destruct (forallb b_active (bullets w)); [eauto|].
  destruct (Game.activateFirst _ _); eauto.
Qed.

(** The last four stages of a frame in a vehicle. *)
Lemma frame_tail_active (dt : R) (rps : list RemotePlayer) (w2 : World) (i : nat)
      (me : VehicleState) :
  modeRef w2 <> walking -> activeIdx w2 = Some i ->
  nth_error (vehicles w2) i = Some me ->
  exists w' me',
    Game.tickVehicleCollisions rps
      (Game.tickTargets dt (Game.tickMuzzleFlash dt (Game.tickBullets dt w2))) = Some w' /\
    nth_error (vehicles w') i = Some me' /\
    v_rot me' = v_rot me /\
    forall P : R -> Prop, (forall s, P s -> P (s * - COLLISION_BOUNCE)) ->
      P (v_speed me) -> P (v_speed me').
Proof.
  intros Hm Hi Hme.
  destruct (projectile_ticks_spec dt w2) as (_ & _ & Hv & Hmode & Hact & _).
  cbv zeta in *. apply collisions_active; congruence.
Qed.

Lemma frame_driving (inp : FrameInput) (w : World) (i : nat) (v : VehicleState) :
  modeRef w = driving -> i_interact inp = false -> finished (race w) = false ->
  activeIdx w = Some i -> nth_error (vehicles w) i = Some v ->
  let dt := Rmin (i_delta inp) 0.05 in
  let k := i_keys inp in
  let boosting := k_shift k && gtb (boostMeter w) 0 && k_forward k in
  let onRoad := Track.isOnTrack cfg (mkVec3 (vx (v_pos v)) 0 (vz (v_pos v))) in
  let s0 := Game.driveSpeed dt k onRoad boosting (v_speed v) in
  exists w' v',
    Game.frame cfg inp w = Some w' /\ nth_error (vehicles w') i = Some v' /\
    forall P : R -> Prop, (forall s, P s -> P (s * - COLLISION_BOUNCE)) ->
      P s0 -> P (s0 * -0.3) -> P (v_speed v').
Proof.
  intros Hm He Hfin Hi Hv. cbv zeta.
  destruct (tickDriving_spec cfg (i_now inp) (Rmin (i_delta inp) 0.05) (i_keys inp)
              w i v Hfin Hi Hv) as (w1 & Hw1 & _ & _ & Hvs & Hm1 & Hi1 & _).
  cbv zeta in Hvs.
  match type of Hvs with _ = setNth i (fst (fst ?out)) _ =>
    pose proof (driveVertical_speed cfg (Rmin (i_delta inp) 0.05) (i_keys inp)
                  (Game.driveMove (Rmin (i_delta inp) 0.05)
                     (Game.driveSteer (Rmin (i_delta inp) 0.05) (i_keys inp)
                        (withSpeed v (Game.driveSpeed (Rmin (i_delta inp) 0.05)
                           (i_keys inp)
                           (Track.isOnTrack cfg (mkVec3 (vx (v_pos v)) 0 (vz (v_pos v))))
                           (k_shift (i_keys inp) && gtb (boostMeter w) 0
                            && k_forward (i_keys inp)) (v_speed v)))))
                  (carVelY w) (carOnGround w)) as (_ & Hs);
    set (v3 := fst (fst out)) in * end.
  cbn in Hs.
  assert (Hn : nth_error (vehicles w1) i = Some v3).
  { rewrite Hvs. apply setNth_same. apply nth_error_Some. congruence. }
  destruct (frame_tail_active (Rmin (i_delta inp) 0.05) (i_remotePlayers inp) w1 i v3)
    as (w' & v' & Hw' & Hn' & _ & HP); [congruence | congruence | exact Hn |].
  exists w', v'. split; [|split; [exact Hn'|]].
  - unfold Game.frame. rewrite Hm, He. cbv zeta. rewrite Hw1. exact Hw'.
  - intros P Hc H0 H3. apply HP; [exact Hc|]. destruct Hs as [-> | ->]; assumption.
Qed.

Lemma frame_flying (inp : FrameInput) (w : World) (i : nat) (v : VehicleState) :
  modeRef w = flying -> i_interact inp = false ->
  activeIdx w = Some i -> nth_error (vehicles w) i = Some v ->
  let dt := Rmin (i_delta inp) 0.05 in
  let s0 := Game.flySpeed dt (i_keys inp) (v_speed v) in
  exists w' v',
    Game.frame cfg inp w = Some w' /\ nth_error (vehicles w') i = Some v' /\
    forall P : R -> Prop, (forall s, P s -> P (s * - COLLISION_BOUNCE)) ->
      P s0 -> P (v_speed v').
Proof.
  intros Hm He Hi Hv. cbv zeta.
  destruct (tickFlying_spec (Rmin (i_delta inp) 0.05) (i_keys inp) (i_mouse inp)
              w i v Hi Hv)
    as (w1 & v1 & Hw1 & Hvs & Hs & _ & _ & _ & _ & Hm1 & Hi1 & _).
  assert (Hn : nth_error (vehicles w1) i = Some v1).
  { rewrite Hvs. apply setNth_same. apply nth_error_Some. congruence. }
  assert (Hfire : exists w2,
    (if m_fireDown (i_mouse inp)
        && geb (i_now inp / 1000 - lastFireTime w1) FIRE_COOLDOWN
     then Game.fireBullet (withLastFireTime w1 (i_now inp / 1000))
     else Some w1) = Some w2 /\
    modeRef w2 = flying /\ activeIdx w2 = Some i /\ nth_error (vehicles w2) i = Some v1).
  { destruct (_ && _).
    - destruct (fireBullet_total (withLastFireTime w1 (i_now inp / 1000)) v1)
        as (w2 & Hw2).
      { unfold activeVehicle. cbn. rewrite Hi1, Hi. exact Hn. }
      exists w2. split; [exact Hw2|].
      apply fireBullet_fields in Hw2 as (_ & _ & Hv2 & Hm2 & Hi2). cbn in *.
      rewrite Hm2, Hi2, Hv2. repeat split; congruence.
    - exists w1. repeat split; congruence. }
  destruct Hfire as (w2 & Hw2 & Hm2 & Hi2 & Hn2).
  destruct (frame_tail_active (Rmin (i_delta inp) 0.05) (i_remotePlayers inp) w2 i v1)
    as (w' & v' & Hw' & Hn' & _ & HP); [congruence | congruence | exact Hn2 |].
  exists w', v'. split; [|split; [exact Hn'|]].
  - unfold Game.frame. rewrite Hm, He. cbv zeta. rewrite Hw1, Hw2. exact Hw'.
  - intros P Hc H0. apply HP; [exact Hc|]. rewrite Hs. exact H0.
Qed.

(** The ground a walking step covers is that of speed 0, 8 or 16 over the
    step: 0 when no key moves the player or a wall undoes the move, else 8,
    or 16 with shift held. *)
Lemma tickWalking_displacement (now dt : R) (k : Keys) (justE : bool)
      (taken : list string) (w : World) :
  let p := charPos w in
  let p' := charPos (Game.tickWalking cfg now dt k justE taken w) in
  exists s, (s = 0 \/ s = 8 \/ s = 16) /\
    (vx p' - vx p) * (vx p' - vx p) + (vz p' - vz p) * (vz p' - vz p)
    = (s * dt) * (s * dt).
Proof.
  cbv zeta. unfold Game.tickWalking. cbv zeta.
  match goal with |- context [gtb (sqrt (?mx * ?mx + ?mz * ?mz)) 0.001] =>
    set (moveX := mx); set (moveZ := mz);
    set (len := sqrt (moveX * moveX + moveZ * moveZ)) end.
  set (base := if k_shift k then WALK_runSpeed else WALK_speed).
  assert (Hbase : base = 8 \/ base = 16).
  { unfold base, WALK_runSpeed, WALK_speed. destruct (k_shift k); auto. }
  assert (Hlen : len * len = moveX * moveX + moveZ * moveZ).
  { apply sqrt_sqrt. nra. }
  clearbody moveX moveZ len base.
  destruct (gtb len 0.001) eqn:Hmov.
  - apply gtb_true in Hmov. cbn [vx vy vz].
    match goal with |- context [if gtb ?a MAX_STEP_UP then _ else _] =>
      destruct (gtb a MAX_STEP_UP) end.
    + exists 0. split; [auto|].
      match goal with |- context [match ?E with Some _ => _ | None => _ end] =>
        destruct E as [[idx ve]|] end; cbn; ring.
    + exists base. split; [tauto|].
      match goal with |- context [match ?E with Some _ => _ | None => _ end] =>
        destruct E as [[idx ve]|] end; cbn;
      (replace (vx (charPos w) + moveX / len * base * dt - vx (charPos w))
         with (moveX / len * base * dt) by ring;
       replace (vz (charPos w) + moveZ / len * base * dt - vz (charPos w))
         with (moveZ / len * base * dt) by ring;
       replace (moveX / len * base * dt * (moveX / len * base * dt)
                + moveZ / len * base * dt * (moveZ / len * base * dt))
         with ((moveX * moveX + moveZ * moveZ) / (len * len) * (base * dt * (base * dt)))
         by (field; lra);
       rewrite <- Hlen; field; lra).
  - exists 0. split; [auto|].
    match goal with |- context [if gtb ?a MAX_STEP_UP then _ else _] =>
      destruct (gtb a MAX_STEP_UP) end;
    match goal with |- context [match ?E with Some _ => _ | None => _ end] =>
      destruct E as [[idx ve]|] end; cbn; ring.
Qed.
End FrameSpeeds.

Section FrameSpeedsAll.
Variable cfg : Track.Config.
Context {rt : Runtime}.

(** On foot the collision resolver does nothing. *)
Lemma collisions_on_foot (rps : list RemotePlayer) (w : World) :
  modeRef w = walking -> Game.tickVehicleCollisions rps w = Some w.
Proof. intros H. unfold Game.tickVehicleCollisions. now rewrite H. Qed.

(** Leaving a vehicle leaves it standing. *)
Lemma exitVehicle_parks (w w' : World) (i : nat) :
  Game.exitVehicle cfg w = Some w' -> activeIdx w = Some i ->
  modeRef w' = walking /\
  exists v', nth_error (vehicles w') i = Some v' /\ v_speed v' = 0.
Proof.
  unfold Game.exitVehicle. intros H Hi. rewrite Hi in H.
  destruct (nth_error (vehicles w) i) as [v|] eqn:Hv; [|discriminate].
  injection H as <-. cbn. split; [reflexivity|].
  eexists. split; [apply setNth_same; apply nth_error_Some; congruence|].
  reflexivity.
Qed.

(** A frame whose mode step ends on foot: the later stages leave the roster
    as the mode step left it. *)
Lemma frame_left (inp : FrameInput) (w w1 w' : World) :
  match modeRef w with
  | walking => Some (Game.tickWalking cfg (i_now inp) (Rmin (i_delta inp) 0.05)
                       (i_keys inp) (i_interact inp) (i_takenVehicleIds inp) w)
  | driving => Game.tickDriving cfg (i_now inp) (Rmin (i_delta inp) 0.05)
                 (i_keys inp) (i_interact inp) w
  | flying => Game.tickFlying cfg (Rmin (i_delta inp) 0.05) (i_keys inp)
                (i_interact inp) (i_mouse inp) w
  end = Some w1 ->
  modeRef w1 = walking ->
  Game.frame cfg inp w = Some w' ->
  vehicles w' = vehicles w1 /\ modeRef w' = walking.
Proof.
  intros H1 Hm1 Hf.
  apply frame_stages in Hf as (w1' & w2 & H1' & H2 & H3). cbv zeta in *.
  rewrite H1 in H1'. injection H1' as <-.
  assert (Hw2 : vehicles w2 = vehicles w1 /\ modeRef w2 = walking).
  { destruct H2 as [-> | H2]; [auto|].
    apply fireBullet_fields in H2 as (_ & _ & Hv & Hm & _). cbn in *.
    rewrite Hv, Hm. auto. }
  destruct Hw2 as [Hv2 Hm2].
  destruct (projectile_ticks_spec (Rmin (i_delta inp) 0.05) w2)
    as (_ & _ & Hv3 & Hm3 & _). cbv zeta in *.
  rewrite collisions_on_foot in H3 by congruence.
  injection H3 as <-. split; congruence.
Qed.

(** A driving frame of a finished session without E: the mode step does
    nothing, so nothing clamps the speed; the resolver may still bounce
    it. *)
Lemma frame_driving_finished (inp : FrameInput) (w : World) (i : nat)
      (v : VehicleState) :
  modeRef w = driving -> i_interact inp = false -> finished (race w) = true ->
  activeIdx w = Some i -> nth_error (vehicles w) i = Some v ->
  exists w' v',
    Game.frame cfg inp w = Some w' /\ nth_error (vehicles w') i = Some v' /\
    forall P : R -> Prop, (forall s, P s -> P (s * - COLLISION_BOUNCE)) ->
      P (v_speed v) -> P (v_speed v').
Proof.
  intros Hm He Hfin Hi Hv.
  destruct (frame_tail_active (Rmin (i_delta inp) 0.05) (i_remotePlayers inp) w i v)
    as (w' & v' & Hw' & Hn' & _ & HP); [congruence | exact Hi | exact Hv |].
  exists w', v'. split; [|split; [exact Hn' | exact HP]].
  unfold Game.frame. rewrite Hm, He. cbv zeta.
  unfold Game.tickDriving. rewrite Hfin. exact Hw'.
Qed.

(** A driving frame with E: the car is left, standing. *)
Lemma frame_driving_exit (inp : FrameInput) (w : World) (i : nat) (v : VehicleState) :
  modeRef w = driving -> i_interact inp = true ->
  activeIdx w = Some i -> nth_error (vehicles w) i = Some v ->
  exists w' v',
    Game.frame cfg inp w = Some w' /\ modeRef w' = walking /\
    nth_error (vehicles w') i = Some v' /\ v_speed v' = 0.
Proof.
  intros Hm He Hi Hv.
  assert (Hx : exists w1, Game.exitVehicle cfg w = Some w1).
  { unfold Game.exitVehicle. rewrite Hi, Hv. eauto. }
  destruct Hx as (w1 & Hx).
  destruct (exitVehicle_parks w w1 i Hx Hi) as (Hm1 & v' & Hn & Hs).
  destruct (projectile_ticks_spec (Rmin (i_delta inp) 0.05) w1)
    as (_ & _ & Hv3 & Hm3 & _). cbv zeta in *.
  eexists. exists v'. split.
  - unfold Game.frame. rewrite Hm, He. cbv zeta.
    unfold Game.tickDriving. rewrite Hx.
    apply collisions_on_foot. congruence.
  - split; [congruence|]. split; [congruence | exact Hs].
Qed.

(** With the plane higher than 1 above the ground level E does nothing. *)
Lemma tickFlying_aloft (dt : R) (k : Keys) (justE : bool) (mouse : FrameMouse)
      (w : World) (i : nat) (v : VehicleState) :
  activeIdx w = Some i -> nth_error (vehicles w) i = Some v ->
  justE = false \/ FLY_groundY + 1 < vy (v_pos v) ->
  Game.tickFlying cfg dt k justE mouse w = Game.tickFlying cfg dt k false mouse w.
Proof.
  intros Hi Hv [-> | Hy]; [reflexivity|].
  unfold Game.tickFlying. rewrite Hi, Hv.
  replace (leb (vy (v_pos v)) (FLY_groundY + 1)) with false
    by (symmetry; apply leb_false; lra).
  now rewrite andb_false_r.
Qed.

Lemma frame_flying_on (inp : FrameInput) (w : World) (i : nat) (v : VehicleState) :
  modeRef w = flying ->
  i_interact inp = false \/ FLY_groundY + 1 < vy (v_pos v) ->
  activeIdx w = Some i -> nth_error (vehicles w) i = Some v ->
  let dt := Rmin (i_delta inp) 0.05 in
  let s0 := Game.flySpeed dt (i_keys inp) (v_speed v) in
  exists w' v',
    Game.frame cfg inp w = Some w' /\ nth_error (vehicles w') i = Some v' /\
    forall P : R -> Prop, (forall s, P s -> P (s * - COLLISION_BOUNCE)) ->
      P s0 -> P (v_speed v').
Proof.
  intros Hm He Hi Hv. cbv zeta.
  destruct (frame_flying cfg
              (mkInput (i_delta inp) (i_keys inp) false (i_mouse inp) (i_now inp)
                       (i_takenVehicleIds inp) (i_remotePlayers inp))
              w i v Hm eq_refl Hi Hv) as (w' & v' & Hw & Hn & HP).
  cbv zeta in HP. cbn [i_delta i_keys] in HP.
  exists w', v'. split; [|split; [exact Hn | exact HP]].
  rewrite <- Hw. unfold Game.frame. rewrite Hm. cbv zeta.
  cbn [i_delta i_keys i_interact i_mouse i_now i_takenVehicleIds i_remotePlayers].
  now rewrite (tickFlying_aloft _ _ (i_interact inp) _ w i v Hi Hv He).
Qed.

(** A flying frame with E no higher than 1 above the ground level: the
    plane is parked.  The frame throws when the trigger fires in it. *)
Lemma frame_flying_exit (inp : FrameInput) (w : World) (i : nat) (v : VehicleState) :
  modeRef w = flying -> i_interact inp = true -> vy (v_pos v) <= FLY_groundY + 1 ->
  activeIdx w = Some i -> nth_error (vehicles w) i = Some v ->
  (forall w', Game.frame cfg inp w = Some w' ->
     modeRef w' = walking /\
     exists v', nth_error (vehicles w') i = Some v' /\ v_speed v' = 0) /\
  (m_fireDown (i_mouse inp) = false -> exists w', Game.frame cfg inp w = Some w').
Proof.
  intros Hm He Hy Hi Hv.
  set (dt := Rmin (i_delta inp) 0.05).
  assert (Hx : exists w1,
    Game.tickFlying cfg dt (i_keys inp) (i_interact inp) (i_mouse inp) w = Some w1 /\
    modeRef w1 = walking /\
    exists v', nth_error (vehicles w1) i = Some v' /\ v_speed v' = 0).
  { unfold Game.tickFlying. rewrite Hi, Hv, He.
    replace (leb (vy (v_pos v)) (FLY_groundY + 1)) with true
      by (symmetry; apply leb_true; lra).
    cbn [andb].
    match goal with |- context [Game.exitVehicle cfg ?w0] =>
      assert (Hx : exists w1, Game.exitVehicle cfg w0 = Some w1);
      [ unfold Game.exitVehicle; cbn [activeIdx vehicles];
        rewrite (setNth_same i _ (vehicles w)) by (apply nth_error_Some; congruence);
        eauto
      | destruct Hx as (w1 & Hx); exists w1; split; [exact Hx|];
        apply (exitVehicle_parks _ w1 i Hx); reflexivity ] end. }
  destruct Hx as (w1 & Hw1 & Hm1 & v' & Hn & Hs).
  split.
  - intros w' Hf.
    destruct (frame_left inp w w1 w') as [Hv' Hm']; auto.
    { rewrite Hm. exact Hw1. }
    split; [exact Hm'|]. exists v'. rewrite Hv'. auto.
  - intros Hfire.
    destruct (projectile_ticks_spec dt w1) as (_ & _ & Hv3 & Hm3 & _).
    cbv zeta in *. eexists.
    unfold Game.frame. rewrite Hm. cbv zeta. fold dt. rewrite Hw1, Hfire.
    cbn [andb]. apply collisions_on_foot. congruence.
Qed.

(** C3, as the code has it.  In a frame whose mode step runs its physics
    (driving: the session is not finished and E is not pressed; flying: E is
    not pressed, or the plane is more than 1 above the ground level), the
    clamp of the mode step puts the driving speed into [-18, maxSpeed], with
    maxSpeed 90 on the road or 65 off it, times 1.5 while boosting, and the
    flying speed into [0, 120].  The wall bounce of the driving step (times
    -0.3) and the bounces of the collision resolver (times -0.6 each) come
    after the clamp and are not clamped again: at the end of the frame the
    driving speed is the clamped speed times -0.3 at most once and times
    -0.6 some number of times, which keeps it within
    [-0.6 maxSpeed, maxSpeed]; the flying speed is the clamped speed times
    -0.6 some number of times, within [-72, 120].  In a driving frame of a
    finished session without E nothing is clamped: the speed the car had is
    kept, times -0.6 some number of times.  A frame in which E leaves the
    vehicle ends with that vehicle at speed 0.  The walking speed reported
    is 0, 8 or 16, and so is the speed at which a walking step moves the
    player. *)
Theorem speed_bounds :
  (forall inp w i v,
     modeRef w = driving -> i_interact inp = false -> finished (race w) = false ->
     activeIdx w = Some i -> nth_error (vehicles w) i = Some v ->
     let dt := Rmin (i_delta inp) 0.05 in
     let k := i_keys inp in
     let boosting := k_shift k && gtb (boostMeter w) 0 && k_forward k in
     let onRoad := Track.isOnTrack cfg (mkVec3 (vx (v_pos v)) 0 (vz (v_pos v))) in
     let maxSpeed := (if onRoad then 90 else 65) * (if boosting then 1.5 else 1) in
     let clamped := Game.driveSpeed dt k onRoad boosting (v_speed v) in
     - 18 <= clamped <= maxSpeed /\
     exists w' v',
       Game.frame cfg inp w = Some w' /\ nth_error (vehicles w') i = Some v' /\
       (exists a n, (a <= 1)%nat /\ v_speed v' = clamped * (-0.3) ^ a * (-0.6) ^ n) /\
       - 0.6 * maxSpeed <= v_speed v' <= maxSpeed) /\
  (forall inp w i v,
     modeRef w = driving -> i_interact inp = false -> finished (race w) = true ->
     activeIdx w = Some i -> nth_error (vehicles w) i = Some v ->
     exists w' v',
       Game.frame cfg inp w = Some w' /\ nth_error (vehicles w') i = Some v' /\
       (exists n, v_speed v' = v_speed v * (-0.6) ^ n) /\
       Rabs (v_speed v') <= Rabs (v_speed v)) /\
  (forall inp w i v,
     modeRef w = driving -> i_interact inp = true ->
     activeIdx w = Some i -> nth_error (vehicles w) i = Some v ->
     exists w' v',
       Game.frame cfg inp w = Some w' /\ modeRef w' = walking /\
       nth_error (vehicles w') i = Some v' /\ v_speed v' = 0) /\
  (forall inp w i v,
     modeRef w = flying ->
     i_interact inp = false \/ FLY_groundY + 1 < vy (v_pos v) ->
     activeIdx w = Some i -> nth_error (vehicles w) i = Some v ->
     let clamped := Game.flySpeed (Rmin (i_delta inp) 0.05) (i_keys inp) (v_speed v) in
     0 <= clamped <= 120 /\
     exists w' v',
       Game.frame cfg inp w = Some w' /\ nth_error (vehicles w') i = Some v' /\
       (exists n, v_speed v' = clamped * (-0.6) ^ n) /\
       - 72 <= v_speed v' <= 120) /\
  (forall inp w i v,
     modeRef w = flying -> i_interact inp = true ->
     vy (v_pos v) <= FLY_groundY + 1 ->
     activeIdx w = Some i -> nth_error (vehicles w) i = Some v ->
     (forall w', Game.frame cfg inp w = Some w' ->
        modeRef w' = walking /\
        exists v', nth_error (vehicles w') i = Some v' /\ v_speed v' = 0) /\
     (m_fireDown (i_mouse inp) = false -> exists w', Game.frame cfg inp w = Some w')) /\
  ((forall k w,
      Game.reportedWalkSpeed k w = 0 \/ Game.reportedWalkSpeed k w = 8 \/
      Game.reportedWalkSpeed k w = 16) /\
   (forall now dt k justE taken w,
      let p := charPos w in
      let p' := charPos (Game.tickWalking cfg now dt k justE taken w) in
      exists s, (s = 0 \/ s = 8 \/ s = 16) /\
        (vx p' - vx p) * (vx p' - vx p) + (vz p' - vz p) * (vz p' - vz p)
        = (s * dt) * (s * dt))).
Proof.
  split; [|split; [|split; [|split; [|split;
    [|split; [|intros; apply tickWalking_displacement]]]]]].
  - intros inp w i v Hm He Hfin Hi Hv. cbv zeta.
    pose proof (driveSpeed_bounds (Rmin (i_delta inp) 0.05) (i_keys inp)
                  (Track.isOnTrack cfg (mkVec3 (vx (v_pos v)) 0 (vz (v_pos v))))
                  (k_shift (i_keys inp) && gtb (boostMeter w) 0 && k_forward (i_keys inp))
                  (v_speed v)) as Hb.
    pose proof (driveMaxSpeed_ge
                  (Track.isOnTrack cfg (mkVec3 (vx (v_pos v)) 0 (vz (v_pos v))))
                  (k_shift (i_keys inp) && gtb (boostMeter w) 0 && k_forward (i_keys inp)))
      as HM.
    unfold Game.driveMaxSpeed, DRIVE_maxSpeed, DRIVE_grassMaxSpeed in Hb, HM.
    split; [exact Hb|].
    destruct (frame_driving cfg inp w i v Hm He Hfin Hi Hv) as (w' & v' & Hw & Hn & HP).
    cbv zeta in HP. exists w', v'. split; [exact Hw|]. split; [exact Hn|]. split.
    + apply HP.
      * intros s (a & n & Ha & ->). exists a, (S n). split; [exact Ha|].
        unfold COLLISION_BOUNCE. simpl. lra.
      * exists 0%nat, 0%nat. split; [lia | simpl; lra].
      * exists 1%nat, 0%nat. split; [lia | simpl; lra].
    + apply HP; unfold COLLISION_BOUNCE; intros; lra.
  - intros inp w i v Hm He Hfin Hi Hv.
    destruct (frame_driving_finished inp w i v Hm He Hfin Hi Hv)
      as (w' & v' & Hw & Hn & HP).
    exists w', v'. split; [exact Hw|]. split; [exact Hn|]. split.
    + apply HP.
      * intros s (n & ->). exists (S n). unfold COLLISION_BOUNCE. simpl. lra.
      * exists 0%nat. simpl. lra.
    + apply HP.
      * intros s Hs. cbv beta in *. unfold COLLISION_BOUNCE, Rabs in *.
        repeat destruct (Rcase_abs _); lra.
      * cbv beta. lra.
  - intros inp w i v. apply frame_driving_exit.
  - intros inp w i v Hm He Hi Hv. cbv zeta.
    pose proof (flySpeed_bounds (Rmin (i_delta inp) 0.05) (i_keys inp) (v_speed v)) as Hb.
    split; [exact Hb|].
    destruct (frame_flying_on inp w i v Hm He Hi Hv) as (w' & v' & Hw & Hn & HP).
    cbv zeta in HP. exists w', v'. split; [exact Hw|]. split; [exact Hn|]. split.
    + apply HP.
      * intros s (n & ->). exists (S n). unfold COLLISION_BOUNCE. simpl. lra.
      * exists 0%nat. simpl. lra.
    + apply HP; unfold COLLISION_BOUNCE; intros; lra.
  - intros inp w i v. apply frame_flying_exit.
  - intros k w. unfold Game.reportedWalkSpeed, WALK_runSpeed, WALK_speed.
    destruct (isMovingRef w); [destruct (k_shift k)|]; auto.
Qed.

End FrameSpeedsAll.

Lemma far_enough (m a b : R) :
  0 <= m -> m * m <= a * a + b * b -> m <= sqrt (a * a + b * b).
Proof.
  intros Hm H. rewrite <- (sqrt_square m Hm). now apply sqrt_le_1_alt.
Qed.

(** A roster whose parked vehicles are all out of reach is left alone. *)
Lemma collideLocal_far (act i : nat) (me : VehicleState) (vs : list VehicleState) :
  (forall j other, nth_error vs j = Some other -> (i + j)%nat <> act ->
     let m := Game.vehicleRadius (v_type me) + Game.vehicleRadius (v_type other) in
     m * m <= (vx (v_pos me) - vx (v_pos other)) * (vx (v_pos me) - vx (v_pos other))
              + (vz (v_pos me) - vz (v_pos other)) * (vz (v_pos me) - vz (v_pos other))) ->
  Game.collideLocal act i me vs = (me, vs).
Proof.
  revert i; induction vs as [|other rest IH]; intros i H; cbn [Game.collideLocal];
    [reflexivity|].
  assert (Hrest : Game.collideLocal act (S i) me rest = (me, rest)).
  { apply IH. intros j o Hj Hne. apply (H (S j) o Hj). lia. }
  destruct (Nat.eqb i act) eqn:He.
  - now rewrite Hrest.
  - apply Nat.eqb_neq in He.
    rewrite resolveCollision_miss.
    + rewrite Hrest. now destruct other.
    + left. apply far_enough.
      * unfold Game.vehicleRadius, CAR_COLLISION_RADIUS, PLANE_COLLISION_RADIUS.
        destruct (v_type me), (v_type other); lra.
      * apply (H 0%nat other eq_refl). lia.
Qed.

Lemma collisions_explicit (cfg : Track.Config) (rps : list RemotePlayer) (w : World)
      (i : nat) (me : VehicleState) :
  modeRef w <> walking -> activeIdx w = Some i ->
  nth_error (vehicles w) i = Some me ->
  Game.tickVehicleCollisions rps w
  = Some (withVehicles w
            (setNth i (Game.collideRemote (fst (Game.collideLocal i 0 me (vehicles w))) rps)
                    (snd (Game.collideLocal i 0 me (vehicles w))))).
Proof.
  intros Hm Hi Hme. unfold Game.tickVehicleCollisions. rewrite Hi, Hme.
  destruct (Game.collideLocal i 0 me (vehicles w)).
  destruct (modeRef w); [congruence | reflexivity | reflexivity].
Qed.

(** C3 as the specification words it fails.  A plane at speed 100 flies a
    frame of 50 ms with another player's plane two units behind its new
    position.  The flying step clamps the speed to 99.2; the collision
    resolver then multiplies it by -0.6, and the frame ends with the flying
    speed at -59.52, below 0. *)
Lemma frame_end_speed_out_of_bounds :
  let w := flyingAt (mkVec3 500 50 500) 0 100 Game.makeBulletPool in
  0 <= 100 <= 120 /\
  exists w' v',
    Game.frame trackA frameNearRemote w = Some w' /\
    nth_error (vehicles w') 4 = Some v' /\
    v_speed v' = -59.52 /\ v_speed v' < 0.
Proof.
  cbv zeta. split; [lra|].
  set (w := flyingAt (mkVec3 500 50 500) 0 100 Game.makeBulletPool).
  set (v := mkVehicle "plane-blue" airplane "Sky Hawk" "#4488cc" (mkVec3 500 50 500) 0 100 0).
  assert (Hdt : Rmin (i_delta frameNearRemote) 0.05 = 0.05)
    by (apply Rmin_left; simpl; lra).
  destruct (tickFlying_spec trackA 0.05 noKeys (mkMouse 0 0 false) w 4 v eq_refl eq_refl)
    as (w1 & v1 & Hw1 & Hvs & Hs & Hr & Hx & Hz & Hty & Hm1 & Hi1 & _).
  cbv zeta in Hr. cbn [w v flyingAt flyYawVel m_dx v_rot v_speed v_pos vx vz] in Hs, Hr, Hx, Hz.
  assert (Hs' : v_speed v1 = 99.2).
  { rewrite Hs. unfold Game.flySpeed, clamp, FLY_maxSpeed, FLY_drag, Rmax, Rmin.
    cbn [noKeys k_forward k_backward]. repeat destruct (Rle_dec _ _); lra. }
  assert (Hr' : v_rot v1 = 0) by (rewrite Hr; lra).
  rewrite Hr', Hs', sin_0 in Hx. rewrite Hr', Hs', cos_0 in Hz.
  assert (Hx' : vx (v_pos v1) = 500) by lra.
  assert (Hz' : vz (v_pos v1) = 504.96) by lra.
  clear Hx Hz Hs Hr. unfold v in Hty. cbn [v_type] in Hty.
  assert (Hn : nth_error (vehicles w1) 4 = Some v1) by (rewrite Hvs; reflexivity).
  set (w3 := Game.tickTargets 0.05 (Game.tickMuzzleFlash 0.05 (Game.tickBullets 0.05 w1))).
  destruct (projectile_ticks_spec 0.05 w1) as (_ & _ & Hv3 & Hm3 & Hi3 & _).
  cbv zeta in Hv3, Hm3, Hi3. fold w3 in Hv3, Hm3, Hi3.
  assert (Hframe : Game.frame trackA frameNearRemote w
                   = Game.tickVehicleCollisions [remotePlane] w3).
  { unfold Game.frame. rewrite Hdt. cbv zeta.
    cbn [w flyingAt modeRef frameNearRemote i_keys i_interact i_mouse i_now
         i_remotePlayers m_fireDown andb].
    fold w. rewrite Hw1. reflexivity. }
  assert (Hlocal : Game.collideLocal 4 0 v1 (vehicles w3) = (v1, vehicles w3)).
  { apply collideLocal_far. rewrite Hv3, Hvs. intros j other Hj Hne. cbv zeta.
    rewrite Hty, Hx', Hz'.
    do 7 (destruct j as [|j]; [try (now exfalso; apply Hne);
                               cbn in Hj; injection Hj as <-; cbn;
                               unfold CAR_COLLISION_RADIUS, PLANE_COLLISION_RADIUS,
                                      FLY_groundY; lra|]).
    destruct j; discriminate. }
  rewrite Hframe, (collisions_explicit trackA [remotePlane] w3 4 v1);
    [| rewrite Hm3, Hm1; discriminate | rewrite Hi3, Hi1; reflexivity
     | rewrite Hv3; exact Hn].
  rewrite Hlocal. cbn [fst snd Game.collideRemote].
  pose proof (resolveCollision_hit v1 (vx (rp_position remotePlane))
                (vz (rp_position remotePlane)) (Game.remoteRadius (rp_mode remotePlane))
                None) as Hhit.
  cbv zeta in Hhit.
  cbn [remotePlane rp_position rp_mode vx vz Game.remoteRadius] in *.
  rewrite Hty, Hx', Hz', Hr', Hs', sin_0, cos_0 in Hhit.
  cbn [Game.vehicleRadius] in Hhit. unfold PLANE_COLLISION_RADIUS in *.
  replace (sqrt ((500 - 500) * (500 - 500) + (504.96 - 503) * (504.96 - 503)))
    with 1.96 in Hhit
    by (symmetry; replace ((500 - 500) * (500 - 500) + (504.96 - 503) * (504.96 - 503))
          with (1.96 * 1.96) by lra; apply sqrt_square; lra).
  rewrite Hhit by lra.
  replace (gtb (0 * ((500 - 500) / 1.96) + 1 * ((504.96 - 503) / 1.96)) 0) with true
    by (symmetry; apply gtb_true; lra).
  eexists. eexists. split; [reflexivity|].
  split; [cbn [vehicles withVehicles]; apply setNth_same;
          rewrite Hv3, Hvs; cbn; lia|].
  cbn [v_speed withSpeed]. unfold COLLISION_BOUNCE. split; lra.
Qed.

Lemma speed_bounds_witness :
  (exists w' v',
     Game.frame trackA frameNearRemote
       (flyingAt (mkVec3 500 50 500) 0 100 Game.makeBulletPool) = Some w' /\
     nth_error (vehicles w') 4 = Some v' /\ - 72 <= v_speed v' <= 120) /\
  (exists w' v',
     Game.frame trackA idle35 (drivingAt (mkVec3 0 0 2) 0 130 raceFinished) = Some w' /\
     nth_error (vehicles w') 0 = Some v' /\ Rabs (v_speed v') <= 130).
Proof.
  destruct (speed_bounds trackA) as (_ & Hfin & _ & Hfly & _).
  split.
  - destruct (Hfly frameNearRemote
                (flyingAt (mkVec3 500 50 500) 0 100 Game.makeBulletPool) 4%nat
                (mkVehicle "plane-blue" airplane "Sky Hawk" "#4488cc"
                           (mkVec3 500 50 500) 0 100 0)
                eq_refl (or_introl eq_refl) eq_refl eq_refl)
      as (_ & w' & v' & Hw & Hn & _ & Hb).
    exists w', v'. auto.
  - destruct (Hfin idle35 (drivingAt (mkVec3 0 0 2) 0 130 raceFinished) 0%nat
                (mkVehicle "car-red" car "Red Racer" "#e63946" (mkVec3 0 0 2) 0 130 0)
                eq_refl eq_refl eq_refl eq_refl eq_refl)
      as (w' & v' & Hw & Hn & _ & Hb).
    exists w', v'. split; [exact Hw|]. split; [exact Hn|].
    cbn [v_speed] in Hb. rewrite (Rabs_right 130) in Hb by lra. exact Hb.
Defined.

(** ** The sign of the bounce *)

(** The parked vehicles of [drivingAt] are out of reach of a car near the
    origin, so the loop over the roster leaves it and them alone. *)
Lemma drivingAt_roster_far (rot s : R) (r : Race) :
  Game.collideLocal 0 0 (mkVehicle "car-red" car "Red Racer" "#e63946"
                           (mkVec3 0 0 1) rot s 0)
    (vehicles (drivingAt (mkVec3 0 0 1) rot s r))
  = (mkVehicle "car-red" car "Red Racer" "#e63946" (mkVec3 0 0 1) rot s 0,
     vehicles (drivingAt (mkVec3 0 0 1) rot s r)).
Proof.
  apply collideLocal_far. intros j other Hj Hne. cbv zeta.
  cbn [drivingAt vehicles] in Hj.
  do 7 (destruct j as [|j]; [try (now exfalso; apply Hne);
                             cbn in Hj; injection Hj as <-; cbn;
                             unfold CAR_COLLISION_RADIUS, PLANE_COLLISION_RADIUS,
                                    FLY_groundY; lra|]).
  destruct j; discriminate.
Qed.

(** C5.  Where the resolver bounces.  The red car, at speed 10, overlaps
    another player on foot who stands at the origin, one unit south of it
    (distance 1, below the radii 1.2 + 1.0).  Heading south, the car is
    driving into that player: the distance between them is shrinking.  The
    resolver pushes the car out to 2.2 units and leaves its speed at 10, so
    the car keeps driving into the player.  Heading north, the car is
    driving away: the resolver turns its speed to -6, which sends it back
    towards the player.  The unit vector of the test points from the other
    entity to the car, so [dot > 0] holds for the heading that leads away
    from the obstacle. *)
Theorem collision_bounce_sign :
  (* heading south, into the walker: pushed out, not bounced *)
  Game.approachRate (carNorth PI) 0 0 < 0 /\
  (exists w' v',
     Game.tickVehicleCollisions [remoteWalker]
       (drivingAt (mkVec3 0 0 1) PI 10 raceAllPassed) = Some w' /\
     nth_error (vehicles w') 0 = Some v' /\
     vx (v_pos v') = 0 /\ vz (v_pos v') = 2.2 /\ v_speed v' = 10) /\
  (* heading north, away from the walker: pushed out and bounced *)
  Game.approachRate (carNorth 0) 0 0 > 0 /\
  (exists w' v',
     Game.tickVehicleCollisions [remoteWalker]
       (drivingAt (mkVec3 0 0 1) 0 10 raceAllPassed) = Some w' /\
     nth_error (vehicles w') 0 = Some v' /\
     vx (v_pos v') = 0 /\ vz (v_pos v') = 2.2 /\ v_speed v' = -6).
Proof.
  assert (Hhit : forall rot,
    Game.resolveCollision (carNorth rot) 0 0 (Game.remoteRadius walking) None
    = (withSpeed (withPos (carNorth rot)
         (mkVec3 (0 + (0 - 0) / 1 * (1.2 + 1.0 - 1) * 1.0) 0
                 (1 + (1 - 0) / 1 * (1.2 + 1.0 - 1) * 1.0)))
         (if gtb (sin rot * ((0 - 0) / 1) + cos rot * ((1 - 0) / 1)) 0
          then 10 * - COLLISION_BOUNCE else 10), None)).
  { intros rot.
    pose proof (resolveCollision_hit (carNorth rot) 0 0 (Game.remoteRadius walking) None)
      as H.
    cbv zeta in H. cbn [carNorth v_pos v_type v_rot v_speed vx vy vz Game.vehicleRadius
                        Game.remoteRadius option_map] in H.
    unfold CAR_COLLISION_RADIUS in H. rewrite !sqrt_0_1 in H.
    apply H; lra. }
  assert (Hall : forall rot, exists w',
    Game.tickVehicleCollisions [remoteWalker]
      (drivingAt (mkVec3 0 0 1) rot 10 raceAllPassed) = Some w' /\
    nth_error (vehicles w') 0
    = Some (fst (Game.resolveCollision (carNorth rot) 0 0
                   (Game.remoteRadius walking) None))).
  { intros rot.
    rewrite (collisions_explicit trackA [remoteWalker]
               (drivingAt (mkVec3 0 0 1) rot 10 raceAllPassed) 0 (carNorth rot));
      [| discriminate | reflexivity | reflexivity].
    unfold carNorth at 1 2. rewrite drivingAt_roster_far. cbn [fst snd].
    eexists. split; [reflexivity|].
    cbn [vehicles withVehicles drivingAt setNth Game.makeVehicles nth_error
         Game.collideRemote remoteWalker rp_position rp_mode vx vz].
    fold (carNorth rot).
    now destruct (Game.resolveCollision (carNorth rot) 0 0 _ None). }
  unfold Game.approachRate. cbn [carNorth v_rot v_speed v_pos vx vz].
  rewrite sin_0, cos_0, sin_PI, cos_PI.
  split; [lra|]. split; [|split; [lra|]].
  - destruct (Hall PI) as (w' & Hw & Hn). rewrite Hhit in Hn.
    rewrite sin_PI, cos_PI in Hn.
    replace (gtb (0 * ((0 - 0) / 1) + -1 * ((1 - 0) / 1)) 0) with false in Hn
      by (symmetry; apply gtb_false; lra).
    eexists. eexists. split; [exact Hw|]. split; [exact Hn|].
    cbn. repeat split; lra.
  - destruct (Hall 0) as (w' & Hw & Hn). rewrite Hhit in Hn.
    rewrite sin_0, cos_0 in Hn.
    replace (gtb (0 * ((0 - 0) / 1) + 1 * ((1 - 0) / 1)) 0) with true in Hn
      by (symmetry; apply gtb_true; lra).
    eexists. eexists. split; [exact Hw|]. split; [exact Hn|].
    cbn. unfold COLLISION_BOUNCE. repeat split; lra.
Qed.

(** ** Headings *)

Lemma wrapDown_spec (fuel : nat) (d : R) :
  d <= PI + 2 * PI * INR fuel ->
  Game.wrapDown fuel d <= PI /\
  (d > PI -> - PI < Game.wrapDown fuel d) /\
  (d <= PI -> Game.wrapDown fuel d = d).
Proof.
  pose proof PI_RGT_0 as Hpi.
  revert d; induction fuel as [|f IH]; intros d Hd.
  - simpl in *. repeat split; auto; lra.
  - rewrite S_INR in Hd. cbn [Game.wrapDown].
    destruct (gtb d PI) eqn:Hg.
    + apply gtb_true in Hg.
      destruct (IH (d - PI * 2)) as (H1 & H2 & H3); [lra|].
      repeat split; [exact H1 | | lra].
      intros _. destruct (Rle_dec (d - PI * 2) PI) as [Hle | Hgt].
      * rewrite (H3 Hle). lra.
      * apply H2. lra.
    + apply gtb_false in Hg. repeat split; auto; lra.
Qed.

Lemma wrapUp_spec (fuel : nat) (d : R) :
  - PI - 2 * PI * INR fuel <= d ->
  - PI <= Game.wrapUp fuel d /\
  (d < - PI -> Game.wrapUp fuel d < PI) /\
  (- PI <= d -> Game.wrapUp fuel d = d).
Proof.
  pose proof PI_RGT_0 as Hpi.
  revert d; induction fuel as [|f IH]; intros d Hd.
  - simpl in *. repeat split; auto; lra.
  - rewrite S_INR in Hd. cbn [Game.wrapUp].
    destruct (ltb d (- PI)) eqn:Hg.
    + apply ltb_true in Hg.
      destruct (IH (d + PI * 2)) as (H1 & H2 & H3); [lra|].
      repeat split; [exact H1 | | lra].
      intros _. destruct (Rle_dec (- PI) (d + PI * 2)) as [Hle | Hgt].
      * rewrite (H3 Hle). lra.
      * apply H2. lra.
    + apply ltb_false in Hg. repeat split; auto; lra.
Qed.

(** The two loops have fuel enough: the difference ends within a half turn
    of zero. *)
Lemma wrapDiff_range (d : R) : - PI <= Game.wrapDiff d <= PI.
Proof.
  pose proof PI_RGT_0 as Hpi. unfold Game.wrapDiff.
  set (n := Z.to_nat (up (Rabs d / (2 * PI)))).
  assert (Hn : Rabs d <= 2 * PI * INR (S n)).
  { assert (Hq : 0 <= Rabs d / (2 * PI)).
    { apply Rmult_le_pos; [apply Rabs_pos | left; apply Rinv_0_lt_compat; lra]. }
    destruct (archimed (Rabs d / (2 * PI))) as [Hup _].
    assert (Hz : (0 <= up (Rabs d / (2 * PI)))%Z).
    { apply le_IZR. lra. }
    assert (Hi : INR n = IZR (up (Rabs d / (2 * PI)))).
    { unfold n. rewrite INR_IZR_INZ, Z2Nat.id; auto. }
    rewrite S_INR, Hi.
    assert (Hd : Rabs d = Rabs d / (2 * PI) * (2 * PI)) by (field; lra).
    rewrite Hd at 1. nra. }
  assert (Habs : - Rabs d <= d <= Rabs d).
  { split; [|apply Rle_abs]. pose proof (Rle_abs (- d)). rewrite Rabs_Ropp in H. lra. }
  destruct (wrapDown_spec (S n) d) as (H1 & H2 & H3); [lra|].
  destruct (Rle_dec d PI) as [Hle | Hgt].
  - rewrite (H3 Hle).
    destruct (wrapUp_spec (S n) d) as (U1 & U2 & U3); [lra|].
    split; [exact U1|].
    destruct (Rle_dec (- PI) d) as [Hge | Hlt]; [rewrite (U3 Hge); lra|].
    left. apply U2. lra.
  - assert (Hlow : - PI < Game.wrapDown (S n) d) by (apply H2; lra).
    destruct (wrapUp_spec (S n) (Game.wrapDown (S n) d)) as (U1 & _ & U3).
    { pose proof (pos_INR (S n)). nra. }
    rewrite U3 by lra. lra.
Qed.

(** The loops take whole turns off or add them. *)
Lemma wrapDown_mod (fuel : nat) (d : R) :
  exists j : nat, Game.wrapDown fuel d = d - PI * 2 * INR j.
Proof.
  revert d; induction fuel as [|f IH]; intros d; cbn [Game.wrapDown].
  - exists 0%nat. cbn. ring.
  - destruct (gtb d PI).
    + destruct (IH (d - PI * 2)) as [j Hj]. exists (S j). rewrite Hj, S_INR. ring.
    + exists 0%nat. cbn. ring.
Qed.

Lemma wrapUp_mod (fuel : nat) (d : R) :
  exists j : nat, Game.wrapUp fuel d = d + PI * 2 * INR j.
Proof.
  revert d; induction fuel as [|f IH]; intros d; cbn [Game.wrapUp].
  - exists 0%nat. cbn. ring.
  - destruct (ltb d (- PI)).
    + destruct (IH (d + PI * 2)) as [j Hj]. exists (S j). rewrite Hj, S_INR. ring.
    + exists 0%nat. cbn. ring.
Qed.

Lemma wrapDiff_mod (d : R) :
  exists k : Z, Game.wrapDiff d = d + 2 * PI * IZR k.
Proof.
  unfold Game.wrapDiff. cbv zeta.
  set (fuel := S (Z.to_nat (up (Rabs d / (2 * PI))))).
  destruct (wrapDown_mod fuel d) as [j1 H1].
  destruct (wrapUp_mod fuel (Game.wrapDown fuel d)) as [j2 H2].
  exists (Z.of_nat j2 - Z.of_nat j1)%Z.
  rewrite H2, H1, minus_IZR, <- !INR_IZR_INZ. ring.
Qed.

Section Headings.
Variable cfg : Track.Config.
Context {rt : Runtime}.

Lemma tickDriving_heading (now dt : R) (k : Keys) (w : World) (i : nat)
      (v : VehicleState) :
  finished (race w) = false -> activeIdx w = Some i ->
  nth_error (vehicles w) i = Some v ->
  let boosting := k_shift k && gtb (boostMeter w) 0 && k_forward k in
  let onRoad := Track.isOnTrack cfg (mkVec3 (vx (v_pos v)) 0 (vz (v_pos v))) in
  let s := Game.driveSpeed dt k onRoad boosting (v_speed v) in
  let turn := (if k_left k then 1 else 0) - (if k_right k then 1 else 0) in
  exists w' v',
    Game.tickDriving cfg now dt k false w = Some w' /\
    nth_error (vehicles w') i = Some v' /\
    v_rot v' = v_rot v + turn * DRIVE_turnSpeed * Rmin (Rabs s / 8) 1 * dt * signOr1 s.
Proof.
  intros Hfin Hi Hv. cbv zeta.
  destruct (tickDriving_spec cfg now dt k w i v Hfin Hi Hv)
    as (w' & Hw & _ & _ & Hvs & _).
  cbv zeta in Hvs.
  match type of Hvs with _ = setNth i (fst (fst (Game.driveVertical _ _ _ ?v2 _ _))) _ =>
    pose proof (driveVertical_speed cfg dt k v2 (carVelY w) (carOnGround w)) as (Hr & _) end.
  cbv zeta in Hr. eexists. eexists. split; [exact Hw|].
  split; [rewrite Hvs; apply setNth_same; apply nth_error_Some; congruence|].
  rewrite Hr. reflexivity.
Qed.

End Headings.

Section HeadingsAll.
Variable cfg : Track.Config.
Context {rt : Runtime}.

(** The heading after a walking step: unchanged while no key moves the
    player, else turned towards the direction of movement by the wrapped
    difference times [min(1, 12 dt)]. *)
Lemma tickWalking_turn (now dt : R) (k : Keys) (justE : bool)
      (taken : list string) (w : World) :
  let moveX := fst (walkVector k (charRot w + orbitYawRef w)) in
  let moveZ := snd (walkVector k (charRot w + orbitYawRef w)) in
  let moveLen := sqrt (moveX * moveX + moveZ * moveZ) in
  let targetRot := atan2 (moveX / moveLen) (moveZ / moveLen) in
  charRot (Game.tickWalking cfg now dt k justE taken w)
  = if gtb moveLen 0.001
    then charRot w + Game.wrapDiff (targetRot - charRot w) * Rmin 1 (12 * dt)
    else charRot w.
Proof.
  cbv zeta. unfold Game.tickWalking, walkVector. cbv zeta. cbn [fst snd].
  match goal with |- context [if gtb ?m 0.001 then _ else _] =>
    destruct (gtb m 0.001) end;
  match goal with |- context [match ?E with Some _ => _ | None => _ end] =>
    destruct E as [[idx ve]|] end; reflexivity.
Qed.

(** C4, as the code has it.  No update wraps the heading.  A driving step
    adds [turn * 2.2 * min(|speed| / 8, 1) * dt * sign(speed)] to the
    rotation of the vehicle, at most [2.2 * |dt|] in size; a flying step
    adds the new yaw velocity times [dt].  A walking step leaves the heading
    while the movement vector of the keys is no longer than 0.001; else it
    adds [min(1, 12 * dt)] times the difference between the direction of
    the movement vector and the heading, and only that difference is
    brought into [-pi, pi], by whole turns. *)
Theorem heading_not_wrapped :
  (forall now dt k w i v,
     finished (race w) = false -> activeIdx w = Some i ->
     nth_error (vehicles w) i = Some v ->
     let boosting := k_shift k && gtb (boostMeter w) 0 && k_forward k in
     let onRoad := Track.isOnTrack cfg (mkVec3 (vx (v_pos v)) 0 (vz (v_pos v))) in
     let s := Game.driveSpeed dt k onRoad boosting (v_speed v) in
     let turn := (if k_left k then 1 else 0) - (if k_right k then 1 else 0) in
     exists w' v',
       Game.tickDriving cfg now dt k false w = Some w' /\
       nth_error (vehicles w') i = Some v' /\
       v_rot v' = v_rot v + turn * 2.2 * Rmin (Rabs s / 8) 1 * dt * signOr1 s /\
       Rabs (v_rot v' - v_rot v) <= 2.2 * Rabs dt) /\
  (forall dt k mouse w i v,
     activeIdx w = Some i -> nth_error (vehicles w) i = Some v ->
     exists w' v',
       Game.tickFlying cfg dt k false mouse w = Some w' /\
       nth_error (vehicles w') i = Some v' /\
       flyYawVel w' = (flyYawVel w - m_dx mouse * 0.002) * (1 - 5 * dt) /\
       v_rot v' = v_rot v + flyYawVel w' * dt) /\
  (forall now dt k justE taken w,
     let moveX := fst (walkVector k (charRot w + orbitYawRef w)) in
     let moveZ := snd (walkVector k (charRot w + orbitYawRef w)) in
     let moveLen := sqrt (moveX * moveX + moveZ * moveZ) in
     let targetRot := atan2 (moveX / moveLen) (moveZ / moveLen) in
     let w' := Game.tickWalking cfg now dt k justE taken w in
     (moveLen <= 0.001 -> charRot w' = charRot w) /\
     (moveLen > 0.001 ->
        exists diff (n : Z),
          diff = targetRot - charRot w + 2 * PI * IZR n /\
          - PI <= diff <= PI /\
          diff = Game.wrapDiff (targetRot - charRot w) /\
          charRot w' = charRot w + diff * Rmin 1 (12 * dt))).
Proof.
  split; [|split].
  - intros now dt k w i v Hfin Hi Hv. cbv zeta.
    destruct (tickDriving_heading cfg now dt k w i v Hfin Hi Hv)
      as (w' & v' & Hw & Hn & Hr).
    cbv zeta in Hr. unfold DRIVE_turnSpeed in Hr.
    exists w', v'. split; [exact Hw|]. split; [exact Hn|]. split; [exact Hr|].
    rewrite Hr.
    match goal with |- context [Rmin (Rabs ?s / 8) 1] =>
      set (sf := Rmin (Rabs s / 8) 1); set (sg := signOr1 s) end.
    assert (Hsf : 0 <= sf <= 1).
    { unfold sf. split; [|apply Rmin_r].
      apply Rmin_glb; [|lra]. apply Rmult_le_pos; [apply Rabs_pos | lra]. }
    assert (Hsg : sg = 1 \/ sg = -1).
    { unfold sg, signOr1. destruct (Rlt_dec _ 0); auto. }
    set (turn := (if k_left k then 1 else 0) - (if k_right k then 1 else 0)).
    assert (Ht : turn = 1 \/ turn = 0 \/ turn = -1).
    { unfold turn. destruct (k_left k), (k_right k); lra. }
    clearbody sf sg turn.
    replace (v_rot v + turn * 2.2 * sf * dt * sg - v_rot v)
      with (turn * sg * (2.2 * sf) * dt) by ring.
    rewrite Rabs_mult.
    assert (Hts : Rabs (turn * sg * (2.2 * sf)) <= 2.2).
    { destruct Hsg as [-> | ->], Ht as [-> | [-> | ->]];
        unfold Rabs; destruct (Rcase_abs _); lra. }
    pose proof (Rabs_pos dt). nra.
  - intros dt k mouse w i v Hi Hv.
    destruct (tickFlying_spec cfg dt k mouse w i v Hi Hv)
      as (w' & v' & Hw & Hvs & _ & Hr & _).
    exists w', v'. split; [exact Hw|].
    split; [rewrite Hvs; apply setNth_same; apply nth_error_Some; congruence|].
    unfold Game.tickFlying in Hw. rewrite Hi, Hv in Hw. cbn [andb] in Hw.
    injection Hw as <-. cbn [flyYawVel]. cbv zeta in Hr. split; [ring|].
    rewrite Hr. ring.
  - intros now dt k justE taken w. cbv zeta.
    rewrite (tickWalking_turn now dt k justE taken w). cbv zeta.
    split; intros Hlen.
    + apply gtb_false in Hlen. now rewrite Hlen.
    + apply gtb_true in Hlen. rewrite Hlen.
      match goal with |- context [Game.wrapDiff ?d] =>
        destruct (wrapDiff_mod d) as [n Hn]; exists (Game.wrapDiff d), n;
        pose proof (wrapDiff_range d) end.
      rewrite Hn at 1. repeat split; tauto.
Qed.

End HeadingsAll.

Lemma sin_3PI2' : sin (PI + PI / 2) = -1.
Proof. rewrite Rplus_comm, neg_sin, sin_PI2. lra. Qed.

Lemma cos_3PI2' : cos (PI + PI / 2) = 0.
Proof. rewrite Rplus_comm, neg_cos, cos_PI2. lra. Qed.

(** A difference of three quarter turns backwards is wrapped to a quarter
    turn forwards. *)
Lemma wrapDiff_three_quarters : Game.wrapDiff (- PI / 2 - PI) = PI / 2.
Proof.
  pose proof PI_RGT_0 as Hpi.
  destruct (wrapDiff_mod (- PI / 2 - PI)) as [n Hn].
  pose proof (wrapDiff_range (- PI / 2 - PI)) as Hr.
  rewrite Hn in Hr |- *.
  assert (H0 : (0 < n)%Z) by (apply lt_IZR; nra).
  assert (H2 : (n < 2)%Z) by (apply lt_IZR; nra).
  replace n with 1%Z by lia. lra.
Qed.

(** C4 as the specification words it fails: from the heading [pi], which
    is in the interval, a driving step with the left key down ends at
    [pi + 0.11], a flying step with the mouse moved left at [pi + 0.075],
    and a walking step with the left key down, which turns a quarter turn
    towards the movement, at [1.3 pi]. *)
Lemma heading_leaves_range :
  - PI < PI <= PI /\
  (exists w' v',
     Game.tickDriving trackA 0 0.05 leftKey false
       (drivingAt (mkVec3 0 0 2) PI 40 (Game.freshRace trackA 0)) = Some w' /\
     nth_error (vehicles w') 0 = Some v' /\ v_rot v' = PI + 0.11 /\ v_rot v' > PI) /\
  (exists w' v',
     Game.tickFlying trackA 0.05 noKeys false (mkMouse (-1000) 0 false)
       (flyingAt (mkVec3 0 50 0) PI 60 Game.makeBulletPool) = Some w' /\
     nth_error (vehicles w') 4 = Some v' /\ v_rot v' = PI + 0.075 /\ v_rot v' > PI) /\
  (charRot (Game.tickWalking trackA 0 0.05 leftKey false []
              (onFootAt (mkVec3 0 0 12) PI 0)) = PI + PI / 2 * 0.6 /\
   charRot (Game.tickWalking trackA 0 0.05 leftKey false []
              (onFootAt (mkVec3 0 0 12) PI 0)) > PI).
Proof.
  pose proof PI_RGT_0 as Hpi. split; [lra|]. split; [|split].
  - destruct (tickDriving_heading trackA 0 0.05 leftKey
                (drivingAt (mkVec3 0 0 2) PI 40 (Game.freshRace trackA 0)) 0
                (mkVehicle "car-red" car "Red Racer" "#e63946" (mkVec3 0 0 2) PI 40 0)
                eq_refl eq_refl eq_refl) as (w' & v' & Hw & Hn & Hr).
    cbv zeta in Hr. cbn [v_rot v_speed v_pos vx vz leftKey k_left k_right k_shift
                         k_forward andb] in Hr.
    match type of Hr with context [signOr1 ?s0] => set (s := s0) in * end.
    assert (Hs : 39 <= s <= 40).
    { unfold s, Game.driveSpeed. cbn [leftKey k_forward k_backward negb andb].
      match goal with |- context [clamp _ ?m ?y] => set (x := y); set (M := m) end.
      assert (Hx : 39 <= x <= 40).
      { unfold x, DRIVE_friction, DRIVE_grassFriction.
        destruct (Track.isOnTrack trackA _); lra. }
      assert (HM : 65 <= M) by apply driveMaxSpeed_ge.
      assert (Hc : clamp (- DRIVE_reverseMax) M x = x).
      { unfold clamp, DRIVE_reverseMax. rewrite Rmin_right by lra.
        apply Rmax_right. lra. }
      rewrite Hc.
      replace (ltb (Rabs x) 0.15) with false; [cbn [andb]; exact Hx|].
      symmetry. apply ltb_false. rewrite Rabs_right; lra. }
    assert (Hsf : Rmin (Rabs s / 8) 1 = 1).
    { apply Rmin_right. rewrite Rabs_right; lra. }
    assert (Hsg : signOr1 s = 1) by (unfold signOr1; destruct (Rlt_dec s 0); lra).
    rewrite Hsf, Hsg in Hr. unfold DRIVE_turnSpeed in Hr.
    exists w', v'. split; [exact Hw|]. split; [exact Hn|]. split; lra.
  - destruct (tickFlying_spec trackA 0.05 noKeys (mkMouse (-1000) 0 false)
                (flyingAt (mkVec3 0 50 0) PI 60 Game.makeBulletPool) 4
                (mkVehicle "plane-blue" airplane "Sky Hawk" "#4488cc"
                           (mkVec3 0 50 0) PI 60 0)
                eq_refl eq_refl) as (w' & v' & Hw & Hvs & _ & Hr & _).
    cbv zeta in Hr. cbn [flyingAt flyYawVel m_dx v_rot] in Hr.
    exists w', v'. split; [exact Hw|].
    split; [rewrite Hvs; reflexivity|]. split; lra.
  - assert (Hrot : charRot (Game.tickWalking trackA 0 0.05 leftKey false []
                     (onFootAt (mkVec3 0 0 12) PI 0)) = PI + PI / 2 * 0.6).
    { rewrite tickWalking_turn. cbv zeta.
      unfold walkVector. cbn [onFootAt charRot orbitYawRef leftKey k_forward k_backward
                              k_left k_right fst snd].
      replace (PI + 0 + PI / 2) with (PI + PI / 2) by lra.
      rewrite sin_3PI2', cos_3PI2'.
      replace ((0 + -1) * (0 + -1) + (0 + 0) * (0 + 0)) with 1 by lra.
      rewrite sqrt_1.
      replace (gtb 1 0.001) with true by (symmetry; apply gtb_true; lra).
      assert (Hat : atan2 ((0 + -1) / 1) ((0 + 0) / 1) = - PI / 2).
      { unfold atan2.
        destruct (Rlt_dec 0 ((0 + 0) / 1)); [lra|].
        destruct (Rlt_dec ((0 + 0) / 1) 0); [lra|].
        destruct (Rlt_dec 0 ((0 + -1) / 1)); [lra|].
        destruct (Rlt_dec ((0 + -1) / 1) 0); [reflexivity | lra]. }
      rewrite Hat, wrapDiff_three_quarters.
      replace (Rmin 1 (12 * 0.05)) with 0.6; [reflexivity|].
      symmetry. unfold Rmin. destruct (Rle_dec 1 (12 * 0.05)); lra. }
    rewrite Hrot. split; [reflexivity | nra].
Qed.

Lemma heading_not_wrapped_witness :
  (exists w' v',
     Game.tickFlying trackA 0.05 noKeys false (mkMouse (-1000) 0 false)
       (flyingAt (mkVec3 0 50 0) PI 60 Game.makeBulletPool) = Some w' /\
     nth_error (vehicles w') 4 = Some v' /\
     v_rot v' = PI + flyYawVel w' * 0.05) /\
  (exists diff : R,
     - PI <= diff <= PI /\
     charRot (Game.tickWalking trackA 0 0.05 leftKey false []
                (onFootAt (mkVec3 0 0 12) PI 0))
     = PI + diff * Rmin 1 (12 * 0.05)).
Proof.
  destruct (heading_not_wrapped trackA) as (_ & Hfly & Hwalk).
  split.
  - destruct (Hfly 0.05 noKeys (mkMouse (-1000) 0 false)
                (flyingAt (mkVec3 0 50 0) PI 60 Game.makeBulletPool) 4%nat
                (mkVehicle "plane-blue" airplane "Sky Hawk" "#4488cc"
                           (mkVec3 0 50 0) PI 60 0)
                eq_refl eq_refl) as (w' & v' & Hw & Hn & _ & Hr).
    exists w', v'. auto.
  - destruct (Hwalk 0 0.05 leftKey false [] (onFootAt (mkVec3 0 0 12) PI 0))
      as [_ Hmove].
    destruct Hmove as (diff & n & _ & Hrange & _ & Hrot).
    { unfold walkVector. cbn [onFootAt charRot orbitYawRef leftKey k_forward k_backward
                              k_left k_right fst snd].
      replace (PI + 0 + PI / 2) with (PI + PI / 2) by lra.
      rewrite sin_3PI2', cos_3PI2'.
      replace ((0 + -1) * (0 + -1) + (0 + 0) * (0 + 0)) with 1 by lra.
      rewrite sqrt_1. lra. }
    exists diff. split; [exact Hrange | exact Hrot].
Defined.

(** ** Leaderboard *)

Section LeaderboardFacts.
Variable numberToString : R -> string.
Import Leaderboard.

(** A body without a name, or with a time that is no positive number, is
    answered with 400 and leaves the store alone. *)
Lemma post_invalid (nowIso : string) (body : Body) (store : list LeaderboardEntry) :
  truthy (body_name body) = false \/
  (forall t, body_time body = Some (JNumber t) -> t <= 0) ->
  post numberToString nowIso body store = (BadRequest, store).
Proof.
  intros H. unfold post.
  destruct (body_name body) as [rawName|]; [|reflexivity].
  destruct (body_time body) as [[| |t|]|]; try reflexivity.
  destruct H as [H | H].
  - rewrite H. reflexivity.
  - specialize (H t eq_refl). apply leb_true in H. rewrite H.
    now rewrite orb_true_r.
Qed.

(** A valid body: the entry is appended with the name cut to 20 characters,
    the list is sorted by time and cut to 200 entries, and that is stored. *)
Lemma post_valid (nowIso : string) (rawName : JValue) (t : R)
      (store : list LeaderboardEntry) :
  truthy (Some rawName) = true -> 0 < t ->
  let stored := firstn 200 (sortByTime
                  (store ++ [mkEntry (slice20 (toString numberToString rawName)) t nowIso])) in
  snd (post numberToString nowIso (mkBody (Some rawName) (Some (JNumber t))) store) = stored /\
  fst (post numberToString nowIso (mkBody (Some rawName) (Some (JNumber t))) store)
  = Success match findIndex (fun e => strictEq (time e) t && sameName (name e) rawName)
                            stored 0 with
            | Some i => S i
            | None => 0%nat
            end.
Proof.
  intros Hn Ht. unfold post. cbn [body_name body_time].
  rewrite Hn. apply leb_false in Ht. rewrite Ht. cbn. split; reflexivity.
Qed.

Lemma findIndex_found (p : LeaderboardEntry -> bool) (l : list LeaderboardEntry)
      (i j : nat) :
  findIndex p l i = Some j ->
  (i <= j)%nat /\ exists e, nth_error l (j - i) = Some e /\ p e = true.
Proof.
  revert i; induction l as [|h t IH]; intros i H; cbn in H; [discriminate|].
  destruct (p h) eqn:Hp.
  - injection H as <-. rewrite Nat.sub_diag. split; [lia|]. exists h. auto.
  - apply IH in H as (Hle & e & Hn & He). split; [lia|]. exists e.
    replace (j - i)%nat with (S (j - S i)) by lia. auto.
Qed.

Lemma findIndex_none (p : LeaderboardEntry -> bool) (l : list LeaderboardEntry)
      (i : nat) :
  findIndex p l i = None -> forall e, In e l -> p e = false.
Proof.
  revert i; induction l as [|h t IH]; intros i H e He; cbn in *; [tauto|].
  destruct (p h) eqn:Hp; [discriminate|].
  destruct He as [<- | He]; eauto.
Qed.

Lemma substring_short (s : string) (n : nat) :
  (String.length s <= n)%nat -> String.substring 0 n s = s.
Proof.
  revert n; induction s as [|c s IH]; intros n H; destruct n; cbn in *; auto; try lia.
  f_equal. apply IH. lia.
Qed.

(** For a name of at most 20 characters that is a string, the rank is the
    place of an entry with that name and time whenever the new entry made it
    into the stored list. *)
Lemma post_rank_short_name (nowIso s : string) (t : R) (store : list LeaderboardEntry) :
  s <> EmptyString -> (String.length s <= 20)%nat -> 0 < t ->
  let out := post numberToString nowIso (mkBody (Some (JString s)) (Some (JNumber t))) store in
  In (mkEntry s t nowIso) (snd out) ->
  exists i e, fst out = Success (S i) /\ nth_error (snd out) i = Some e /\
    name e = s /\ time e = t.
Proof.
  intros Hs Hlen Ht. cbv zeta.
  assert (Htr : truthy (Some (JString s)) = true).
  { cbn. destruct (String.eqb s EmptyString) eqn:E; [|reflexivity].
    apply String.eqb_eq in E. contradiction. }
  destruct (post_valid nowIso (JString s) t store Htr Ht) as [Hstore Hresp].
  cbv zeta in *. rewrite Hresp, Hstore. cbn [toString]. unfold slice20.
  rewrite (substring_short s 20 Hlen). intros Hin.
  match goal with |- context [findIndex ?p ?l 0] => destruct (findIndex p l 0) as [i|] eqn:Hf end.
  - apply findIndex_found in Hf as (_ & e & Hn & Hp). rewrite Nat.sub_0_r in Hn.
    exists i, e. split; [reflexivity|]. split; [exact Hn|].
    apply andb_true_iff in Hp as [H1 H2]. cbn in H2. apply String.eqb_eq in H2.
    unfold strictEq in H1. destruct (Req_dec_T (time e) t); [auto | discriminate].
  - pose proof (findIndex_none _ _ _ Hf _ Hin) as Hp. cbn in Hp.
    rewrite String.eqb_refl in Hp. unfold strictEq in Hp.
    destruct (Req_dec_T t t); [discriminate | congruence].
Qed.

(** C6, where the route goes wrong.  A name of 21 characters and a time of
    65000 posted to an empty store: the entry is stored, first in the list,
    under the name cut to 20 characters, and the answer carries rank 0.  The
    search for the rank compares the stored names with the name as it was
    sent, which no stored name equals once it has been cut. *)
Theorem post_rank_long_name (nowIso : string) :
  post numberToString nowIso
       (mkBody (Some (JString "ABCDEFGHIJKLMNOPQRSTU")) (Some (JNumber 65000))) []
  = (Success 0, [mkEntry "ABCDEFGHIJKLMNOPQRST" 65000 nowIso]).
Proof.
  unfold post. cbn [body_name body_time truthy String.eqb Ascii.eqb Bool.eqb negb orb].
  replace (leb 65000 0) with false by (symmetry; apply leb_false; lra).
  cbn [app toString sortByTime fold_left insertByTime firstn].
  cbn [findIndex time name sameName].
  replace (slice20 "ABCDEFGHIJKLMNOPQRSTU") with "ABCDEFGHIJKLMNOPQRST"%string
    by reflexivity.
  replace (String.eqb "ABCDEFGHIJKLMNOPQRST" "ABCDEFGHIJKLMNOPQRSTU") with false
    by reflexivity.
  rewrite andb_false_r. reflexivity.
Qed.

End LeaderboardFacts.

(** ** Sessions *)

Section Sessions.
Variable cfg : Track.Config.
Context {rt : Runtime}.

Lemma lapTracking_inv (now : R) (pos3 : Vec3) (r : Race) (ev : list Event) :
  Game.raceInv cfg r -> Game.raceInv cfg (fst (Game.lapTracking cfg now pos3 r ev)).
Proof.
  intros H. unfold Game.lapTracking.
  destruct (Track.distLt _ _); [now apply lapUpdate_inv | exact H].
Qed.

Lemma tickDriving_session (now dt : R) (k : Keys) (justE : bool) (w w' : World) :
  Game.raceInv cfg (race w) ->
  Game.tickDriving cfg now dt k justE w = Some w' ->
  modeRef w' = walking \/ (modeRef w' = modeRef w /\ Game.raceInv cfg (race w')).
Proof.
  intros Hinv. unfold Game.tickDriving. destruct justE.
  - intros H. apply exitVehicle_spec in H. tauto.
  - destruct (finished (race w)) eqn:Hfin; [intros H; injection H as <-; auto|].
    destruct (activeIdx w) as [i|] eqn:Hi; [|discriminate].
    destruct (nth_error (vehicles w) i) as [v|] eqn:Hv; [|discriminate].
    intros H.
    destruct (tickDriving_spec cfg now dt k w i v Hfin Hi Hv)
      as (w1 & Hw1 & Hr & _ & _ & Hm & _).
    unfold Game.tickDriving in Hw1. rewrite Hfin, Hi, Hv in Hw1.
    rewrite H in Hw1. injection Hw1 as <-.
    right. split; [exact Hm|]. rewrite Hr. now apply lapTracking_inv.
Qed.

Lemma tickFlying_mode (dt : R) (k : Keys) (justE : bool) (mouse : FrameMouse)
      (w w' : World) :
  Game.tickFlying cfg dt k justE mouse w = Some w' ->
  modeRef w' = walking \/ modeRef w' = modeRef w.
Proof.
  unfold Game.tickFlying.
  destruct (activeIdx w); [|discriminate].
  destruct (nth_error _ _); [|discriminate].
  destruct (justE && _).
  - intros H. apply exitVehicle_spec in H. tauto.
  - intros H; injection H as <-. auto.
Qed.

Lemma fireBullet_race (w w' : World) :
  Game.fireBullet w = Some w' -> race w' = race w.
Proof.
  unfold Game.fireBullet. destruct (forallb b_active (bullets w)).
  - now intros H; injection H as <-.
  - destruct (activeVehicle w); [|discriminate].
    destruct (Game.activateFirst _ _); intros H; injection H as <-; reflexivity.
Qed.

Lemma frame_sessionInv (inp : FrameInput) (w w' : World) :
  Game.sessionInv cfg w -> Game.frame cfg inp w = Some w' -> Game.sessionInv cfg w'.
Proof.
  intros Hinv Hf. apply frame_stages in Hf as (w1 & w2 & H1 & H2 & H3).
  apply collisions_fields in H3 as (_ & _ & Hm3 & _ & Hr3 & _).
  destruct (projectile_ticks_spec (Rmin (i_delta inp) 0.05) w2)
    as (_ & _ & _ & Hmp & _ & Hrp & _).
  cbv zeta in *. unfold Game.sessionInv. rewrite Hm3, Hr3, Hmp, Hrp.
  assert (H12 : modeRef w2 = modeRef w1 /\ race w2 = race w1).
  { destruct H2 as [-> | H2]; [auto|].
    split; [now apply fireBullet_fields in H2 as (_ & _ & _ & -> & _)
           | now apply fireBullet_race in H2 as ->]. }
  destruct H12 as [-> ->].
  destruct (modeRef w) eqn:Hm.
  - injection H1 as <-.
    destruct (tickWalking_spec cfg (i_now inp) (Rmin (i_delta inp) 0.05) (i_keys inp)
                (i_interact inp) (i_takenVehicleIds inp) w)
      as (_ & _ & _ & _ & _ & _ & [(Hm1 & _) | (idx & v & _ & _ & [(_ & _ & Hr) | (_ & Hm1 & _)])]).
    + rewrite Hm1, Hm. discriminate.
    + intros _. rewrite Hr. apply freshRace_inv.
    + rewrite Hm1. discriminate.
  - apply tickDriving_session in H1 as [Hm1 | [_ Hr1]]; [|auto|auto].
    rewrite Hm1. discriminate.
  - apply tickFlying_mode in H1 as [Hm1 | Hm1]; rewrite Hm1; [|rewrite Hm]; discriminate.
Qed.

(** Every state a session can reach in driving mode has a race record with
    one flag per checkpoint and no flag set before the start. *)
Lemma reachable_sessionInv (inps : list FrameInput) (w' : World) :
  Game.run cfg inps (Game.initWorld cfg) = Some w' -> Game.sessionInv cfg w'.
Proof.
  assert (H : forall w, Game.sessionInv cfg w -> Game.run cfg inps w = Some w' ->
                        Game.sessionInv cfg w').
  { induction inps as [|inp rest IH]; intros w Hw Hrun; cbn [Game.run] in Hrun.
    - now injection Hrun as <-.
    - destruct (Game.frame cfg inp w) as [w1|] eqn:Hf; [|discriminate].
      apply (IH w1); [|exact Hrun]. now apply (frame_sessionInv inp w). }
  apply H. unfold Game.sessionInv. cbn. discriminate.
Qed.

End Sessions.

(** * Further properties of the code *)

(** ** Track queries *)

Lemma scanSamples_spec (px pz : R) (pts : list Vec3) (i : nat)
      (minDist : option R) (nearestIdx : nat) :
  let out := Track.scanSamples px pz pts i minDist nearestIdx in
  (* the running minimum only goes down *)
  (forall m, minDist = Some m -> exists d, fst out = Some d /\ d <= m) /\
  (* it is a lower bound of what was scanned *)
  (forall k s, nth_error pts k = Some s ->
     exists d, fst out = Some d /\ d <= dist2 px pz s) /\
  (* either nothing beat the start, or the result is a scanned sample that
     every earlier sample is strictly farther than *)
  (out = (minDist, nearestIdx) \/
   exists j s, snd out = (i + j)%nat /\ nth_error pts j = Some s /\
     fst out = Some (dist2 px pz s) /\
     (forall m, minDist = Some m -> dist2 px pz s < m) /\
     forall k s', (k < j)%nat -> nth_error pts k = Some s' ->
       dist2 px pz s < dist2 px pz s').
Proof.
  revert i minDist nearestIdx.
  induction pts as [|a rest IH]; intros i minDist nearestIdx; cbv zeta.
  - cbn. split; [eauto using Rle_refl|]. split; [|auto].
    intros [|k] s H; discriminate.
  - cbn [Track.scanSamples]. cbv zeta.
    change ((px - vx a) * (px - vx a) + (pz - vz a) * (pz - vz a))
      with (dist2 px pz a).
    set (d := dist2 px pz a).
    destruct (match minDist with None => true | Some m => ltb d m end) eqn:Hb.
    + specialize (IH (S i) (Some d) i). cbv zeta in IH.
      destruct IH as (Hdown & Hlow & Hpick).
      destruct (Hdown d eq_refl) as (d' & Hd' & Hle).
      split; [|split].
      * intros m ->. apply ltb_true in Hb. exists d'. split; [exact Hd' | lra].
      * intros [|k] s Hk; cbn in Hk.
        { injection Hk as <-. exists d'. auto. }
        { apply (Hlow k s Hk). }
      * right. destruct Hpick as [Heq | (j & s & Hj & Hn & Hf & Hlt & Hbefore)].
        { exists 0%nat, a. rewrite Heq. cbn. rewrite Nat.add_0_r.
          repeat split; auto.
          - intros m ->. now apply ltb_true in Hb.
          - intros k s' Hk. lia. }
        { exists (S j), s. rewrite Hj. cbn. repeat split; auto; try lia.
          - intros m ->. apply ltb_true in Hb. specialize (Hlt d eq_refl).
            fold d in Hb. lra.
          - intros [|k] s' Hk Hs'; cbn in Hs'.
            + injection Hs' as <-. apply (Hlt d eq_refl).
            + apply (Hbefore k s'); [lia | exact Hs']. }
    + destruct minDist as [m|]; [|discriminate]. apply ltb_false in Hb.
      specialize (IH (S i) (Some m) nearestIdx). cbv zeta in IH.
      destruct IH as (Hdown & Hlow & Hpick).
      destruct (Hdown m eq_refl) as (d' & Hd' & Hle).
      split; [|split].
      * intros m0 Hm0. injection Hm0 as <-. eauto.
      * intros [|k] s Hk; cbn in Hk.
        { injection Hk as <-. exists d'. split; [exact Hd'|]. fold d. lra. }
        { apply (Hlow k s Hk). }
      * destruct Hpick as [Heq | (j & s & Hj & Hn & Hf & Hlt & Hbefore)];
          [left; exact Heq|].
        right. exists (S j), s. rewrite Hj. cbn. repeat split; auto; try lia.
        intros [|k] s' Hk Hs'; cbn in Hs'.
        { injection Hs' as <-. specialize (Hlt m eq_refl). fold d. lra. }
        { apply (Hbefore k s'); [lia | exact Hs']. }
Qed.

Section TrackFacts.
Variable cfg : Track.Config.
Context {rt : Runtime}.

(** X1.  With at least one sample, [getNearestTrackInfo] returns a sample of
    the curve, its index over [TRACK_SAMPLES] as parameter and its planar
    distance; no sample is nearer, every sample before it is strictly
    farther (the first of equally near samples wins), and with
    [TRACK_SAMPLES] samples the parameter lies in [0, 1). *)
Theorem nearest_sample_is_nearest (pos : Vec3) :
  Track.sampledPoints cfg <> [] ->
  let info := Track.getNearestTrackInfo cfg pos in
  exists j s,
    nth_error (Track.sampledPoints cfg) j = Some s /\
    Track.n_point info = s /\
    Track.n_t info = INR j / INR (Track.TRACK_SAMPLES cfg) /\
    Track.n_distance info = Some (sqrt (dist2 (vx pos) (vz pos) s)) /\
    (forall k s', nth_error (Track.sampledPoints cfg) k = Some s' ->
       sqrt (dist2 (vx pos) (vz pos) s) <= sqrt (dist2 (vx pos) (vz pos) s')) /\
    (forall k s', (k < j)%nat -> nth_error (Track.sampledPoints cfg) k = Some s' ->
       dist2 (vx pos) (vz pos) s < dist2 (vx pos) (vz pos) s') /\
    (List.length (Track.sampledPoints cfg) = Track.TRACK_SAMPLES cfg ->
       0 <= Track.n_t info < 1).
Proof.
  intros Hne. cbv zeta. unfold Track.getNearestTrackInfo.
  pose proof (scanSamples_spec (vx pos) (vz pos) (Track.sampledPoints cfg) 0 None 0)
    as (_ & Hlow & Hpick).
  cbv zeta in *.
  destruct (Track.scanSamples (vx pos) (vz pos) (Track.sampledPoints cfg) 0 None 0)
    as [m j] eqn:Hs.
  cbn [fst snd] in *.
  destruct Hpick as [Heq | (j' & s & Hj & Hn & Hf & _ & Hbefore)].
  - injection Heq as -> ->.
    destruct (Track.sampledPoints cfg) as [|a rest] eqn:Hp; [contradiction|].
    destruct (Hlow 0%nat a eq_refl) as (d & Hd & _). discriminate.
  - cbn in Hj. subst j m. exists j', s. cbn [Track.n_point Track.n_t Track.n_distance option_map].
    split; [exact Hn|]. split; [now apply nth_error_nth|].
    split; [reflexivity|]. split; [reflexivity|]. split; [|split].
    + intros k s' Hk. destruct (Hlow k s' Hk) as (d & Hd & Hle).
      injection Hd as <-. now apply sqrt_le_1_alt.
    + exact Hbefore.
    + intros Hlen.
      assert (Hlt : (j' < Track.TRACK_SAMPLES cfg)%nat).
      { rewrite <- Hlen. apply nth_error_Some. congruence. }
      assert (Hpos : 0 < INR (Track.TRACK_SAMPLES cfg)) by (apply lt_0_INR; lia).
      split.
      * apply Rmult_le_pos; [apply pos_INR | left; now apply Rinv_0_lt_compat].
      * apply lt_INR in Hlt.
        apply (Rmult_lt_reg_r (INR (Track.TRACK_SAMPLES cfg))); [exact Hpos|].
        unfold Rdiv. rewrite Rmult_assoc, Rinv_l; lra.
Qed.

(** X2.  Without samples nothing is on the track and the elevation is 0.
    On the track the elevation is the height of the nearest sample.  At
    [TRACK_WIDTH] or more from the nearest sample a position is off the
    track and at elevation 0. *)
Theorem on_track_elevation (pos : Vec3) :
  (Track.sampledPoints cfg = [] ->
     Track.isOnTrack cfg pos = false /\ Track.getTrackElevation cfg pos = 0) /\
  (0 <= Track.TRACK_WIDTH cfg -> Track.isOnTrack cfg pos = true ->
     Track.getTrackElevation cfg pos
     = vy (Track.n_point (Track.getNearestTrackInfo cfg pos))) /\
  (forall d, Track.n_distance (Track.getNearestTrackInfo cfg pos) = Some d ->
     Track.TRACK_WIDTH cfg <= d ->
     Track.isOnTrack cfg pos = false /\ Track.getTrackElevation cfg pos = 0).
Proof.
  split; [|split].
  - intros He. unfold Track.isOnTrack, Track.getTrackElevation,
      Track.getNearestTrackInfo. rewrite He. cbn. auto.
  - intros Hw. unfold Track.isOnTrack, Track.getTrackElevation.
    destruct (Track.n_distance (Track.getNearestTrackInfo cfg pos)) as [d|];
      unfold Track.distLt; [|discriminate].
    intros H. apply ltb_true in H.
    replace (ltb d (Track.TRACK_WIDTH cfg)) with true; [reflexivity|].
    symmetry. apply ltb_true. lra.
  - intros d Hd Hle. unfold Track.isOnTrack, Track.getTrackElevation.
    rewrite Hd. unfold Track.distLt.
    assert (Hd0 : 0 <= d).
    { unfold Track.getNearestTrackInfo in Hd.
      destruct (Track.scanSamples _ _ _ _ _ _) as [[m|] j]; cbn in Hd; [|discriminate].
      injection Hd as <-. apply sqrt_pos. }
    replace (ltb d (Track.TRACK_WIDTH cfg)) with false
      by (symmetry; apply ltb_false; lra).
    replace (ltb d (Track.TRACK_WIDTH cfg / 2)) with false
      by (symmetry; apply ltb_false; lra).
    auto.
Qed.

Lemma checkpointLoop_nth (n i k : nat) :
  (k < n)%nat ->
  nth_error (Track.checkpointLoop cfg n i) k
  = Some ((INR (i + k) + 1) / (INR (Track.NUM_CHECKPOINTS cfg) + 1)).
Proof.
  revert i k; induction n as [|n IH]; intros i k Hk; [lia|].
  destruct k; cbn.
  - now rewrite Nat.add_0_r.
  - rewrite IH by lia. replace (S i + k)%nat with (i + S k)%nat by lia. reflexivity.
Qed.

(** X3.  [getCheckpointTs] gives [NUM_CHECKPOINTS] parameters, the k-th
    (from 0) being [(k + 1) / (NUM_CHECKPOINTS + 1)]: all strictly between 0
    and 1, so the start line is none of them, and in increasing order. *)
Theorem checkpoints_evenly_spaced :
  let cps := Track.getCheckpointTs cfg in
  let n := Track.NUM_CHECKPOINTS cfg in
  List.length cps = n /\
  (forall k, (k < n)%nat ->
     exists t, nth_error cps k = Some t /\ t = (INR k + 1) / (INR n + 1) /\
       0 < t < 1) /\
  (forall k l t u, (k < l)%nat -> nth_error cps k = Some t ->
     nth_error cps l = Some u -> t < u).
Proof.
  cbv zeta. pose proof (pos_INR (Track.NUM_CHECKPOINTS cfg)) as Hn.
  assert (Hnth : forall k, (k < Track.NUM_CHECKPOINTS cfg)%nat ->
            nth_error (Track.getCheckpointTs cfg) k
            = Some ((INR k + 1) / (INR (Track.NUM_CHECKPOINTS cfg) + 1))).
  { intros k Hk. unfold Track.getCheckpointTs. now rewrite checkpointLoop_nth. }
  split; [apply getCheckpointTs_length|]. split.
  - intros k Hk. eexists. split; [apply Hnth; exact Hk|]. split; [reflexivity|].
    pose proof (pos_INR k). apply lt_INR in Hk. split.
    + apply Rdiv_lt_0_compat; lra.
    + apply (Rmult_lt_reg_r (INR (Track.NUM_CHECKPOINTS cfg) + 1)); [lra|].
      unfold Rdiv. rewrite Rmult_assoc, Rinv_l; lra.
  - intros k l t u Hkl Hk Hl.
    assert (Hl' : (l < Track.NUM_CHECKPOINTS cfg)%nat).
    { rewrite <- (getCheckpointTs_length cfg). apply nth_error_Some. congruence. }
    rewrite Hnth in Hk, Hl by lia. injection Hk as <-. injection Hl as <-.
    apply lt_INR in Hkl. unfold Rdiv. apply Rmult_lt_compat_r; [|lra].
    apply Rinv_0_lt_compat. lra.
Qed.

End TrackFacts.

Lemma nearest_sample_is_nearest_witness :
  exists j s, nth_error (Track.sampledPoints trackA) j = Some s /\
    Track.n_point (Track.getNearestTrackInfo trackA (mkVec3 3 0 4)) = s.
Proof.
  destruct (nearest_sample_is_nearest trackA (mkVec3 3 0 4)) as (j & s & H1 & H2 & _).
  - discriminate.
  - exists j, s. auto.
Defined.

Lemma checkpoints_evenly_spaced_witness :
  nth_error (Track.getCheckpointTs trackA) 0 = Some ((0 + 1) / (4 + 1)) /\
  nth_error (Track.getCheckpointTs trackA) 3 = Some ((3 + 1) / (4 + 1)).
Proof.
  destruct (checkpoints_evenly_spaced trackA) as (_ & Hnth & _).
  split.
  - destruct (Hnth 0%nat) as (t & Ht & -> & _); [simpl; lia|].
    rewrite Ht. cbn. repeat f_equal; lra.
  - destruct (Hnth 3%nat) as (t & Ht & -> & _); [simpl; lia|].
    rewrite Ht. cbn. repeat f_equal; lra.
Defined.

(** ** Ground, laps and boost *)

Section GroundAndLaps.
Variable cfg : Track.Config.
Context {rt : Runtime}.

(** X4.  The ground is the higher of the track elevation and the ramp.  The
    ramp covers 120 <= x <= 140, 193 <= z <= 207 and rises with x, from 0 at
    x = 120 to 3.5 at x = 140; elsewhere it adds nothing.  The ground is
    never below 0 and never below the track elevation. *)
Theorem ground_height_ramp (x z : R) :
  let trackY := Track.getTrackElevation cfg (mkVec3 x 0 z) in
  (120 <= x <= 140 -> 193 <= z <= 207 ->
     Game.getGroundHeight cfg x z = Rmax trackY ((x - 120) / 20 * 3.5) /\
     0 <= (x - 120) / 20 * 3.5 <= 3.5) /\
  (x < 120 \/ 140 < x \/ z < 193 \/ 207 < z ->
     Game.getGroundHeight cfg x z = Rmax trackY 0) /\
  0 <= Game.getGroundHeight cfg x z /\
  trackY <= Game.getGroundHeight cfg x z.
Proof.
  cbv zeta. unfold Game.getGroundHeight. cbv zeta.
  unfold RAMP_rotation, RAMP_x, RAMP_z, RAMP_width, RAMP_length, RAMP_height.
  rewrite cos_PI2, sin_PI2.
  set (trackY := Track.getTrackElevation cfg (mkVec3 x 0 z)).
  split; [|split; [|split]].
  - intros Hx Hz.
    replace (geb ((x - 130) * 0 - (z - 200) * 1) (- (14 / 2))) with true
      by (symmetry; apply geb_true; lra).
    replace (leb ((x - 130) * 0 - (z - 200) * 1) (14 / 2)) with true
      by (symmetry; apply leb_true; lra).
    replace (geb ((x - 130) * 1 + (z - 200) * 0) (- (20 / 2))) with true
      by (symmetry; apply geb_true; lra).
    replace (leb ((x - 130) * 1 + (z - 200) * 0) (20 / 2)) with true
      by (symmetry; apply leb_true; lra).
    cbn [andb]. split; [f_equal; lra | lra].
  - intros H.
    match goal with |- Rmax _ (if ?c then _ else _) = _ =>
      replace c with false; [reflexivity|] end.
    symmetry. apply andb_false_iff.
    destruct H as [H | [H | [H | H]]].
    + left. apply andb_false_iff. right. apply geb_false. lra.
    + right. apply leb_false. lra.
    + left. apply andb_false_iff. left. apply andb_false_iff. right.
      apply leb_false. lra.
    + left. apply andb_false_iff. left. apply andb_false_iff. left.
      apply geb_false. lra.
  - match goal with |- 0 <= Rmax _ ?r =>
      assert (Hr : 0 <= r); [|pose proof (Rmax_r trackY r); lra] end.
    match goal with |- 0 <= (if ?c then _ else _) => destruct c eqn:Hc end; [|lra].
    apply andb_true_iff in Hc as [Hc _]. apply andb_true_iff in Hc as [_ Hc].
    apply geb_true in Hc. lra.
  - apply Rmax_l.
Qed.

Lemma markCheckpoints_new (prevT currT : R) (cpTs : list R) (cps : list bool) (i : nat) :
  nth i cps false = false ->
  nth i (Game.markCheckpoints prevT currT cpTs cps) false = true ->
  exists cp, nth_error cpTs i = Some cp /\ prevT < cp <= currT.
Proof.
  revert cps i; induction cpTs as [|cp cpTs IH]; intros cps i H0 H1.
  - destruct cps; cbn [Game.markCheckpoints] in H1; congruence.
  - destruct cps as [|c cps]; cbn [Game.markCheckpoints] in H1; [congruence|].
    destruct i; cbn [nth] in *.
    + subst c. cbn [negb andb] in H1.
      destruct (ltb prevT cp) eqn:Hl; cbn [andb] in H1; [|discriminate].
      destruct (geb currT cp) eqn:Hg; [|discriminate].
      apply ltb_true in Hl. apply geb_true in Hg. exists cp. split; [reflexivity | lra].
    + cbn [nth_error]. eauto.
Qed.

(** X5.  In an update of the lap tracker that closes no lap, no checkpoint
    flag goes from set to unset, and a flag that becomes set belongs to a
    checkpoint parameter [cp] that the update crossed forwards:
    [prevT < cp <= currT] with [0 < currT - prevT < 0.5]. *)
Theorem checkpoints_only_forward (now currT : R) (r : Race) (ev : list Event) (i : nat) :
  let r' := fst (Game.lapUpdate cfg now currT r ev) in
  lap r' = lap r ->
  (nth i (checkpoints r) false = true -> nth i (checkpoints r') false = true) /\
  (nth i (checkpoints r) false = false -> nth i (checkpoints r') false = true ->
     exists cp, nth_error (Track.getCheckpointTs cfg) i = Some cp /\
       lastT r < cp <= currT /\ 0 < currT - lastT r < 0.5).
Proof.
  cbv zeta. unfold Game.lapUpdate.
  destruct (if negb (started r) && gtb currT 0.05 then true else started r);
    [|cbn; intros _; split; [auto | congruence]].
  match goal with |- context [forallb _ ?c] => set (cps1 := c) end.
  destruct (gtb (lastT r) 0.85 && ltb currT 0.15 && forallb (fun c => c) cps1).
  - cbn. intros H. exfalso. lia.
  - cbn. intros _. unfold cps1.
    destruct (gtb (currT - lastT r) 0 && ltb (currT - lastT r) 0.5) eqn:Hd.
    + apply andb_true_iff in Hd as [H1 H2]. apply gtb_true in H1. apply ltb_true in H2.
      split; [apply markCheckpoints_monotone|].
      intros H0 Hn. destruct (markCheckpoints_new _ _ _ _ _ H0 Hn) as (cp & Hcp & Hx).
      exists cp. repeat split; auto; lra.
    + split; [auto | congruence].
Qed.

Lemma minTime_cons (t : R) (l : list R) :
  match minTime l with
  | None => Some t
  | Some b => if ltb t b then Some t else Some b
  end = minTime (t :: l).
Proof.
  cbn [minTime]. destruct (minTime l) as [b|]; [|reflexivity].
  unfold ltb, Rmin. destruct (Rlt_dec t b), (Rle_dec t b); try reflexivity; try lra.
  f_equal. lra.
Qed.

Lemma completeLap_accounting (now : R) (r : Race) (ev : list Event) :
  lap r = List.length (lapTimes ev) -> bestLap r = minTime (lapTimes ev) ->
  lap (fst (Game.completeLap cfg now r ev))
    = List.length (lapTimes (snd (Game.completeLap cfg now r ev))) /\
  bestLap (fst (Game.completeLap cfg now r ev))
    = minTime (lapTimes (snd (Game.completeLap cfg now r ev))).
Proof.
  intros Hl Hb. unfold Game.completeLap. cbv zeta. cbn [fst snd lap bestLap].
  rewrite Hb, minTime_cons.
  destruct (Nat.leb _ _); cbn [lapTimes List.length]; rewrite Hl; split; reflexivity.
Qed.

Lemma lapUpdate_accounting (now currT : R) (r : Race) (ev : list Event) :
  lap r = List.length (lapTimes ev) -> bestLap r = minTime (lapTimes ev) ->
  let out := Game.lapUpdate cfg now currT r ev in
  lap (fst out) = List.length (lapTimes (snd out)) /\
  bestLap (fst out) = minTime (lapTimes (snd out)).
Proof.
  intros Hl Hb. cbv zeta. unfold Game.lapUpdate. cbv zeta.
  destruct (if negb (started r) && gtb currT 0.05 then true else started r);
    [|cbn; auto].
  match goal with |- context [if ?c then Game.completeLap _ _ ?r1 _ else _] =>
    destruct c; [pose proof (completeLap_accounting now r1 ev Hl Hb) as H;
                 destruct (Game.completeLap cfg now r1 ev) as [r2 ev2]; cbn in *; exact H
                | cbn; auto] end.
Qed.

(** X6.  Over any run of tracker updates from a record with no lap and no
    best lap, the lap count is the number of times [onLapComplete] was
    called and the best lap is the smallest lap time it was called with. *)
Theorem best_lap_is_minimum (steps : list (R * R)) (r : Race) :
  lap r = 0%nat -> bestLap r = None ->
  let out := lapRun cfg steps r [] in
  lap (fst out) = List.length (lapTimes (snd out)) /\
  bestLap (fst out) = minTime (lapTimes (snd out)).
Proof.
  intros Hl Hb. cbv zeta.
  assert (H : forall r ev,
    lap r = List.length (lapTimes ev) -> bestLap r = minTime (lapTimes ev) ->
    lap (fst (lapRun cfg steps r ev)) = List.length (lapTimes (snd (lapRun cfg steps r ev))) /\
    bestLap (fst (lapRun cfg steps r ev)) = minTime (lapTimes (snd (lapRun cfg steps r ev)))).
  { induction steps as [|[now currT] rest IH]; intros r0 ev H1 H2; cbn [lapRun]; [auto|].
    pose proof (lapUpdate_accounting now currT r0 ev H1 H2) as H. cbv zeta in H.
    destruct (Game.lapUpdate cfg now currT r0 ev) as [r1 ev1]. cbn in H.
    apply IH; tauto. }
  apply H; [rewrite Hl | rewrite Hb]; reflexivity.
Qed.

End GroundAndLaps.

Lemma checkpoints_only_forward_witness :
  nth 0 (checkpoints (fst (Game.lapUpdate trackA 1000 0.95 raceOneMissed []))) false = true.
Proof.
  apply (checkpoints_only_forward trackA 1000 0.95 raceOneMissed [] 0); [|reflexivity].
  unfold Game.lapUpdate. cbn [raceOneMissed started negb andb lastT checkpoints].
  replace (gtb 0.9 0.85) with true by (symmetry; apply gtb_true; lra).
  replace (ltb 0.95 0.15) with false by (symmetry; apply ltb_false; lra).
  cbn [andb]. destruct (_ && _); reflexivity.
Defined.

Lemma best_lap_is_minimum_witness :
  let out := lapRun trackA [(65000, 0.1); (125000, 0.3)] raceAllPassed [] in
  lap (fst out) = List.length (lapTimes (snd out)).
Proof.
  apply (best_lap_is_minimum trackA [(65000, 0.1); (125000, 0.3)] raceAllPassed
           eq_refl eq_refl).
Defined.

Lemma ground_height_ramp_witness :
  Game.getGroundHeight trackA 130 200
  = Rmax (Track.getTrackElevation trackA (mkVec3 130 0 200)) ((130 - 120) / 20 * 3.5).
Proof.
  destruct (ground_height_ramp trackA 130 200) as [H _].
  apply H; lra.
Defined.

(** ** What the stages after the mode tick leave alone *)

Section FrameTail.
Variable cfg : Track.Config.
Context {rt : Runtime}.

Lemma collisions_only_vehicles (rps : list RemotePlayer) (w w' : World) :
  Game.tickVehicleCollisions rps w = Some w' -> exists vs, w' = withVehicles w vs.
Proof.
  unfold Game.tickVehicleCollisions. intros H.
  assert (Hw : w = withVehicles w (vehicles w)) by now destruct w.
  destruct (modeRef w); [injection H as <-; eauto | |];
    (destruct (activeIdx w); [|injection H as <-; eauto];
     destruct (nth_error (vehicles w) n); [|discriminate];
     destruct (Game.collideLocal _ _ _ _); injection H as <-; eauto).
Qed.

Lemma frame_tail_same (inp : FrameInput) (w1 w2 w' : World) (dt t : R) :
  (w2 = w1 \/ Game.fireBullet (withLastFireTime w1 t) = Some w2) ->
  Game.tickVehicleCollisions (i_remotePlayers inp)
    (Game.tickTargets dt (Game.tickMuzzleFlash dt (Game.tickBullets dt w2))) = Some w' ->
  race w' = race w1 /\ boostMeter w' = boostMeter w1 /\ events w' = events w1 /\
  modeRef w' = modeRef w1 /\ activeIdx w' = activeIdx w1 /\
  charPos w' = charPos w1 /\ charRot w' = charRot w1 /\
  orbitYawRef w' = orbitYawRef w1 /\ nearbyRef w' = nearbyRef w1 /\
  carVelY w' = carVelY w1 /\ carOnGround w' = carOnGround w1.
Proof.
  intros H12 H3.
  assert (H2 : race w2 = race w1 /\ boostMeter w2 = boostMeter w1 /\ events w2 = events w1 /\
               modeRef w2 = modeRef w1 /\ activeIdx w2 = activeIdx w1 /\
               charPos w2 = charPos w1 /\ charRot w2 = charRot w1 /\
               orbitYawRef w2 = orbitYawRef w1 /\ nearbyRef w2 = nearbyRef w1 /\
               carVelY w2 = carVelY w1 /\ carOnGround w2 = carOnGround w1).
  { destruct H12 as [-> | H]; [repeat split|].
    unfold Game.fireBullet in H.
    destruct (forallb b_active _); [injection H as <-; repeat split|].
    destruct (activeVehicle _); [|discriminate].
    destruct (Game.activateFirst _ _); injection H as <-; repeat split. }
  set (w3 := Game.tickTargets dt (Game.tickMuzzleFlash dt (Game.tickBullets dt w2))) in *.
  assert (H23 : race w3 = race w2 /\ boostMeter w3 = boostMeter w2 /\ events w3 = events w2 /\
               modeRef w3 = modeRef w2 /\ activeIdx w3 = activeIdx w2 /\
               charPos w3 = charPos w2 /\ charRot w3 = charRot w2 /\
               orbitYawRef w3 = orbitYawRef w2 /\ nearbyRef w3 = nearbyRef w2 /\
               carVelY w3 = carVelY w2 /\ carOnGround w3 = carOnGround w2).
  { unfold w3, Game.tickTargets, Game.tickMuzzleFlash, Game.tickBullets.
    destruct (Game.tickBulletsLoop dt (bullets w2) (targets w2)) as [pool' ts'].
    destruct (gtb _ 0); repeat split. }
  clearbody w3.
  assert (H34 : race w' = race w3 /\ boostMeter w' = boostMeter w3 /\ events w' = events w3 /\
               modeRef w' = modeRef w3 /\ activeIdx w' = activeIdx w3 /\
               charPos w' = charPos w3 /\ charRot w' = charRot w3 /\
               orbitYawRef w' = orbitYawRef w3 /\ nearbyRef w' = nearbyRef w3 /\
               carVelY w' = carVelY w3 /\ carOnGround w' = carOnGround w3).
  { apply collisions_only_vehicles in H3 as [vs ->]. repeat split. }
  repeat match goal with H : _ /\ _ |- _ => destruct H end.
  repeat split; congruence.
Qed.

Lemma exitVehicle_keeps (w w' : World) :
  Game.exitVehicle cfg w = Some w' ->
  lap (race w') = lap (race w) /\ finished (race w') = finished (race w) /\
  bestLap (race w') = bestLap (race w) /\ active (race w') = false /\
  boostMeter w' = boostMeter w /\ events w' = events w.
Proof.
  unfold Game.exitVehicle.
  destruct (activeIdx w); [|discriminate].
  destruct (nth_error _ _); [|discriminate].
  intros H; injection H as <-. repeat split.
Qed.

Lemma tickFlying_keeps (dt : R) (k : Keys) (justE : bool) (mouse : FrameMouse)
      (w w' : World) :
  Game.tickFlying cfg dt k justE mouse w = Some w' ->
  lap (race w') = lap (race w) /\ finished (race w') = finished (race w) /\
  bestLap (race w') = bestLap (race w) /\
  boostMeter w' = boostMeter w /\ events w' = events w.
Proof.
  unfold Game.tickFlying.
  destruct (activeIdx w); [|discriminate].
  destruct (nth_error _ _); [|discriminate].
  destruct (justE && _).
  - intros H. apply exitVehicle_keeps in H. cbn in H. tauto.
  - intros H; injection H as <-. repeat split.
Qed.

Lemma tickWalking_keeps (now dt : R) (k : Keys) (justE : bool)
      (taken : list string) (w : World) :
  let w' := Game.tickWalking cfg now dt k justE taken w in
  boostMeter w' = boostMeter w /\ events w' = events w /\
  (race w' = race w \/ race w' = Game.freshRace cfg now).
Proof.
  cbv zeta. unfold Game.tickWalking. cbv zeta.
  repeat split_let.
  match goal with |- context [match ?e with Some _ => _ | None => _ end] =>
    destruct e as [[idx0 v0]|] end; cbn; [|auto].
  destruct (v_type v0); auto.
Qed.

Lemma lapUpdate_bounded (now currT : R) (r : Race) (ev : list Event) :
  finished r = false -> lapsBounded cfg r ->
  lapsBounded cfg (fst (Game.lapUpdate cfg now currT r ev)).
Proof.
  intros Hf [Hle Hiff]. unfold Game.lapUpdate. cbv zeta.
  assert (Hlt : (lap r < Track.TOTAL_LAPS cfg)%nat).
  { destruct (le_lt_dec (Track.TOTAL_LAPS cfg) (lap r)) as [H|H]; [|exact H].
    apply Hiff in H. congruence. }
  destruct (if negb (started r) && gtb currT 0.05 then true else started r);
    [|cbn; split; auto].
  match goal with |- context [if ?c then Game.completeLap _ _ _ _ else _] =>
    destruct c end; [|cbn; split; auto].
  unfold Game.completeLap. cbv zeta. cbn [fst lap finished].
  unfold lapsBounded. cbn [lap finished]. rewrite Hf.
  destruct (Nat.leb (Track.TOTAL_LAPS cfg) (S (lap r))) eqn:Hn.
  - apply Nat.leb_le in Hn. split; [lia|]. split; auto.
  - apply Nat.leb_gt in Hn. split; [lia|]. split; [discriminate | lia].
Qed.

Lemma tickDriving_bounded (now dt : R) (k : Keys) (justE : bool) (w w' : World) :
  lapsBounded cfg (race w) ->
  Game.tickDriving cfg now dt k justE w = Some w' ->
  lapsBounded cfg (race w').
Proof.
  intros Hb. unfold Game.tickDriving. destruct justE.
  - intros H. apply exitVehicle_keeps in H as (Hl & Hf & _).
    unfold lapsBounded. rewrite Hl, Hf. exact Hb.
  - destruct (finished (race w)) eqn:Hfin; [intros H; injection H as <-; exact Hb|].
    destruct (activeIdx w) as [i|] eqn:Hi; [|discriminate].
    destruct (nth_error (vehicles w) i) as [v|] eqn:Hv; [|discriminate].
    intros H.
    destruct (tickDriving_spec cfg now dt k w i v Hfin Hi Hv) as (w1 & Hw1 & Hr & _).
    unfold Game.tickDriving in Hw1. rewrite Hfin, Hi, Hv in Hw1.
    rewrite H in Hw1. injection Hw1 as <-. rewrite Hr.
    unfold Game.lapTracking. destruct (Track.distLt _ _); [|exact Hb].
    now apply lapUpdate_bounded.
Qed.

Lemma frame_bounded (inp : FrameInput) (w w' : World) :
  (1 <= Track.TOTAL_LAPS cfg)%nat ->
  lapsBounded cfg (race w) -> Game.frame cfg inp w = Some w' ->
  lapsBounded cfg (race w').
Proof.
  intros Htot Hb Hf. apply frame_stages in Hf as (w1 & w2 & H1 & H2 & H3).
  destruct (frame_tail_same inp w1 w2 w' _ _ H2 H3) as (-> & _).
  destruct (modeRef w).
  - injection H1 as <-.
    destruct (tickWalking_keeps (i_now inp) (Rmin (i_delta inp) 0.05) (i_keys inp)
                (i_interact inp) (i_takenVehicleIds inp) w) as (_ & _ & [-> | ->]);
      [exact Hb|].
    unfold lapsBounded. cbn. split; [lia|]. split; [discriminate | lia].
  - now apply tickDriving_bounded in H1.
  - apply tickFlying_keeps in H1 as (Hl & Hfi & _).
    unfold lapsBounded. rewrite Hl, Hfi. exact Hb.
Qed.

(** X7.  With at least one lap to drive, the lap count of the race record
    never passes [TOTAL_LAPS] and the record is finished exactly when the
    count has reached it: this holds when the controller is created and
    every run of frames keeps it. *)
Theorem laps_never_exceed_total :
  (1 <= Track.TOTAL_LAPS cfg)%nat ->
  lapsBounded cfg (race (Game.initWorld cfg)) /\
  forall (inps : list FrameInput) (w w' : World),
    lapsBounded cfg (race w) -> Game.run cfg inps w = Some w' ->
    lapsBounded cfg (race w').
Proof.
  intros Htot. split.
  - unfold lapsBounded. cbn. split; [lia|]. split; [discriminate | lia].
  - induction inps as [|inp rest IH]; intros w w' Hw Hrun; cbn [Game.run] in Hrun.
    + now injection Hrun as <-.
    + destruct (Game.frame cfg inp w) as [w1|] eqn:Hf; [|discriminate].
      apply (IH w1); [|exact Hrun]. now apply (frame_bounded inp w).
Qed.

Lemma tickDriving_boost (now dt : R) (k : Keys) (justE : bool) (w w' : World) :
  0 <= dt -> boostInRange w ->
  Game.tickDriving cfg now dt k justE w = Some w' ->
  boostInRange w'.
Proof.
  intros Hdt Hb. unfold Game.tickDriving. destruct justE.
  - intros H. apply exitVehicle_keeps in H as (_ & _ & _ & _ & Hbm & _).
    unfold boostInRange. now rewrite Hbm.
  - destruct (finished (race w)); [intros H; injection H as <-; exact Hb|].
    destruct (activeIdx w); [|discriminate].
    destruct (nth_error _ _); [|discriminate].
    cbv zeta. repeat split_let. intros H; injection H as <-.
    unfold boostInRange in *. cbn [boostMeter].
    destruct (k_shift k && gtb (boostMeter w) 0 && k_forward k).
    + unfold Rmax. destruct (Rle_dec _ _); nra.
    + unfold Rmin. destruct (Rle_dec _ _); nra.
Qed.

Lemma frame_boost (inp : FrameInput) (w w' : World) :
  0 <= i_delta inp -> boostInRange w -> Game.frame cfg inp w = Some w' ->
  boostInRange w'.
Proof.
  intros Hd Hb Hf. apply frame_stages in Hf as (w1 & w2 & H1 & H2 & H3).
  destruct (frame_tail_same inp w1 w2 w' _ _ H2 H3) as (_ & Hbm & _).
  unfold boostInRange. rewrite Hbm.
  assert (Hdt : 0 <= Rmin (i_delta inp) 0.05).
  { unfold Rmin. destruct (Rle_dec _ _); lra. }
  destruct (modeRef w).
  - injection H1 as <-.
    destruct (tickWalking_keeps (i_now inp) (Rmin (i_delta inp) 0.05) (i_keys inp)
                (i_interact inp) (i_takenVehicleIds inp) w) as (-> & _). exact Hb.
  - now apply (tickDriving_boost _ _ _ _ w w1 Hdt Hb) in H1.
  - apply tickFlying_keeps in H1 as (_ & _ & _ & -> & _). exact Hb.
Qed.

(** X8.  The boost meter is a percentage.  It starts at 100, and over any
    run of frames whose deltas are not negative it stays between 0 and
    100. *)
Theorem boost_meter_in_range (inps : list FrameInput) (w w' : World) :
  forwardTime inps -> boostInRange w -> Game.run cfg inps w = Some w' ->
  boostInRange w' /\ boostMeter (Game.initWorld cfg) = 100.
Proof.
  intros Hfw Hw Hrun. split; [|reflexivity].
  revert w Hw Hrun. induction Hfw as [|inp rest Hd _ IH]; intros w Hw Hrun;
    cbn [Game.run] in Hrun.
  - now injection Hrun as <-.
  - destruct (Game.frame cfg inp w) as [w1|] eqn:Hf; [|discriminate].
    apply (IH w1); [|exact Hrun]. now apply (frame_boost inp w).
Qed.

End FrameTail.

(** ** Modes, the roster and the frames that throw *)

Section Modes.
Variable cfg : Track.Config.
Context {rt : Runtime}.

Lemma setNth_tags (vs : list VehicleState) (i : nat) (v v' : VehicleState) :
  nth_error vs i = Some v -> slotTag v' = slotTag v ->
  map slotTag (setNth i v' vs) = map slotTag vs.
Proof.
  revert i; induction vs as [|a rest IH]; intros [|i] H1 H2; cbn in *;
    try discriminate.
  - injection H1 as ->. now rewrite H2.
  - f_equal. eauto.
Qed.

Lemma tags_nth (vs vs' : list VehicleState) (i : nat) (v : VehicleState) :
  map slotTag vs' = map slotTag vs -> nth_error vs i = Some v ->
  exists v', nth_error vs' i = Some v' /\ slotTag v' = slotTag v.
Proof.
  intros Hm Hn.
  assert (H := f_equal (fun l => nth_error l i) Hm). cbn in H.
  rewrite !nth_error_map, Hn in H.
  destruct (nth_error vs' i) as [v'|]; cbn in H; [|discriminate].
  exists v'. split; [reflexivity|]. congruence.
Qed.

Lemma modeInv_transfer (w w' : World) :
  modeRef w' = modeRef w -> activeIdx w' = activeIdx w ->
  rosterOf w' = rosterOf w -> modeInv w -> modeInv w'.
Proof.
  unfold modeInv, rosterOf. intros -> -> Hr.
  destruct (modeRef w), (activeIdx w); auto; intros (v & Hv & Ht);
    destruct (tags_nth _ _ _ _ Hr Hv) as (v' & Hv' & Htag);
    exists v'; (split; [exact Hv'|]); unfold slotTag in Htag; congruence.
Qed.

Lemma resolveCollision_tag (me : VehicleState) (ox oz r : R) (po : option Vec3) :
  slotTag (fst (Game.resolveCollision me ox oz r po)) = slotTag me.
Proof.
  unfold Game.resolveCollision. cbv zeta. destruct (_ && _); reflexivity.
Qed.

Lemma collideRemote_tag (me : VehicleState) (rps : list RemotePlayer) :
  slotTag (Game.collideRemote me rps) = slotTag me.
Proof.
  revert me; induction rps as [|rp rest IH]; intros me; cbn; [reflexivity|].
  pose proof (resolveCollision_tag me (vx (rp_position rp)) (vz (rp_position rp))
                (Game.remoteRadius (rp_mode rp)) None) as H.
  destruct (Game.resolveCollision me _ _ _ None) as [me1 po]. cbn in H.
  now rewrite IH.
Qed.

Lemma collideLocal_tags (act i : nat) (me : VehicleState) (vs : list VehicleState) :
  slotTag (fst (Game.collideLocal act i me vs)) = slotTag me /\
  map slotTag (snd (Game.collideLocal act i me vs)) = map slotTag vs.
Proof.
  revert i me; induction vs as [|other rest IH]; intros i me;
    cbn [Game.collideLocal]; [cbn; auto|].
  destruct (Nat.eqb i act).
  - specialize (IH (S i) me).
    destruct (Game.collideLocal act (S i) me rest). cbn in *.
    destruct IH as [-> ->]. auto.
  - pose proof (resolveCollision_tag me (vx (v_pos other)) (vz (v_pos other))
                  (Game.vehicleRadius (v_type other)) (Some (v_pos other))) as H.
    destruct (Game.resolveCollision me _ _ _ (Some (v_pos other))) as [me1 po].
    cbn in H. specialize (IH (S i) me1).
    destruct (Game.collideLocal act (S i) me1 rest). cbn in *.
    destruct IH as [-> ->]. split; [exact H|]. f_equal. now destruct po.
Qed.

Lemma collisions_modeInv (rps : list RemotePlayer) (w : World) :
  modeInv w ->
  exists w', Game.tickVehicleCollisions rps w = Some w' /\
    modeRef w' = modeRef w /\ activeIdx w' = activeIdx w /\
    rosterOf w' = rosterOf w.
Proof.
  intros Hinv.
  assert (Hcase : (modeRef w = walking /\ activeIdx w = None) \/
                  (modeRef w <> walking /\
                   exists i v, activeIdx w = Some i /\ nth_error (vehicles w) i = Some v)).
  { unfold modeInv in Hinv.
    destruct (modeRef w), (activeIdx w) as [i|]; try contradiction; auto;
      destruct Hinv as (v & Hv & _); right; (split; [discriminate|]); eauto. }
  destruct Hcase as [[Hm Hi] | (Hm & i & v & Hi & Hv)].
  - exists w. unfold Game.tickVehicleCollisions. rewrite Hm. auto.
  - rewrite (collisions_explicit cfg rps w i v Hm Hi Hv).
    eexists. split; [reflexivity|]. split; [reflexivity|]. split; [reflexivity|].
    unfold rosterOf. cbn [vehicles withVehicles].
    destruct (collideLocal_tags i 0 v (vehicles w)) as [Hme Hvs].
    destruct (tags_nth _ _ _ _ Hvs Hv) as (v1 & Hv1 & Ht1).
    rewrite (setNth_tags _ i v1 _ Hv1); [exact Hvs|].
    rewrite collideRemote_tag, Hme. congruence.
Qed.

Lemma tail_modeInv (dt : R) (rps : list RemotePlayer) (w2 : World) :
  modeInv w2 ->
  exists w', Game.tickVehicleCollisions rps
               (Game.tickTargets dt (Game.tickMuzzleFlash dt (Game.tickBullets dt w2)))
             = Some w' /\
    modeRef w' = modeRef w2 /\ activeIdx w' = activeIdx w2 /\
    rosterOf w' = rosterOf w2.
Proof.
  intros Hinv.
  destruct (projectile_ticks_spec dt w2) as (_ & _ & Hv & Hm & Hi & _).
  cbv zeta in *.
  set (w3 := Game.tickTargets dt (Game.tickMuzzleFlash dt (Game.tickBullets dt w2))) in *.
  assert (Hr : rosterOf w3 = rosterOf w2) by (unfold rosterOf; now rewrite Hv).
  destruct (collisions_modeInv rps w3) as (w' & Hw' & Hm' & Hi' & Hr').
  { now apply (modeInv_transfer w2). }
  exists w'. repeat split; congruence.
Qed.

Lemma driveVertical_tag (dt : R) (k : Keys) (v : VehicleState) (velY : R) (og : bool) :
  slotTag (fst (fst (Game.driveVertical cfg dt k v velY og))) = slotTag v.
Proof.
  unfold Game.driveVertical. cbv zeta.
  destruct og.
  - destruct (gtb _ MAX_STEP_UP).
    + destruct (k_space k && true); reflexivity.
    + destruct (geb _ _).
      * destruct (k_space k && true); reflexivity.
      * destruct (k_space k && false); reflexivity.
  - destruct (leb _ _); reflexivity.
Qed.

Lemma exitVehicle_modeInv (w : World) (i : nat) (v : VehicleState) :
  activeIdx w = Some i -> nth_error (vehicles w) i = Some v ->
  exists w1, Game.exitVehicle cfg w = Some w1 /\
    modeRef w1 = walking /\ activeIdx w1 = None /\ rosterOf w1 = rosterOf w /\
    bullets w1 = bullets w /\ lastFireTime w1 = lastFireTime w.
Proof.
  intros Hi Hv. unfold Game.exitVehicle. rewrite Hi, Hv. cbv zeta.
  eexists. split; [reflexivity|]. repeat split.
  unfold rosterOf. cbn [vehicles]. now apply (setNth_tags _ i v).
Qed.

Lemma tickDriving_modeInv (now dt : R) (k : Keys) (justE : bool) (w : World) :
  modeInv w -> modeRef w = driving ->
  exists w1, Game.tickDriving cfg now dt k justE w = Some w1 /\
    modeInv w1 /\ rosterOf w1 = rosterOf w.
Proof.
  intros Hinv Hm. pose proof Hinv as Hinv0.
  unfold modeInv in Hinv. rewrite Hm in Hinv.
  destruct (activeIdx w) as [i|] eqn:Hi; [|contradiction].
  destruct Hinv as (v & Hv & Hty).
  unfold Game.tickDriving. destruct justE.
  - destruct (exitVehicle_modeInv w i v Hi Hv) as (w1 & H1 & Hm1 & Hi1 & Hr1 & _).
    exists w1. split; [exact H1|]. split; [|exact Hr1].
    unfold modeInv. now rewrite Hm1, Hi1.
  - destruct (finished (race w)) eqn:Hfin; [exists w; auto|].
    destruct (tickDriving_spec cfg now dt k w i v Hfin Hi Hv)
      as (w1 & Hw1 & _ & _ & Hvs & Hm1 & Hi1 & _).
    unfold Game.tickDriving in Hw1. rewrite Hfin in Hw1.
    exists w1. split; [exact Hw1|].
    assert (Hr : rosterOf w1 = rosterOf w).
    { unfold rosterOf. rewrite Hvs. apply (setNth_tags _ i v _ Hv).
      now rewrite driveVertical_tag. }
    split; [|exact Hr]. apply (modeInv_transfer w); auto.
Qed.

Lemma tickFlying_modeInv (dt : R) (k : Keys) (justE : bool) (mouse : FrameMouse)
      (w : World) (i : nat) (v : VehicleState) :
  modeRef w = flying -> activeIdx w = Some i -> nth_error (vehicles w) i = Some v ->
  exists w1, Game.tickFlying cfg dt k justE mouse w = Some w1 /\
    rosterOf w1 = rosterOf w /\ bullets w1 = bullets w /\
    lastFireTime w1 = lastFireTime w /\
    ((justE = true /\ vy (v_pos v) <= FLY_groundY + 1 /\
      modeRef w1 = walking /\ activeIdx w1 = None) \/
     ((justE = false \/ FLY_groundY + 1 < vy (v_pos v)) /\
      modeRef w1 = flying /\ activeIdx w1 = Some i)).
Proof.
  intros Hm Hi Hv. unfold Game.tickFlying. rewrite Hi, Hv.
  destruct (justE && leb (vy (v_pos v)) (FLY_groundY + 1)) eqn:Hc.
  - apply andb_true_iff in Hc as [-> Hc]. apply leb_true in Hc.
    match goal with |- context [Game.exitVehicle cfg ?w0] => set (wl := w0) end.
    destruct (exitVehicle_modeInv wl i
                (withPitch (withPos (withSpeed v 0) (setY (v_pos v) FLY_groundY)) 0))
      as (w1 & H1 & Hm1 & Hi1 & Hr1 & Hb1 & Hl1).
    { reflexivity. }
    { unfold wl. cbn [vehicles]. apply setNth_same.
      apply nth_error_Some. congruence. }
    exists w1. split; [exact H1|].
    split; [|split; [exact Hb1|split; [exact Hl1|left; auto]]].
    rewrite Hr1. unfold rosterOf, wl. cbn [vehicles].
    now apply (setNth_tags _ i v).
  - cbv zeta. eexists. split; [reflexivity|]. cbn [bullets lastFireTime modeRef activeIdx].
    split; [|split; [reflexivity|split; [reflexivity|right]]].
    + unfold rosterOf. cbn [vehicles]. now apply (setNth_tags _ i v).
    + split; [|auto]. apply andb_false_iff in Hc as [Hc | Hc]; [auto|].
      apply leb_false in Hc. right. lra.
Qed.

Lemma tickWalking_modeInv (now dt : R) (k : Keys) (justE : bool)
      (taken : list string) (w : World) :
  modeInv w -> modeRef w = walking ->
  modeInv (Game.tickWalking cfg now dt k justE taken w) /\
  rosterOf (Game.tickWalking cfg now dt k justE taken w) = rosterOf w.
Proof.
  intros Hinv Hm.
  destruct (tickWalking_spec cfg now dt k justE taken w)
    as (_ & _ & Hvs & _ & _ & _ & Hcase).
  cbv zeta in *.
  set (w1 := Game.tickWalking cfg now dt k justE taken w) in *.
  assert (Hr : rosterOf w1 = rosterOf w) by (unfold rosterOf; now rewrite Hvs).
  split; [|exact Hr].
  destruct Hcase as [(Hm1 & Hi1 & _) | (idx & v & Hi1 & Hv & Hty)].
  - now apply (modeInv_transfer w).
  - unfold modeInv. rewrite Hi1, Hvs.
    destruct Hty as [(Hc & -> & _) | (Hc & -> & _)]; eauto.
Qed.

(** What a frame does to a state whose mode and active slot hang together:
    it throws in the one frame described by [firesWhileLeaving] and
    otherwise gives a state of the same kind with the same roster. *)
Lemma frame_outcome (inp : FrameInput) (w : World) :
  modeInv w ->
  (firesWhileLeaving inp w /\ Game.frame cfg inp w = None) \/
  (~ firesWhileLeaving inp w /\
   exists w', Game.frame cfg inp w = Some w' /\ modeInv w' /\
              rosterOf w' = rosterOf w).
Proof.
  intros Hinv. unfold Game.frame. cbv zeta.
  destruct (modeRef w) eqn:Hm.
  - right. split; [intros (H & _); congruence|].
    destruct (tickWalking_modeInv (i_now inp) (Rmin (i_delta inp) 0.05) (i_keys inp)
                (i_interact inp) (i_takenVehicleIds inp) w Hinv Hm) as [Hi1 Hr1].
    destruct (tail_modeInv (Rmin (i_delta inp) 0.05) (i_remotePlayers inp) _ Hi1)
      as (w' & Hw' & Hm' & Hi' & Hr').
    exists w'. split; [exact Hw'|]. split; [|congruence].
    now apply (modeInv_transfer _ w' Hm' Hi' Hr').
  - right. split; [intros (H & _); congruence|].
    destruct (tickDriving_modeInv (i_now inp) (Rmin (i_delta inp) 0.05) (i_keys inp)
                (i_interact inp) w Hinv Hm) as (w1 & H1 & Hi1 & Hr1).
    rewrite H1.
    destruct (tail_modeInv (Rmin (i_delta inp) 0.05) (i_remotePlayers inp) _ Hi1)
      as (w' & Hw' & Hm' & Hi' & Hr').
    exists w'. split; [exact Hw'|]. split; [|congruence].
    now apply (modeInv_transfer _ w' Hm' Hi' Hr').
  - pose proof Hinv as Hinv0. unfold modeInv in Hinv. rewrite Hm in Hinv.
    destruct (activeIdx w) as [i|] eqn:Hi; [|contradiction].
    destruct Hinv as (v & Hv & Hty).
    destruct (tickFlying_modeInv (Rmin (i_delta inp) 0.05) (i_keys inp) (i_interact inp)
                (i_mouse inp) w i v Hm Hi Hv)
      as (w1 & H1 & Hr1 & Hb1 & Hl1 & Hcase).
    rewrite H1.
    assert (Hav : activeVehicle w = Some v) by (unfold activeVehicle; now rewrite Hi).
    assert (Htail : forall w2, modeRef w2 = modeRef w1 -> activeIdx w2 = activeIdx w1 ->
              rosterOf w2 = rosterOf w1 ->
              exists w', Game.tickVehicleCollisions (i_remotePlayers inp)
                (Game.tickTargets (Rmin (i_delta inp) 0.05)
                   (Game.tickMuzzleFlash (Rmin (i_delta inp) 0.05)
                      (Game.tickBullets (Rmin (i_delta inp) 0.05) w2))) = Some w' /\
                modeInv w' /\ rosterOf w' = rosterOf w).
    { intros w2 Hm2 Hi2 Hr2.
      assert (Hinv1 : modeInv w1).
      { destruct Hcase as [(_ & _ & Hm1 & Hi1) | (_ & Hm1 & Hi1)].
        - unfold modeInv. now rewrite Hm1, Hi1.
        - apply (modeInv_transfer w); auto; congruence. }
      assert (Hinv2 : modeInv w2) by now apply (modeInv_transfer w1).
      destruct (tail_modeInv (Rmin (i_delta inp) 0.05) (i_remotePlayers inp) _ Hinv2)
        as (w' & Hw' & Hm' & Hi' & Hr').
      exists w'. split; [exact Hw'|]. split; [|congruence].
      now apply (modeInv_transfer _ w' Hm' Hi' Hr'). }
    destruct (m_fireDown (i_mouse inp)) eqn:Hfire; cbn [andb];
      [|right; split; [intros (_ & _ & H & _); congruence | now apply Htail]].
    rewrite Hl1.
    destruct (geb (i_now inp / 1000 - lastFireTime w) FIRE_COOLDOWN) eqn:Hcool;
      [|right; split; [|now apply Htail]].
    2:{ intros (_ & _ & _ & _ & H & _). apply geb_false in Hcool. lra. }
    apply geb_true in Hcool.
    unfold Game.fireBullet. cbn [bullets withLastFireTime]. rewrite Hb1.
    destruct (forallb b_active (bullets w)) eqn:Hfull.
    { right. split; [intros (_ & _ & _ & _ & _ & H); congruence|].
      apply Htail; reflexivity. }
    destruct Hcase as [(HE & Hy & Hm1 & Hi1) | (Hno & Hm1 & Hi1)].
    + left. split.
      * repeat split; auto; try lra. eauto.
      * unfold activeVehicle. cbn [activeIdx withLastFireTime]. now rewrite Hi1.
    + right. split.
      * intros (_ & HE & _ & (v0 & Hv0 & Hy) & _).
        rewrite Hav in Hv0. injection Hv0 as <-.
        destruct Hno as [Hno | Hno]; [congruence | lra].
      * destruct (tags_nth (vehicles w) (vehicles w1) i v Hr1 Hv) as (v1 & Hv1 & _).
        unfold activeVehicle. cbn [activeIdx vehicles withLastFireTime].
        rewrite Hi1, Hv1.
        destruct (Game.activateFirst _ _); apply Htail; try reflexivity; cbn [activeIdx]; congruence.
Qed.

(** X9.  In a state whose mode and active slot hang together, a frame throws
    in exactly one case: the pilot presses E within one unit of the flying
    floor while the trigger is held, the cooldown has passed and the pool
    has a free slot.  The exit clears the active slot and [fireBullet] then
    reads the pitch of a vehicle that is not there. *)
Theorem frame_throws_only_when_leaving (inp : FrameInput) (w : World) :
  modeInv w ->
  (Game.frame cfg inp w = None <-> firesWhileLeaving inp w).
Proof.
  intros Hinv.
  destruct (frame_outcome inp w Hinv) as [[Hf Hn] | [Hf (w' & Hw' & _)]].
  - split; auto.
  - split; [congruence | contradiction].
Qed.

(** X10.  Mode and active slot hang together in every state a session can
    reach: on foot no slot is active, a driver's slot holds a car, a pilot's
    slot holds a plane.  No frame changes the id or the type of a roster
    slot. *)
Theorem mode_matches_vehicle :
  modeInv (Game.initWorld cfg) /\
  forall (inps : list FrameInput) (w w' : World),
    modeInv w -> Game.run cfg inps w = Some w' ->
    modeInv w' /\ rosterOf w' = rosterOf w.
Proof.
  split; [exact I|].
  induction inps as [|inp rest IH]; intros w w' Hw Hrun; cbn [Game.run] in Hrun.
  - injection Hrun as <-. auto.
  - destruct (Game.frame cfg inp w) as [w1|] eqn:Hf; [|discriminate].
    destruct (frame_outcome inp w Hw) as [[_ Hn] | [_ (w2 & Hw2 & Hi2 & Hr2)]];
      [congruence|].
    rewrite Hf in Hw2. injection Hw2 as <-.
    destruct (IH w1 w' Hi2 Hrun) as [Hi' Hr']. split; [exact Hi' | congruence].
Qed.

End Modes.

Lemma frame_throws_only_when_leaving_witness :
  Game.frame trackA (mkInput 0.035 noKeys true (mkMouse 0 0 true) 1000 [] [])
             (flyingAt (mkVec3 0 2 0) 0 60 Game.makeBulletPool) = None.
Proof.
  apply (frame_throws_only_when_leaving trackA
           (mkInput 0.035 noKeys true (mkMouse 0 0 true) 1000 [] [])
           (flyingAt (mkVec3 0 2 0) 0 60 Game.makeBulletPool)).
  - unfold modeInv. cbn. eauto.
  - unfold firesWhileLeaving. cbn.
    repeat split; try reflexivity.
    + eexists. split; [reflexivity|]. cbn. unfold FLY_groundY. lra.
    + unfold FIRE_COOLDOWN. lra.
Defined.

(** ** Getting in and out of vehicles *)

Lemma scanNearby_spec (px pz : R) (taken : list string) (vs : list VehicleState)
      (best : R) (nearby : option string) :
  let out := Game.scanNearby px pz taken vs best nearby in
  (out = nearby /\
   forall v, In v vs -> untaken taken v -> best <= dist2 px pz (v_pos v)) \/
  (exists v, In v vs /\ out = Some (v_id v) /\ untaken taken v /\
     dist2 px pz (v_pos v) < best /\
     forall v', In v' vs -> untaken taken v' ->
       dist2 px pz (v_pos v) <= dist2 px pz (v_pos v')).
Proof.
  revert best nearby. induction vs as [|a rest IH]; intros best nearby; cbv zeta.
  - left. split; [reflexivity|]. intros v [].
  - cbn [Game.scanNearby]. cbv zeta.
    change ((px - vx (v_pos a)) * (px - vx (v_pos a))
            + (pz - vz (v_pos a)) * (pz - vz (v_pos a)))
      with (dist2 px pz (v_pos a)).
    destruct (existsb (String.eqb (v_id a)) taken) eqn:Htk.
    + destruct (IH best nearby) as [[Ho Hall] | (v & Hin & Ho & Hu & Hlt & Hmin)].
      * left. split; [exact Ho|]. intros v [<- | Hin] Hu; [|auto].
        unfold untaken in Hu. congruence.
      * right. exists v. repeat split; auto; [now right|].
        intros v' [<- | Hin'] Hu'; [|auto]. unfold untaken in Hu'. congruence.
    + destruct (ltb (dist2 px pz (v_pos a)) best) eqn:Hb.
      * apply ltb_true in Hb.
        destruct (IH (dist2 px pz (v_pos a)) (Some (v_id a)))
          as [[Ho Hall] | (v & Hin & Ho & Hu & Hlt & Hmin)].
        { right. exists a. repeat split; auto; [now left|].
          intros v' [<- | Hin'] Hu'; [lra | auto]. }
        { right. exists v. repeat split; auto; [now right | lra|].
          intros v' [<- | Hin'] Hu'; [lra | auto]. }
      * apply ltb_false in Hb.
        destruct (IH best nearby) as [[Ho Hall] | (v & Hin & Ho & Hu & Hlt & Hmin)].
        { left. split; [exact Ho|]. intros v [<- | Hin] Hu; [lra | auto]. }
        { right. exists v. repeat split; auto; [now right|].
          intros v' [<- | Hin'] Hu'; [lra | auto]. }
Qed.

Lemma findVehicle_first (id : string) (vs : list VehicleState) (i : nat)
      (v : VehicleState) :
  In v vs -> v_id v = id ->
  exists idx v', Game.findVehicle id vs i = Some (idx, v') /\ v_id v' = id /\
                 nth_error vs (idx - i) = Some v' /\ (i <= idx)%nat.
Proof.
  revert i; induction vs as [|a rest IH]; intros i Hin Hid; [destruct Hin|].
  cbn [Game.findVehicle]. destruct (String.eqb (v_id a) id) eqn:He.
  - apply String.eqb_eq in He. exists i, a. rewrite Nat.sub_diag. auto.
  - destruct Hin as [<- | Hin].
    + rewrite Hid, String.eqb_refl in He. discriminate.
    + destruct (IH (S i) Hin Hid) as (idx & v' & Hf & Hid' & Hn & Hle).
      exists idx, v'. repeat split; auto; [|lia].
      replace (idx - i)%nat with (S (idx - S i)) by lia. exact Hn.
Qed.

Lemma NoDup_ids_eq (vs : list VehicleState) (i j : nat) (a b : VehicleState) :
  NoDup (map v_id vs) -> nth_error vs i = Some a -> nth_error vs j = Some b ->
  v_id a = v_id b -> i = j /\ a = b.
Proof.
  intros Hnd Ha Hb Hid.
  assert (Hij : i = j).
  { apply (proj1 (NoDup_nth_error (map v_id vs)) Hnd).
    - rewrite length_map. apply nth_error_Some. congruence.
    - rewrite !nth_error_map, Ha, Hb. cbn. now rewrite Hid. }
  split; [exact Hij|]. subst j. congruence.
Qed.

Section Boarding.
Variable cfg : Track.Config.
Context {rt : Runtime}.

(** The walking step, read through its scan: where the character ends up,
    what the scan from there found, and what E did with it. *)
Lemma tickWalking_scan (now dt : R) (k : Keys) (justE : bool)
      (taken : list string) (w : World) :
  let w' := Game.tickWalking cfg now dt k justE taken w in
  let near := Game.scanNearby (vx (charPos w')) (vz (charPos w')) taken (vehicles w)
                              INTERACT_RADIUS_SQ None in
  match
    match near with
    | Some id => if justE && negb (String.eqb id EmptyString)
                 then Game.findVehicle id (vehicles w) 0 else None
    | None => None
    end
  with
  | Some (idx, v) =>
      activeIdx w' = Some idx /\ modeRef w' = modeOf (v_type v) /\
      nearbyRef w' = None /\
      race w' = match v_type v with car => Game.freshRace cfg now | airplane => race w end
  | None =>
      nearbyRef w' = near /\ modeRef w' = modeRef w /\ activeIdx w' = activeIdx w /\
      race w' = race w
  end.
Proof.
  cbv zeta. unfold Game.tickWalking. cbv zeta.
  split_let. split_let.
  match goal with |- context [if gtb ?a MAX_STEP_UP then ?x else ?y] =>
    set (p2 := if gtb a MAX_STEP_UP then x else y) end.
  clearbody p2.
  set (near := Game.scanNearby (vx p2) (vz p2) taken (vehicles w) INTERACT_RADIUS_SQ None).
  destruct (match near with
            | Some id => if justE && negb (String.eqb id EmptyString)
                         then Game.findVehicle id (vehicles w) 0 else None
            | None => None end) as [[idx ve]|] eqn:He;
    cbn [charPos vx vz]; fold near; rewrite He; cbn; repeat split;
    destruct (v_type ve); reflexivity.
Qed.

(** X11.  After a walking step in which E was not pressed, the prompt names
    a vehicle exactly when some vehicle that no remote player has taken lies
    less than 6 units (in x and z) from where the character now stands, and
    then it names one of the nearest of them.  The step changes neither the
    mode nor the race record. *)
Theorem nearby_is_nearest_untaken (now dt : R) (k : Keys) (taken : list string)
        (w : World) :
  let w' := Game.tickWalking cfg now dt k false taken w in
  let px := vx (charPos w') in
  let pz := vz (charPos w') in
  (nearbyRef w' = None <->
   forall v, In v (vehicles w') -> untaken taken v -> 6 * 6 <= dist2 px pz (v_pos v)) /\
  (forall id, nearbyRef w' = Some id ->
   exists v, In v (vehicles w') /\ v_id v = id /\ untaken taken v /\
     dist2 px pz (v_pos v) < 6 * 6 /\
     forall v', In v' (vehicles w') -> untaken taken v' ->
       dist2 px pz (v_pos v) <= dist2 px pz (v_pos v')) /\
  modeRef w' = modeRef w /\ activeIdx w' = activeIdx w /\ race w' = race w.
Proof.
  cbv zeta.
  pose proof (tickWalking_scan now dt k false taken w) as H. cbv zeta in H.
  destruct (tickWalking_spec cfg now dt k false taken w) as (_ & _ & Hvs & _).
  cbv zeta in Hvs. rewrite Hvs.
  set (w' := Game.tickWalking cfg now dt k false taken w) in *.
  assert (H' : nearbyRef w' =
               Game.scanNearby (vx (charPos w')) (vz (charPos w')) taken (vehicles w)
                               INTERACT_RADIUS_SQ None /\
               modeRef w' = modeRef w /\ activeIdx w' = activeIdx w /\ race w' = race w).
  { destruct (Game.scanNearby _ _ _ _ _ _); exact H. }
  clear H. destruct H' as (Hn & Hm & Hi & Hr).
  split; [|split; [|auto]].
  - rewrite Hn.
    destruct (scanNearby_spec (vx (charPos w')) (vz (charPos w')) taken (vehicles w)
                INTERACT_RADIUS_SQ None) as [[Ho Hall] | (v & Hin & Ho & Hu & Hlt & _)];
      cbv zeta in *.
    + split; [intros _; exact Hall | intros _; exact Ho].
    + rewrite Ho. split; [discriminate|]. intros Hall.
      specialize (Hall v Hin Hu). unfold INTERACT_RADIUS_SQ in Hlt. lra.
  - intros id Hid. rewrite Hn in Hid.
    destruct (scanNearby_spec (vx (charPos w')) (vz (charPos w')) taken (vehicles w)
                INTERACT_RADIUS_SQ None) as [[Ho Hall] | (v & Hin & Ho & Hu & Hlt & Hmin)];
      cbv zeta in *.
    + congruence.
    + exists v. rewrite Ho in Hid. injection Hid as <-. repeat split; auto.
Qed.

(** X12.  Pressing E on foot.  With distinct vehicle ids: if a vehicle with
    a non-empty id that no remote player has taken is less than 6 units from
    where the character stands after the step and strictly nearer than every
    other untaken vehicle, the player enters that vehicle, driving for a car
    (with a fresh race record) and flying for a plane; if no untaken vehicle
    is within 6 units, E does nothing. *)
Theorem enter_nearest_vehicle (now dt : R) (k : Keys) (taken : list string)
        (w : World) :
  NoDup (map v_id (vehicles w)) ->
  let w' := Game.tickWalking cfg now dt k true taken w in
  let px := vx (charPos w') in
  let pz := vz (charPos w') in
  (forall idx v,
     nth_error (vehicles w) idx = Some v -> untaken taken v ->
     v_id v <> EmptyString -> dist2 px pz (v_pos v) < 6 * 6 ->
     (forall v', In v' (vehicles w) -> untaken taken v' -> v_id v' <> v_id v ->
        dist2 px pz (v_pos v) < dist2 px pz (v_pos v')) ->
     activeIdx w' = Some idx /\ modeRef w' = modeOf (v_type v) /\
     nearbyRef w' = None /\
     (v_type v = car -> race w' = Game.freshRace cfg now) /\
     (v_type v = airplane -> race w' = race w)) /\
  ((forall v, In v (vehicles w) -> untaken taken v ->
      6 * 6 <= dist2 px pz (v_pos v)) ->
   modeRef w' = modeRef w /\ activeIdx w' = activeIdx w /\ race w' = race w /\
   nearbyRef w' = None).
Proof.
  intros Hnd. cbv zeta.
  pose proof (tickWalking_scan now dt k true taken w) as H. cbv zeta in H.
  set (w' := Game.tickWalking cfg now dt k true taken w) in *.
  destruct (scanNearby_spec (vx (charPos w')) (vz (charPos w')) taken (vehicles w)
              INTERACT_RADIUS_SQ None) as [[Ho Hall] | (v1 & Hin1 & Ho & Hu1 & Hlt1 & Hmin1)];
    cbv zeta in *; rewrite Ho in H.
  - split.
    + intros idx v Hv Hu _ Hlt _. apply nth_error_In in Hv.
      specialize (Hall v Hv Hu). unfold INTERACT_RADIUS_SQ in Hall. lra.
    + intros _. tauto.
  - split.
    + intros idx v Hv Hu Hne Hlt Hstrict.
      assert (Hv1 : v1 = v).
      { destruct (String.eqb (v_id v1) (v_id v)) eqn:He.
        - apply String.eqb_eq in He.
          destruct (In_nth_error _ _ Hin1) as [j Hj].
          now destruct (NoDup_ids_eq _ _ _ _ _ Hnd Hj Hv He).
        - apply String.eqb_neq in He.
          specialize (Hstrict v1 Hin1 Hu1 He).
          specialize (Hmin1 v (nth_error_In _ _ Hv) Hu). lra. }
      subst v1. cbn [andb] in H.
      replace (String.eqb (v_id v) EmptyString) with false in H
        by (symmetry; now apply String.eqb_neq).
      cbn [negb] in H.
      destruct (findVehicle_first (v_id v) (vehicles w) 0 v Hin1 eq_refl)
        as (idx' & v' & Hf & Hid' & Hn' & _).
      rewrite Hf in H. rewrite Nat.sub_0_r in Hn'.
      destruct (NoDup_ids_eq _ _ _ _ _ Hnd Hn' Hv Hid') as [-> ->].
      destruct H as (Hi & Hm & Hnb & Hr). repeat split; auto.
      * intros Hc. now rewrite Hc in Hr.
      * intros Hc. now rewrite Hc in Hr.
    + intros Hall. specialize (Hall v1 Hin1 Hu1).
      unfold INTERACT_RADIUS_SQ in Hlt1. lra.
Qed.

End Boarding.

Section Leaving.
Variable cfg : Track.Config.
Context {rt : Runtime}.

Lemma tickWalking_still (now dt : R) (k : Keys) (justE : bool)
      (taken : list string) (w : World) :
  k_forward k = false -> k_backward k = false ->
  k_left k = false -> k_right k = false ->
  let w' := Game.tickWalking cfg now dt k justE taken w in
  vx (charPos w') = vx (charPos w) /\ vz (charPos w') = vz (charPos w) /\
  charRot w' = charRot w /\ orbitYawRef w' = orbitYawRef w /\
  isMovingRef w' = false.
Proof.
  intros Hf Hb Hl Hr. cbv zeta. unfold Game.tickWalking. cbv zeta.
  rewrite Hf, Hb, Hl, Hr.
  replace (sqrt (0 * 0 + 0 * 0)) with 0
    by (replace (0 * 0 + 0 * 0) with 0 by ring; now rewrite sqrt_0).
  replace (gtb 0 0.001) with false by (symmetry; apply gtb_false; lra).
  match goal with |- context [gtb ?a MAX_STEP_UP] => destruct (gtb a MAX_STEP_UP) end;
    match goal with |- context [match ?E with Some _ => _ | None => _ end] =>
      destruct E as [[idx ve]|] end; cbn; repeat split; ring.
Qed.

(** X13.  Leaving a vehicle stops it where it is, sets it on the ground and
    puts the character on the ground 4 units from it, at right angles to
    its heading and facing the way it faced.  That is inside the
    interaction radius: unless a remote player has taken the vehicle, the
    next walking step on the spot shows a prompt. *)
Theorem leave_puts_player_beside (w : World) (i : nat) (v : VehicleState) :
  activeIdx w = Some i -> nth_error (vehicles w) i = Some v ->
  exists w1 v1,
    Game.exitVehicle cfg w = Some w1 /\ nth_error (vehicles w1) i = Some v1 /\
    vx (v_pos v1) = vx (v_pos v) /\ vz (v_pos v1) = vz (v_pos v) /\
    vy (v_pos v1) = Game.getGroundHeight cfg (vx (v_pos v)) (vz (v_pos v)) /\
    v_speed v1 = 0 /\ v_rot v1 = v_rot v /\ v_id v1 = v_id v /\
    vx (charPos w1) = vx (v_pos v) - cos (v_rot v) * 4 /\
    vz (charPos w1) = vz (v_pos v) + sin (v_rot v) * 4 /\
    vy (charPos w1)
      = Game.getGroundHeight cfg (vx (charPos w1)) (vz (charPos w1)) /\
    charRot w1 = v_rot v /\
    dist2 (vx (charPos w1)) (vz (charPos w1)) (v_pos v1) = 4 * 4 /\
    (vx (charPos w1) - vx (v_pos v)) * sin (v_rot v)
      + (vz (charPos w1) - vz (v_pos v)) * cos (v_rot v) = 0 /\
    forall now dt k taken,
      k_forward k = false -> k_backward k = false ->
      k_left k = false -> k_right k = false -> untaken taken v ->
      nearbyRef (Game.tickWalking cfg now dt k false taken w1) <> None.
Proof.
  intros Hi Hv. unfold Game.exitVehicle. rewrite Hi, Hv. cbv zeta.
  eexists. eexists. split; [reflexivity|].
  cbn [vehicles charPos charRot vx vy vz].
  split; [apply setNth_same; apply nth_error_Some; congruence|].
  cbn [withPos withSpeed setY v_pos v_speed v_rot v_id vx vy vz].
  assert (Hd : dist2 (vx (v_pos v) + - cos (v_rot v) * 4) (vz (v_pos v) + sin (v_rot v) * 4)
                 (mkVec3 (vx (v_pos v))
                         (Game.getGroundHeight cfg (vx (v_pos v)) (vz (v_pos v)))
                         (vz (v_pos v))) = 4 * 4).
  { unfold dist2. cbn [vx vz]. pose proof (sin2_cos2 (v_rot v)) as H.
    unfold Rsqr in H. nra. }
  repeat split; try reflexivity; try ring; try exact Hd.
  intros now dt k taken Hf Hb Hl Hr Hu.
  match goal with |- nearbyRef (Game.tickWalking cfg now dt k false taken ?w0) <> None =>
    set (w1 := w0) end.
  pose proof (tickWalking_scan cfg now dt k false taken w1) as Hs. cbv zeta in Hs.
  destruct (tickWalking_still now dt k false taken w1 Hf Hb Hl Hr) as (Hx & Hz & _).
  cbv zeta in Hx, Hz.
  set (w' := Game.tickWalking cfg now dt k false taken w1) in *.
  assert (Hn : nearbyRef w' =
               Game.scanNearby (vx (charPos w')) (vz (charPos w')) taken (vehicles w1)
                               INTERACT_RADIUS_SQ None).
  { destruct (Game.scanNearby _ _ _ _ _ _); apply Hs. }
  rewrite Hn, Hx, Hz.
  destruct (scanNearby_spec (vx (charPos w1)) (vz (charPos w1)) taken (vehicles w1)
              INTERACT_RADIUS_SQ None) as [[_ Hall] | (v2 & _ & Ho & _)];
    cbv zeta in *; [|rewrite Ho; discriminate].
  exfalso.
  set (v1 := withPos (withSpeed v 0)
               (setY (v_pos v) (Game.getGroundHeight cfg (vx (v_pos v)) (vz (v_pos v))))).
  assert (Hin : In v1 (vehicles w1)).
  { apply (nth_error_In _ i). unfold w1. cbn [vehicles].
    apply setNth_same. apply nth_error_Some. congruence. }
  specialize (Hall v1 Hin Hu). unfold w1 in Hall. cbn [charPos vx vz] in Hall.
  unfold v1, dist2 in Hall, Hd.
  cbn [withPos withSpeed setY v_pos vx vy vz] in Hall, Hd.
  unfold INTERACT_RADIUS_SQ in Hall. lra.
Qed.

End Leaving.

Lemma leave_puts_player_beside_witness :
  exists w1, Game.exitVehicle trackA (drivingAt (mkVec3 0 0 0) 0 10 raceAllPassed)
             = Some w1 /\ charRot w1 = 0.
Proof.
  destruct (leave_puts_player_beside trackA (drivingAt (mkVec3 0 0 0) 0 10 raceAllPassed) 0
              (mkVehicle "car-red" car "Red Racer" "#e63946" (mkVec3 0 0 0) 0 10 0)
              eq_refl eq_refl)
    as (w1 & v1 & H & _ & _ & _ & _ & _ & _ & _ & _ & _ & _ & Hrot & _).
  exists w1. split; [exact H | exact Hrot].
Defined.

(** ** Flight *)

Lemma resolveCollision_body (me : VehicleState) (ox oz r : R) (po : option Vec3) :
  vy (v_pos (fst (Game.resolveCollision me ox oz r po))) = vy (v_pos me) /\
  v_pitch (fst (Game.resolveCollision me ox oz r po)) = v_pitch me.
Proof.
  unfold Game.resolveCollision. cbv zeta. destruct (_ && _); cbn; auto.
Qed.

Lemma collideRemote_body (me : VehicleState) (rps : list RemotePlayer) :
  vy (v_pos (Game.collideRemote me rps)) = vy (v_pos me) /\
  v_pitch (Game.collideRemote me rps) = v_pitch me.
Proof.
  revert me; induction rps as [|rp rest IH]; intros me; cbn; [auto|].
  pose proof (resolveCollision_body me (vx (rp_position rp)) (vz (rp_position rp))
                (Game.remoteRadius (rp_mode rp)) None) as [H1 H2].
  destruct (Game.resolveCollision me _ _ _ None) as [me1 po]. cbn in H1, H2.
  destruct (IH me1) as [-> ->]. auto.
Qed.

Lemma collideLocal_body (act i : nat) (me : VehicleState) (vs : list VehicleState) :
  vy (v_pos (fst (Game.collideLocal act i me vs))) = vy (v_pos me) /\
  v_pitch (fst (Game.collideLocal act i me vs)) = v_pitch me.
Proof.
  revert i me; induction vs as [|other rest IH]; intros i me;
    cbn [Game.collideLocal]; [cbn; auto|].
  destruct (Nat.eqb i act).
  - specialize (IH (S i) me).
    destruct (Game.collideLocal act (S i) me rest). cbn in *. exact IH.
  - pose proof (resolveCollision_body me (vx (v_pos other)) (vz (v_pos other))
                  (Game.vehicleRadius (v_type other)) (Some (v_pos other))) as [H1 H2].
    destruct (Game.resolveCollision me _ _ _ (Some (v_pos other))) as [me1 po].
    cbn in H1, H2. specialize (IH (S i) me1).
    destruct (Game.collideLocal act (S i) me1 rest). cbn in *.
    destruct IH as [-> ->]. auto.
Qed.

Section Flight.
Variable cfg : Track.Config.
Context {rt : Runtime}.

Lemma frame_tail_body (dt : R) (rps : list RemotePlayer) (w2 : World) (i : nat)
      (me : VehicleState) :
  modeRef w2 <> walking -> activeIdx w2 = Some i ->
  nth_error (vehicles w2) i = Some me ->
  exists w' me',
    Game.tickVehicleCollisions rps
      (Game.tickTargets dt (Game.tickMuzzleFlash dt (Game.tickBullets dt w2))) = Some w' /\
    nth_error (vehicles w') i = Some me' /\
    vy (v_pos me') = vy (v_pos me) /\ v_pitch me' = v_pitch me /\
    modeRef w' = modeRef w2 /\ activeIdx w' = activeIdx w2.
Proof.
  intros Hm Hi Hme.
  destruct (projectile_ticks_spec dt w2) as (_ & _ & Hv & Hmode & Hact & _).
  cbv zeta in *.
  set (w3 := Game.tickTargets dt (Game.tickMuzzleFlash dt (Game.tickBullets dt w2))) in *.
  rewrite (collisions_explicit cfg rps w3 i me); [|congruence|congruence|congruence].
  eexists. eexists. split; [reflexivity|]. cbn [vehicles withVehicles modeRef activeIdx].
  split.
  - apply setNth_same.
    destruct (collideLocal_speed (fun _ => True) i 0 me (vehicles w3)) as (_ & _ & ->); auto.
    apply nth_error_Some. congruence.
  - destruct (collideRemote_body (fst (Game.collideLocal i 0 me (vehicles w3))) rps)
      as [-> ->].
    destruct (collideLocal_body i 0 me (vehicles w3)) as [-> ->]. auto.
Qed.

Lemma tickFlying_envelope (dt : R) (k : Keys) (mouse : FrameMouse) (w : World)
      (i : nat) (v : VehicleState) :
  activeIdx w = Some i -> nth_error (vehicles w) i = Some v ->
  0 <= dt <= 0.05 ->
  exists w1 v1,
    Game.tickFlying cfg dt k false mouse w = Some w1 /\
    nth_error (vehicles w1) i = Some v1 /\
    modeRef w1 = modeRef w /\ activeIdx w1 = activeIdx w /\
    FLY_groundY <= vy (v_pos v1) <= FLY_maxAltitude /\
    -0.7 <= v_pitch v1 <= 0.7.
Proof.
  intros Hi Hv Hdt. unfold Game.tickFlying. rewrite Hi, Hv. cbn [andb]. cbv zeta.
  eexists. eexists. split; [reflexivity|]. cbn [vehicles modeRef activeIdx].
  split; [apply setNth_same; apply nth_error_Some; congruence|].
  cbn [v_pos v_pitch vy]. split; [reflexivity|]. split; [reflexivity|]. split.
  - split; [apply Rmax_l|]. apply Rmax_lub; [unfold FLY_groundY, FLY_maxAltitude; lra|].
    apply Rmin_l.
  - match goal with |- _ <= clamp ?lo ?hi ?x * _ <= _ =>
      pose proof (clamp_bounds lo hi x ltac:(lra)) as Hc;
      set (c := clamp lo hi x) in * end.
    clearbody c. split; nra.
Qed.

(** X14.  A flying frame that does not land (E is not pressed, or the plane
    is more than one unit above the flying floor) and whose delta is not
    negative runs to its end and leaves the pilot flying, with the plane's
    altitude between [FLY.groundY] and [FLY.maxAltitude] and its pitch
    between -0.7 and 0.7.  Pressing E that high changes nothing. *)
Theorem flight_envelope (inp : FrameInput) (w : World) (i : nat) (v : VehicleState) :
  modeRef w = flying -> activeIdx w = Some i -> nth_error (vehicles w) i = Some v ->
  0 <= i_delta inp ->
  i_interact inp = false \/ FLY_groundY + 1 < vy (v_pos v) ->
  exists w' v',
    Game.frame cfg inp w = Some w' /\ nth_error (vehicles w') i = Some v' /\
    modeRef w' = flying /\ activeIdx w' = Some i /\
    FLY_groundY <= vy (v_pos v') <= FLY_maxAltitude /\
    -0.7 <= v_pitch v' <= 0.7 /\
    Game.tickFlying cfg (Rmin (i_delta inp) 0.05) (i_keys inp) (i_interact inp)
                    (i_mouse inp) w
    = Game.tickFlying cfg (Rmin (i_delta inp) 0.05) (i_keys inp) false (i_mouse inp) w.
Proof.
  intros Hm Hi Hv Hd HE.
  assert (Hdt : 0 <= Rmin (i_delta inp) 0.05 <= 0.05).
  { unfold Rmin. destruct (Rle_dec _ _); lra. }
  assert (HtE : Game.tickFlying cfg (Rmin (i_delta inp) 0.05) (i_keys inp)
                  (i_interact inp) (i_mouse inp) w
                = Game.tickFlying cfg (Rmin (i_delta inp) 0.05) (i_keys inp) false
                    (i_mouse inp) w).
  { destruct HE as [-> | Hy]; [reflexivity|].
    unfold Game.tickFlying. rewrite Hi, Hv.
    replace (leb (vy (v_pos v)) (FLY_groundY + 1)) with false
      by (symmetry; apply leb_false; lra).
    now rewrite andb_false_r. }
  destruct (tickFlying_envelope (Rmin (i_delta inp) 0.05) (i_keys inp) (i_mouse inp)
              w i v Hi Hv Hdt)
    as (w1 & v1 & Hw1 & Hn & Hm1 & Hi1 & Hy1 & Hp1).
  assert (Hfire : exists w2,
    (if m_fireDown (i_mouse inp)
        && geb (i_now inp / 1000 - lastFireTime w1) FIRE_COOLDOWN
     then Game.fireBullet (withLastFireTime w1 (i_now inp / 1000))
     else Some w1) = Some w2 /\
    modeRef w2 = flying /\ activeIdx w2 = Some i /\ nth_error (vehicles w2) i = Some v1).
  { destruct (_ && _).
    - destruct (fireBullet_total (withLastFireTime w1 (i_now inp / 1000)) v1)
        as (w2 & Hw2).
      { unfold activeVehicle. cbn. rewrite Hi1, Hi. exact Hn. }
      exists w2. split; [exact Hw2|].
      apply fireBullet_fields in Hw2 as (_ & _ & Hv2 & Hm2 & Hi2). cbn in *.
      rewrite Hm2, Hi2, Hv2. repeat split; congruence.
    - exists w1. repeat split; congruence. }
  destruct Hfire as (w2 & Hw2 & Hm2 & Hi2 & Hn2).
  destruct (frame_tail_body (Rmin (i_delta inp) 0.05) (i_remotePlayers inp) w2 i v1)
    as (w' & v' & Hw' & Hn' & Hy' & Hp' & Hm' & Hi'); [congruence | congruence | exact Hn2 |].
  exists w', v'. split; [|split; [exact Hn'|]].
  - unfold Game.frame. rewrite Hm. cbv zeta. rewrite HtE, Hw1, Hw2. exact Hw'.
  - rewrite Hy', Hp', Hm', Hi', Hm2, Hi2. repeat split; tauto.
Qed.

(** X15.  Landing.  With E pressed at most one unit above the flying floor,
    [tickFlying] ends the flight: the player is on foot with no active
    slot, the plane stands still with pitch 0 where it was, and its height
    is the ground height of that spot, which [exitVehicle] writes over the
    [FLY.groundY] that [tickFlying] wrote first.  The yaw and pitch rates
    and the bank are 0. *)
Theorem landing_parks_the_plane (dt : R) (k : Keys) (mouse : FrameMouse) (w : World)
        (i : nat) (v : VehicleState) :
  activeIdx w = Some i -> nth_error (vehicles w) i = Some v ->
  vy (v_pos v) <= FLY_groundY + 1 ->
  exists w1 v1,
    Game.tickFlying cfg dt k true mouse w = Some w1 /\
    nth_error (vehicles w1) i = Some v1 /\
    modeRef w1 = walking /\ activeIdx w1 = None /\
    v_speed v1 = 0 /\ v_pitch v1 = 0 /\ v_rot v1 = v_rot v /\
    vx (v_pos v1) = vx (v_pos v) /\ vz (v_pos v1) = vz (v_pos v) /\
    vy (v_pos v1) = Game.getGroundHeight cfg (vx (v_pos v)) (vz (v_pos v)) /\
    flyYawVel w1 = 0 /\ flyPitchVel w1 = 0 /\ planeBankRef w1 = 0 /\
    active (race w1) = false /\
    List.length (vehicles w1) = List.length (vehicles w).
Proof.
  intros Hi Hv Hy. unfold Game.tickFlying. rewrite Hi, Hv.
  replace (leb (vy (v_pos v)) (FLY_groundY + 1)) with true
    by (symmetry; apply leb_true; lra).
  cbn [andb]. cbv zeta. unfold Game.exitVehicle. cbn [activeIdx vehicles].
  assert (Hlt : (i < List.length (vehicles w))%nat)
    by (apply nth_error_Some; congruence).
  rewrite setNth_same by exact Hlt. cbv zeta.
  eexists. eexists. split; [reflexivity|]. cbn [vehicles].
  split; [apply setNth_same; now rewrite setNth_length|].
  cbn. rewrite !setNth_length. repeat split.
Qed.

End Flight.

Lemma flight_envelope_witness :
  exists w' v',
    Game.frame trackA idle35 (flyingAt (mkVec3 0 40 0) 0 60 Game.makeBulletPool) = Some w' /\
    nth_error (vehicles w') 4 = Some v' /\
    FLY_groundY <= vy (v_pos v') <= FLY_maxAltitude.
Proof.
  destruct (flight_envelope trackA idle35
              (flyingAt (mkVec3 0 40 0) 0 60 Game.makeBulletPool) 4
              (mkVehicle "plane-blue" airplane "Sky Hawk" "#4488cc" (mkVec3 0 40 0) 0 60 0)
              eq_refl eq_refl eq_refl)
    as (w' & v' & Hf & Hn & _ & _ & Hy & _).
  - cbn. lra.
  - left. reflexivity.
  - exists w', v'. auto.
Defined.

Lemma landing_parks_the_plane_witness :
  exists w1,
    Game.tickFlying trackA 0.035 noKeys true (mkMouse 0 0 false)
                    (flyingAt (mkVec3 0 2 0) 0 60 Game.makeBulletPool) = Some w1 /\
    modeRef w1 = walking.
Proof.
  destruct (landing_parks_the_plane trackA 0.035 noKeys (mkMouse 0 0 false)
              (flyingAt (mkVec3 0 2 0) 0 60 Game.makeBulletPool) 4
              (mkVehicle "plane-blue" airplane "Sky Hawk" "#4488cc" (mkVec3 0 2 0) 0 60 0)
              eq_refl eq_refl)
    as (w1 & v1 & Hf & _ & Hm & _).
  - cbn. unfold FLY_groundY. lra.
  - exists w1. auto.
Defined.

(** ** Bullets and targets *)

Lemma activeCount_cons (b : Bullet) (pool : list Bullet) :
  Game.activeCount (b :: pool) = (Nat.b2n (b_active b) + Game.activeCount pool)%nat.
Proof. unfold Game.activeCount. cbn. now destruct (b_active b). Qed.

Lemma aliveCount_cons (t : AerialTarget) (ts : list AerialTarget) :
  aliveCount (t :: ts) = (Nat.b2n (t_alive t) + aliveCount ts)%nat.
Proof. unfold aliveCount. cbn. now destruct (t_alive t). Qed.

Lemma hitScan_count (p : Vec3) (ts : list AerialTarget) :
  map t_pos (snd (Game.hitScan p ts)) = map t_pos ts /\
  aliveCount ts
  = (Nat.b2n (fst (Game.hitScan p ts)) + aliveCount (snd (Game.hitScan p ts)))%nat.
Proof.
  induction ts as [|t rest IH]; cbn [Game.hitScan]; [cbn; auto|].
  destruct (t_alive t && Game.hitsTarget p t) eqn:Hc.
  - apply andb_true_iff in Hc as [Ha _]. cbn [fst snd map t_pos].
    rewrite !aliveCount_cons. cbn [t_alive]. rewrite Ha. cbn. auto.
  - destruct (Game.hitScan p rest) as [hit rest']. cbn [fst snd] in *.
    destruct IH as [IH1 IH2]. cbn [map]. rewrite IH1, !aliveCount_cons, IH2.
    split; [reflexivity | lia].
Qed.

Lemma tickBullet_counts (dt : R) (b : Bullet) (ts : list AerialTarget) :
  let out := Game.tickBullet dt b ts in
  inLifetime (fst out) /\
  map t_pos (snd out) = map t_pos ts /\
  (Nat.b2n (b_active (fst out)) <= Nat.b2n (b_active b))%nat /\
  (aliveCount (snd out) <= aliveCount ts)%nat /\
  (aliveCount ts + Nat.b2n (b_active (fst out))
   <= aliveCount (snd out) + Nat.b2n (b_active b))%nat.
Proof.
  cbv zeta. unfold Game.tickBullet, inLifetime.
  destruct (b_active b) eqn:Ha; cbn [negb].
  - destruct (gtb (b_age b + dt) BULLET_LIFETIME || ltb (vy (b_pos b)) (-1)) eqn:Hx.
    + cbn [fst snd b_active Nat.b2n].
      split; [discriminate|]. split; [reflexivity|]. lia.
    + apply orb_false_iff in Hx as [Hx _]. apply gtb_false in Hx.
      destruct (hitScan_count (addScaled (b_pos b) (b_vel b) dt) ts) as [Hp Hc].
      destruct (Game.hitScan _ ts) as [hit ts']. cbn [fst snd] in *.
      cbn [b_active b_age].
      split; [intros _; lra|]. split; [exact Hp|].
      destruct hit; cbn [negb Nat.b2n] in *; lia.
  - cbn [fst snd]. rewrite Ha.
    split; [discriminate|]. split; [reflexivity|]. lia.
Qed.

Lemma tickBulletsLoop_counts (dt : R) (pool : list Bullet) (ts : list AerialTarget) :
  let out := Game.tickBulletsLoop dt pool ts in
  Forall inLifetime (fst out) /\
  map t_pos (snd out) = map t_pos ts /\
  (Game.activeCount (fst out) <= Game.activeCount pool)%nat /\
  (aliveCount (snd out) <= aliveCount ts)%nat /\
  (aliveCount ts + Game.activeCount (fst out)
   <= aliveCount (snd out) + Game.activeCount pool)%nat.
Proof.
  cbv zeta. revert ts; induction pool as [|b rest IH]; intros ts;
    cbn [Game.tickBulletsLoop]; [cbn; repeat split; auto|].
  pose proof (tickBullet_counts dt b ts) as H. cbv zeta in H.
  destruct (Game.tickBullet dt b ts) as [b' ts1]. cbn [fst snd] in H.
  destruct H as (Hl & Hp & Hb & Ha & Hc).
  specialize (IH ts1).
  destruct (Game.tickBulletsLoop dt rest ts1) as [rest' ts2]. cbn [fst snd] in *.
  destruct IH as (IHl & IHp & IHb & IHa & IHc).
  rewrite !activeCount_cons. repeat split; auto; try congruence; lia.
Qed.

Lemma activateFirst_count (nb : Bullet) (pool pool' : list Bullet) :
  b_active nb = true -> Game.activateFirst nb pool = Some pool' ->
  Game.activeCount pool' = S (Game.activeCount pool).
Proof.
  intros Hnb. revert pool'; induction pool as [|b rest IH]; intros pool' H;
    cbn [Game.activateFirst] in H; [discriminate|].
  destruct (b_active b) eqn:Hb; cbn [negb] in H.
  - destruct (Game.activateFirst nb rest) as [r'|]; [|discriminate].
    injection H as <-. rewrite !activeCount_cons, Hb, (IH r' eq_refl). reflexivity.
  - injection H as <-. rewrite !activeCount_cons, Hb, Hnb. reflexivity.
Qed.

Section Weapon.
Variable cfg : Track.Config.
Context {rt : Runtime}.

Lemma frame_stages_fire (inp : FrameInput) (w w' : World) :
  Game.frame cfg inp w = Some w' ->
  let dt := Rmin (i_delta inp) 0.05 in
  exists w1 w2,
    match modeRef w with
    | walking => Some (Game.tickWalking cfg (i_now inp) dt (i_keys inp)
                         (i_interact inp) (i_takenVehicleIds inp) w)
    | driving => Game.tickDriving cfg (i_now inp) dt (i_keys inp) (i_interact inp) w
    | flying => Game.tickFlying cfg dt (i_keys inp) (i_interact inp) (i_mouse inp) w
    end = Some w1 /\
    (w2 = w1 \/
     (modeRef w = flying /\ m_fireDown (i_mouse inp) = true /\
      FIRE_COOLDOWN <= i_now inp / 1000 - lastFireTime w1 /\
      Game.fireBullet (withLastFireTime w1 (i_now inp / 1000)) = Some w2)) /\
    Game.tickVehicleCollisions (i_remotePlayers inp)
      (Game.tickTargets dt (Game.tickMuzzleFlash dt (Game.tickBullets dt w2)))
    = Some w'.
Proof.
  unfold Game.frame. cbv zeta. intros H.
  match type of H with match ?T with Some _ => _ | None => _ end = _ =>
    destruct T as [w1|] eqn:H1; [|discriminate] end.
  match type of H with match ?T with Some _ => _ | None => _ end = _ =>
    destruct T as [w2|] eqn:H2; [|discriminate] end.
  exists w1, w2. split; [reflexivity|]. split; [|exact H].
  destruct (modeRef w); try (injection H2 as <-; now left).
  destruct (m_fireDown (i_mouse inp)); cbn [andb] in H2;
    [|injection H2 as <-; now left].
  destruct (geb _ FIRE_COOLDOWN) eqn:Hc; [|injection H2 as <-; now left].
  apply geb_true in Hc. right. repeat split; auto. lra.
Qed.

Lemma mode_tick_weapon (inp : FrameInput) (w w1 : World) :
  match modeRef w with
  | walking => Some (Game.tickWalking cfg (i_now inp) (Rmin (i_delta inp) 0.05) (i_keys inp)
                       (i_interact inp) (i_takenVehicleIds inp) w)
  | driving => Game.tickDriving cfg (i_now inp) (Rmin (i_delta inp) 0.05) (i_keys inp)
                 (i_interact inp) w
  | flying => Game.tickFlying cfg (Rmin (i_delta inp) 0.05) (i_keys inp) (i_interact inp)
                (i_mouse inp) w
  end = Some w1 ->
  bullets w1 = bullets w /\ lastFireTime w1 = lastFireTime w.
Proof.
  destruct (modeRef w); intros H.
  - injection H as <-.
    destruct (tickWalking_spec cfg (i_now inp) (Rmin (i_delta inp) 0.05) (i_keys inp)
                (i_interact inp) (i_takenVehicleIds inp) w) as (Hb & _ & _ & _ & Hl & _).
    auto.
  - apply tickDriving_fields in H as (Hb & _ & _ & _ & Hl & _). auto.
  - apply tickFlying_fields in H as (Hb & _ & _ & _ & Hl & _). auto.
Qed.

Lemma frame_tail_weapon (dt : R) (rps : list RemotePlayer) (w2 w' : World) :
  Game.tickVehicleCollisions rps
    (Game.tickTargets dt (Game.tickMuzzleFlash dt (Game.tickBullets dt w2))) = Some w' ->
  bullets w' = fst (Game.tickBulletsLoop dt (bullets w2) (targets w2)) /\
  lastFireTime w' = lastFireTime w2.
Proof.
  intros H. apply collisions_only_vehicles in H as [vs ->].
  unfold Game.tickTargets, Game.tickMuzzleFlash, Game.tickBullets.
  destruct (Game.tickBulletsLoop dt (bullets w2) (targets w2)) as [pool' ts'].
  destruct (gtb _ 0); auto.
Qed.

(** X16.  At the end of every frame each bullet in flight is at most
    [BULLET_LIFETIME] old.  A frame adds at most one bullet to those in
    flight, and it adds one only when the pilot holds the trigger at least
    [FIRE_COOLDOWN] after the last shot; the frame then records its own
    clock as the time of the last shot. *)
Theorem shots_respect_cooldown (inp : FrameInput) (w w' : World) :
  Game.frame cfg inp w = Some w' ->
  Forall inLifetime (bullets w') /\
  (Game.activeCount (bullets w') <= S (Game.activeCount (bullets w)))%nat /\
  ((Game.activeCount (bullets w) < Game.activeCount (bullets w'))%nat ->
   triggerReady inp w /\ lastFireTime w' = i_now inp / 1000) /\
  (~ triggerReady inp w -> lastFireTime w' = lastFireTime w).
Proof.
  intros Hf. apply frame_stages_fire in Hf as (w1 & w2 & H1 & H2 & H3).
  cbv zeta in *.
  apply mode_tick_weapon in H1 as [Hb1 Hl1].
  apply frame_tail_weapon in H3 as [Hb3 Hl3].
  pose proof (tickBulletsLoop_counts (Rmin (i_delta inp) 0.05) (bullets w2) (targets w2))
    as (Hlife & _ & Hcnt & _).
  cbv zeta in *. rewrite <- Hb3 in Hlife, Hcnt.
  split; [exact Hlife|].
  destruct H2 as [-> | (Hm & Hfd & Hcd & Hfire)].
  - rewrite Hb1 in Hcnt. split; [lia|]. split; [lia|]. intros _. congruence.
  - assert (Hready : triggerReady inp w).
    { unfold triggerReady. rewrite <- Hl1. auto. }
    assert (H2 : lastFireTime w2 = i_now inp / 1000 /\
                 (Game.activeCount (bullets w2) <= S (Game.activeCount (bullets w)))%nat).
    { unfold Game.fireBullet in Hfire. cbn [bullets withLastFireTime] in Hfire.
      rewrite Hb1 in Hfire.
      destruct (forallb b_active (bullets w)).
      { injection Hfire as <-. cbn [bullets lastFireTime withLastFireTime].
        rewrite Hb1. split; [reflexivity | lia]. }
      destruct (activeVehicle _) as [v|]; [|discriminate].
      destruct (Game.activateFirst _ (bullets w)) as [pool'|] eqn:Ha.
      - injection Hfire as <-. cbn [bullets lastFireTime withLastFireTime].
        split; [reflexivity|].
        erewrite activateFirst_count; [ | | exact Ha]; [lia | reflexivity].
      - injection Hfire as <-. cbn [bullets lastFireTime withLastFireTime].
        rewrite Hb1. split; [reflexivity | lia]. }
    destruct H2 as [Hl2 Hc2].
    split; [lia|]. split; [intros _; split; [exact Hready | congruence]|].
    intros Hn. contradiction.
Qed.

Lemma tickBulletsLoop_slot (dt : R) (pool : list Bullet) (ts : list AerialTarget)
      (i : nat) (b : Bullet) :
  nth_error pool i = Some b ->
  exists b', nth_error (fst (Game.tickBulletsLoop dt pool ts)) i = Some b' /\
             (b_active b = false -> b' = b).
Proof.
  revert ts i; induction pool as [|a rest IH]; intros ts i H;
    [destruct i; discriminate|].
  cbn [Game.tickBulletsLoop].
  destruct (Game.tickBullet dt a ts) as [a' ts1] eqn:Ha.
  destruct i as [|i]; cbn [nth_error] in H.
  - injection H as ->.
    destruct (Game.tickBulletsLoop dt rest ts1) as [rest' ts2]. cbn [fst nth_error].
    exists a'. split; [reflexivity|]. intros Hb.
    unfold Game.tickBullet in Ha. rewrite Hb in Ha. cbn [negb] in Ha. congruence.
  - destruct (IH ts1 i H) as (b' & Hn & Hb).
    destruct (Game.tickBulletsLoop dt rest ts1) as [rest' ts2]. cbn [fst nth_error] in *.
    exists b'. auto.
Qed.

(** X17.  One bullet destroys at most one target.  In [tickBullets] no
    target moves and every target is either left as it was or, having been
    alive, is destroyed with its timer set to [TARGET_RESPAWN_TIME]: none
    comes back to life.  A slot whose bullet is not in flight is left as it
    was: no bullet is put in flight.  The targets lost are at most as many
    as the bullets taken out of flight. *)
Theorem one_bullet_one_target (dt : R) (w : World) :
  let w' := Game.tickBullets dt w in
  map t_pos (targets w') = map t_pos (targets w) /\
  (forall j t, nth_error (targets w) j = Some t ->
     nth_error (targets w') j = Some t \/
     (t_alive t = true /\
      nth_error (targets w') j = Some (mkTarget (t_pos t) false TARGET_RESPAWN_TIME))) /\
  (forall i b, nth_error (bullets w) i = Some b ->
     exists b', nth_error (bullets w') i = Some b' /\
                (b_active b = false -> b' = b)) /\
  (Game.activeCount (bullets w') <= Game.activeCount (bullets w))%nat /\
  (aliveCount (targets w') <= aliveCount (targets w))%nat /\
  (aliveCount (targets w) - aliveCount (targets w')
   <= Game.activeCount (bullets w) - Game.activeCount (bullets w'))%nat /\
  vehicles w' = vehicles w.
Proof.
  cbv zeta. unfold Game.tickBullets.
  pose proof (tickBulletsLoop_counts dt (bullets w) (targets w)) as H. cbv zeta in H.
  pose proof (fun j t => tickBulletsLoop_nth dt (bullets w) (targets w) j t) as Ht.
  pose proof (fun i b => tickBulletsLoop_slot dt (bullets w) (targets w) i b) as Hs.
  destruct (Game.tickBulletsLoop dt (bullets w) (targets w)) as [pool' ts'].
  cbn [fst snd] in H, Ht, Hs. destruct H as (_ & Hp & Hb & Ha & Hc).
  cbn [targets bullets vehicles withTargets withBullets].
  split; [exact Hp|]. split; [exact Ht|]. split; [exact Hs|].
  repeat split; auto. lia.
Qed.

End Weapon.

(** ** The leaderboard routes *)

Section Board.
Variable numberToString : R -> string.
Import Leaderboard.

Lemma insertByTime_In (e x : LeaderboardEntry) (l : list LeaderboardEntry) :
  In x (insertByTime e l) <-> x = e \/ In x l.
Proof.
  induction l as [|h t IH]; cbn; [intuition|].
  destruct (ltb (time e) (time h)); cbn; [intuition|].
  rewrite IH. intuition.
Qed.

Lemma insertByTime_length (e : LeaderboardEntry) (l : list LeaderboardEntry) :
  List.length (insertByTime e l) = S (List.length l).
Proof.
  induction l as [|h t IH]; cbn; [reflexivity|].
  destruct (ltb (time e) (time h)); cbn; [reflexivity|]. now rewrite IH.
Qed.

Lemma insertByTime_ascending (e : LeaderboardEntry) (l : list LeaderboardEntry) :
  ascending l -> ascending (insertByTime e l).
Proof.
  induction l as [|h t IH]; intros Ha; cbn; [split; [intros ? []|exact I]|].
  destruct Ha as [Hh Ht].
  destruct (ltb (time e) (time h)) eqn:Hlt.
  - apply ltb_true in Hlt. cbn. repeat split; auto.
    intros x [<- | Hx]; [lra|]. specialize (Hh x Hx). lra.
  - apply ltb_false in Hlt. cbn. split; [|auto].
    intros x Hx. apply insertByTime_In in Hx as [-> | Hx]; [lra | auto].
Qed.

Lemma sortInto_spec (l acc : list LeaderboardEntry) :
  let out := fold_left (fun a e => insertByTime e a) l acc in
  (ascending acc -> ascending out) /\
  (forall x, In x out <-> In x l \/ In x acc) /\
  List.length out = (List.length l + List.length acc)%nat.
Proof.
  cbv zeta. revert acc; induction l as [|e rest IH]; intros acc; cbn [fold_left].
  - cbn. intuition.
  - destruct (IH (insertByTime e acc)) as (Ha & Hi & Hl).
    split; [|split].
    + intros H. apply Ha. now apply insertByTime_ascending.
    + intros x. rewrite Hi, insertByTime_In. cbn. intuition.
    + rewrite Hl, insertByTime_length. cbn. lia.
Qed.

Lemma sortByTime_spec (l : list LeaderboardEntry) :
  ascending (sortByTime l) /\
  (forall x, In x (sortByTime l) <-> In x l) /\
  List.length (sortByTime l) = List.length l.
Proof.
  destruct (sortInto_spec l []) as (Ha & Hi & Hl). cbv zeta in *.
  unfold sortByTime. split; [now apply Ha|]. split.
  - intros x. rewrite Hi. cbn. intuition.
  - rewrite Hl. cbn. lia.
Qed.

Lemma ascending_app (a b : list LeaderboardEntry) :
  ascending (a ++ b) ->
  ascending a /\ forall x y, In x a -> In y b -> time x <= time y.
Proof.
  induction a as [|h t IH]; cbn; [intros _; split; [exact I | intros ? ? []]|].
  intros [Hh Ht]. destruct (IH Ht) as [Ha Hab]. split.
  - split; [|exact Ha]. intros e' He'. apply Hh. apply in_or_app. now left.
  - intros x y [<- | Hx] Hy; [|auto]. apply Hh. apply in_or_app. now right.
Qed.

Lemma firstn_cut (n : nat) (l : list LeaderboardEntry) :
  ascending l ->
  ascending (firstn n l) /\
  (forall x y, In x (firstn n l) -> In y (skipn n l) -> time x <= time y).
Proof.
  intros Ha. rewrite <- (firstn_skipn n l) in Ha. now apply ascending_app in Ha.
Qed.

Lemma firstn_subset {A : Type} (n : nat) (l : list A) (x : A) :
  In x (firstn n l) -> In x l.
Proof.
  intros H. rewrite <- (firstn_skipn n l). apply in_or_app. now left.
Qed.

Lemma slice20_length (s : string) : (String.length (slice20 s) <= 20)%nat.
Proof.
  unfold slice20. generalize 20%nat as n.
  induction s as [|c s IH]; intros [|n]; cbn; try lia.
  specialize (IH n). lia.
Qed.

(** X18.  GET /api/leaderboard answers with the fastest entries of the
    store in ascending order of time: min(50, size of the store) of them,
    each one a stored entry, and no stored entry left out is faster than one
    that is listed. *)
Theorem get_lists_the_fastest (store : list LeaderboardEntry) :
  ascending (get store) /\
  List.length (get store) = Nat.min 50 (List.length store) /\
  (forall e, In e (get store) -> In e store) /\
  (forall e e', In e (get store) -> In e' store -> ~ In e' (get store) ->
     time e <= time e').
Proof.
  unfold get. destruct (sortByTime_spec store) as (Ha & Hi & Hl).
  destruct (firstn_cut 50 _ Ha) as [Hf Hcut].
  split; [exact Hf|]. split; [rewrite length_firstn, Hl; reflexivity|]. split.
  - intros e He. apply Hi. eapply firstn_subset. exact He.
  - intros e e' He He' Hout. apply Hcut; [exact He|].
    apply Hi in He'. rewrite <- (firstn_skipn 50 (sortByTime store)) in He'.
    apply in_app_or in He' as [H | H]; [contradiction | exact H].
Qed.

Lemma post_keeps_board (nowIso : string) (body : Body) (store : list LeaderboardEntry) :
  boardOk store -> boardOk (snd (post numberToString nowIso body store)).
Proof.
  intros Hok. unfold post.
  destruct (body_name body) as [rawName|]; [|exact Hok].
  destruct (body_time body) as [[| |t|]|]; try exact Hok.
  destruct (negb (truthy (Some rawName)) || leb t 0) eqn:Hbad; [exact Hok|].
  apply orb_false_iff in Hbad as [_ Ht]. apply leb_false in Ht.
  cbv zeta. cbn [snd].
  destruct Hok as (_ & _ & Hentries).
  destruct (sortByTime_spec (store ++ [mkEntry (slice20 (toString numberToString rawName)) t nowIso]))
    as (Ha & Hi & _).
  destruct (firstn_cut 200 _ Ha) as [Hf _].
  split; [exact Hf|]. split; [apply firstn_le_length|].
  intros e He. apply firstn_subset in He. apply Hi in He.
  apply in_app_or in He as [He | [<- | []]]; [auto|].
  cbn. split; [apply slice20_length | lra].
Qed.

(** X19.  The stored board under requests whose numbers are finite, that
    is, written within the range of a double.  Such a POST keeps the store
    in ascending order of time, with at most 200 entries, names of at most
    20 characters and positive times; so does every run of such requests
    from an empty store.  One that is answered with 400 leaves the store as
    it was, and an accepted one leaves min(200, size + 1) entries. *)
Theorem board_stays_sorted_and_bounded :
  (forall reqs store, boardOk store -> boardOk (serve numberToString reqs store)) /\
  boardOk [] /\
  (forall nowIso body store,
     fst (post numberToString nowIso body store) = BadRequest ->
     snd (post numberToString nowIso body store) = store) /\
  (forall nowIso body store rank,
     fst (post numberToString nowIso body store) = Success rank ->
     List.length (snd (post numberToString nowIso body store))
     = Nat.min 200 (S (List.length store)) /\ (rank <= 200)%nat).
Proof.
  split; [|split; [|split]].
  - induction reqs as [|[nowIso body] rest IH]; intros store Hok; cbn [serve]; [exact Hok|].
    apply IH. now apply post_keeps_board.
  - unfold boardOk. cbn. repeat split; try lia; intros ? [].
  - intros nowIso body store. unfold post.
    destruct (body_name body) as [rawName|]; [|reflexivity].
    destruct (body_time body) as [[| |t|]|]; try reflexivity.
    destruct (negb (truthy (Some rawName)) || leb t 0); [reflexivity|].
    cbn. discriminate.
  - intros nowIso body store rank. unfold post.
    destruct (body_name body) as [rawName|]; [|discriminate].
    destruct (body_time body) as [[| |t|]|]; try discriminate.
    destruct (negb (truthy (Some rawName)) || leb t 0); [discriminate|].
    cbv zeta. cbn [fst snd].
    remember (firstn 200 (sortByTime
      (store ++ [mkEntry (slice20 (toString numberToString rawName)) t nowIso])))
      as trimmed eqn:Htr.
    intros H. injection H as <-.
    destruct (sortByTime_spec (store ++ [mkEntry (slice20 (toString numberToString rawName)) t nowIso]))
      as (_ & _ & Hl).
    assert (Hlen : List.length trimmed = Nat.min 200 (S (List.length store))).
    { rewrite Htr, length_firstn, Hl, length_app. cbn [List.length]. f_equal. lia. }
    split; [exact Hlen|].
    destruct (findIndex _ trimmed 0) as [i|] eqn:Hf; [|lia].
    apply findIndex_found in Hf as (_ & e & Hn & _). rewrite Nat.sub_0_r in Hn.
    assert (Hlt : (i < List.length trimmed)%nat)
      by (apply nth_error_Some; rewrite Hn; discriminate).
    lia.
Qed.

End Board.

(** ** What the HUD is told *)

Section Hud.
Variable cfg : Track.Config.
Context {rt : Runtime}.

Lemma lapTracking_active (now : R) (pos3 : Vec3) (r : Race) (ev : list Event) :
  active (fst (Game.lapTracking cfg now pos3 r ev)) = active r.
Proof.
  unfold Game.lapTracking. destruct (Track.distLt _ _); [|reflexivity].
  unfold Game.lapUpdate, Game.completeLap.
  repeat match goal with |- context [if ?c then _ else _] => destruct c end;
    reflexivity.
Qed.

Lemma mode_tick_active (inp : FrameInput) (w w1 : World) :
  (active (race w) = true <-> modeRef w = driving) ->
  match modeRef w with
  | walking => Some (Game.tickWalking cfg (i_now inp) (Rmin (i_delta inp) 0.05) (i_keys inp)
                       (i_interact inp) (i_takenVehicleIds inp) w)
  | driving => Game.tickDriving cfg (i_now inp) (Rmin (i_delta inp) 0.05) (i_keys inp)
                 (i_interact inp) w
  | flying => Game.tickFlying cfg (Rmin (i_delta inp) 0.05) (i_keys inp) (i_interact inp)
                (i_mouse inp) w
  end = Some w1 ->
  (active (race w1) = true <-> modeRef w1 = driving).
Proof.
  intros Hact. destruct (modeRef w) eqn:Hm; intros H.
  - injection H as <-.
    destruct (tickWalking_spec cfg (i_now inp) (Rmin (i_delta inp) 0.05) (i_keys inp)
                (i_interact inp) (i_takenVehicleIds inp) w)
      as (_ & _ & _ & _ & _ & _ & [(Hm1 & _ & Hr1) | (idx & v & _ & _ & Hty)]).
    + rewrite Hm1, Hr1, Hm. exact Hact.
    + destruct Hty as [(_ & -> & ->) | (_ & -> & ->)].
      * cbn. tauto.
      * split; [|discriminate]. intros Ha. apply Hact in Ha. discriminate.
  - unfold Game.tickDriving in H. destruct (i_interact inp).
    + pose proof (exitVehicle_keeps cfg _ _ H) as (_ & _ & _ & Ha & _).
      apply exitVehicle_spec in H as (_ & _ & _ & _ & _ & _ & Hm1 & _).
      rewrite Ha, Hm1. split; discriminate.
    + destruct (finished (race w)) eqn:Hfin; [injection H as <-; now rewrite Hm|].
      destruct (activeIdx w) as [i|] eqn:Hi; [|discriminate].
      destruct (nth_error (vehicles w) i) as [v|] eqn:Hv; [|discriminate].
      destruct (tickDriving_spec cfg (i_now inp) (Rmin (i_delta inp) 0.05) (i_keys inp)
                  w i v Hfin Hi Hv) as (w2 & Hw2 & Hr & _ & _ & Hm2 & _).
      unfold Game.tickDriving in Hw2. rewrite Hfin, Hi, Hv in Hw2.
      rewrite H in Hw2. injection Hw2 as <-.
      rewrite Hr, lapTracking_active, Hm2, Hm. exact Hact.
  - unfold Game.tickFlying in H.
    destruct (activeIdx w); [|discriminate].
    destruct (nth_error _ _); [|discriminate].
    destruct (i_interact inp && _).
    + pose proof (exitVehicle_keeps cfg _ _ H) as (_ & _ & _ & Ha & _).
      apply exitVehicle_spec in H as (_ & _ & _ & _ & _ & _ & Hm1 & _).
      rewrite Ha, Hm1. split; discriminate.
    + injection H as <-. cbn [race modeRef]. rewrite Hm. exact Hact.
Qed.

Lemma frame_sessionOk (inp : FrameInput) (w w' : World) :
  (1 <= Track.TOTAL_LAPS cfg)%nat -> 0 <= i_delta inp ->
  sessionOk cfg w -> Game.frame cfg inp w = Some w' -> sessionOk cfg w'.
Proof.
  intros Htot Hd (Hmode & Hlaps & Hboost & Hact) Hf.
  split; [|split; [|split]].
  - destruct (frame_outcome cfg inp w Hmode) as [[_ Hn] | [_ (w2 & Hw2 & Hi2 & _)]];
      congruence.
  - now apply (frame_bounded cfg inp w).
  - now apply (frame_boost cfg inp w).
  - apply frame_stages in Hf as (w1 & w2 & H1 & H2 & H3).
    destruct (frame_tail_same inp w1 w2 w' _ _ H2 H3) as (-> & _ & _ & -> & _).
    now apply (mode_tick_active inp w).
Qed.

Lemma run_sessionOk (inps : list FrameInput) (w w' : World) :
  (1 <= Track.TOTAL_LAPS cfg)%nat -> forwardTime inps ->
  sessionOk cfg w -> Game.run cfg inps w = Some w' -> sessionOk cfg w'.
Proof.
  intros Htot Hfw. revert w.
  induction Hfw as [|inp rest Hd _ IH]; intros w Hw Hrun; cbn [Game.run] in Hrun.
  - now injection Hrun as <-.
  - destruct (Game.frame cfg inp w) as [w1|] eqn:Hf; [|discriminate].
    apply (IH w1); [|exact Hrun]. now apply (frame_sessionOk inp w).
Qed.

Lemma initWorld_sessionOk :
  (1 <= Track.TOTAL_LAPS cfg)%nat -> sessionOk cfg (Game.initWorld cfg).
Proof.
  intros Htot. unfold sessionOk, lapsBounded, boostInRange. cbn.
  repeat split; try discriminate; try lia; try lra; exact I.
Qed.

(** X20.  What [syncToReact] reports in any state a session reaches (at
    least one lap to drive, deltas not negative).  It does not throw.  The
    vehicle id is null exactly on foot.  Lap, lap time and total time are
    those of the race record while driving and 0 otherwise, whereas the best
    lap is reported in every mode.  The lap number of the badge,
    [min(lap + 1, TOTAL_LAPS)], lies between 1 and [TOTAL_LAPS], and the
    boost between 0 and 100. *)
Theorem hud_report (inps : list FrameInput) (w : World) (now : R) (k : Keys) :
  (1 <= Track.TOTAL_LAPS cfg)%nat -> forwardTime inps ->
  Game.run cfg inps (Game.initWorld cfg) = Some w ->
  exists st,
    syncToReact now k w = Some st /\
    ps_mode st = modeRef w /\
    (ps_vehicleId st = None <-> ps_mode st = walking) /\
    (ps_mode st = driving ->
       ps_lap st = lap (race w) /\ ps_lapTime st = now - lapStart (race w) /\
       ps_totalTime st = now - raceStart (race w)) /\
    (ps_mode st <> driving ->
       ps_lap st = 0%nat /\ ps_lapTime st = 0 /\ ps_totalTime st = 0) /\
    ps_bestLapTime st = bestLap (race w) /\
    (1 <= hudLap cfg st <= Track.TOTAL_LAPS cfg)%nat /\
    0 <= ps_boost st <= 100.
Proof.
  intros Htot Hfw Hrun.
  destruct (run_sessionOk inps _ w Htot Hfw (initWorld_sessionOk Htot) Hrun)
    as (Hmode & [Hlap _] & Hboost & Hact).
  unfold syncToReact, modeInv, activeVehicle in *. cbv zeta.
  assert (Hlapnum : forall n, (n <= Track.TOTAL_LAPS cfg)%nat ->
            (1 <= Nat.min (n + 1) (Track.TOTAL_LAPS cfg) <= Track.TOTAL_LAPS cfg)%nat)
    by (intros n Hn; lia).
  destruct (modeRef w) eqn:Hm, (activeIdx w) as [i|] eqn:Hi; try contradiction.
  - eexists. split; [reflexivity|]. unfold hudLap. cbn.
    assert (Ha : active (race w) = false).
    { destruct (active (race w)); [|reflexivity]. destruct Hact as [Hact _].
      specialize (Hact eq_refl). discriminate. }
    rewrite Ha. repeat split; auto; try discriminate; try tauto; try lia; apply Hboost.
  - destruct Hmode as (v & Hv & _). rewrite Hv.
    eexists. split; [reflexivity|]. unfold hudLap. cbn.
    assert (Ha : active (race w) = true) by now apply Hact.
    rewrite Ha. repeat split; auto; try discriminate; try tauto;
      try apply Hlapnum; try apply Hboost; auto.
  - destruct Hmode as (v & Hv & _). rewrite Hv.
    eexists. split; [reflexivity|]. unfold hudLap. cbn.
    assert (Ha : active (race w) = false).
    { destruct (active (race w)); [|reflexivity]. destruct Hact as [Hact _].
      specialize (Hact eq_refl). discriminate. }
    rewrite Ha. repeat split; auto; try discriminate; try tauto; try lia; apply Hboost.
Qed.

End Hud.

(** ** The relay and the remote lists *)

Lemma map_fix {A : Type} (f : A -> A) (l : list A) :
  (forall x, In x l -> f x = x) -> map f l = l.
Proof.
  intros H. rewrite <- (map_id l) at 2. now apply map_ext_in.
Qed.

Section RelayFacts.
Import Relay.

Lemma mapGet_None (k : string) (m : PlayerMap) :
  mapGet k m = None <-> ~ In k (map fst m).
Proof.
  induction m as [|[k' v'] rest IH]; cbn; [tauto|].
  destruct (String.eqb k' k) eqn:He.
  - apply String.eqb_eq in He. split; [discriminate | intros H; exfalso; auto].
  - apply String.eqb_neq in He. rewrite IH. tauto.
Qed.

Lemma mapGet_In (k : string) (m : PlayerMap) (p : PlayerInfo) :
  mapGet k m = Some p -> In (k, p) m.
Proof.
  induction m as [|[k' v'] rest IH]; cbn; [discriminate|].
  destruct (String.eqb k' k) eqn:He.
  - apply String.eqb_eq in He. intros H; injection H as <-. subst. now left.
  - intros H. right. auto.
Qed.

Lemma mapSet_fresh (k : string) (v : PlayerInfo) (m : PlayerMap) :
  mapGet k m = None -> mapSet k v m = m ++ [(k, v)].
Proof.
  induction m as [|[k' v'] rest IH]; cbn; [reflexivity|].
  destruct (String.eqb k' k); [discriminate|]. intros H. now rewrite IH.
Qed.

Lemma without_app (id : string) (a b : list PlayerInfo) :
  without id (a ++ b) = without id a ++ without id b.
Proof. unfold without. apply filter_app. Qed.

Lemma without_comm (a b : string) (ps : list PlayerInfo) :
  without a (without b ps) = without b (without a ps).
Proof.
  unfold without. induction ps as [|p ps IH]; cbn; [reflexivity|].
  destruct (String.eqb (p_id p) b) eqn:Hb, (String.eqb (p_id p) a) eqn:Ha; cbn;
    rewrite ?Ha, ?Hb; cbn; now rewrite ?IH.
Qed.

Lemma wellKeyed_tail (kv : string * PlayerInfo) (m : PlayerMap) :
  wellKeyed (kv :: m) -> wellKeyed m.
Proof.
  intros [Hnd Hk]. split; [cbn in Hnd; inversion Hnd; assumption|].
  intros k p H. apply Hk. now right.
Qed.

Lemma mapSet_present (k : string) (d : UpdateData) (m : PlayerMap) (p : PlayerInfo) :
  wellKeyed m -> mapGet k m = Some p ->
  map fst (mapSet k (applyUpdate d p) m) = map fst m /\
  values (mapSet k (applyUpdate d p) m)
  = map (fun q => if String.eqb (p_id q) k then applyUpdate d q else q) (values m) /\
  wellKeyed (mapSet k (applyUpdate d p) m).
Proof.
  induction m as [|[k' v'] rest IH]; intros Hwk Hget; cbn in Hget; [discriminate|].
  pose proof Hwk as [Hnd Hkeys].
  destruct (Hkeys k' v' (or_introl eq_refl)) as [Hid Hname].
  cbn [mapSet]. destruct (String.eqb k' k) eqn:He.
  - apply String.eqb_eq in He. subst k'. injection Hget as ->.
    cbn [map fst snd values]. rewrite Hid, String.eqb_refl.
    split; [reflexivity|]. split.
    + f_equal. symmetry. apply map_fix.
      intros q Hq. apply in_map_iff in Hq as ([k2 q2] & <- & Hin). cbn.
      destruct (Hkeys k2 q2 (or_intror Hin)) as [Hid2 _]. rewrite Hid2.
      destruct (String.eqb k2 k) eqn:He2; [|reflexivity].
      apply String.eqb_eq in He2. inversion Hnd as [|? ? Hnot _].
      exfalso. apply Hnot. apply (in_map fst) in Hin. cbn [fst] in Hin.
      congruence.
    + split; [exact Hnd|]. intros k2 p2 [H | H]; [|apply Hkeys; now right].
      injection H as <- <-. cbn. auto.
  - destruct (IH (wellKeyed_tail _ _ Hwk) Hget) as (Hf & Hv & Hw).
    cbn [map fst snd values] in *. rewrite Hf. unfold values in Hv. rewrite Hv.
    rewrite Hid, He. split; [reflexivity|]. split; [reflexivity|].
    split.
    + cbn. rewrite Hf. exact Hnd.
    + intros k2 p2 [H | H]; [apply Hkeys; now left | now apply Hw].
Qed.

Lemma mapDelete_spec (k : string) (m : PlayerMap) :
  wellKeyed m ->
  map fst (mapDelete k m) = filter (fun x => negb (String.eqb x k)) (map fst m) /\
  values (mapDelete k m) = without k (values m) /\
  wellKeyed (mapDelete k m).
Proof.
  induction m as [|[k' v'] rest IH]; intros Hwk; cbn.
  - split; [reflexivity|]. split; [reflexivity|]. exact Hwk.
  - pose proof Hwk as [Hnd Hkeys].
    destruct (Hkeys k' v' (or_introl eq_refl)) as [Hid Hname].
    destruct (IH (wellKeyed_tail _ _ Hwk)) as (Hf & Hv & Hw).
    unfold without, values in *. cbn [map filter snd fst]. rewrite Hid.
    destruct (String.eqb k' k) eqn:He; cbn [negb].
    + apply String.eqb_eq in He. clear Hid. subst k'.
      assert (Hnot : ~ In k (map fst rest))
        by (cbn in Hnd; inversion Hnd; assumption).
      assert (Hkeep : forall x, In x (map fst rest) -> negb (String.eqb x k) = true).
      { intros x Hx. destruct (String.eqb x k) eqn:E; [|reflexivity].
        apply String.eqb_eq in E. subst. contradiction. }
      split; [|split; [|exact (wellKeyed_tail _ _ Hwk)]].
      * symmetry. apply forallb_filter_id. apply forallb_forall. exact Hkeep.
      * symmetry. apply forallb_filter_id. apply forallb_forall.
        intros q Hq. apply in_map_iff in Hq as ([k2 q2] & <- & Hin). cbn.
        destruct (Hkeys k2 q2 (or_intror Hin)) as [-> _].
        apply Hkeep. apply (in_map fst) in Hin. exact Hin.
    + cbn [map fst snd]. rewrite Hf, Hv. split; [reflexivity|]. split; [reflexivity|].
      split.
      * cbn. rewrite Hf. constructor.
        -- intros Hin. apply filter_In in Hin as [Hin _].
           cbn in Hnd. inversion Hnd. contradiction.
        -- apply NoDup_filter. cbn in Hnd. inversion Hnd. assumption.
      * intros k2 p2 [H | H]; [apply Hkeys; now left | now apply Hw].
Qed.

Lemma deliver_one (a : Audience) (msg : ServerMsg)
      (cs : list (string * list PlayerInfo)) :
  deliver [(a, msg)] cs
  = map (fun c => (fst c, if hears a (fst c) then receive msg (snd c) else snd c)) cs.
Proof. reflexivity. Qed.

Lemma deliver_none (cs : list (string * list PlayerInfo)) : deliver [] cs = cs.
Proof.
  unfold deliver. cbn. induction cs as [|[c v] rest IH]; cbn; [reflexivity|].
  now rewrite IH.
Qed.

Lemma deliver_keys (out : list (Audience * ServerMsg))
      (cs : list (string * list PlayerInfo)) :
  map fst (deliver out cs) = map fst cs.
Proof. unfold deliver. rewrite map_map. reflexivity. Qed.

Lemma netStep_keeps (n : Net) (e : NetEvent) :
  wellKeyed (server n) -> mirrored n ->
  match e with Join sid _ _ => mapGet sid (server n) = None | _ => True end ->
  wellKeyed (server (netStep n e)) /\ mirrored (netStep n e).
Proof.
  intros Hwk [Hkeys Hviews] Hfresh. pose proof Hwk as [Hnd Hk].
  destruct e as [sid name color | sid d | sid]; cbn [netStep].
  - (* join *)
    unfold join. cbv zeta.
    set (player := mkPlayer sid (Leaderboard.slice20 name) color
                            (mkVec3 0 0 0) 0 0 walking None 0 0).
    rewrite (mapSet_fresh sid player (server n) Hfresh).
    unfold mirrored. cbn [server clients].
    assert (Hnot : ~ In sid (map fst (server n))) by now apply mapGet_None.
    split; [split|split].
    + rewrite map_app. cbn. apply NoDup_app; [exact Hnd | |].
      * repeat constructor. intros [].
      * intros x Hx [<- | []]. contradiction.
    + intros k p Hin. apply in_app_or in Hin as [Hin | [H | []]]; [now apply Hk|].
      injection H as <- <-. cbn. split; [reflexivity|].
      apply slice20_length.
    + rewrite deliver_keys, !map_app, Hkeys. reflexivity.
    + intros c view Hin. unfold deliver in Hin.
      apply in_map_iff in Hin as ([c0 v0] & Heq & Hin0). cbn in Heq.
      injection Heq as <- <-.
      unfold values. rewrite map_app. cbn [map snd]. fold (values (server n)).
      apply in_app_or in Hin0 as [Hin0 | [H | []]].
      * assert (Hc : c0 <> sid).
        { intros ->. apply Hnot. rewrite <- Hkeys.
          apply (in_map fst) in Hin0. exact Hin0. }
        apply String.eqb_neq in Hc. rewrite Hc. cbn [negb].
        rewrite (Hviews c0 v0 Hin0), without_app. f_equal.
        unfold without. cbn. rewrite String.eqb_sym, Hc. reflexivity.
      * injection H as <- <-. rewrite String.eqb_refl. cbn [negb]. reflexivity.
  - (* update *)
    unfold update. destruct (mapGet sid (server n)) as [player|] eqn:Hget.
    + destruct (mapSet_present sid d (server n) player Hwk Hget) as (Hf & Hv & Hw).
      unfold mirrored. cbn [server clients]. split; [exact Hw|]. split.
      * now rewrite deliver_keys, Hf.
      * intros c view Hin. rewrite deliver_one in Hin.
        apply in_map_iff in Hin as ([c0 v0] & Heq & Hin0). cbn [fst snd] in Heq.
        injection Heq as <- <-. rewrite Hv, (Hviews c0 v0 Hin0).
        cbn [hears receive].
        assert (Hupd : forall ps,
                  without c0 (map (fun q => if String.eqb (p_id q) sid
                                            then applyUpdate d q else q) ps)
                  = map (fun q => if String.eqb (p_id q) sid
                                  then applyUpdate d q else q) (without c0 ps)).
        { unfold without. induction ps as [|q ps IH]; cbn [map filter]; [reflexivity|].
          assert (Hsame : p_id (if String.eqb (p_id q) sid then applyUpdate d q else q)
                          = p_id q) by (destruct (String.eqb (p_id q) sid); reflexivity).
          rewrite Hsame. destruct (String.eqb (p_id q) c0); cbn [negb map];
            now rewrite IH. }
        destruct (String.eqb c0 sid) eqn:Hc; cbn [negb].
        -- apply String.eqb_eq in Hc. subst c0. rewrite Hupd.
           symmetry. apply map_fix. intros q Hq.
           apply filter_In in Hq as [_ Hq].
           destruct (String.eqb (p_id q) sid); [discriminate | reflexivity].
        -- rewrite Hupd. apply map_ext. intros q.
           destruct (String.eqb (p_id q) sid); reflexivity.
    + unfold mirrored. cbn [server clients]. rewrite deliver_none.
      split; [exact Hwk|]. now split.
  - (* disconnect *)
    unfold disconnect, mirrored. cbn [server clients].
    destruct (mapDelete_spec sid (server n) Hwk) as (Hf & Hv & Hw).
    split; [exact Hw|]. split.
    + rewrite deliver_keys, Hf, <- Hkeys.
      clear. induction (clients n) as [|[c v] rest IH]; cbn; [reflexivity|].
      destruct (String.eqb c sid); cbn; now rewrite IH.
    + intros c view Hin. rewrite deliver_one in Hin.
      apply in_map_iff in Hin as ([c0 v0] & Heq & Hin0). cbn [fst snd hears receive] in Heq.
      injection Heq as <- <-. apply filter_In in Hin0 as [Hin0 _].
      rewrite Hv, (Hviews c0 v0 Hin0). apply without_comm.
Qed.

(** X21.  The relay keeps every client's remote list in step with the
    server.  From an empty relay, with messages delivered at once and in
    order and every socket joining once under an id not in use, after any
    run of join, update and disconnect events the clients are exactly the
    sockets in the server map, and each client's [remotePlayers] is the
    list of the server's players without itself, in the server's order.
    The map has one entry per socket, filed under the id it carries, with
    a name of at most 20 characters. *)
Theorem relay_mirrors_players (evs : list NetEvent) :
  freshJoins (mkNet [] []) evs ->
  mirrored (netRun (mkNet [] []) evs) /\ wellKeyed (server (netRun (mkNet [] []) evs)).
Proof.
  assert (H : forall n, wellKeyed (server n) -> mirrored n -> freshJoins n evs ->
                        mirrored (netRun n evs) /\ wellKeyed (server (netRun n evs))).
  { induction evs as [|e rest IH]; intros n Hwk Hm Hfr; cbn [netRun fold_left]; [auto|].
    destruct Hfr as [Hf Hrest].
    destruct (netStep_keeps n e Hwk Hm) as [Hwk' Hm'].
    { destruct e; auto. }
    apply (IH (netStep n e)); auto. }
  apply H.
  - split; [constructor | intros ? ? []].
  - split; [reflexivity | intros ? ? []].
Qed.

(** X22.  An update from a socket that has not joined, or that has left, is
    dropped: the map stays as it is and nothing is sent.  An update from a
    known socket changes neither the sockets in the map nor the id, name and
    colour of any player, and is relayed to the other sockets only. *)
Theorem update_needs_join (sid : string) (d : UpdateData) (players : PlayerMap) :
  wellKeyed players ->
  (mapGet sid players = None -> update sid d players = (players, [])) /\
  update sid d (fst (disconnect sid players)) = (fst (disconnect sid players), []) /\
  map (fun kp => (fst kp, p_id (snd kp), p_name (snd kp), p_color (snd kp)))
      (fst (update sid d players))
  = map (fun kp => (fst kp, p_id (snd kp), p_name (snd kp), p_color (snd kp))) players /\
  (forall a msg, In (a, msg) (snd (update sid d players)) -> a = ToOthers sid).
Proof.
  intros Hwk. split; [|split; [|split]].
  - intros Hget. unfold update. now rewrite Hget.
  - unfold update, disconnect. cbn [fst].
    assert (Hget : mapGet sid (mapDelete sid players) = None).
    { apply mapGet_None. destruct (mapDelete_spec sid players Hwk) as (-> & _).
      intros Hin. apply filter_In in Hin as [_ Hin].
      rewrite String.eqb_refl in Hin. discriminate. }
    now rewrite Hget.
  - unfold update. destruct (mapGet sid players) as [p|] eqn:Hget; [|reflexivity].
    cbn [fst]. clear Hwk. revert Hget.
    induction players as [|[k' v'] rest IH]; cbn; [discriminate|].
    destruct (String.eqb k' sid) eqn:He.
    + apply String.eqb_eq in He. subst. intros H; injection H as ->. reflexivity.
    + intros H. cbn. f_equal. now apply IH.
  - intros a msg. unfold update.
    destruct (mapGet sid players); cbn; [|tauto].
    intros [H | []]. now injection H as <- _.
Qed.

End RelayFacts.

Lemma relay_mirrors_players_witness :
  Relay.mirrored
    (Relay.netRun (Relay.mkNet [] [])
       [Relay.Join "a" "Ann" "#e63946"; Relay.Join "b" "Bob" "#457b9d";
        Relay.Update "a" (Relay.mkUpdate (mkVec3 1 0 2) 0 5 (Some driving)
                                         (Some "car-red"%string) None None);
        Relay.Disconnect "a"]).
Proof.
  apply relay_mirrors_players. cbn. repeat split; reflexivity.
Defined.

Lemma update_needs_join_witness :
  Relay.update "a" (Relay.mkUpdate (mkVec3 1 0 2) 0 5 None None None None) []
  = ([], []).
Proof.
  destruct (update_needs_join "a" (Relay.mkUpdate (mkVec3 1 0 2) 0 5 None None None None) [])
    as [H _].
  - split; [constructor | intros ? ? []].
  - apply H. reflexivity.
Defined.

(** ** Vehicles that other players sit in *)

Lemma takenVehicleIds_In (rps : list RemotePlayer) (rp : RemotePlayer) (id : string) :
  In rp rps -> rp_vehicleId rp = Some id -> id <> EmptyString ->
  existsb (String.eqb id) (takenVehicleIds rps) = true.
Proof.
  intros Hin Hid Hne. apply existsb_exists. exists id. split; [|apply String.eqb_refl].
  unfold takenVehicleIds. apply in_flat_map. exists rp. split; [exact Hin|].
  rewrite Hid. apply String.eqb_neq in Hne. rewrite Hne. now left.
Qed.

Section Taken.
Variable cfg : Track.Config.
Context {rt : Runtime}.

Lemma tickWalking_enters_untaken (now dt : R) (k : Keys) (justE : bool)
      (taken : list string) (w : World) (idx : nat) :
  activeIdx w = None ->
  activeIdx (Game.tickWalking cfg now dt k justE taken w) = Some idx ->
  exists v, nth_error (vehicles w) idx = Some v /\ untaken taken v /\
            v_id v <> EmptyString /\ justE = true.
Proof.
  intros Hnone Hsome.
  pose proof (tickWalking_scan cfg now dt k justE taken w) as H. cbv zeta in H.
  set (w' := Game.tickWalking cfg now dt k justE taken w) in *.
  destruct (scanNearby_spec (vx (charPos w')) (vz (charPos w')) taken (vehicles w)
              INTERACT_RADIUS_SQ None) as [[Ho _] | (v1 & Hin1 & Ho & Hu1 & _)];
    cbv zeta in *; rewrite Ho in H.
  - destruct H as (_ & _ & Hi & _). congruence.
  - destruct justE; cbn [andb] in H; [|destruct H as (_ & _ & Hi & _); congruence].
    destruct (String.eqb (v_id v1) EmptyString) eqn:Hne; cbn [negb] in H;
      [destruct H as (_ & _ & Hi & _); congruence|].
    apply String.eqb_neq in Hne.
    destruct (findVehicle_first (v_id v1) (vehicles w) 0 v1 Hin1 eq_refl)
      as (idx' & v' & Hf & Hid' & Hn' & _).
    rewrite Hf in H. rewrite Nat.sub_0_r in Hn'. destruct H as (Hi & _).
    rewrite Hsome in Hi. injection Hi as ->.
    exists v'. split; [exact Hn'|]. unfold untaken in *. rewrite Hid'. auto.
Qed.

(** X23.  A vehicle another player sits in cannot be entered.  [Scene]
    builds the taken set from the vehicle ids of the same remote players it
    hands to the controller.  With that set, a frame that starts on foot
    runs to its end and does not make a vehicle active whose id a remote
    player reports, whatever keys are pressed and however near it is. *)
Theorem taken_vehicle_is_never_entered (inp : FrameInput) (w : World) (idx : nat)
        (v : VehicleState) (rp : RemotePlayer) :
  modeInv w -> modeRef w = walking ->
  i_takenVehicleIds inp = takenVehicleIds (i_remotePlayers inp) ->
  nth_error (vehicles w) idx = Some v ->
  In rp (i_remotePlayers inp) -> rp_vehicleId rp = Some (v_id v) ->
  exists w', Game.frame cfg inp w = Some w' /\ activeIdx w' <> Some idx.
Proof.
  intros Hinv Hm Htaken Hv Hin Hrp.
  assert (Hnone : activeIdx w = None).
  { unfold modeInv in Hinv. rewrite Hm in Hinv.
    destruct (activeIdx w); [contradiction | reflexivity]. }
  destruct (frame_outcome cfg inp w Hinv) as [[(Hfly & _) _] | [_ (w' & Hf & _)]];
    [congruence|].
  exists w'. split; [exact Hf|]. intros Hidx.
  apply frame_stages_fire in Hf as (w1 & w2 & H1 & H2 & H3). cbv zeta in *.
  rewrite Hm in H1. injection H1 as <-.
  destruct H2 as [-> | (Hfly & _)]; [|congruence].
  destruct (tickWalking_modeInv cfg (i_now inp) (Rmin (i_delta inp) 0.05) (i_keys inp)
              (i_interact inp) (i_takenVehicleIds inp) w Hinv Hm) as [Hinv1 _].
  destruct (tail_modeInv cfg (Rmin (i_delta inp) 0.05) (i_remotePlayers inp) _ Hinv1)
    as (w'' & Hw'' & _ & Hi'' & _).
  rewrite H3 in Hw''. injection Hw'' as <-.
  rewrite Hi'' in Hidx.
  destruct (tickWalking_enters_untaken _ _ _ _ _ _ _ Hnone Hidx)
    as (v0 & Hv0 & Hu & Hne & _).
  rewrite Hv in Hv0. injection Hv0 as <-.
  pose proof (takenVehicleIds_In _ _ _ Hin Hrp Hne) as Hex.
  unfold untaken in Hu. rewrite Htaken in Hu. congruence.
Qed.

End Taken.

Lemma taken_vehicle_is_never_entered_witness :
  exists w',
    Game.frame trackA
      (mkInput 0.035 noKeys true (mkMouse 0 0 false) 0
               (cons "car-red"%string nil)
               (cons (mkRemote "r1" (mkVec3 12 0 10) 0 0 driving (Some "car-red"%string))
                     nil))
      (Game.initWorld trackA) = Some w' /\
    activeIdx w' <> Some 0%nat.
Proof.
  apply (taken_vehicle_is_never_entered trackA _ (Game.initWorld trackA) 0%nat
           (Game.makeVehicle trackA "car-red" car "Red Racer" "#e63946"
              (mkVec3 (0 + 12) (0 - 0.5) (0 + 10)))
           (mkRemote "r1" (mkVec3 12 0 10) 0 0 driving (Some "car-red"%string))).
  - exact I.
  - reflexivity.
  - reflexivity.
  - reflexivity.
  - now left.
  - reflexivity.
Defined.

(** ** Smoothing of remote players *)







(** ** The camera *)

Lemma PI_gt_3 : 3 < PI.
Proof. pose proof PI2_3_2. lra. Qed.

(** X25.  The orbital camera of the walking and driving modes.  The
    pitch it stores lies between [PITCH_MIN] and [PITCH_MAX]; the point the
    camera is sent to is 8 units from the player on foot and 18 from a
    car, and strictly higher than the player.  If the orbit yaw starts in
    [-pi, pi], the mouse moved it by at most half a turn and the delta is
    between 0 and 0.4, it ends in [-pi, pi]. *)
Theorem camera_orbit (s : PlayerState) (mouse : FrameMouse) (delta : R) (c : CameraRig) :
  ps_mode s <> flying ->
  let out := cameraTarget true s mouse delta c in
  let yaw := fst (fst (fst (fst out))) in
  let pitch := snd (fst (fst (fst out))) in
  let tgtPos := snd (fst out) in
  let dist := match ps_mode s with walking => 8 | _ => 18 end in
  PITCH_MIN <= pitch <= PITCH_MAX /\
  dist3 tgtPos (ps_position s) = dist * dist /\
  vy (ps_position s) < vy tgtPos /\
  cam_orbitYaw (cameraFrame true s mouse delta c) = yaw /\
  cam_orbitPitch (cameraFrame true s mouse delta c) = pitch /\
  (- PI <= cam_orbitYaw c <= PI -> Rabs (m_dx mouse) * ORBIT_SENS <= PI ->
   0 <= delta <= 0.4 -> - PI <= yaw <= PI).
Proof.
  intros Hmode. cbv zeta. unfold cameraFrame, cameraTarget. cbn [negb].
  pose proof PI_gt_3 as Hpi.
  set (pitch := Rmax PITCH_MIN (Rmin PITCH_MAX (cam_orbitPitch c + m_dy mouse * ORBIT_SENS))).
  assert (Hp : PITCH_MIN <= pitch <= PITCH_MAX).
  { unfold pitch. apply (clamp_bounds PITCH_MIN PITCH_MAX).
    unfold PITCH_MIN, PITCH_MAX. lra. }
  assert (Hsin : 0 < sin pitch).
  { apply sin_gt_0; unfold PITCH_MIN, PITCH_MAX in Hp; lra. }
  assert (Hyaw : forall rate, 0 <= rate <= 2.5 ->
            - PI <= cam_orbitYaw c <= PI -> Rabs (m_dx mouse) * ORBIT_SENS <= PI ->
            0 <= delta <= 0.4 ->
            let y1 := cam_orbitYaw c - m_dx mouse * ORBIT_SENS in
            let y2 := if ltb (Rabs (m_dx mouse)) 1 then y1 * (1 - rate * delta) else y1 in
            let y3 := if gtb y2 PI then y2 - PI * 2 else y2 in
            - PI <= (if ltb y3 (- PI) then y3 + PI * 2 else y3) <= PI).
  { intros rate Hrate Hy Hdx Hdelta. cbv zeta.
    set (y1 := cam_orbitYaw c - m_dx mouse * ORBIT_SENS).
    assert (H1 : - (2 * PI) <= y1 <= 2 * PI).
    { unfold y1, ORBIT_SENS in *.
      pose proof (Rle_abs (m_dx mouse)). pose proof (Rle_abs (- m_dx mouse)) as Hn.
      rewrite Rabs_Ropp in Hn. lra. }
    clearbody y1.
    assert (H2 : - (2 * PI) <=
                 (if ltb (Rabs (m_dx mouse)) 1 then y1 * (1 - rate * delta) else y1)
                 <= 2 * PI).
    { destruct (ltb _ 1); [|exact H1].
      assert (0 <= 1 - rate * delta <= 1) by nra. nra. }
    set (y2 := if ltb (Rabs (m_dx mouse)) 1 then y1 * (1 - rate * delta) else y1) in *.
    clearbody y2.
    destruct (gtb y2 PI) eqn:Hg; [apply gtb_true in Hg | apply gtb_false in Hg].
    - destruct (ltb (y2 - PI * 2) (- PI)) eqn:Hl;
        [apply ltb_true in Hl | apply ltb_false in Hl]; lra.
    - destruct (ltb y2 (- PI)) eqn:Hl;
        [apply ltb_true in Hl | apply ltb_false in Hl]; lra. }
  destruct (ps_mode s) eqn:Hm; [| |contradiction].
  - cbn [fst snd cam_orbitYaw cam_orbitPitch]. fold pitch.
    split; [exact Hp|]. split; [|split; [|split; [reflexivity|split; [reflexivity|]]]].
    + unfold dist3. cbn [vx vy vz].
      match goal with |- context [sin (ps_rotation s + ?y)] => set (az := ps_rotation s + y) end.
      pose proof (sin2_cos2 az) as Ha. pose proof (sin2_cos2 pitch) as Hb.
      unfold Rsqr in Ha, Hb. clearbody az. nra.
    + cbn [vy]. nra.
    + intros Hy Hdx Hdelta. apply (Hyaw 1.0); auto. lra.
  - cbn [fst snd cam_orbitYaw cam_orbitPitch]. fold pitch.
    split; [exact Hp|]. split; [|split; [|split; [reflexivity|split; [reflexivity|]]]].
    + unfold dist3. cbn [vx vy vz].
      match goal with |- context [sin (ps_rotation s + ?y)] => set (az := ps_rotation s + y) end.
      pose proof (sin2_cos2 az) as Ha. pose proof (sin2_cos2 pitch) as Hb.
      unfold Rsqr in Ha, Hb. clearbody az. nra.
    + cbn [vy]. nra.
    + intros Hy Hdx Hdelta. apply (Hyaw 2.5); auto. lra.
Qed.

Section Orbit.
Variable cfg : Track.Config.
Context {rt : Runtime}.

(** X26.  Walking turns the character under the camera.  Whatever the
    character turns by is taken off the orbit yaw, so heading plus orbit
    yaw, the direction the camera looks from, is after the step what it was
    before up to one whole turn.  If the delta is not negative, an orbit yaw
    in [-pi, pi] stays there. *)
Theorem walking_keeps_camera_yaw (now dt : R) (k : Keys) (justE : bool)
        (taken : list string) (w : World) :
  let w' := Game.tickWalking cfg now dt k justE taken w in
  (exists n : Z, (-1 <= n <= 1)%Z /\
     charRot w' + orbitYawRef w' = charRot w + orbitYawRef w + 2 * PI * IZR n) /\
  (0 <= dt -> - PI <= orbitYawRef w <= PI -> - PI <= orbitYawRef w' <= PI).
Proof.
  cbv zeta. unfold Game.tickWalking. cbv zeta.
  pose proof PI_RGT_0 as Hpi.
  match goal with |- context [if gtb ?m 0.001 then _ else _] =>
    destruct (gtb m 0.001) end.
  - match goal with |- context [Game.wrapDiff ?d] =>
      pose proof (wrapDiff_range d) as Hd; set (diff := Game.wrapDiff d) in * end.
    clearbody diff.
    set (o1 := orbitYawRef w - (charRot w + diff * Rmin 1 (12 * dt) - charRot w)).
    assert (Hcases :
      let o2 := if gtb o1 PI then o1 - PI * 2 else o1 in
      let o3 := if ltb o2 (- PI) then o2 + PI * 2 else o2 in
      (exists n : Z, (-1 <= n <= 1)%Z /\ o3 = o1 + 2 * PI * IZR n) /\
      (0 <= dt -> - PI <= orbitYawRef w <= PI -> - PI <= o3 <= PI)).
    { cbv zeta.
      assert (Ho1 : 0 <= dt -> - PI <= orbitYawRef w <= PI -> - (2 * PI) <= o1 <= 2 * PI).
      { intros Hdt Ho. unfold o1.
        assert (Hm : 0 <= Rmin 1 (12 * dt) <= 1)
          by (unfold Rmin; destruct (Rle_dec _ _); lra).
        nra. }
      clearbody o1.
      destruct (gtb o1 PI) eqn:Hg; [apply gtb_true in Hg | apply gtb_false in Hg].
      - destruct (ltb (o1 - PI * 2) (- PI)) eqn:Hl;
          [apply ltb_true in Hl | apply ltb_false in Hl].
        + lra.
        + split; [exists (-1)%Z; split; [lia | lra]|].
          intros Hdt Ho. specialize (Ho1 Hdt Ho). lra.
      - destruct (ltb o1 (- PI)) eqn:Hl;
          [apply ltb_true in Hl | apply ltb_false in Hl].
        + split; [exists 1%Z; split; [lia | lra]|].
          intros Hdt Ho. specialize (Ho1 Hdt Ho). lra.
        + split; [exists 0%Z; split; [lia | lra]|]. intros _ _. lra. }
    cbv zeta in Hcases. destruct Hcases as [(n & Hn & Ho3) Hrange].
    match goal with |- context [match ?E with Some _ => _ | None => _ end] =>
      destruct E as [[idx ve]|] end; cbn [charRot orbitYawRef];
      (split; [exists n; split; [exact Hn|]; rewrite Ho3; unfold o1; ring | exact Hrange]).
  - match goal with |- context [match ?E with Some _ => _ | None => _ end] =>
      destruct E as [[idx ve]|] end; cbn [charRot orbitYawRef];
      (split; [exists 0%Z; split; [lia | lra] | auto]).
Qed.

End Orbit.

Lemma camera_orbit_witness :
  cam_orbitPitch
    (cameraFrame true
       (mkPlayerState walking (mkVec3 0 0 12) 0 0 0 0 0 None 0 [] 100 None None None 0 0)
       (mkMouse 0 0 false) 0.016
       (mkRig 0 0.45 0 (mkVec3 0 100 140) (mkVec3 0 0 0)))
  <= PITCH_MAX.
Proof.
  destruct (camera_orbit
              (mkPlayerState walking (mkVec3 0 0 12) 0 0 0 0 0 None 0 [] 100 None None None 0 0)
              (mkMouse 0 0 false) 0.016
              (mkRig 0 0.45 0 (mkVec3 0 100 140) (mkVec3 0 0 0)))
    as (Hp & _ & _ & _ & Hpitch & _).
  - discriminate.
  - rewrite Hpitch. apply Hp.
Defined.

(** ** Coasting and walls *)

Lemma coast_step (dt : R) (k : Keys) (onRoad boosting : bool) (s : R) :
  k_forward k = false -> k_backward k = false ->
  let s' := Game.driveSpeed dt k onRoad boosting s in
  Rabs s' <= 0.985 * Rabs s /\ (s' = 0 \/ 0.15 <= Rabs s').
Proof.
  intros Hf Hb. cbv zeta. unfold Game.driveSpeed. cbv zeta. rewrite Hf, Hb.
  cbn [negb andb].
  set (fric := if onRoad then DRIVE_friction else DRIVE_grassFriction).
  assert (Hfric : 0 < fric <= 0.985).
  { unfold fric, DRIVE_friction, DRIVE_grassFriction. destruct onRoad; lra. }
  pose proof (driveMaxSpeed_ge onRoad boosting) as Hmax.
  set (m := Game.driveMaxSpeed onRoad boosting) in *. clearbody m fric.
  assert (Hclamp : Rabs (clamp (- DRIVE_reverseMax) m (s * fric)) <= Rabs (s * fric)).
  { unfold clamp, Rmax, Rmin, DRIVE_reverseMax.
    repeat destruct (Rle_dec _ _); unfold Rabs; repeat destruct (Rcase_abs _); lra. }
  assert (Hsf : Rabs (s * fric) <= 0.985 * Rabs s).
  { rewrite Rabs_mult, (Rabs_pos_eq fric) by lra. pose proof (Rabs_pos s). nra. }
  destruct (ltb (Rabs (clamp (- DRIVE_reverseMax) m (s * fric))) 0.15) eqn:Hz;
    rewrite ?andb_true_r.
  - rewrite Rabs_R0. pose proof (Rabs_pos s). split; [lra | auto].
  - apply ltb_false in Hz. split; [lra | right; lra].
Qed.

Lemma coast_zero (dt : R) (k : Keys) (onRoad boosting : bool) :
  k_forward k = false -> k_backward k = false ->
  Game.driveSpeed dt k onRoad boosting 0 = 0.
Proof.
  intros Hf Hb.
  destruct (coast_step dt k onRoad boosting 0 Hf Hb) as [H1 H2]. cbv zeta in *.
  rewrite Rabs_R0 in H1. destruct H2 as [H2 | H2]; [exact H2 | lra].
Qed.

Lemma coast_run (steps : list (R * Keys * bool * bool)) (s : R) :
  Forall noThrottle steps ->
  Rabs (speedAfter steps s) <= 0.985 ^ List.length steps * Rabs s /\
  (steps <> [] -> speedAfter steps s = 0 \/ 0.15 <= Rabs (speedAfter steps s)).
Proof.
  intros H. revert s. induction H as [|[[[dt k] onRoad] boosting] rest [Hf Hb] _ IH];
    intros s; cbn [speedAfter List.length pow].
  - split; [lra | congruence].
  - cbn in Hf, Hb.
    destruct (coast_step dt k onRoad boosting s Hf Hb) as [H1 H2]. cbv zeta in *.
    destruct (IH (Game.driveSpeed dt k onRoad boosting s)) as [I1 I2].
    assert (Hp : 0 <= 0.985 ^ List.length rest) by (apply pow_le; lra).
    split; [nra|]. intros _.
    destruct rest as [|x rest']; [exact H2|]. apply I2. discriminate.
Qed.

(** X27.  Friction is applied once per frame, whatever the delta.  With
    neither W nor S held, every driving step multiplies the size of the
    speed by at most 0.985 (road or grass, boost or not), so after n steps
    it is at most [0.985 ^ n] of what it was; and the dead zone then stops
    the car for good: from some number of steps on, which depends on the
    starting speed only, the speed is exactly 0. *)
Theorem coasting_car_stops (s0 : R) :
  (forall steps, Forall noThrottle steps ->
     Rabs (speedAfter steps s0) <= 0.985 ^ List.length steps * Rabs s0) /\
  exists N : nat, forall steps, Forall noThrottle steps ->
    (N <= List.length steps)%nat -> speedAfter steps s0 = 0.
Proof.
  split; [intros steps H; now apply coast_run|].
  destruct (pow_lt_1_zero 0.985) with (y := 0.15 / (Rabs s0 + 1)) as [N HN].
  - rewrite Rabs_pos_eq; lra.
  - pose proof (Rabs_pos s0). apply Rdiv_lt_0_compat; lra.
  - exists (S N). intros steps Hsteps Hlen.
    destruct (coast_run steps s0 Hsteps) as [Hb Hz].
    destruct Hz as [Hz | Hz]; [destruct steps; [cbn in Hlen; lia | discriminate] | exact Hz |].
    exfalso.
    assert (Hn : (List.length steps >= N)%nat) by lia.
    specialize (HN (List.length steps) Hn).
    assert (Hpos : 0 <= 0.985 ^ List.length steps) by (apply pow_le; lra).
    rewrite Rabs_pos_eq in HN by exact Hpos.
    pose proof (Rabs_pos s0) as Hs.
    assert (Hy : 0.15 / (Rabs s0 + 1) * (Rabs s0 + 1) = 0.15) by (field; lra).
    assert (Hlt : 0.985 ^ List.length steps * (Rabs s0 + 1) < 0.15) by nra.
    nra.
Qed.

Section Walls.
Variable cfg : Track.Config.
Context {rt : Runtime}.

(** X28.  No wall climbing.  In a driving step that starts with the car
    on the ground the car ends at most [MAX_STEP_UP] higher than it was;
    if the ground at the spot it moved to is more than [MAX_STEP_UP] above
    the car, the move is taken back, the car stands where it stood and its
    speed is multiplied by -0.3.  In any driving step, a car that is not
    below the ground where it stands is not below the ground where the
    step puts it. *)
Theorem no_wall_climbing (now dt : R) (k : Keys) (w : World) (i : nat)
        (v : VehicleState) :
  finished (race w) = false -> activeIdx w = Some i ->
  nth_error (vehicles w) i = Some v ->
  let boosting := k_shift k && gtb (boostMeter w) 0 && k_forward k in
  let onRoad := Track.isOnTrack cfg (mkVec3 (vx (v_pos v)) 0 (vz (v_pos v))) in
  let s := Game.driveSpeed dt k onRoad boosting (v_speed v) in
  let moved := Game.driveMove dt (Game.driveSteer dt k (withSpeed v s)) in
  let ahead := Game.getGroundHeight cfg (vx (v_pos moved)) (vz (v_pos moved)) in
  exists w' v',
    Game.tickDriving cfg now dt k false w = Some w' /\
    nth_error (vehicles w') i = Some v' /\
    (carOnGround w = true -> vy (v_pos v') <= vy (v_pos v) + MAX_STEP_UP) /\
    (carOnGround w = true -> MAX_STEP_UP < ahead - vy (v_pos v) ->
       v_pos v' = v_pos v /\ v_speed v' = s * -0.3) /\
    (Game.getGroundHeight cfg (vx (v_pos v)) (vz (v_pos v)) <= vy (v_pos v) ->
     Game.getGroundHeight cfg (vx (v_pos v')) (vz (v_pos v')) <= vy (v_pos v')).
Proof.
  intros Hfin Hi Hv. cbv zeta.
  destruct (tickDriving_spec cfg now dt k w i v Hfin Hi Hv)
    as (w' & Hw' & _ & _ & Hvs & _).
  cbv zeta in Hvs.
  set (s := Game.driveSpeed dt k
              (Track.isOnTrack cfg (mkVec3 (vx (v_pos v)) 0 (vz (v_pos v))))
              (k_shift k && gtb (boostMeter w) 0 && k_forward k) (v_speed v)) in *.
  set (moved := Game.driveMove dt (Game.driveSteer dt k (withSpeed v s))) in *.
  exists w', (fst (fst (Game.driveVertical cfg dt k moved (carVelY w) (carOnGround w)))).
  split; [exact Hw'|]. split.
  { rewrite Hvs. apply setNth_same. apply nth_error_Some. congruence. }
  assert (Hmy : vy (v_pos moved) = vy (v_pos v)) by reflexivity.
  assert (Hback : mkVec3 (vx (v_pos moved) - sin (v_rot moved) * v_speed moved * dt)
                         (vy (v_pos moved))
                         (vz (v_pos moved) - cos (v_rot moved) * v_speed moved * dt)
                  = v_pos v).
  { unfold moved, Game.driveMove. cbn [v_pos v_rot v_speed withPos vx vy vz].
    unfold Game.driveSteer. cbn [v_pos v_rot v_speed withRot withSpeed vx vy vz].
    destruct (v_pos v) as [x y z]. cbn [vx vy vz]. f_equal; ring. }
  assert (Hspeed : v_speed moved = s) by reflexivity.
  unfold Game.driveVertical. cbv zeta.
  set (ahead := Game.getGroundHeight cfg (vx (v_pos moved)) (vz (v_pos moved))) in *.
  clearbody moved s.
  destruct (carOnGround w).
  - destruct (gtb (ahead - vy (v_pos moved)) MAX_STEP_UP) eqn:Hwall;
      [apply gtb_true in Hwall | apply gtb_false in Hwall].
    + cbv beta iota. rewrite Hback, Hspeed.
      destruct (k_space k && true); cbn [fst v_pos v_speed withSpeed withPos];
        rewrite Hmy in Hwall; unfold MAX_STEP_UP in *; repeat split; auto; try lra.
    + destruct (geb ahead (vy (v_pos moved) - 0.3)) eqn:Hnear;
        [apply geb_true in Hnear | apply geb_false in Hnear]; cbv beta iota.
      * destruct (k_space k && true); cbn [fst v_pos withPos setY vx vy vz];
          fold ahead; rewrite Hmy in *; unfold MAX_STEP_UP in *;
          repeat split; intros; try lra.
      * destruct (k_space k && false); cbn [fst v_pos withPos setY vx vy vz];
          fold ahead; rewrite Hmy in *; unfold MAX_STEP_UP in *;
          repeat split; intros; try lra.
  - split; [discriminate|]. split; [discriminate|]. intros _.
    destruct (leb _ ahead) eqn:Hland; [apply leb_true in Hland | apply leb_false in Hland];
      cbn [fst v_pos withPos setY vx vy vz]; fold ahead; lra.
Qed.

End Walls.

Lemma coasting_car_stops_witness :
  speedAfter [(0.016, noKeys, true, false)] 0.1 = 0.
Proof.
  assert (H : Rabs (speedAfter [(0.016, noKeys, true, false)] 0.1) <= 0.985 ^ 1 * Rabs 0.1).
  { apply (coasting_car_stops 0.1). repeat constructor. }
  destruct (coast_run [(0.016, noKeys, true, false)] 0.1) as [_ Hz].
  { repeat constructor. }
  destruct Hz as [Hz | Hz]; [discriminate | exact Hz |].
  rewrite (Rabs_pos_eq 0.1) in H by lra. lra.
Defined.

Lemma no_wall_climbing_witness :
  exists w' v',
    Game.tickDriving trackA 1000 0.035 noKeys false
      (drivingAt (mkVec3 0 0 0) 0 10 raceAllPassed) = Some w' /\
    nth_error (vehicles w') 0 = Some v' /\
    vy (v_pos v') <= 0 + MAX_STEP_UP.
Proof.
  destruct (no_wall_climbing trackA 1000 0.035 noKeys
              (drivingAt (mkVec3 0 0 0) 0 10 raceAllPassed) 0
              (mkVehicle "car-red" car "Red Racer" "#e63946" (mkVec3 0 0 0) 0 10 0)
              eq_refl eq_refl eq_refl)
    as (w' & v' & Hw & Hn & Hup & _).
  exists w', v'. split; [exact Hw|]. split; [exact Hn|]. apply Hup. reflexivity.
Defined.

(** ** Time display *)

Lemma floorZ_spec (x : R) : IZR (floorZ x) <= x < IZR (floorZ x) + 1.
Proof. unfold floorZ. destruct (base_Int_part x). lra. Qed.

Lemma floorZ_unique (x : R) (z : Z) : IZR z <= x < IZR z + 1 -> floorZ x = z.
Proof. intros H. unfold floorZ. symmetry. apply Int_part_spec. lra. Qed.

Lemma floorZ_range (x : R) (lo hi : Z) :
  IZR lo <= x < IZR hi -> (lo <= floorZ x < hi)%Z.
Proof.
  intros H. pose proof (floorZ_spec x) as Hf. split.
  - assert (Hlt : IZR lo < IZR (floorZ x + 1)) by (rewrite plus_IZR; lra).
    apply lt_IZR in Hlt. lia.
  - apply lt_IZR. lra.
Qed.

Lemma jsRem_pos (x m : R) :
  0 <= x -> 0 < m ->
  jsRem x m = x - m * IZR (floorZ (x / m)) /\ 0 <= jsRem x m < m.
Proof.
  intros Hx Hm. unfold jsRem, truncZ.
  assert (Hq : 0 <= x / m).
  { apply Rmult_le_pos; [exact Hx | left; now apply Rinv_0_lt_compat]. }
  destruct (Rle_dec 0 (x / m)) as [_ | Hn]; [|contradiction].
  fold (floorZ (x / m)). split; [reflexivity|].
  pose proof (floorZ_spec (x / m)) as Hf.
  assert (Hxm : x = x / m * m) by (field; lra).
  set (q := IZR (floorZ (x / m))) in *. set (y := x / m) in *. clearbody q y.
  rewrite Hxm. split; nra.
Qed.

Lemma intToString_small (z : Z) :
  (0 <= z < 9007199254740992)%Z ->
  intToString z = Some (natDigits (S (Z.to_nat z)) (Z.to_nat z) EmptyString).
Proof.
  intros Hz. unfold intToString.
  replace (Z.abs z <? 9007199254740992)%Z with true by (symmetry; apply Z.ltb_lt; lia).
  destruct z; try reflexivity. lia.
Qed.

Lemma padStart2_two_digits (z : Z) :
  (0 <= z <= 99)%Z ->
  exists s, intToString z = Some s /\ String.length (padStart2 s) = 2%nat.
Proof.
  intros Hz. rewrite intToString_small by lia. eexists. split; [reflexivity|].
  assert (Hlt : (Z.to_nat z < 100)%nat) by lia.
  generalize dependent (Z.to_nat z). clear. intros n Hlt.
  do 100 (destruct n as [|n]; [reflexivity|]). lia.
Qed.

(** X29.  [formatTime] cuts a time to whole hundredths of a second.  For
    a positive number of milliseconds the minutes are not negative, the
    seconds lie between 0 and 59 and the hundredths between 0 and 99, and
    the time shown is at most the time given and less than a hundredth of a
    second below it.  While the minutes stay below 2^53, so that the runtime
    writes them digit by digit, the text is the minutes, a colon, two
    characters for the seconds, a full stop and two characters for the
    hundredths.  A time that is not positive is shown as 0:00.00. *)
Theorem format_time_truncates (ms : R) :
  (ms <= 0 -> formatTime ms = Some "0:00.00"%string) /\
  (0 < ms ->
   let mins := fst (fst (timeParts ms)) in
   let secs := snd (fst (timeParts ms)) in
   let centis := snd (timeParts ms) in
   (0 <= mins)%Z /\ (0 <= secs <= 59)%Z /\ (0 <= centis <= 99)%Z /\
   IZR mins * 60000 + IZR secs * 1000 + IZR centis * 10 <= ms
     < IZR mins * 60000 + IZR secs * 1000 + IZR centis * 10 + 10 /\
   ((mins < 9007199254740992)%Z ->
    exists mm ss cc : string,
      intToString mins = Some mm /\
      String.length ss = 2%nat /\ String.length cc = 2%nat /\
      formatTime ms = Some (mm ++ ":" ++ ss ++ "." ++ cc)%string)).
Proof.
  split.
  - intros H. unfold formatTime. apply leb_true in H. now rewrite H.
  - intros Hms. cbv zeta. unfold timeParts. cbn [fst snd].
    destruct (jsRem_pos ms 60000) as [Hr1 Hb1]; [lra | lra |].
    destruct (jsRem_pos ms 1000) as [Hr2 Hb2]; [lra | lra |].
    pose proof (floorZ_spec (ms / 60000)) as Hq1.
    pose proof (floorZ_spec (ms / 1000)) as Hq2.
    pose proof (floorZ_spec (jsRem ms 60000 / 1000)) as Hs.
    pose proof (floorZ_spec (jsRem ms 1000 / 10)) as Hc.
    assert (Hmins : (0 <= floorZ (ms / 60000) < floorZ (ms / 60000) + 1)%Z).
    { split; [|lia]. apply (floorZ_range (ms / 60000) 0 (floorZ (ms / 60000) + 1)).
      rewrite plus_IZR. lra. }
    assert (Hsecs : (0 <= floorZ (jsRem ms 60000 / 1000) < 60)%Z)
      by (apply floorZ_range; lra).
    assert (Hcentis : (0 <= floorZ (jsRem ms 1000 / 10) < 100)%Z)
      by (apply floorZ_range; lra).
    assert (Hlink : floorZ (ms / 1000)
                    = (60 * floorZ (ms / 60000) + floorZ (jsRem ms 60000 / 1000))%Z).
    { apply floorZ_unique. rewrite plus_IZR, mult_IZR. lra. }
    rewrite Hlink, plus_IZR, mult_IZR in Hr2.
    split; [lia|]. split; [lia|]. split; [lia|]. split; [lra|].
    intros Hsafe.
    destruct (padStart2_two_digits (floorZ (jsRem ms 60000 / 1000))) as (s & Hs1 & Hs2);
      [lia|].
    destruct (padStart2_two_digits (floorZ (jsRem ms 1000 / 10))) as (c & Hc1 & Hc2);
      [lia|].
    eexists. exists (padStart2 s), (padStart2 c).
    split; [apply intToString_small; lia|]. split; [exact Hs2|]. split; [exact Hc2|].
    unfold formatTime, timeParts. apply leb_false in Hms. rewrite Hms.
    rewrite (intToString_small (floorZ (ms / 60000))), Hs1, Hc1 by lia. reflexivity.
Qed.

Lemma timeParts_sample : timeParts 65432 = (1, 5, 43)%Z.
Proof.
  unfold timeParts.
  destruct (jsRem_pos 65432 60000) as [Hr1 _]; [lra | lra |].
  destruct (jsRem_pos 65432 1000) as [Hr2 _]; [lra | lra |].
  assert (H1 : floorZ (65432 / 60000) = 1%Z) by (apply floorZ_unique; lra).
  assert (H2 : floorZ (65432 / 1000) = 65%Z) by (apply floorZ_unique; lra).
  rewrite H1 in Hr1. rewrite H2 in Hr2. rewrite Hr1, Hr2, H1.
  repeat f_equal; apply floorZ_unique; lra.
Qed.

Lemma format_time_truncates_witness :
  0 < 65432 /\ timeParts 65432 = (1, 5, 43)%Z /\
  IZR 1 * 60000 + IZR 5 * 1000 + IZR 43 * 10 <= 65432
    < IZR 1 * 60000 + IZR 5 * 1000 + IZR 43 * 10 + 10 /\
  formatTime 65432 = Some "1:05.43"%string.
Proof.
  assert (Hpos : 0 < 65432) by lra.
  destruct (format_time_truncates 65432) as [_ H]. specialize (H Hpos).
  cbv zeta in H. rewrite timeParts_sample in H. cbn [fst snd] in H.
  destruct H as (_ & _ & _ & Hb & Htxt).
  destruct Htxt as (mm & ss & cc & Hmm & Hss & Hcc & Hf); [lia|].
  split; [exact Hpos|]. split; [exact timeParts_sample|]. split; [exact Hb|].
  unfold formatTime. replace (leb 65432 0) with false by (symmetry; apply leb_false; lra).
  rewrite timeParts_sample. reflexivity.
Defined.

(** ** The car of the first version *)

Section Legacy.
Variable cfg : Track.Config.
Context {rt : Runtime}.
Import LegacyCar.

Lemma carSpeed_bounds (dt : R) (k : Keys) (onTrack : bool) (s : R) :
  - CAR_reverseMax <= carSpeed dt k onTrack s <= CAR_maxSpeed.
Proof.
  unfold carSpeed. cbv zeta.
  match goal with |- context [Rmax ?lo (Rmin ?hi ?x)] =>
    pose proof (clamp_bounds lo hi x) as Hc; unfold clamp in Hc;
    set (c := Rmax lo (Rmin hi x)) in * end.
  assert (Hb : - CAR_reverseMax <= c <= CAR_maxSpeed).
  { unfold CAR_reverseMax, CAR_maxSpeed, CAR_grassMaxSpeed in *.
    destruct onTrack; lra. }
  clearbody c. destruct (_ && _); [|exact Hb].
  unfold CAR_reverseMax, CAR_maxSpeed. lra.
Qed.

(** X30.  The first version of the car.  Its lap timer is the one the later
    controller kept: in a racing frame of an unfinished race the refs of the
    car, read as a race record, change exactly as [lapUpdate] changes that
    record for the curve parameter of the car's position before the move,
    and the callbacks made are the same (the checkpoint flags being one per
    checkpoint, as the reset leaves them).  There is no test of the distance
    to the track in front of it.  The speed after the frame lies between
    [-reverseMax] and [maxSpeed]; when not racing, or once finished, the
    frame changes nothing. *)
Theorem legacy_lap_timer_is_kept (k : Keys) (delta nowLap nowEnd : R) (c : Car)
        (ev : list Event) :
  lc_finished c = false ->
  List.length (lc_checkpoints c) = List.length (Track.getCheckpointTs cfg) ->
  let out := frame cfg true k delta nowLap nowEnd c in
  let c' := fst (fst out) in
  let currT :=
    Track.n_t (Track.getNearestTrackInfo cfg
                 (mkVec3 (vx (lc_position c)) 0 (vz (lc_position c)))) in
  toRace c' = fst (Game.lapUpdate cfg nowLap currT (toRace c) ev) /\
  (snd (fst out) ++ ev)%list = snd (Game.lapUpdate cfg nowLap currT (toRace c) ev) /\
  - CAR_reverseMax <= lc_speed c' <= CAR_maxSpeed /\
  lc_lapTime c' = nowEnd - lc_lapStartTime c' /\
  lc_totalTime c' = nowEnd - lc_raceStartTime c /\
  (forall c0, frame cfg false k delta nowLap nowEnd c0 = (c0, [], false)) /\
  (forall c0, lc_finished c0 = true ->
     frame cfg true k delta nowLap nowEnd c0 = (c0, [], false)).
Proof.
  intros Hfin _. cbv zeta.
  split; [|split; [|split; [|split; [|split; [|split]]]]].
  - unfold frame, Game.lapUpdate, Game.completeLap, toRace. cbn [negb].
    rewrite Hfin. cbv zeta.
    cbn [fst snd started lastT checkpoints lap lapStart raceStart bestLap active finished].
    set (currT := Track.n_t _).
    destruct (lc_hasMoved c), (gtb currT 0.05), (gtb (currT - lc_lastT c) 0),
      (ltb (currT - lc_lastT c) 0.5), (gtb (lc_lastT c) 0.85), (ltb currT 0.15);
      cbn [negb andb fst snd];
      repeat match goal with |- context [forallb ?f ?l] => destruct (forallb f l) end;
      cbn [negb andb fst snd];
      repeat match goal with |- context [Nat.leb ?a ?b] => destruct (Nat.leb a b) end;
      reflexivity.
  - unfold frame, Game.lapUpdate, Game.completeLap, toRace. cbn [negb].
    rewrite Hfin. cbv zeta.
    cbn [fst snd started lastT checkpoints lap lapStart raceStart bestLap active finished].
    set (currT := Track.n_t _).
    destruct (lc_hasMoved c), (gtb currT 0.05), (gtb (currT - lc_lastT c) 0),
      (ltb (currT - lc_lastT c) 0.5), (gtb (lc_lastT c) 0.85), (ltb currT 0.15);
      cbn [negb andb fst snd];
      repeat match goal with |- context [forallb ?f ?l] => destruct (forallb f l) end;
      cbn [negb andb fst snd];
      repeat match goal with |- context [Nat.leb ?a ?b] => destruct (Nat.leb a b) end;
      reflexivity.
  - unfold frame. cbn [negb]. rewrite Hfin. cbv zeta. cbn [fst lc_speed].
    apply carSpeed_bounds.
  - unfold frame. cbn [negb]. rewrite Hfin. reflexivity.
  - unfold frame. cbn [negb]. rewrite Hfin. reflexivity.
  - intros c0. reflexivity.
  - intros c0 H. unfold frame. cbn [negb]. now rewrite H.
Qed.

End Legacy.

Lemma legacy_lap_timer_is_kept_witness :
  LegacyCar.lc_speed
    (fst (fst (LegacyCar.frame trackA true noKeys 0.035 1000 1000
                 (legacyReset trackA 0
                    (LegacyCar.mkCar (mkVec3 0 0 0) 0 10 0 None 0 0 0 0 0 [] false false 0)))))
  <= LegacyCar.CAR_maxSpeed.
Proof.
  apply (legacy_lap_timer_is_kept trackA noKeys 0.035 1000 1000
           (legacyReset trackA 0
              (LegacyCar.mkCar (mkVec3 0 0 0) 0 10 0 None 0 0 0 0 0 [] false false 0))
           []).
  - reflexivity.
  - apply freshCheckpoints_length.
Defined.

(** ** Sample runs *)

(** Every sample of [trackA] lies at height 0. *)
Lemma trackA_flat (pos : Vec3) : Track.getTrackElevation trackA pos = 0.
Proof.
  unfold Track.getTrackElevation. cbv zeta.
  destruct (Track.distLt _ _); [|reflexivity].
  unfold Track.getNearestTrackInfo.
  destruct (Track.scanSamples _ _ _ _ _ _) as [m idx]. cbn [Track.n_point].
  unfold trackA, Track.configA. cbn [Track.sampledPoints].
  destruct idx as [|[|[|idx]]]; reflexivity.
Qed.

(** West of the ramp the ground of [trackA] is at height 0. *)
Lemma trackA_ground_west (x z : R) : x < 120 -> Game.getGroundHeight trackA x z = 0.
Proof.
  intros Hx. unfold Game.getGroundHeight. cbv zeta. rewrite trackA_flat.
  unfold RAMP_rotation, RAMP_x, RAMP_z, RAMP_width, RAMP_length, RAMP_height.
  rewrite cos_PI2, sin_PI2.
  replace (geb ((x - 130) * 1 + (z - 200) * 0) (- (20 / 2))) with false
    by (symmetry; apply geb_false; lra).
  rewrite andb_false_r. cbn [andb]. apply Rmax_left. lra.
Qed.

(** The single wraps of the orbit yaw take a whole turn off or add one, which
    the direction to the left of the camera does not see. *)
Lemma orbit_wrap_left (rot o1 : R) :
  let o2 := if gtb o1 PI then o1 - PI * 2 else o1 in
  let o3 := if ltb o2 (- PI) then o2 + PI * 2 else o2 in
  sin (rot + o3 + PI / 2) = sin (rot + o1 + PI / 2) /\
  cos (rot + o3 + PI / 2) = cos (rot + o1 + PI / 2).
Proof.
  cbv zeta.
  assert (Hdown : forall x, sin (x - 2 * PI) = sin x /\ cos (x - 2 * PI) = cos x).
  { intros x. rewrite sin_minus, cos_minus, sin_2PI, cos_2PI. split; ring. }
  assert (Hup : forall x, sin (x + 2 * PI) = sin x /\ cos (x + 2 * PI) = cos x).
  { intros x. rewrite sin_plus, cos_plus, sin_2PI, cos_2PI. split; ring. }
  destruct (gtb o1 PI).
  - destruct (ltb (o1 - PI * 2) (- PI)).
    + replace (rot + (o1 - PI * 2 + PI * 2) + PI / 2) with (rot + o1 + PI / 2) by ring.
      auto.
    + replace (rot + (o1 - PI * 2) + PI / 2) with (rot + o1 + PI / 2 - 2 * PI) by ring.
      apply Hdown.
  - destruct (ltb o1 (- PI)).
    + replace (rot + (o1 + PI * 2) + PI / 2) with (rot + o1 + PI / 2 + 2 * PI) by ring.
      apply Hup.
    + auto.
Qed.

(** One step of running left on flat ground west of the ramp: 0.8 units
    along x, and left of the camera is still along x. *)
Lemma run_left_step (now : R) (taken : list string) (w : World) :
  vy (charPos w) = 0 -> vx (charPos w) + 0.8 < 120 ->
  sin (charRot w + orbitYawRef w + PI / 2) = 1 ->
  cos (charRot w + orbitYawRef w + PI / 2) = 0 ->
  let w' := Game.tickWalking trackA now 0.05 runLeft false taken w in
  vx (charPos w') = vx (charPos w) + 0.8 /\ vy (charPos w') = 0 /\
  vz (charPos w') = vz (charPos w) /\
  sin (charRot w' + orbitYawRef w' + PI / 2) = 1 /\
  cos (charRot w' + orbitYawRef w' + PI / 2) = 0.
Proof.
  intros Hy Hx Hs Hc. cbv zeta. unfold Game.tickWalking. cbv zeta.
  cbn [runLeft k_forward k_backward k_left k_right k_shift andb].
  rewrite Hs, Hc.
  replace (sqrt ((0 + 1) * (0 + 1) + (0 + 0) * (0 + 0))) with 1
    by (replace ((0 + 1) * (0 + 1) + (0 + 0) * (0 + 0)) with 1 by ring;
        now rewrite sqrt_1).
  replace (gtb 1 0.001) with true by (symmetry; apply gtb_true; lra).
  cbn [vx vy vz]. unfold WALK_runSpeed.
  replace (vx (charPos w) + (0 + 1) / 1 * 16 * 0.05) with (vx (charPos w) + 0.8) by lra.
  replace (vz (charPos w) + (0 + 0) / 1 * 16 * 0.05) with (vz (charPos w)) by lra.
  rewrite trackA_ground_west by exact Hx. rewrite Hy.
  replace (gtb (0 - 0) MAX_STEP_UP) with false
    by (symmetry; apply gtb_false; unfold MAX_STEP_UP; lra).
  match goal with |- context [Game.wrapDiff ?d] => set (diff := Game.wrapDiff d) end.
  pose proof (orbit_wrap_left (charRot w + diff * Rmin 1 (12 * 0.05))
                (orbitYawRef w - (charRot w + diff * Rmin 1 (12 * 0.05) - charRot w)))
    as [Hs' Hc'].
  cbv zeta in Hs', Hc'.
  replace (charRot w + diff * Rmin 1 (12 * 0.05)
           + (orbitYawRef w - (charRot w + diff * Rmin 1 (12 * 0.05) - charRot w))
           + PI / 2)
    with (charRot w + orbitYawRef w + PI / 2) in Hs', Hc' by ring.
  rewrite Hs in Hs'. rewrite Hc in Hc'.
  match goal with |- context [match ?E with Some _ => _ | None => _ end] =>
    destruct E as [[idx ve]|] end; cbn [charPos charRot orbitYawRef setY vx vy vz];
    repeat split; auto.
Qed.

(** What the stages after the mode step keep of a step that ends on
    foot. *)
Lemma frame_on_foot (inp : FrameInput) (w : World) :
  modeRef w = walking ->
  let w1 := Game.tickWalking trackA (i_now inp) (Rmin (i_delta inp) 0.05) (i_keys inp)
              (i_interact inp) (i_takenVehicleIds inp) w in
  modeRef w1 = walking ->
  exists w', Game.frame trackA inp w = Some w' /\
    modeRef w' = walking /\ activeIdx w' = activeIdx w1 /\
    charPos w' = charPos w1 /\ charRot w' = charRot w1 /\
    orbitYawRef w' = orbitYawRef w1 /\ vehicles w' = vehicles w /\
    race w' = race w1 /\ boostMeter w' = boostMeter w1.
Proof.
  intros Hm w1 Hm1.
  set (dt := Rmin (i_delta inp) 0.05).
  destruct (projectile_ticks_spec dt w1) as (_ & _ & Hv3 & Hm3 & _). cbv zeta in *.
  set (w3 := Game.tickTargets dt (Game.tickMuzzleFlash dt (Game.tickBullets dt w1))) in *.
  assert (Hc3 : Game.tickVehicleCollisions (i_remotePlayers inp) w3 = Some w3)
    by (apply collisions_on_foot; congruence).
  assert (Hf : Game.frame trackA inp w = Some w3).
  { unfold Game.frame. rewrite Hm. cbv zeta. fold dt. fold w1. exact Hc3. }
  exists w3. split; [exact Hf|].
  destruct (frame_tail_same inp w1 w1 w3 dt 0 (or_introl eq_refl) Hc3)
    as (Hr & Hb & _ & Hmo & Hi & Hp & Hrot & Ho & _).
  destruct (tickWalking_spec trackA (i_now inp) dt (i_keys inp) (i_interact inp)
              (i_takenVehicleIds inp) w) as (_ & _ & Hvs & _).
  cbv zeta in Hvs. change (vehicles w1 = vehicles w) in Hvs.
  repeat split; try congruence.
Qed.

(** Eight frames of running left from where the session starts. *)
Lemma strafe_run (n : nat) (w : World) :
  modeRef w = walking -> vy (charPos w) = 0 ->
  vx (charPos w) + 0.8 * INR n < 120 ->
  sin (charRot w + orbitYawRef w + PI / 2) = 1 ->
  cos (charRot w + orbitYawRef w + PI / 2) = 0 ->
  exists w', Game.run trackA (repeat strafe n) w = Some w' /\
    modeRef w' = walking /\ activeIdx w' = activeIdx w /\
    vx (charPos w') = vx (charPos w) + 0.8 * INR n /\
    vz (charPos w') = vz (charPos w) /\
    vehicles w' = vehicles w /\ race w' = race w /\ boostMeter w' = boostMeter w.
Proof.
  revert w; induction n as [|n IH]; intros w Hm Hy Hx Hs Hc.
  - exists w. cbn. repeat split; auto. lra.
  - rewrite S_INR in Hx. pose proof (pos_INR n) as Hn.
    assert (Hdt : Rmin (i_delta strafe) 0.05 = 0.05)
      by (apply Rmin_left; simpl; lra).
    destruct (run_left_step 0 [] w Hy ltac:(lra) Hs Hc) as (Hx1 & Hy1 & Hz1 & Hs1 & Hc1).
    cbv zeta in *.
    assert (Hm1 : modeRef (Game.tickWalking trackA 0 0.05 runLeft false [] w) = walking)
      by (rewrite tickWalking_idle; exact Hm).
    destruct (frame_on_foot strafe w Hm) as (w1 & Hf & Hmw & Hiw & Hpw & Hrw & How & Hvw
                                             & Hraw & Hbw).
    { cbv zeta. rewrite Hdt. exact Hm1. }
    cbv zeta in *. rewrite Hdt in *.
    cbn [strafe i_now i_keys i_interact i_takenVehicleIds] in *.
    destruct (IH w1) as (w' & Hrun & Hm' & Hi' & Hx' & Hz' & Hv' & Hr' & Hb').
    + exact Hmw.
    + rewrite Hpw. exact Hy1.
    + rewrite Hpw, Hx1. lra.
    + rewrite Hrw, How. exact Hs1.
    + rewrite Hrw, How. exact Hc1.
    + exists w'. cbn [repeat Game.run]. rewrite Hf. split; [exact Hrun|].
      rewrite Hpw in Hx', Hz'. rewrite S_INR.
      destruct (tickWalking_keeps trackA 0 0.05 runLeft false [] w) as (Hbk & _ & Hrk).
      cbv zeta in Hbk, Hrk.
      pose proof (tickWalking_scan trackA 0 0.05 runLeft false [] w) as Hsc.
      cbv zeta in Hsc.
      assert (Hkeep : activeIdx (Game.tickWalking trackA 0 0.05 runLeft false [] w)
                      = activeIdx w /\
                      race (Game.tickWalking trackA 0 0.05 runLeft false [] w) = race w).
      { destruct (Game.scanNearby _ _ _ _ _ _); cbn [andb] in Hsc; tauto. }
      destruct Hkeep as [Hik Hrk'].
      repeat split; try congruence; lra.
Qed.

(** From 6.4 units east and 12 north of the start the red car is the one
    vehicle in reach. *)
Lemma scan_finds_red_car :
  Game.scanNearby 6.4 12 [] (Game.makeVehicles trackA) INTERACT_RADIUS_SQ None
  = Some "car-red"%string.
Proof.
  unfold Game.makeVehicles, Game.makeVehicle, INTERACT_RADIUS_SQ, FLY_groundY.
  cbn [trackA Track.configA Track.startPosition Track.startRotation vx vy vz].
  cbn [Game.scanNearby existsb v_id v_pos vx vz].
  cmp_eval; reflexivity.
Qed.

(** E pressed there: the player sits in the red car, with a fresh race
    record. *)
Lemma board_red_car (w : World) :
  modeRef w = walking -> vehicles w = Game.makeVehicles trackA ->
  vx (charPos w) = 6.4 -> vz (charPos w) = 12 ->
  exists w', Game.frame trackA pressE w = Some w' /\
    modeRef w' = driving /\ activeIdx w' = Some 0%nat /\
    race w' = Game.freshRace trackA 5000 /\ boostMeter w' = boostMeter w.
Proof.
  intros Hm Hv Hx Hz.
  assert (Hdt : Rmin (i_delta pressE) 0.05 = 0.05)
    by (apply Rmin_left; simpl; lra).
  set (w1 := Game.tickWalking trackA 5000 0.05 noKeys true [] w).
  destruct (tickWalking_still trackA 5000 0.05 noKeys true [] w
              eq_refl eq_refl eq_refl eq_refl) as (Hx1 & Hz1 & _).
  pose proof (tickWalking_scan trackA 5000 0.05 noKeys true [] w) as Hs.
  cbv zeta in Hx1, Hz1, Hs. fold w1 in Hx1, Hz1, Hs.
  rewrite Hx1, Hz1, Hx, Hz, Hv, scan_finds_red_car in Hs.
  cbn in Hs. destruct Hs as (Hi1 & Hm1 & _ & Hr1).
  destruct (tickWalking_spec trackA 5000 0.05 noKeys true [] w)
    as (_ & _ & Hvs & _).
  cbv zeta in Hvs. fold w1 in Hvs.
  destruct (tickWalking_keeps trackA 5000 0.05 noKeys true [] w) as (Hb1 & _).
  cbv zeta in Hb1. fold w1 in Hb1.
  destruct (frame_tail_active 0.05 [] w1 0
              (mkVehicle "car-red" car "Red Racer" "#e63946"
                 (mkVec3 (0 + 12) (0 - 0.5) (0 + 10)) 0 0 0))
    as (w' & me' & Hw' & _); [congruence | exact Hi1 | now rewrite Hvs, Hv |].
  exists w'. split.
  - unfold Game.frame. rewrite Hm, Hdt. cbv zeta.
    cbn [pressE i_now i_keys i_interact i_takenVehicleIds i_remotePlayers].
    fold w1. exact Hw'.
  - destruct (frame_tail_same pressE w1 w1 w' 0.05 0 (or_introl eq_refl) Hw')
      as (Hr & Hb & _ & Hmo & Hi & _).
    repeat split; congruence.
Qed.

(** The session reaches a car: running left for eight frames from where it
    starts and pressing E puts the player in the red car. *)
Lemma reach_car :
  exists w, Game.run trackA walkToCar (Game.initWorld trackA) = Some w /\
    modeRef w = driving /\ activeIdx w = Some 0%nat /\
    race w = Game.freshRace trackA 5000 /\ boostMeter w = 100.
Proof.
  destruct (strafe_run 8 (Game.initWorld trackA))
    as (w8 & Hrun & Hm & _ & Hx & Hz & Hv & _ & Hb); try reflexivity.
  - cbn [Game.initWorld charPos vx trackA Track.configA Track.startPosition].
    rewrite INR_IZR_INZ. simpl Z.of_nat. lra.
  - cbn [Game.initWorld charRot orbitYawRef trackA Track.configA Track.startRotation].
    replace (0 + 0 + PI / 2) with (PI / 2) by lra. apply sin_PI2.
  - cbn [Game.initWorld charRot orbitYawRef trackA Track.configA Track.startRotation].
    replace (0 + 0 + PI / 2) with (PI / 2) by lra. apply cos_PI2.
  - rewrite INR_IZR_INZ in Hx. simpl Z.of_nat in Hx.
    cbn [Game.initWorld charPos vx vz trackA Track.configA Track.startPosition] in Hx, Hz.
    destruct (board_red_car w8 Hm Hv ltac:(lra) ltac:(lra))
      as (w & Hf & Hmw & Hiw & Hrw & Hbw).
    exists w. split.
    + unfold walkToCar. rewrite run_app, Hrun. cbn [Game.run]. now rewrite Hf.
    + repeat split; try assumption. rewrite Hbw, Hb. reflexivity.
Qed.

(** A driving frame that neither exits nor finds the session finished: what
    it leaves in the race record, the callbacks and the boost meter. *)
Lemma frame_driving_record (cfg : Track.Config) {rt : Runtime} (inp : FrameInput)
      (w : World) (i : nat) (v : VehicleState) :
  modeRef w = driving -> i_interact inp = false -> finished (race w) = false ->
  activeIdx w = Some i -> nth_error (vehicles w) i = Some v ->
  let dt := Rmin (i_delta inp) 0.05 in
  let k := i_keys inp in
  let boosting := k_shift k && gtb (boostMeter w) 0 && k_forward k in
  let pos3 := mkVec3 (vx (v_pos v)) 0 (vz (v_pos v)) in
  exists w',
    Game.frame cfg inp w = Some w' /\
    race w' = fst (Game.lapTracking cfg (i_now inp) pos3 (race w) (events w)) /\
    events w' = snd (Game.lapTracking cfg (i_now inp) pos3 (race w) (events w)) /\
    boostMeter w' = (if boosting then Rmax 0 (boostMeter w - 30 * dt)
                     else Rmin 100 (boostMeter w + 12 * dt)) /\
    modeRef w' = driving /\ activeIdx w' = Some i.
Proof.
  intros Hm He Hfin Hi Hv. cbv zeta.
  destruct (frame_driving cfg inp w i v Hm He Hfin Hi Hv) as (w' & v' & Hf & _).
  exists w'. split; [exact Hf|].
  apply frame_stages in Hf as (w1 & w2 & H1 & H2 & H3). cbv zeta in *.
  rewrite Hm, He in H1.
  destruct (frame_tail_same inp w1 w2 w' _ _ H2 H3)
    as (Hr & Hb & Hev & Hmo & Hia & _).
  destruct (tickDriving_spec cfg (i_now inp) (Rmin (i_delta inp) 0.05) (i_keys inp)
              w i v Hfin Hi Hv) as (w1' & Hw1 & Hr1 & He1 & _ & Hm1 & Hi1 & _).
  rewrite H1 in Hw1. injection Hw1 as <-.
  assert (Hb1 : boostMeter w1
                = if k_shift (i_keys inp) && gtb (boostMeter w) 0 && k_forward (i_keys inp)
                  then Rmax 0 (boostMeter w - 30 * Rmin (i_delta inp) 0.05)
                  else Rmin 100 (boostMeter w + 12 * Rmin (i_delta inp) 0.05)).
  { unfold Game.tickDriving in H1. rewrite Hfin, Hi, Hv in H1. cbv zeta in H1.
    repeat match type of H1 with context [match ?X with pair _ _ => _ end] =>
      destruct X end.
    injection H1 as <-. reflexivity. }
  repeat split; congruence.
Qed.

Lemma walkToCar_forward : forwardTime walkToCar.
Proof.
  unfold forwardTime, walkToCar. apply Forall_app. split.
  - apply Forall_forall. intros x Hx. apply repeat_spec in Hx. subst x. cbn. lra.
  - constructor; [cbn; lra | constructor].
Qed.

(** The boost that [syncToReact] reports is the meter. *)
Lemma syncToReact_boost (now : R) (k : Keys) (w : World) (st : PlayerState) :
  syncToReact now k w = Some st -> ps_boost st = boostMeter w.
Proof.
  unfold syncToReact. cbv zeta. intros H.
  match type of H with match ?X with Some _ => _ | None => _ end = _ =>
    destruct X as [[[[pos rot] speed] alt]|]; [|discriminate] end.
  match type of H with match ?X with Some _ => _ | None => _ end = _ =>
    destruct X as [[vid pitch]|]; [|discriminate] end.
  injection H as <-. reflexivity.
Qed.


Lemma on_track_elevation_witness :
  Track.isOnTrack trackHill (mkVec3 3 0 4) = true /\
  Track.getTrackElevation trackHill (mkVec3 3 0 4) = 5 /\
  Track.isOnTrack trackHill (mkVec3 0 0 20) = false /\
  Track.getTrackElevation trackHill (mkVec3 0 0 20) = 0.
Proof.
  assert (Hnear : Track.getNearestTrackInfo trackHill (mkVec3 3 0 4)
                  = Track.mkNearest (mkVec3 0 5 0) (INR 1 / INR 1000) (Some 5)).
  { unfold Track.getNearestTrackInfo, trackHill, Track.configB.
    cbn [Track.sampledPoints Track.scanSamples vx vy vz Track.TRACK_SAMPLES].
    cmp_eval. cbn [nth option_map]. f_equal. f_equal.
    replace ((3 - 0) * (3 - 0) + (4 - 0) * (4 - 0)) with (5 * 5) by lra.
    apply sqrt_square; lra. }
  assert (Hfar : Track.getNearestTrackInfo trackHill (mkVec3 0 0 20)
                 = Track.mkNearest (mkVec3 0 5 0) (INR 1 / INR 1000) (Some 20)).
  { unfold Track.getNearestTrackInfo, trackHill, Track.configB.
    cbn [Track.sampledPoints Track.scanSamples vx vy vz Track.TRACK_SAMPLES].
    cmp_eval. cbn [nth option_map]. f_equal. f_equal.
    replace ((0 - 0) * (0 - 0) + (20 - 0) * (20 - 0)) with (20 * 20) by lra.
    apply sqrt_square; lra. }
  assert (Hon : Track.isOnTrack trackHill (mkVec3 3 0 4) = true).
  { unfold Track.isOnTrack. rewrite Hnear. apply ltb_true. simpl. lra. }
  destruct (on_track_elevation trackHill (mkVec3 3 0 4)) as (_ & Hin & _).
  destruct (on_track_elevation trackHill (mkVec3 0 0 20)) as (_ & _ & Hout).
  split; [exact Hon|]. split.
  - rewrite Hin; [now rewrite Hnear | simpl; lra | exact Hon].
  - apply (Hout 20); [now rewrite Hfar | simpl; lra].
Defined.

Lemma laps_never_exceed_total_witness :
  exists w',
    Game.run trackA [fullThrottle] (drivingAt (mkVec3 0 0 15) 0 30 raceLastLap) = Some w' /\
    lap (race w') = 3%nat /\ finished (race w') = true /\
    lapsBounded trackA (race w').
Proof.
  destruct (frame_driving_record trackA fullThrottle
              (drivingAt (mkVec3 0 0 15) 0 30 raceLastLap) 0
              (mkVehicle "car-red" car "Red Racer" "#e63946" (mkVec3 0 0 15) 0 30 0)
              eq_refl eq_refl eq_refl eq_refl eq_refl)
    as (w' & Hf & Hr & _).
  assert (Hrun : Game.run trackA [fullThrottle]
                   (drivingAt (mkVec3 0 0 15) 0 30 raceLastLap) = Some w')
    by (cbn [Game.run]; now rewrite Hf).
  exists w'. split; [exact Hrun|].
  assert (Hrace : lap (race w') = 3%nat /\ finished (race w') = true).
  { rewrite Hr. cbn [v_pos vx vz]. unfold Game.lapTracking.
    rewrite nearest_trackA_15. cbn [Track.n_distance Track.n_t Track.distLt].
    replace (ltb 15 (Track.TRACK_WIDTH trackA * 1.2)) with true
      by (symmetry; apply ltb_true; simpl; lra).
    rewrite lapUpdate_crossing.
    - cbn. auto.
    - reflexivity.
    - cbn. lra.
    - rewrite !INR_IZR_INZ. simpl. lra.
    - reflexivity. }
  split; [apply Hrace|]. split; [apply Hrace|].
  assert (Htot : (1 <= Track.TOTAL_LAPS trackA)%nat) by (cbn; lia).
  destruct (laps_never_exceed_total trackA Htot) as [_ Hkeep].
  apply (Hkeep [fullThrottle] (drivingAt (mkVec3 0 0 15) 0 30 raceLastLap) w');
    [|exact Hrun].
  unfold lapsBounded. cbn. split; [lia|]. split; [discriminate | lia].
Defined.

Lemma boost_meter_in_range_witness :
  exists w',
    Game.run trackA [fullThrottle] (drivingAt (mkVec3 0 0 15) 0 30 raceOneMissed) = Some w' /\
    boostMeter w' = 98.95 /\ boostInRange w'.
Proof.
  destruct (frame_driving_record trackA fullThrottle
              (drivingAt (mkVec3 0 0 15) 0 30 raceOneMissed) 0
              (mkVehicle "car-red" car "Red Racer" "#e63946" (mkVec3 0 0 15) 0 30 0)
              eq_refl eq_refl eq_refl eq_refl eq_refl)
    as (w' & Hf & _ & _ & Hb & _).
  assert (Hrun : Game.run trackA [fullThrottle]
                   (drivingAt (mkVec3 0 0 15) 0 30 raceOneMissed) = Some w')
    by (cbn [Game.run]; now rewrite Hf).
  exists w'. split; [exact Hrun|]. split.
  - rewrite Hb. cbn [fullThrottle i_keys i_delta allKeys k_shift k_forward drivingAt
                     boostMeter].
    replace (gtb 100 0) with true by (symmetry; apply gtb_true; lra).
    cbn [andb]. rewrite Rmin_left by lra. rewrite Rmax_right by lra. lra.
  - apply (boost_meter_in_range trackA [fullThrottle]
             (drivingAt (mkVec3 0 0 15) 0 30 raceOneMissed) w').
    + constructor; [cbn; lra | constructor].
    + unfold boostInRange. cbn. lra.
    + exact Hrun.
Defined.

Lemma mode_matches_vehicle_witness :
  exists w,
    Game.run trackA walkToCar (Game.initWorld trackA) = Some w /\
    modeRef w = driving /\ activeIdx w = Some 0%nat /\
    modeInv w /\ rosterOf w = rosterOf (Game.initWorld trackA).
Proof.
  destruct reach_car as (w & Hrun & Hm & Hi & _).
  exists w. split; [exact Hrun|]. split; [exact Hm|]. split; [exact Hi|].
  destruct (mode_matches_vehicle trackA) as [H0 Hkeep].
  exact (Hkeep walkToCar (Game.initWorld trackA) w H0 Hrun).
Defined.

Lemma enter_nearest_vehicle_witness :
  let w' := Game.tickWalking trackA 5000 0.05 noKeys true []
              (onFootAt (mkVec3 6.4 0 12) 0 0) in
  activeIdx w' = Some 0%nat /\ modeRef w' = driving /\
  race w' = Game.freshRace trackA 5000.
Proof.
  cbv zeta.
  assert (Hnd : NoDup (map v_id (vehicles (onFootAt (mkVec3 6.4 0 12) 0 0)))).
  { cbn. repeat constructor; cbn; intuition discriminate. }
  destruct (enter_nearest_vehicle trackA 5000 0.05 noKeys []
              (onFootAt (mkVec3 6.4 0 12) 0 0) Hnd) as [Henter _].
  destruct (tickWalking_still trackA 5000 0.05 noKeys true []
              (onFootAt (mkVec3 6.4 0 12) 0 0) eq_refl eq_refl eq_refl eq_refl)
    as (Hx & Hz & _).
  cbv zeta in Hx, Hz, Henter. cbn [onFootAt charPos vx vz] in Hx, Hz.
  destruct (Henter 0%nat
              (mkVehicle "car-red" car "Red Racer" "#e63946"
                 (mkVec3 (0 + 12) (0 - 0.5) (0 + 10)) 0 0 0))
    as (Hi & Hm & _ & Hr & _).
  - reflexivity.
  - reflexivity.
  - discriminate.
  - rewrite Hx, Hz. unfold dist2. cbn. lra.
  - intros v' Hin _ Hne. rewrite Hx, Hz. cbn in Hin.
    destruct Hin as [<- | Hin]; [now exfalso; apply Hne|].
    repeat (destruct Hin as [<- | Hin]; [unfold dist2, FLY_groundY; cbn; lra|]).
    destruct Hin.
  - split; [exact Hi|]. split; [exact Hm|]. apply Hr. reflexivity.
Defined.

Lemma hud_report_witness :
  exists w st,
    Game.run trackA walkToCar (Game.initWorld trackA) = Some w /\
    modeRef w = driving /\
    syncToReact 6000 noKeys w = Some st /\
    ps_mode st = driving /\ ps_vehicleId st <> None /\
    ps_lap st = 0%nat /\ ps_lapTime st = 6000 - 5000 /\ ps_boost st = 100.
Proof.
  destruct reach_car as (w & Hrun & Hm & Hi & Hr & Hb).
  destruct (hud_report trackA walkToCar w 6000 noKeys)
    as (st & Hs & Hmode & Hid & Hdrive & _ & _ & _ & _).
  - cbn. lia.
  - exact walkToCar_forward.
  - exact Hrun.
  - exists w, st. split; [exact Hrun|]. split; [exact Hm|]. split; [exact Hs|].
    rewrite Hm in Hmode. split; [exact Hmode|].
    split; [intros Hn; apply Hid in Hn; congruence|].
    destruct (Hdrive Hmode) as (Hlap & Htime & _). rewrite Hr in Hlap, Htime.
    split; [exact Hlap|]. split; [exact Htime|].
    rewrite (syncToReact_boost _ _ _ _ Hs). exact Hb.
Defined.

(** No component of a normalised vector is larger than 1. *)
Lemma square_le_bound (a s : R) : 0 <= s -> a * a <= s * s -> - s <= a <= s.
Proof. intros Hs Ha. split; nra. Qed.

Lemma normalize_bound (v : Vec3) :
  -1 <= vx (normalize v) <= 1 /\ -1 <= vy (normalize v) <= 1.
Proof.
  unfold normalize, vlength. cbv zeta. cbn [vx vy].
  set (q := vx v * vx v + vy v * vy v + vz v * vz v).
  assert (Hq : 0 <= q) by (unfold q; nra).
  pose proof (sqrt_pos q) as Hs. pose proof (sqrt_sqrt q Hq) as Hss.
  assert (Hx : - sqrt q <= vx v <= sqrt q)
    by (apply square_le_bound; [exact Hs | rewrite Hss; unfold q; nra]).
  assert (Hy : - sqrt q <= vy v <= sqrt q)
    by (apply square_le_bound; [exact Hs | rewrite Hss; unfold q; nra]).
  destruct (Req_dec_T (sqrt q) 0) as [H0 | Hn].
  - rewrite H0 in Hx, Hy. lra.
  - assert (Hp : 0 < sqrt q) by lra.
    split; split; apply Rmult_le_reg_r with (sqrt q); try exact Hp;
      unfold Rdiv; rewrite ?Rmult_assoc, ?Rinv_l by lra; lra.
Qed.

(** A point far to the east of every target hits none of them. *)
Lemma hitScan_far_east (p : Vec3) :
  200 <= vx p -> Game.hitScan p Game.makeTargets = (false, Game.makeTargets).
Proof.
  intros Hp.
  assert (Hmiss : forall t, In t Game.makeTargets -> Game.hitsTarget p t = false).
  { intros t Hin. unfold Game.hitsTarget, TARGET_HIT_RADIUS_SQ, TARGET_HIT_RADIUS.
    apply ltb_false. cbv zeta.
    assert (Hx : vx (t_pos t) <= 90).
    { unfold Game.makeTargets in Hin. cbn in Hin.
      repeat (destruct Hin as [<- | Hin]; [cbn; lra|]). destruct Hin. }
    set (dx := vx p - vx (t_pos t)). set (dy := vy p - vy (t_pos t)).
    set (dz := vz p - vz (t_pos t)).
    assert (Hdx : 110 <= dx) by (unfold dx; lra).
    assert (Hdx2 : 16 <= dx * dx) by nra.
    assert (0 <= dy * dy) by nra. assert (0 <= dz * dz) by nra. lra. }
  revert Hmiss. generalize Game.makeTargets.
  induction l as [|t rest IH]; intros Hmiss; cbn [Game.hitScan]; [reflexivity|].
  rewrite (Hmiss t (or_introl eq_refl)), andb_false_r.
  rewrite IH; [reflexivity|]. intros t' Hin. apply Hmiss. now right.
Qed.

(** Slots that hold no bullet in flight are passed over. *)
Lemma tickBulletsLoop_idle (dt : R) (b : Bullet) (n : nat) (ts : list AerialTarget) :
  b_active b = false ->
  Game.tickBulletsLoop dt (repeat b n) ts = (repeat b n, ts).
Proof.
  intros Hb. induction n as [|n IH]; cbn [repeat Game.tickBulletsLoop]; [reflexivity|].
  unfold Game.tickBullet. rewrite Hb. cbn [negb]. now rewrite IH.
Qed.

(** A shot.  The blue plane flies far east of the targets with the trigger
    held and the cooldown long over: the frame puts one bullet in flight and
    notes its clock as the time of the last shot. *)
Lemma shot_in_flight :
  exists w',
    Game.frame trackA triggerHeld
      (flyingAt (mkVec3 1000 40 1000) 0 60 Game.makeBulletPool) = Some w' /\
    Game.activeCount (bullets w') = 1%nat /\ lastFireTime w' = 1000 / 1000.
Proof.
  set (w := flyingAt (mkVec3 1000 40 1000) 0 60 Game.makeBulletPool).
  set (v := mkVehicle "plane-blue" airplane "Sky Hawk" "#4488cc"
              (mkVec3 1000 40 1000) 0 60 0).
  assert (Hdt : Rmin (i_delta triggerHeld) 0.05 = 0.035)
    by (apply Rmin_left; simpl; lra).
  (* the flying step *)
  assert (H1 : exists w1 v1,
    Game.tickFlying trackA 0.035 noKeys false (mkMouse 0 0 true) w = Some w1 /\
    nth_error (vehicles w1) 4 = Some v1 /\ activeIdx w1 = Some 4%nat /\
    modeRef w1 = flying /\ bullets w1 = Game.makeBulletPool /\
    targets w1 = Game.makeTargets /\ lastFireTime w1 = 0 /\
    990 <= vx (v_pos v1) /\ 30 <= vy (v_pos v1) /\ 0 <= v_speed v1 <= 120).
  { unfold Game.tickFlying. cbn [w flyingAt activeIdx vehicles nth_error setNth
                                 Game.makeVehicles andb].
    eexists. eexists. split; [reflexivity|].
    cbn [vehicles activeIdx modeRef bullets targets lastFireTime nth_error setNth
         Game.makeVehicles v_pos v_speed vx vy vz].
    split; [reflexivity|]. do 5 (split; [reflexivity|]).
    cbn [v_speed v_rot v_pitch v_pos vx vy vz noKeys k_space k_shift k_forward
         k_backward m_dx m_dy flyYawVel flyPitchVel].
    pose proof (flySpeed_bounds 0.035 noKeys 60) as Hs.
    set (s := Game.flySpeed 0.035 noKeys 60) in *.
    split; [|split; [|exact Hs]].
    - match goal with |- 990 <= 1000 + sin ?a * s * 0.035 =>
        pose proof (SIN_bound a); set (sa := sin a) in * end.
      clearbody sa s. nra.
    - unfold FLY_groundY, FLY_maxAltitude, FLY_minFlySpeed, FLY_gravity.
      match goal with |- context [sin (- ?p)] =>
        pose proof (SIN_bound (- p)); set (sp := sin (- p)) in * end.
      clearbody sp s.
      assert (Hprod : -60 <= s * sp * 0.5 <= 60) by nra.
      set (a1 := if geb s (20 * 0.5) then s * sp * 0.5 else 0).
      assert (Ha1 : -60 <= a1 <= 60) by (unfold a1; destruct (geb s (20 * 0.5)); lra).
      clearbody a1.
      match goal with |- 30 <= Rmax _ (Rmin _ (40 + ?d * 0.035)) =>
        assert (Hd : -70 <= d) by (destruct (_ && _); lra); set (dd := d) in * end.
      clearbody dd. unfold Rmax, Rmin.
      repeat destruct (Rle_dec _ _); lra. }
  destruct H1 as (w1 & v1 & Hw1 & Hn1 & Hi1 & Hm1 & Hb1 & Ht1 & Hl1 & Hx1 & Hy1 & Hs1).
  (* the shot *)
  set (nb := Game.newBullet v1 (fireLeftRef (withLastFireTime w1 (1000 / 1000)))).
  assert (Hnb : b_active nb = true /\ b_age nb = 0 /\ 900 <= vx (b_pos nb) /\
                0 <= vy (b_pos nb) /\ -400 <= vx (b_vel nb)).
  { unfold nb, Game.newBullet. cbv zeta. cbn [b_active b_age b_pos b_vel addScaled vx vy vz].
    match goal with |- context [normalize ?u] =>
      destruct (normalize_bound u) as [Hfx Hfy]; set (fwd := normalize u) in * end.
    clearbody fwd.
    pose proof (COS_bound (v_rot v1)) as Hc. pose proof (SIN_bound (v_rot v1)) as Hsn.
    split; [reflexivity|]. split; [reflexivity|]. unfold BULLET_SPEED.
    split; [|split].
    - destruct (fireLeftRef _); nra.
    - nra.
    - nra. }
  destruct Hnb as (Hna & Hnage & Hnx & Hny & Hnv).
  set (w2 := mkWorld (modeRef w1) (charPos w1) (charRot w1) (isMovingRef w1)
               (orbitYawRef w1) (vehicles w1) (activeIdx w1) (nearbyRef w1) (race w1)
               (boostMeter w1) (carVelY w1) (carOnGround w1) (flyYawVel w1)
               (flyPitchVel w1) (planeBankRef w1)
               (nb :: repeat (mkBullet false (mkVec3 0 0 0) (mkVec3 0 0 0) 0) 29)
               (1000 / 1000) (negb (fireLeftRef w1)) 0.04 (targets w1) (events w1)).
  assert (Hfire : Game.fireBullet (withLastFireTime w1 (1000 / 1000)) = Some w2).
  { unfold Game.fireBullet, activeVehicle.
    cbn [withLastFireTime bullets activeIdx vehicles fireLeftRef modeRef charPos charRot
         isMovingRef orbitYawRef nearbyRef race boostMeter carVelY carOnGround flyYawVel
         flyPitchVel planeBankRef lastFireTime targets events].
    rewrite Hb1, Hi1, Hn1. unfold Game.makeBulletPool, MAX_BULLETS.
    cbn [repeat forallb b_active andb negb Game.activateFirst].
    unfold w2. rewrite Hi1. reflexivity. }
  (* the bullet loop *)
  assert (Hloop : fst (Game.tickBulletsLoop 0.035 (bullets w2) (targets w2))
                  = fst (Game.tickBullet 0.035 nb Game.makeTargets)
                    :: repeat (mkBullet false (mkVec3 0 0 0) (mkVec3 0 0 0) 0) 29 /\
                  b_active (fst (Game.tickBullet 0.035 nb Game.makeTargets)) = true).
  { cbn [w2 bullets targets]. rewrite Ht1. cbn [Game.tickBulletsLoop].
    assert (Hb : Game.tickBullet 0.035 nb Game.makeTargets
                 = (mkBullet true (addScaled (b_pos nb) (b_vel nb) 0.035)
                      (setY (b_vel nb) (vy (b_vel nb) - 9.8 * 0.035)) (b_age nb + 0.035),
                    Game.makeTargets)).
    { unfold Game.tickBullet. rewrite Hna, Hnage. cbn [negb].
      replace (gtb (0 + 0.035) BULLET_LIFETIME) with false
        by (symmetry; apply gtb_false; unfold BULLET_LIFETIME; lra).
      replace (ltb (vy (b_pos nb)) (-1)) with false by (symmetry; apply ltb_false; lra).
      cbn [orb]. rewrite hitScan_far_east; [reflexivity|].
      unfold addScaled. cbn [vx]. lra. }
    rewrite Hb, tickBulletsLoop_idle by reflexivity. cbn [fst]. auto. }
  destruct Hloop as [Hloop Hact].
  (* the frame *)
  destruct (frame_tail_active 0.035 [] w2 4 v1) as (w' & me' & Hw' & _);
    [cbn [w2 modeRef]; congruence | exact Hi1 | exact Hn1 |].
  exists w'.
  assert (Hf : Game.frame trackA triggerHeld w = Some w').
  { unfold Game.frame. rewrite Hdt. cbv zeta.
    cbn [w flyingAt modeRef triggerHeld i_keys i_interact i_mouse i_now i_remotePlayers
         m_fireDown andb].
    fold w. rewrite Hw1, Hl1.
    replace (geb (1000 / 1000 - 0) FIRE_COOLDOWN) with true
      by (symmetry; apply geb_true; unfold FIRE_COOLDOWN; lra).
    rewrite Hfire. exact Hw'. }
  split; [exact Hf|].
  destruct (frame_tail_weapon 0.035 [] w2 w' Hw') as [Hbw Hlw].
  rewrite Hbw, Hloop, Hlw. split; [|reflexivity].
  rewrite activeCount_cons, Hact. reflexivity.
Qed.

Lemma shots_respect_cooldown_witness :
  triggerReady triggerHeld (flyingAt (mkVec3 1000 40 1000) 0 60 Game.makeBulletPool) /\
  exists w',
    Game.frame trackA triggerHeld
      (flyingAt (mkVec3 1000 40 1000) 0 60 Game.makeBulletPool) = Some w' /\
    Game.activeCount (bullets w') = 1%nat /\ lastFireTime w' = 1000 / 1000 /\
    Forall inLifetime (bullets w').
Proof.
  destruct shot_in_flight as (w' & Hf & Hc & Hl).
  destruct (shots_respect_cooldown trackA triggerHeld
              (flyingAt (mkVec3 1000 40 1000) 0 60 Game.makeBulletPool) w' Hf)
    as (Hlife & _ & Hshot & _).
  destruct Hshot as [Hready _].
  { rewrite Hc. cbn. lia. }
  split; [exact Hready|]. exists w'. auto.
Defined.
